(** * xmap support library: arrays, tables and the pool agent

    A shallow embedding of [lib/xm_tables.c] and [lib/xm_mpool_agent.h],
    with the properties of the toolkit's specification stated over it.

    Conventions.
    - A C string is the Rocq [string] of its bytes before the terminating
      NUL; reading one position past the end yields the NUL itself.
    - [uint32_t] values are [Z] with the reduction modulo [2^32] written
      out.  Positions and counts of table entries are [nat].
    - A [char *] that may be [NULL] is an [option string]. *)

From Stdlib Require Import ZArith Lia Bool.
From stdpp Require Import base list strings.

(** ** C strings and libc *)

Definition byte_of (a : Ascii.ascii) : Z := Z.of_N (Ascii.N_of_ascii a).

(** [s[0]], with the terminating NUL at the end of the string. *)
Definition hd_byte (s : string) : Z :=
  match s with
  | EmptyString => 0
  | String a _ => byte_of a
  end.

Definition tl_str (s : string) : string :=
  match s with
  | EmptyString => EmptyString
  | String _ r => r
  end.

(** libc's [tolower] in the C locale, on an [unsigned char] value. *)
Definition tolower (c : Z) : Z :=
  if ((65 <=? c) && (c <=? 90))%Z then (c + 32)%Z else c.

(** libc's [strcasecmp]: the difference of the first pair of bytes that
    differ after [tolower], or [0] when both strings end together. *)
Fixpoint strcasecmp (s1 s2 : string) : Z :=
  match s1 with
  | EmptyString => (0 - tolower (hd_byte s2))%Z
  | String a r1 =>
      let c1 := tolower (byte_of a) in
      let c2 := tolower (hd_byte s2) in
      if negb (c1 =? c2)%Z then (c1 - c2)%Z
      else if (c1 =? 0)%Z then 0%Z
      else strcasecmp r1 (tl_str s2)
  end.

Definition strlen (s : string) : nat := String.length s.

(** Dereference of a [char *] the code does not test against [NULL]. *)
Definition deref (p : option string) : string := default EmptyString p.

(** ** Arena memory and arrays *)

(** C [int]: arithmetic that leaves the range is undefined, and the
    functions below then have no result. *)
Definition INT_MAX : Z := (2 ^ 31 - 1)%Z.
Definition INT_MIN : Z := (- 2 ^ 31)%Z.

Definition cint (z : Z) : option Z :=
  if ((INT_MIN <=? z) && (z <=? INT_MAX))%Z then Some z else None.

(** A pointer into arena memory: a block and an offset in cells. *)
Record ptr := { blk : nat; off : Z }.

Definition ptr_add (p : ptr) (n : Z) : ptr :=
  {| blk := blk p; off := (off p + n)%Z |}.

(** The [n] cells at [p] and the [n] cells at [q] have a cell in
    common. *)
Definition ranges_overlap (p q : ptr) (n : Z) : bool :=
  (blk p =? blk q) && (off p <? off q + n)%Z && (off q <? off p + n)%Z.

(** Modelled from the spec: [xm_array_header_t] is declared in the missing
    [xm_tables.h]; its attributes are the "owning arena", the "element
    size in bytes", the "element count in use", the "allocated capacity
    (elements)" and the "pointer to contiguous backing storage", under
    the names the code uses.  [pool] names the owning arena; [elts] may
    be [NULL]. *)
Record xm_array_header_t := {
  pool : nat;
  elt_size : Z;
  nelts : Z;
  nalloc : Z;
  elts : option ptr
}.

Section Arrays.

(** The unit of storage: a byte for raw element storage, a pointer-sized
    word for an array of [char *].  Sizes and offsets count cells.
    [zero] is the cell [memset(_, 0, _)] and [xm_pcalloc] leave. *)
Context {cell : Type}.
Variable zero : cell.

(** The blocks handed out by the arenas so far.  A cell is [None] until
    it is first written. *)
Definition mem : Type := list (list (option cell)).

(** Modelled from the spec: the arena allocator ([xm_mpool]) is missing;
    [xm_palloc] is its "alloc_raw", which "returns uninitialized memory",
    "never individually freed": a fresh block of [n] cells.  The arena is
    taken to have memory left. *)
Definition xm_palloc (m : mem) (n : Z) : option (mem * ptr) :=
  if (0 <=? n)%Z
  then Some (m ++ [replicate (Z.to_nat n) None],
             {| blk := length m; off := 0 |})
  else None.

(** Modelled from the spec: [xm_pcalloc] is the "alloc_zeroed" of the
    missing arena allocator, which "returns zero-initialized memory". *)
Definition xm_pcalloc (m : mem) (n : Z) : option (mem * ptr) :=
  if (0 <=? n)%Z
  then Some (m ++ [replicate (Z.to_nat n) (Some zero)],
             {| blk := length m; off := 0 |})
  else None.

(** The [n] cells at [p]; no result outside the block. *)
Definition load (m : mem) (p : ptr) (n : Z) : option (list (option cell)) :=
  b ← m !! blk p;
  if ((0 <=? off p) && (0 <=? n) && (off p + n <=? Z.of_nat (length b)))%Z
  then Some (take (Z.to_nat n) (drop (Z.to_nat (off p)) b))
  else None.

(** Write [cs] at [p]; no result outside the block. *)
Definition store (m : mem) (p : ptr) (cs : list (option cell)) : option mem :=
  b ← m !! blk p;
  if ((0 <=? off p) && (off p + Z.of_nat (length cs) <=? Z.of_nat (length b)))%Z
  then Some (<[blk p := take (Z.to_nat (off p)) b ++ cs ++
                         drop (Z.to_nat (off p) + length cs) b]> m)
  else None.

(** [memcpy]: the [n] cells at [src] go to [dst].  The two ranges may
    not overlap: C leaves that case undefined, and there is no result. *)
Definition memcpy (m : mem) (dst src : ptr) (n : Z) : option mem :=
  if ranges_overlap dst src n then None
  else cs ← load m src n; store m dst cs.

Definition memset0 (m : mem) (dst : ptr) (n : Z) : option mem :=
  if (0 <=? n)%Z then store m dst (replicate (Z.to_nat n) (Some zero))
  else None.

Definition make_array_core (m : mem) (p : nat) (nelts0 elt_size0 : Z)
    (clear : bool) : option (mem * xm_array_header_t) :=
  let nelts0 := if (nelts0 <? 1)%Z then 1%Z else nelts0 in
  sz ← cint (nelts0 * elt_size0);
  '(m, e) ← (if clear then xm_pcalloc m sz else xm_palloc m sz);
  Some (m, {| pool := p; elt_size := elt_size0; nelts := 0;
              nalloc := nelts0; elts := Some e |}).

Definition xm_is_empty_array (a : option xm_array_header_t) : bool :=
  match a with
  | None => true
  | Some a => (nelts a =? 0)%Z
  end.

(** The header itself is returned by value. *)
Definition xm_array_make (m : mem) (p : nat) (nelts0 elt_size0 : Z)
    : option (mem * xm_array_header_t) :=
  make_array_core m p nelts0 elt_size0 true.

Definition xm_array_clear (arr : xm_array_header_t) : xm_array_header_t :=
  {| pool := pool arr; elt_size := elt_size arr; nelts := 0;
     nalloc := nalloc arr; elts := elts arr |}.

Definition xm_array_pop (arr : xm_array_header_t)
    : xm_array_header_t * option ptr :=
  if xm_is_empty_array (Some arr) then (arr, None)
  else
    let n := (nelts arr - 1)%Z in
    ({| pool := pool arr; elt_size := elt_size arr; nelts := n;
        nalloc := nalloc arr; elts := elts arr |},
     e ← elts arr; Some (ptr_add e (elt_size arr * n))).

Definition xm_array_push (m : mem) (arr : xm_array_header_t)
    : option (mem * xm_array_header_t * ptr) :=
  '(m, arr) ←
    (if (nelts arr =? nalloc arr)%Z then
       new_size ← (if (nalloc arr <=? 0)%Z then Some 1%Z
                   else cint (nalloc arr * 2));
       sz ← cint (elt_size arr * new_size);
       '(m, new_data) ← xm_palloc m sz;
       src ← elts arr;
       n ← cint (nalloc arr * elt_size arr);
       m ← memcpy m new_data src n;
       m ← memset0 m (ptr_add new_data n)
             (elt_size arr * (new_size - nalloc arr));
       Some (m, {| pool := pool arr; elt_size := elt_size arr;
                   nelts := nelts arr; nalloc := new_size;
                   elts := Some new_data |})
     else Some (m, arr));
  n ← cint (nelts arr + 1);
  e ← elts arr;
  Some (m, {| pool := pool arr; elt_size := elt_size arr; nelts := n;
              nalloc := nalloc arr; elts := elts arr |},
        ptr_add e (elt_size arr * (n - 1))).

(** The same without the [memset]: the new capacity stays as
    [xm_palloc] returned it. *)
Definition xm_array_push_noclear (m : mem) (arr : xm_array_header_t)
    : option (mem * xm_array_header_t * ptr) :=
  '(m, arr) ←
    (if (nelts arr =? nalloc arr)%Z then
       new_size ← (if (nalloc arr <=? 0)%Z then Some 1%Z
                   else cint (nalloc arr * 2));
       sz ← cint (elt_size arr * new_size);
       '(m, new_data) ← xm_palloc m sz;
       src ← elts arr;
       n ← cint (nalloc arr * elt_size arr);
       m ← memcpy m new_data src n;
       Some (m, {| pool := pool arr; elt_size := elt_size arr;
                   nelts := nelts arr; nalloc := new_size;
                   elts := Some new_data |})
     else Some (m, arr));
  n ← cint (nelts arr + 1);
  e ← elts arr;
  Some (m, {| pool := pool arr; elt_size := elt_size arr; nelts := n;
              nalloc := nalloc arr; elts := elts arr |},
        ptr_add e (elt_size arr * (n - 1))).

Definition copy_array_hdr_core (p : nat) (arr : xm_array_header_t)
    : xm_array_header_t :=
  {| pool := p; elt_size := elt_size arr; nelts := nelts arr;
     nalloc := nelts arr; elts := elts arr |}.

(** [res->pool = p] and [copy_array_hdr_core]; the header is returned by
    value. *)
Definition xm_array_copy_hdr (p : nat) (arr : xm_array_header_t)
    : xm_array_header_t :=
  copy_array_hdr_core p arr.

(** Element [i] of [arr]: its [elt_size] cells. *)
Definition read_elt (m : mem) (arr : xm_array_header_t) (i : Z)
    : option (list (option cell)) :=
  e ← elts arr; load m (ptr_add e (elt_size arr * i)) (elt_size arr).

(** A sequence of pushes, each followed by the caller's write of the new
    element through the handle returned.  [clear] selects the variant. *)
Fixpoint push_all (clear : bool) (m : mem) (arr : xm_array_header_t)
    (vs : list (list (option cell))) : option (mem * xm_array_header_t) :=
  match vs with
  | [] => Some (m, arr)
  | v :: vs' =>
      '(m, arr, h) ← (if clear then xm_array_push m arr
                      else xm_array_push_noclear m arr);
      m ← store m h v;
      push_all clear m arr vs'
  end.

(** The array owns its storage: [nalloc] elements inside one block. *)
Definition array_ok (m : mem) (arr : xm_array_header_t) : Prop :=
  (0 <= elt_size arr)%Z /\ (0 <= nelts arr <= nalloc arr)%Z /\
  exists e b, elts arr = Some e /\ m !! blk e = Some b /\
    (0 <= off e)%Z /\
    (off e + nalloc arr * elt_size arr <= Z.of_nat (length b))%Z.

End Arrays.

(** *** Arrays of strings *)

Section StringArrays.

(** A cell is one [char *]. *)
Variable m : @mem (option string).
Variable arr : xm_array_header_t.
Variable sep : Ascii.ascii.

(** [strpp[i]]; no result when the cell is outside the block or was never
    written. *)
Definition strpp_at (i : Z) : option (option string) :=
  e ← elts arr;
  cs ← load m (ptr_add e i) 1;
  match cs with
  | [Some s] => Some s
  | _ => None
  end.

(** Pass one of [xm_array_pstrcat], with [n] elements to go. *)
Fixpoint pstrcat_len (n : nat) (i : Z) (len : nat) : option nat :=
  match n with
  | O => None
  | S n' =>
      s ← strpp_at i;
      let len := match s with
                 | Some s => len + strlen s
                 | None => len
                 end in
      let i := (i + 1)%Z in
      if (i >=? nelts arr)%Z then Some len
      else
        pstrcat_len n' i (if negb (byte_of sep =? 0)%Z then S len else len)
  end.

(** Pass two; [res] is what has been written before [cp]. *)
Fixpoint pstrcat_copy (n : nat) (i : Z) (res : string) : option string :=
  match n with
  | O => None
  | S n' =>
      s ← strpp_at i;
      let res := match s with
                 | Some s => res +:+ s
                 | None => res
                 end in
      let i := (i + 1)%Z in
      if (i >=? nelts arr)%Z then Some res
      else
        pstrcat_copy n' i
          (if negb (byte_of sep =? 0)%Z then res +:+ String sep EmptyString
           else res)
  end.

(** [xm_array_pstrcat].  Every [return] of the function yields a fresh
    allocation, so a result is never [NULL]; there is no result when an
    element cannot be read or the second pass would leave the [len + 1]
    bytes allocated. *)
Definition xm_array_pstrcat : option string :=
  if (nelts arr <=? 0)%Z || negb (bool_decide (is_Some (elts arr)))
  then Some EmptyString
  else
    len ← pstrcat_len (Z.to_nat (nelts arr)) 0 0;
    res ← pstrcat_copy (Z.to_nat (nelts arr)) 0 EmptyString;
    if String.length res <=? len then Some res else None.

End StringArrays.

(** ** The key checksum and the bucket hash *)

Definition u32 (x : Z) : Z := (x mod 2 ^ 32)%Z.

Definition CASE_MASK : Z := 0xdfdfdfdf%Z.
Definition TABLE_HASH_SIZE : nat := 32.
Definition TABLE_INDEX_MASK : Z := 0x1f%Z.

(** Whether plain [char] is signed on the target (it is on x86, it is not
    on ARM Linux): [COMPUTE_KEY_CHECKSUM] converts a plain [char]. *)
Class Target := { char_signed : bool }.

Definition x86_64 : Target := {| char_signed := true |}.
Definition aarch64 : Target := {| char_signed := false |}.

Section Checksum.
Context `{Target}.

(** [(uint32_t)*k] for a [const char *k]. *)
Definition char_to_u32 (b : Z) : Z :=
  if char_signed && (128 <=? b)%Z then u32 (b - 256) else b.

(** [TABLE_HASH(key)]: the low five bits of the first byte, read as
    [unsigned char]. *)
Definition TABLE_HASH (k : string) : nat :=
  Z.to_nat (Z.land TABLE_INDEX_MASK (hd_byte k)).

(** One [if (c) { c = (uint32_t)*++k; checksum |= c; }] step. *)
Definition checksum_step (st : string * Z * Z) : string * Z * Z :=
  let '(k, c, checksum) := st in
  if negb (c =? 0)%Z then
    let k := tl_str k in
    let c := char_to_u32 (hd_byte k) in
    (k, c, Z.lor checksum c)
  else (k, c, checksum).

(** [COMPUTE_KEY_CHECKSUM(key, checksum)]. *)
Definition COMPUTE_KEY_CHECKSUM (k : string) : Z :=
  let c := char_to_u32 (hd_byte k) in
  let checksum := c in
  let checksum := u32 (Z.shiftl checksum 8) in
  let '(k, c, checksum) := checksum_step (k, c, checksum) in
  let checksum := u32 (Z.shiftl checksum 8) in
  let '(k, c, checksum) := checksum_step (k, c, checksum) in
  let checksum := u32 (Z.shiftl checksum 8) in
  let '(k, c, checksum) := checksum_step (k, c, checksum) in
  Z.land checksum CASE_MASK.

End Checksum.

(** ** Tables *)

(** Modelled from the spec: [xm_table_entry_t] is declared in the missing
    [xm_tables.h]; the fields are the ones the code reads and writes.
    [key] is [NULL] only while [xm_table_compress] marks an entry for
    removal. *)
Record xm_table_entry_t := {
  key : option string;
  val : string;
  key_checksum : Z
}.

(** [xm_table_t].  [a_elts] holds the [a.nelts] live entries of the
    embedded array, so [a.nelts] is its length; the slots of the array
    past them are not part of the model, and a read there finds no entry.
    [index_first] and [index_last] have [TABLE_HASH_SIZE] cells. *)
Record xm_table_t := {
  a_elts : list xm_table_entry_t;
  index_initialized : Z;
  index_first : list nat;
  index_last : list nat
}.

Definition a_nelts (t : xm_table_t) : nat := length (a_elts t).

Definition index_is_initialized (init : Z) (i : nat) : bool :=
  negb (Z.land init (Z.shiftl 1 (Z.of_nat i)) =? 0)%Z.

Definition index_set_initialized (init : Z) (i : nat) : Z :=
  Z.lor init (Z.shiftl 1 (Z.of_nat i)).

Definition TABLE_INDEX_IS_INITIALIZED (t : xm_table_t) (i : nat) : bool :=
  index_is_initialized (index_initialized t) i.

(** Modelled from the spec: [xm_pstrdup] is the "duplicate_string" of the
    missing arena allocator, which "copies a string into arena-owned
    memory": the copy has the contents of the original. *)
Definition xm_pstrdup (s : string) : string := s.

(** Modelled from the spec: [xm_pstrcat(p, a, b, c, NULL)] of the missing
    arena allocator, taken to put the concatenation of its arguments into
    arena-owned memory, as "duplicate_string" does for one string. *)
Definition xm_pstrcat3 (a b c : string) : string := a +:+ b +:+ c.

Section Tables.
Context `{Target}.

(** [xm_table_make]: no entries, no bucket initialised; the index arrays
    are allocated and not yet written. *)
Definition xm_table_make : xm_table_t :=
  {| a_elts := [];
     index_initialized := 0;
     index_first := replicate TABLE_HASH_SIZE 0;
     index_last := replicate TABLE_HASH_SIZE 0 |}.

(** The loop of [table_reindex], at entry [i]. *)
Fixpoint reindex_loop (elts : list xm_table_entry_t) (i : nat)
    (init : Z) (first last : list nat) : Z * list nat * list nat :=
  match elts with
  | [] => (init, first, last)
  | next_elt :: rest =>
      let hash := TABLE_HASH (deref (key next_elt)) in
      let last := <[hash := i]> last in
      if negb (index_is_initialized init hash)
      then reindex_loop rest (S i) (index_set_initialized init hash)
             (<[hash := i]> first) last
      else reindex_loop rest (S i) init first last
  end.

(** [table_reindex], on the entries [elts] now live. *)
Definition table_reindex (elts : list xm_table_entry_t) (t : xm_table_t)
    : xm_table_t :=
  let '(init, first, last) :=
    reindex_loop elts 0 0%Z (index_first t) (index_last t) in
  {| a_elts := elts; index_initialized := init;
     index_first := first; index_last := last |}.

(** The test guarding every [strcasecmp]: checksum first. *)
Definition entry_matches (checksum : Z) (k : string) (e : xm_table_entry_t)
    : bool :=
  (checksum =? key_checksum e)%Z && (strcasecmp (deref (key e)) k =? 0)%Z.

(** [for (; next_elt <= end_elt; next_elt++)] of [xm_table_get], with
    [next_elt] at position [i] and [n] positions to go. *)
Fixpoint get_loop (elts : list xm_table_entry_t) (checksum : Z) (k : string)
    (i n : nat) : option string :=
  match n with
  | O => None
  | S n' =>
      match elts !! i with
      | Some e =>
          if entry_matches checksum k e then Some (val e)
          else get_loop elts checksum k (S i) n'
      | None => get_loop elts checksum k (S i) n'
      end
  end.

Definition xm_table_get (t : xm_table_t) (k : option string)
    : option string :=
  match k with
  | None => None
  | Some k =>
      let hash := TABLE_HASH k in
      if negb (TABLE_INDEX_IS_INITIALIZED t hash) then None
      else
        let checksum := COMPUTE_KEY_CHECKSUM k in
        get_loop (a_elts t) checksum k
          (index_first t !!! hash)
          (S (index_last t !!! hash) - index_first t !!! hash)
  end.

(** [table_push] and the three stores that follow it. *)
Definition add_new_elt (t : xm_table_t) (hash : nat) (checksum : Z)
    (k v : string) : xm_table_t :=
  {| a_elts := a_elts t ++
       [ {| key := Some (xm_pstrdup k); val := xm_pstrdup v;
            key_checksum := checksum |} ];
     index_initialized := index_initialized t;
     index_first := index_first t;
     index_last := <[hash := a_nelts t]> (index_last t) |}.

(** [for (; next_elt < table_end; next_elt++) *dst_elt++ = *next_elt;] *)
Fixpoint shift_loop (n i dst : nat) (arr : list xm_table_entry_t)
    : list xm_table_entry_t :=
  match n with
  | O => arr
  | S n' =>
      match arr !! i with
      | Some e => shift_loop n' (S i) (S dst) (<[dst := e]> arr)
      | None => shift_loop n' (S i) (S dst) arr
      end
  end.

(** The inner loop of [xm_table_set]: drop the further entries of the
    key up to [end_elt], moving the others down once [dst_elt] is set. *)
Fixpoint set_dups_loop (checksum : Z) (k : string) (n i : nat)
    (arr : list xm_table_entry_t) (dst : option nat) (nelts : nat)
    (must_reindex : bool)
    : list xm_table_entry_t * option nat * nat * bool :=
  match n with
  | O => (arr, dst, nelts, must_reindex)
  | S n' =>
      match arr !! i with
      | Some e =>
          if entry_matches checksum k e then
            set_dups_loop checksum k n' (S i) arr
              (Some (default i dst)) (nelts - 1) must_reindex
          else
            match dst with
            | Some d =>
                set_dups_loop checksum k n' (S i) (<[d := e]> arr)
                  (Some (S d)) nelts true
            | None =>
                set_dups_loop checksum k n' (S i) arr None nelts must_reindex
            end
      | None =>
          set_dups_loop checksum k n' (S i) arr dst nelts must_reindex
      end
  end.

(** The body run by [xm_table_set] at the first match, position [i]. *)
Definition set_found (t : xm_table_t) (checksum : Z) (k v : string)
    (i : nat) (e : xm_table_entry_t) (end_elt : nat) : xm_table_t :=
  let table_end := a_nelts t in
  let arr :=
    <[i := {| key := key e; val := xm_pstrdup v;
              key_checksum := key_checksum e |}]> (a_elts t) in
  let '(arr, dst, nelts, must_reindex) :=
    set_dups_loop checksum k (S end_elt - S i) (S i) arr None
      (a_nelts t) false in
  let '(arr, must_reindex) :=
    match dst with
    | Some d => (shift_loop (table_end - S end_elt) (S end_elt) d arr, true)
    | None => (arr, must_reindex)
    end in
  if must_reindex then table_reindex (take nelts arr) t
  else {| a_elts := take nelts arr;
          index_initialized := index_initialized t;
          index_first := index_first t;
          index_last := index_last t |}.

(** The outer loop of [xm_table_set]; [None] when it falls through to
    [add_new_elt]. *)
Fixpoint set_loop (t : xm_table_t) (checksum : Z) (k v : string)
    (end_elt : nat) (i n : nat) : option xm_table_t :=
  match n with
  | O => None
  | S n' =>
      match a_elts t !! i with
      | Some e =>
          if entry_matches checksum k e
          then Some (set_found t checksum k v i e end_elt)
          else set_loop t checksum k v end_elt (S i) n'
      | None => set_loop t checksum k v end_elt (S i) n'
      end
  end.

Definition xm_table_set (t : xm_table_t) (k v : string) : xm_table_t :=
  let checksum := COMPUTE_KEY_CHECKSUM k in
  let hash := TABLE_HASH k in
  if negb (TABLE_INDEX_IS_INITIALIZED t hash) then
    add_new_elt
      {| a_elts := a_elts t;
         index_initialized :=
           index_set_initialized (index_initialized t) hash;
         index_first := <[hash := a_nelts t]> (index_first t);
         index_last := index_last t |}
      hash checksum k v
  else
    match set_loop t checksum k v (index_last t !!! hash)
            (index_first t !!! hash)
            (S (index_last t !!! hash) - index_first t !!! hash) with
    | Some t' => t'
    | None => add_new_elt t hash checksum k v
    end.

(** The inner loop of [xm_table_unset], after the first match. *)
Fixpoint unset_dups_loop (checksum : Z) (k : string) (n i dst : nat)
    (arr : list xm_table_entry_t) (nelts : nat)
    : list xm_table_entry_t * nat * nat :=
  match n with
  | O => (arr, dst, nelts)
  | S n' =>
      match arr !! i with
      | Some e =>
          if entry_matches checksum k e then
            unset_dups_loop checksum k n' (S i) dst arr (nelts - 1)
          else
            unset_dups_loop checksum k n' (S i) (S dst) (<[dst := e]> arr)
              nelts
      | None => unset_dups_loop checksum k n' (S i) dst arr nelts
      end
  end.

Definition unset_found (t : xm_table_t) (checksum : Z) (k : string)
    (i : nat) (end_elt : nat) : xm_table_t :=
  let table_end := a_nelts t in
  let nelts := a_nelts t - 1 in
  let '(arr, dst, nelts) :=
    unset_dups_loop checksum k (S end_elt - S i) (S i) i (a_elts t) nelts in
  let arr := shift_loop (table_end - S end_elt) (S end_elt) dst arr in
  table_reindex (take nelts arr) t.

Fixpoint unset_loop (t : xm_table_t) (checksum : Z) (k : string)
    (end_elt : nat) (i n : nat) : xm_table_t :=
  match n with
  | O => t
  | S n' =>
      match a_elts t !! i with
      | Some e =>
          if entry_matches checksum k e
          then unset_found t checksum k i end_elt
          else unset_loop t checksum k end_elt (S i) n'
      | None => unset_loop t checksum k end_elt (S i) n'
      end
  end.

Definition xm_table_unset (t : xm_table_t) (k : string) : xm_table_t :=
  let hash := TABLE_HASH k in
  if negb (TABLE_INDEX_IS_INITIALIZED t hash) then t
  else
    let checksum := COMPUTE_KEY_CHECKSUM k in
    unset_loop t checksum k (index_last t !!! hash)
      (index_first t !!! hash)
      (S (index_last t !!! hash) - index_first t !!! hash).

(** The loop of [xm_table_merge]; [None] when it falls through. *)
Fixpoint merge_loop (t : xm_table_t) (checksum : Z) (k v : string)
    (i n : nat) : option xm_table_t :=
  match n with
  | O => None
  | S n' =>
      match a_elts t !! i with
      | Some e =>
          if entry_matches checksum k e then
            Some {| a_elts :=
                      <[i := {| key := key e;
                                val := xm_pstrcat3 (val e) ", " v;
                                key_checksum := key_checksum e |}]>
                        (a_elts t);
                    index_initialized := index_initialized t;
                    index_first := index_first t;
                    index_last := index_last t |}
          else merge_loop t checksum k v (S i) n'
      | None => merge_loop t checksum k v (S i) n'
      end
  end.

Definition xm_table_merge (t : xm_table_t) (k v : string) : xm_table_t :=
  let checksum := COMPUTE_KEY_CHECKSUM k in
  let hash := TABLE_HASH k in
  if negb (TABLE_INDEX_IS_INITIALIZED t hash) then
    add_new_elt
      {| a_elts := a_elts t;
         index_initialized :=
           index_set_initialized (index_initialized t) hash;
         index_first := <[hash := a_nelts t]> (index_first t);
         index_last := index_last t |}
      hash checksum k v
  else
    match merge_loop t checksum k v (index_first t !!! hash)
            (S (index_last t !!! hash) - index_first t !!! hash) with
    | Some t' => t'
    | None => add_new_elt t hash checksum k v
    end.

Definition xm_table_add (t : xm_table_t) (k v : string) : xm_table_t :=
  let hash := TABLE_HASH k in
  let last := <[hash := a_nelts t]> (index_last t) in
  let '(first, init) :=
    if negb (TABLE_INDEX_IS_INITIALIZED t hash)
    then (<[hash := a_nelts t]> (index_first t),
          index_set_initialized (index_initialized t) hash)
    else (index_first t, index_initialized t) in
  let checksum := COMPUTE_KEY_CHECKSUM k in
  {| a_elts := a_elts t ++
       [ {| key := Some (xm_pstrdup k); val := xm_pstrdup v;
            key_checksum := checksum |} ];
     index_initialized := init;
     index_first := first;
     index_last := last |}.

End Tables.

(** *** Iteration *)

Section Iterate.
Context `{Target}.

(** The callback [comp] with its [rec] argument: [R] is what [rec] points
    to, and a call returns the [int] with the new contents. *)
Context {R : Type}.
Variable comp : R -> string -> string -> Z * R.

(** [for (i = index_first[hash]; rv && (i <= index_last[hash]); ++i)] *)
Fixpoint vdo_key_loop (elts : list xm_table_entry_t) (checksum : Z)
    (argp : string) (i n : nat) (rv : Z) (rec : R) : Z * R :=
  match n with
  | O => (rv, rec)
  | S n' =>
      if (rv =? 0)%Z then (rv, rec)
      else
        match elts !! i with
        | Some e =>
            match key e with
            | Some ek =>
                if (checksum =? key_checksum e)%Z &&
                   (strcasecmp ek argp =? 0)%Z
                then
                  let '(rv, rec) := comp rec ek (val e) in
                  vdo_key_loop elts checksum argp (S i) n' rv rec
                else vdo_key_loop elts checksum argp (S i) n' rv rec
            | None => vdo_key_loop elts checksum argp (S i) n' rv rec
            end
        | None => vdo_key_loop elts checksum argp (S i) n' rv rec
        end
  end.

(** [for (i = 0; rv && (i < t->a.nelts); ++i)] *)
Fixpoint vdo_all_loop (elts : list xm_table_entry_t) (rv : Z) (rec : R)
    : Z * R :=
  match elts with
  | [] => (rv, rec)
  | e :: rest =>
      if (rv =? 0)%Z then (rv, rec)
      else
        match key e with
        | Some ek =>
            let '(rv, rec) := comp rec ek (val e) in
            vdo_all_loop rest rv rec
        | None => vdo_all_loop rest rv rec
        end
  end.

(** The body of the [do ... while] of [xm_table_vdo], up to [rv]. *)
Definition vdo_body (t : xm_table_t) (argp : option string) (rec : R)
    : Z * R :=
  let rv := 1%Z in
  match argp with
  | Some argp =>
      let hash := TABLE_HASH argp in
      if TABLE_INDEX_IS_INITIALIZED t hash then
        let checksum := COMPUTE_KEY_CHECKSUM argp in
        vdo_key_loop (a_elts t) checksum argp (index_first t !!! hash)
          (S (index_last t !!! hash) - index_first t !!! hash) rv rec
      else (rv, rec)
  | None => vdo_all_loop (a_elts t) rv rec
  end.

(** The [do ... while] over the keys of the [va_list]; [vp] holds the keys
    still to be fetched, before the closing [NULL]. *)
Fixpoint vdo_do_while (t : xm_table_t) (argp : option string)
    (vp : list string) (vdorv : Z) (rec : R) : Z * R :=
  let '(rv, rec) := vdo_body t argp rec in
  let vdorv := if (rv =? 0)%Z then 0%Z else vdorv in
  match argp with
  | None => (vdorv, rec)
  | Some _ =>
      match vp with
      | [] => (vdorv, rec)
      | k :: vp' => vdo_do_while t (Some k) vp' vdorv rec
      end
  end.

(** [xm_table_vdo]; [vp] is the list of keys that precede the [NULL]. *)
Definition xm_table_vdo (rec : R) (t : xm_table_t) (vp : list string)
    : Z * R :=
  match vp with
  | [] => vdo_do_while t None [] 1%Z rec
  | k :: vp' => vdo_do_while t (Some k) vp' 1%Z rec
  end.

Definition xm_table_do (rec : R) (t : xm_table_t) (vp : list string)
    : Z * R :=
  xm_table_vdo rec t vp.

End Iterate.

(** *** Merged lookup *)

(** [table_getm_t]; the pool [p] is the memory the callback threads. *)
Record table_getm_t := {
  first : option string;
  merged : option xm_array_header_t
}.

(** The size of a [const char *], in cells. *)
Definition sizeof_char_ptr : Z := 1%Z.

Section Getm.
Context `{Target}.

(** [*elt = s] after [elt = xm_array_push(state->merged)]. *)
Definition push_string (m : @mem (option string)) (arr : xm_array_header_t)
    (s : option string) : option (@mem (option string) * xm_array_header_t) :=
  '(m, arr, elt) ← xm_array_push None m arr;
  m ← store m elt [Some s];
  Some (m, arr).

(** [table_getm_do].  [rec] is the memory of [state->p] with [*state], or
    nothing once a step had no result. *)
Definition table_getm_do (p : nat)
    (rec : option (@mem (option string) * table_getm_t))
    (k v : string) : Z * option (@mem (option string) * table_getm_t) :=
  (1%Z,
   '(m, state) ← rec;
   match first state with
   | None => Some (m, {| first := Some v; merged := merged state |})
   | Some f =>
       '(m, arr) ←
         match merged state with
         | None =>
             '(m, arr) ← xm_array_make None m p 10 sizeof_char_ptr;
             push_string m arr (Some f)
         | Some arr => Some (m, arr)
         end;
       '(m, arr) ← push_string m arr (Some v);
       Some (m, {| first := first state; merged := Some arr |})
   end).

(** [xm_table_getm]: no result when a step had none, else the pointer
    returned. *)
Definition xm_table_getm (m : @mem (option string)) (p : nat)
    (t : xm_table_t) (k : string) : option (option string) :=
  let state := {| first := None; merged := None |} in
  let '(_, rec) :=
    xm_table_do (table_getm_do p) (Some (m, state)) t [k] in
  '(m, state) ← rec;
  match first state with
  | None => Some None
  | Some f =>
      match merged state with
      | None => Some (Some f)
      | Some arr => Some <$> xm_array_pstrcat m arr (Ascii.ascii_of_nat 44)
      end
  end.

End Getm.

(** *** Compression *)

(** Modelled from the spec: the header [xm_tables.h] that defines the
    flags of [xm_table_compress] is missing; they select the "merge
    policy" and the "overwrite policy". *)
Definition XM_OVERLAP_TABLES_SET : Z := 0%Z.
Definition XM_OVERLAP_TABLES_MERGE : Z := 1%Z.

Section Compress.
Context `{Target}.

(** An [xm_table_entry_t *] into the entry array is the position it
    points at; [entry_at] is what it points to. *)
Definition entry_at (arr : list xm_table_entry_t) (p : nat)
    : xm_table_entry_t :=
  default {| key := None; val := EmptyString; key_checksum := 0 |}
    (arr !! p).

Definition key_at (arr : list xm_table_entry_t) (p : nat) : string :=
  deref (key (entry_at arr p)).

(** First pass of [table_mergesort]: sort pairs of elements. *)
Fixpoint sort_pairs (arr : list xm_table_entry_t) (values : list nat)
    : list nat :=
  match values with
  | a :: b :: rest =>
      if (strcasecmp (key_at arr a) (key_at arr b) >? 0)%Z
      then b :: a :: sort_pairs arr rest
      else a :: b :: sort_pairs arr rest
  | _ => values
  end.

(** The [for (;;)] that merges block 1 and block 2 into [dst]. *)
Fixpoint merge_blocks (arr : list xm_table_entry_t) (block1 block2 : list nat)
    {struct block1} : list nat :=
  match block1 with
  | [] => block2
  | x :: block1' =>
      (fix merge_block2 (block2 : list nat) : list nat :=
         match block2 with
         | [] => block1
         | y :: block2' =>
             if (strcasecmp (key_at arr x) (key_at arr y) >? 0)%Z
             then y :: merge_block2 block2'
             else x :: merge_blocks arr block1' block2
         end) block2
  end.

(** [values[from .. to)]. *)
Definition slice (values : list nat) (from to : nat) : list nat :=
  take (to - from) (drop from values).

(** One pass over the blocks of size [blocksize]; [dst] is what has been
    written to [values_tmp]. *)
Fixpoint merge_pass (fuel : nat) (arr : list xm_table_entry_t)
    (values : list nat) (n blocksize next_start : nat) (dst : list nat)
    : list nat :=
  match fuel with
  | O => dst
  | S fuel' =>
      if next_start + blocksize <? n then
        let block1_start := next_start in
        let block2_start := block1_start + blocksize in
        let block1_end := block2_start in
        let block2_end := block2_start + blocksize in
        let block2_end := if n <? block2_end then n else block2_end in
        merge_pass fuel' arr values n blocksize
          (next_start + (blocksize + blocksize))
          (dst ++ merge_blocks arr (slice values block1_start block1_end)
                    (slice values block2_start block2_end))
      else dst
  end.

(** [while (blocksize < n)], the two buffers changing roles. *)
Fixpoint merge_passes (fuel : nat) (arr : list xm_table_entry_t)
    (values : list nat) (n blocksize : nat) : list nat :=
  match fuel with
  | O => values
  | S fuel' =>
      if blocksize <? n then
        let dst := merge_pass n arr values n blocksize 0 [] in
        let values_tmp := dst ++ drop (length dst) values in
        merge_passes fuel' arr values_tmp n (blocksize + blocksize)
      else values
  end.

Definition table_mergesort (arr : list xm_table_entry_t)
    (values : list nat) (n : nat) : list nat :=
  merge_passes n arr (sort_pairs arr values) n 2.

(** The test of [xm_table_compress] between two sorted references. *)
Definition same_key (arr : list xm_table_entry_t) (sort_array : list nat)
    (i j : nat) : bool :=
  let a := entry_at arr (default 0 (sort_array !! i)) in
  let b := entry_at arr (default 0 (sort_array !! j)) in
  (key_checksum a =? key_checksum b)%Z &&
  (strcasecmp (deref (key a)) (deref (key b)) =? 0)%Z.

(** [while ((dup_last < sort_end) && ...) dup_last++;] *)
Fixpoint find_dup_last (arr : list xm_table_entry_t) (sort_array : list nat)
    (last : nat) (n dup_last : nat) : nat :=
  match n with
  | O => dup_last
  | S n' =>
      if same_key arr sort_array dup_last last
      then find_dup_last arr sort_array last n' (S dup_last)
      else dup_last
  end.

(** The value built by the merge policy from [next] through [dup_last]:
    the first loop only sizes the buffer the second one fills. *)
Fixpoint merged_val (arr : list xm_table_entry_t) (sort_array : list nat)
    (n next : nat) : string :=
  let v := val (entry_at arr (default 0 (sort_array !! next))) in
  match n with
  | O => v
  | S n' => v +:+ ", " +:+ merged_val arr sort_array n' (S next)
  end.

(** The [do ... while (++sort_next <= dup_last)] that sets the key of
    each further duplicate to [NULL]. *)
Fixpoint mark_dups (arr : list xm_table_entry_t) (sort_array : list nat)
    (n sort_next : nat) : list xm_table_entry_t :=
  match n with
  | O => arr
  | S n' =>
      let p := default 0 (sort_array !! sort_next) in
      let e := entry_at arr p in
      mark_dups
        (<[p := {| key := None; val := val e;
                   key_checksum := key_checksum e |}]> arr)
        sort_array n' (S sort_next)
  end.

(** [while (sort_next < sort_end)]: process any duplicate keys. *)
Fixpoint dedup_loop (fuel : nat) (flags : Z) (sort_array : list nat)
    (sort_end : nat) (arr : list xm_table_entry_t) (last sort_next : nat)
    (dups_found : bool) : list xm_table_entry_t * bool :=
  match fuel with
  | O => (arr, dups_found)
  | S fuel' =>
      if sort_next <? sort_end then
        if same_key arr sort_array sort_next last then
          let dup_last :=
            find_dup_last arr sort_array last (sort_end - S sort_next)
              (S sort_next) in
          let dup_last := dup_last - 1 in
          let plast := default 0 (sort_array !! last) in
          let elast := entry_at arr plast in
          let new_val :=
            if (flags =? XM_OVERLAP_TABLES_MERGE)%Z
            then merged_val arr sort_array (dup_last - last) last
            else val (entry_at arr (default 0 (sort_array !! dup_last))) in
          let arr :=
            <[plast := {| key := key elast; val := new_val;
                          key_checksum := key_checksum elast |}]> arr in
          let arr :=
            mark_dups arr sort_array (S dup_last - sort_next) sort_next in
          dedup_loop fuel' flags sort_array sort_end arr last (S dup_last)
            true
        else
          dedup_loop fuel' flags sort_array sort_end arr sort_next
            (S sort_next) dups_found
      else (arr, dups_found)
  end.

(** [do { if (src->key) *dst++ = *src; } while (++src < last_elt);] *)
Fixpoint compact_loop (n src dst : nat) (arr : list xm_table_entry_t)
    : list xm_table_entry_t * nat :=
  match n with
  | O => (arr, dst)
  | S n' =>
      match arr !! src with
      | Some e =>
          match key e with
          | Some _ => compact_loop n' (S src) (S dst) (<[dst := e]> arr)
          | None => compact_loop n' (S src) dst arr
          end
      | None => compact_loop n' (S src) dst arr
      end
  end.

Definition xm_table_compress (t : xm_table_t) (flags : Z) : xm_table_t :=
  if a_nelts t <=? 1 then t
  else
    let sort_array := seq 0 (a_nelts t) in
    let sort_array := table_mergesort (a_elts t) sort_array (a_nelts t) in
    let '(arr, dups_found) :=
      dedup_loop (a_nelts t) flags sort_array (a_nelts t) (a_elts t) 0 1
        false in
    let elts :=
      if dups_found then
        let '(arr, dst) := compact_loop (a_nelts t) 0 0 arr in
        take (a_nelts t - (a_nelts t - dst)) arr
      else arr in
    table_reindex elts t.

End Compress.

(** ** The pool agent *)

(** Modelled from the spec: [xm_pool_t] is declared in the missing
    [xm_mpool.h].  An arena, as far as the agent sees it: the "size_hint"
    it was created with and the allocations made "since creation/last
    reset". *)
Record xm_pool_t := {
  pool_block_size : Z;
  pool_live : list Z
}.

(** Modelled from the spec: "reset(arena)" of the missing arena
    allocator "releases all allocations made since creation/last reset,
    without destroying the arena". *)
Definition xm_pool_reset (mp : xm_pool_t) : xm_pool_t :=
  {| pool_block_size := pool_block_size mp; pool_live := [] |}.

Definition u64 (x : Z) : Z := (x mod 2 ^ 64)%Z.

(** [xm_mpool_agent_t]; [cache_list] is the list headed at the agent,
    first entry first. *)
Record xm_mpool_agent_t := {
  cache_list : list xm_pool_t;
  max_cache_n : Z;
  cur_cache_n : Z;
  pool_size : Z;
  pre_alloc_n : Z
}.

(** Modelled from the spec: "create_arena(size_hint)" of the missing
    arena allocator "may fail (resource exhaustion)".  [creates] tells,
    for the calls still to come, whether each one yields an arena; a call
    past its end fails. *)
Definition xm_pool_create (creates : list bool) (size : Z)
    : option xm_pool_t * list bool :=
  match creates with
  | true :: rest =>
      (Some {| pool_block_size := size; pool_live := [] |}, rest)
  | false :: rest => (None, rest)
  | [] => (None, [])
  end.

(** [for (i = 0; i < mpa->pre_alloc_n; i++)].  [i] is an [int]: the
    test converts it to [uint64_t], and there is no result when [i++]
    leaves the range of [int].  [fuel] bounds the rounds; the rounds of
    [xm_mpool_agent_init] never use it up. *)
Fixpoint init_loop (fuel : nat) (i : Z) (creates : list bool)
    (mpa : xm_mpool_agent_t) : option (xm_mpool_agent_t * list bool) :=
  if (u64 i <? pre_alloc_n mpa)%Z then
    match fuel with
    | O => None
    | S fuel' =>
        let '(mp, creates) := xm_pool_create creates (pool_size mpa) in
        let mpa :=
          match mp with
          | Some mp =>
              {| cache_list := mp :: cache_list mpa;
                 max_cache_n := max_cache_n mpa;
                 cur_cache_n := u64 (cur_cache_n mpa + 1);
                 pool_size := pool_size mpa;
                 pre_alloc_n := pre_alloc_n mpa |}
          | None => mpa
          end in
        i ← cint (i + 1);
        init_loop fuel' i creates mpa
    end
  else Some (mpa, creates).

(** [xm_mpool_agent_init]: the agent as the call leaves it, and the
    calls of [xm_pool_create] still to come. *)
Definition xm_mpool_agent_init (creates : list bool)
    (max_cache_n0 pool_size0 pre_alloc_n0 : Z)
    : option (xm_mpool_agent_t * list bool) :=
  let mpa :=
    {| cache_list := [];
       max_cache_n := if (max_cache_n0 =? 0)%Z then 100000%Z
                      else max_cache_n0;
       cur_cache_n := 0;
       pool_size := if (pool_size0 =? 0)%Z then 4096%Z else pool_size0;
       pre_alloc_n := if (pre_alloc_n0 =? 0)%Z then 1000%Z
                      else pre_alloc_n0 |} in
  init_loop (Z.to_nat (pre_alloc_n mpa)) 0 creates mpa.

Definition xm_mpool_agent_alloc (creates : list bool)
    (mpa : xm_mpool_agent_t)
    : option xm_pool_t * xm_mpool_agent_t * list bool :=
  match cache_list mpa with
  | mp :: rest =>
      (Some mp,
       {| cache_list := rest;
          max_cache_n := max_cache_n mpa;
          cur_cache_n := u64 (cur_cache_n mpa - 1);
          pool_size := pool_size mpa;
          pre_alloc_n := pre_alloc_n mpa |},
       creates)
  | [] =>
      let '(mp, creates) := xm_pool_create creates (pool_size mpa) in
      (mp, mpa, creates)
  end.

(** [xm_mpool_agent_free]; [xm_pool_destroy] leaves nothing behind. *)
Definition xm_mpool_agent_free (mpa : xm_mpool_agent_t) (mp : xm_pool_t)
    : xm_mpool_agent_t :=
  if (cur_cache_n mpa <? max_cache_n mpa)%Z then
    {| cache_list := xm_pool_reset mp :: cache_list mpa;
       max_cache_n := max_cache_n mpa;
       cur_cache_n := u64 (cur_cache_n mpa + 1);
       pool_size := pool_size mpa;
       pre_alloc_n := pre_alloc_n mpa |}
  else mpa.

(** ** Further functions of [lib/xm_tables.c] *)

(** *** Concatenation and copies of arrays *)

Section MoreArrays.
Context {cell : Type}.
Variable zero : cell.

(** [while (dst->nelts + src->nelts > new_size) new_size *= 2;] with
    [need] the sum.  [new_size] is at least 1 when the loop is entered,
    so it leaves the range of [int] within 31 doublings: the 32 rounds
    given by [xm_array_cat] are never used up. *)
Fixpoint cat_size_loop (fuel : nat) (need new_size : Z) : option Z :=
  match fuel with
  | O => None
  | S fuel' =>
      if (need >? new_size)%Z then
        new_size ← cint (new_size * 2);
        cat_size_loop fuel' need new_size
      else Some new_size
  end.

(** [xm_array_cat]; [dst] and [src] are two headers.  The element size
    of [dst] is used for both arrays, as in the source. *)
Definition xm_array_cat (m : @mem cell) (dst src : xm_array_header_t)
    : option (@mem cell * xm_array_header_t) :=
  let elt_size0 := elt_size dst in
  need ← cint (nelts dst + nelts src);
  '(m, dst) ←
    (if (need >? nalloc dst)%Z then
       new_size ← (if (nalloc dst <=? 0)%Z then Some 1%Z
                   else cint (nalloc dst * 2));
       new_size ← cat_size_loop 32 need new_size;
       sz ← cint (elt_size0 * new_size);
       '(m, new_data) ← xm_pcalloc zero m sz;
       old ← elts dst;
       n ← cint (nalloc dst * elt_size0);
       m ← memcpy m new_data old n;
       Some (m, {| pool := pool dst; elt_size := elt_size dst;
                   nelts := nelts dst; nalloc := new_size;
                   elts := Some new_data |})
     else Some (m, dst));
  e ← elts dst;
  s ← elts src;
  o ← cint (nelts dst * elt_size0);
  n ← cint (elt_size0 * nelts src);
  m ← memcpy m (ptr_add e o) s n;
  Some (m, {| pool := pool dst; elt_size := elt_size dst; nelts := need;
              nalloc := nalloc dst; elts := elts dst |}).

(** [xm_array_copy]; the header is returned by value. *)
Definition xm_array_copy (m : @mem cell) (p : nat) (arr : xm_array_header_t)
    : option (@mem cell * xm_array_header_t) :=
  '(m, res) ← make_array_core zero m p (nalloc arr) (elt_size arr) false;
  e ← elts res;
  s ← elts arr;
  n ← cint (elt_size arr * nelts arr);
  m ← memcpy m e s n;
  let res := {| pool := pool res; elt_size := elt_size res;
                nelts := nelts arr; nalloc := nalloc res;
                elts := elts res |} in
  o ← cint (elt_size res * nelts res);
  k ← cint (nalloc res - nelts res);
  z ← cint (elt_size res * k);
  m ← memset0 zero m (ptr_add e o) z;
  Some (m, res).

Definition xm_array_append (m : @mem cell) (p : nat)
    (first second : xm_array_header_t)
    : option (@mem cell * xm_array_header_t) :=
  let res := xm_array_copy_hdr p first in
  xm_array_cat m res second.

End MoreArrays.

(** *** Further table functions *)

Section MoreTables.
Context `{Target}.

Definition xm_is_empty_table (t : option xm_table_t) : bool :=
  match t with
  | None => true
  | Some t => a_nelts t =? 0
  end.

(** [xm_table_clear]: the index arrays keep what they held. *)
Definition xm_table_clear (t : xm_table_t) : xm_table_t :=
  {| a_elts := [];
     index_initialized := 0;
     index_first := index_first t;
     index_last := index_last t |}.

(** The loop of [xm_table_clone]; [xm_table_add] reads its key, so there
    is no result on an entry whose key is [NULL]. *)
Fixpoint clone_loop (elts : list xm_table_entry_t) (new : xm_table_t)
    : option xm_table_t :=
  match elts with
  | [] => Some new
  | e :: rest =>
      k ← key e;
      clone_loop rest (xm_table_add new k (val e))
  end.

Definition xm_table_clone (t : xm_table_t) : option xm_table_t :=
  clone_loop (a_elts t) xm_table_make.

(** [xm_table_overlay]: [copy_array_hdr_core] and [xm_array_cat] leave
    the entries of [overlay] followed by those of [base]; the index
    arrays of the result are fresh, as in [xm_table_make]. *)
Definition xm_table_overlay (overlay base : xm_table_t) : xm_table_t :=
  table_reindex (a_elts overlay ++ a_elts base)
    {| a_elts := a_elts overlay;
       index_initialized := 0;
       index_first := replicate TABLE_HASH_SIZE 0;
       index_last := replicate TABLE_HASH_SIZE 0 |}.

(** [for (idx = 0; idx < TABLE_HASH_SIZE; ++idx)] of [xm_table_cat],
    with [count] rounds to go; [n] is the number of entries [t] had. *)
Fixpoint cat_index_loop (t s : xm_table_t) (n : nat) (count idx : nat)
    (first last : list nat) : list nat * list nat :=
  match count with
  | O => (first, last)
  | S count' =>
      if TABLE_INDEX_IS_INITIALIZED s idx then
        let last := <[idx := index_last s !!! idx + n]> last in
        let first :=
          if negb (TABLE_INDEX_IS_INITIALIZED t idx)
          then <[idx := index_first s !!! idx + n]> first
          else first in
        cat_index_loop t s n count' (S idx) first last
      else cat_index_loop t s n count' (S idx) first last
  end.

(** [xm_table_cat]: [xm_array_cat] puts the entries of [s] after those
    of [t]. *)
Definition xm_table_cat (t s : xm_table_t) : xm_table_t :=
  let n := a_nelts t in
  let elts := a_elts t ++ a_elts s in
  if n =? 0 then
    {| a_elts := elts;
       index_initialized := index_initialized s;
       index_first := index_first s;
       index_last := index_last s |}
  else
    let '(first, last) :=
      cat_index_loop t s n TABLE_HASH_SIZE 0 (index_first t) (index_last t) in
    {| a_elts := elts;
       index_initialized :=
         Z.lor (index_initialized t) (index_initialized s);
       index_first := first;
       index_last := last |}.

Definition xm_table_overlap (a b : xm_table_t) (flags : Z) : xm_table_t :=
  if a_nelts a + a_nelts b =? 0 then a
  else xm_table_compress (xm_table_cat a b) flags.

End MoreTables.

(** ** Definitions used to state the properties *)

Definition upper_case : list Z := map Z.of_nat (seq 65 26).

(** The part of the checksum that comes from the byte shifted by [s]. *)
Definition checksum_part `{Target} (s : Z) (b : Z) : Z :=
  Z.land (u32 (Z.shiftl (char_to_u32 b) s)) CASE_MASK.

(** Byte [i] of the key as [COMPUTE_KEY_CHECKSUM] sees it: the NUL once
    the string has ended. *)
Fixpoint key_byte (k : string) (i : nat) : Z :=
  match i with
  | O => hd_byte k
  | S i' => if (hd_byte k =? 0)%Z then 0%Z else key_byte (tl_str k) i'
  end.

(** Where [k] points after one [if (c) ... ++k] step. *)
Definition advance (k : string) : string :=
  if (hd_byte k =? 0)%Z then k else tl_str k.


(** The key of [e] equals [k] case-insensitively. *)
Definition key_is (k : string) (e : xm_table_entry_t) : bool :=
  (strcasecmp (deref (key e)) k =? 0)%Z.

(** An entry as the table functions store it: a key, with its checksum. *)
Definition entry_ok `{Target} (e : xm_table_entry_t) : Prop :=
  exists k, key e = Some k /\ key_checksum e = COMPUTE_KEY_CHECKSUM k.

Definition entry_hash (e : xm_table_entry_t) : nat :=
  TABLE_HASH (deref (key e)).

(** The invariant of the index: each entry lies in the range its bucket
    records, and a recorded range ends inside the live entries. *)
Definition index_ok (elts : list xm_table_entry_t) (init : Z)
    (first last : list nat) : Prop :=
  length first = TABLE_HASH_SIZE /\
  length last = TABLE_HASH_SIZE /\
  (forall i e, elts !! i = Some e ->
     index_is_initialized init (entry_hash e) = true /\
     first !!! entry_hash e <= i <= last !!! entry_hash e) /\
  (forall h, h < TABLE_HASH_SIZE -> index_is_initialized init h = true ->
     first !!! h <= last !!! h < length elts).

(** The invariant of a table. *)
Definition table_ok `{Target} (t : xm_table_t) : Prop :=
  Forall entry_ok (a_elts t) /\
  index_ok (a_elts t) (index_initialized t) (index_first t) (index_last t).

(** The entries a compaction for key [k] keeps. *)
Definition keeps (checksum : Z) (k : string) (e : xm_table_entry_t) : bool :=
  negb (entry_matches checksum k e).

(** Entry [e] with its value replaced. *)
Definition with_val (e : xm_table_entry_t) (v : string) : xm_table_entry_t :=
  {| key := key e; val := v; key_checksum := key_checksum e |}.

(** What [set] is to do to the sequence of entries: overwrite the first
    entry of the key and drop its later ones, or append. *)
Fixpoint set_elts (checksum : Z) (k v : string) (l : list xm_table_entry_t)
    : list xm_table_entry_t :=
  match l with
  | [] => [ {| key := Some k; val := v; key_checksum := checksum |} ]
  | e :: r =>
      if key_is k e
      then with_val e v :: List.filter (fun e => negb (key_is k e)) r
      else e :: set_elts checksum k v r
  end.

(** No entry at a position in [[i, j)] satisfies [p]. *)
Definition no_match_in (p : xm_table_entry_t -> bool)
    (elts : list xm_table_entry_t) (i j : nat) : Prop :=
  forall q e, i <= q < j -> elts !! q = Some e -> p e = false.

(** The operations that change a table, and a run of them. *)
Inductive table_op :=
| OpAdd (k v : string)
| OpSet (k v : string)
| OpMerge (k v : string)
| OpUnset (k : string).

Definition apply_op `{Target} (t : xm_table_t) (op : table_op) : xm_table_t :=
  match op with
  | OpAdd k v => xm_table_add t k v
  | OpSet k v => xm_table_set t k v
  | OpMerge k v => xm_table_merge t k v
  | OpUnset k => xm_table_unset t k
  end.

Definition run_ops `{Target} (ops : list table_op) : xm_table_t :=
  fold_left apply_op ops xm_table_make.

(** *** What iteration is to do *)

Section IterateSpec.
Context {R : Type}.
Variable comp : R -> string -> string -> Z * R.

(** Invoke the callback on the entries of [l] in order, until a call
    returns false. *)
Fixpoint call_each (l : list xm_table_entry_t) (rv : Z) (rec : R) : Z * R :=
  match l with
  | [] => (rv, rec)
  | e :: r =>
      if (rv =? 0)%Z then (rv, rec)
      else
        let '(rv, rec) := comp rec (deref (key e)) (val e) in
        call_each r rv rec
  end.

(** One scan per key, over the entries of that key; a false return ends
    the scan of its key only. *)
Fixpoint iterate_keys (elts : list xm_table_entry_t) (keys : list string)
    (result : Z) (rec : R) : Z * R :=
  match keys with
  | [] => (result, rec)
  | k :: keys' =>
      let '(rv, rec) := call_each (List.filter (key_is k) elts) 1%Z rec in
      iterate_keys elts keys' (if (rv =? 0)%Z then 0%Z else result) rec
  end.

(** With no key, one scan over all the entries. *)
Definition iterate_spec (rec : R) (elts : list xm_table_entry_t)
    (keys : list string) : Z * R :=
  match keys with
  | [] =>
      let '(rv, rec) := call_each elts 1%Z rec in
      ((if (rv =? 0)%Z then 0%Z else 1%Z), rec)
  | _ => iterate_keys elts keys 1%Z rec
  end.

(** The callback, recording what each invocation returns. *)
Definition logged (st : R * list Z) (k v : string) : Z * (R * list Z) :=
  let '(rv, rec) := comp (fst st) k v in (rv, (rec, snd st ++ [rv])).

End IterateSpec.

(** *** What string concatenation is to do *)

(** The separator as a string: nothing when it is the NUL. *)
Definition sep_string (sep : Ascii.ascii) : string :=
  if negb (byte_of sep =? 0)%Z then String sep EmptyString else EmptyString.

(** The elements in order, a null one counting as the empty string, with
    the separator between every two consecutive positions. *)
Fixpoint join_strings (sep : Ascii.ascii) (l : list (option string))
    : string :=
  match l with
  | [] => EmptyString
  | x :: r =>
      match r with
      | [] => deref x
      | _ => deref x +:+ sep_string sep +:+ join_strings sep r
      end
  end.

(** The array [arr] has the strings [l] as its elements. *)
Definition array_holds (m : @mem (option string)) (arr : xm_array_header_t)
    (l : list (option string)) : Prop :=
  nelts arr = Z.of_nat (length l) /\
  exists e, elts arr = Some e /\
    load m e (nelts arr) = Some (map Some l).

(** The entry [add], [set] and [merge] store for key [k] and value [v]. *)
Definition stored_entry `{Target} (k v : string) : xm_table_entry_t :=
  {| key := Some k; val := v; key_checksum := COMPUTE_KEY_CHECKSUM k |}.

(** *** The two halves of a push *)

Section PushParts.
Context {cell : Type}.
Variable zero : cell.

(** The step of the two pushes that makes room; [clear] is the [memset]
    that only [xm_array_push] has. *)
Definition push_grow (clear : bool) (m : @mem cell) (arr : xm_array_header_t)
    : option (@mem cell * xm_array_header_t) :=
  if (nelts arr =? nalloc arr)%Z then
    new_size ← (if (nalloc arr <=? 0)%Z then Some 1%Z
                else cint (nalloc arr * 2));
    sz ← cint (elt_size arr * new_size);
    '(m, new_data) ← xm_palloc m sz;
    src ← elts arr;
    n ← cint (nalloc arr * elt_size arr);
    m ← memcpy m new_data src n;
    m ← (if clear
         then memset0 zero m (ptr_add new_data n)
                (elt_size arr * (new_size - nalloc arr))
         else Some m);
    Some (m, {| pool := pool arr; elt_size := elt_size arr;
                nelts := nelts arr; nalloc := new_size;
                elts := Some new_data |})
  else Some (m, arr).

(** [++arr->nelts] and the address of the new last element. *)
Definition push_last (m : @mem cell) (arr : xm_array_header_t)
    : option (@mem cell * xm_array_header_t * ptr) :=
  n ← cint (nelts arr + 1);
  e ← elts arr;
  Some (m, {| pool := pool arr; elt_size := elt_size arr; nelts := n;
              nalloc := nalloc arr; elts := elts arr |},
        ptr_add e (elt_size arr * (n - 1))).

End PushParts.
(** ** Definitions used to state the further properties *)

(** What [merge] is to do to the sequence of entries: extend the value
    of the first entry of the key, or append. *)
Fixpoint merge_elts (checksum : Z) (k v : string) (l : list xm_table_entry_t)
    : list xm_table_entry_t :=
  match l with
  | [] => [ {| key := Some k; val := v; key_checksum := checksum |} ]
  | e :: r =>
      if key_is k e
      then with_val e (val e +:+ ", " +:+ v) :: r
      else e :: merge_elts checksum k v r
  end.

(** The cells of the elements in use, in order. *)
Definition contents {cell : Type} (m : @mem cell) (arr : xm_array_header_t)
    : option (list (option cell)) :=
  e ← elts arr; load m e (elt_size arr * nelts arr).

(** The cache of the agent is consistent: the count is the number of
    arenas in the list, each of them is empty, and the two counts are
    values of [uint64_t]. *)
Definition agent_ok (mpa : xm_mpool_agent_t) : Prop :=
  cur_cache_n mpa = Z.of_nat (length (cache_list mpa)) /\
  Forall (fun mp => pool_live mp = []) (cache_list mpa) /\
  (cur_cache_n mpa < 2 ^ 64)%Z /\
  (0 <= max_cache_n mpa < 2 ^ 64)%Z.

(** Where the index records a range, its two ends are entries of the
    bucket. *)
Definition index_tight (elts : list xm_table_entry_t) (init : Z)
    (first last : list nat) : Prop :=
  forall h, h < TABLE_HASH_SIZE -> index_is_initialized init h = true ->
    (exists e, elts !! (first !!! h) = Some e /\ entry_hash e = h) /\
    (exists e, elts !! (last !!! h) = Some e /\ entry_hash e = h).

(** The index as the comment in [struct xm_table_t] describes it: the
    bit of a bucket is set if and only if some entry hashes to it, and
    then [index_first] and [index_last] are the positions of the first
    and of the last such entry. *)
Definition index_exact (t : xm_table_t) : Prop :=
  forall h, h < TABLE_HASH_SIZE ->
    (TABLE_INDEX_IS_INITIALIZED t h = true <->
     exists i e, a_elts t !! i = Some e /\ entry_hash e = h) /\
    (TABLE_INDEX_IS_INITIALIZED t h = true ->
     (exists e, a_elts t !! (index_first t !!! h) = Some e /\
                entry_hash e = h) /\
     (exists e, a_elts t !! (index_last t !!! h) = Some e /\
                entry_hash e = h) /\
     forall i e, a_elts t !! i = Some e -> entry_hash e = h ->
       index_first t !!! h <= i <= index_last t !!! h).

(** A table satisfies the invariant and has a tight index. *)
Definition table_tight `{Target} (t : xm_table_t) : Prop :=
  table_ok t /\
  index_tight (a_elts t) (index_initialized t) (index_first t) (index_last t).


(** *** What the sort and the compression are to do *)

(** The order of [table_mergesort]: by key under [strcasecmp], and by
    position in the table among equal keys. *)
Definition sorted_before (arr : list xm_table_entry_t) (i j : nat) : Prop :=
  (strcasecmp (key_at arr i) (key_at arr j) < 0)%Z \/
  (strcasecmp (key_at arr i) (key_at arr j) = 0%Z /\ i < j).

(** Every element of [l] is related to all the later ones. *)
Fixpoint sorted_by (R : nat -> nat -> Prop) (l : list nat) : Prop :=
  match l with
  | [] => True
  | x :: r => Forall (R x) r /\ sorted_by R r
  end.

(** [l] is a sequence of sorted blocks of [bs] positions, the last one
    possibly shorter; the block at offset [s] holds the positions from
    [s] on. *)
Inductive blocks (arr : list xm_table_entry_t) (bs : nat)
    : nat -> list nat -> Prop :=
| blocks_nil s : blocks arr bs s []
| blocks_last s b :
    b <> [] -> length b <= bs ->
    sorted_by (sorted_before arr) b -> Permutation b (seq s (length b)) ->
    blocks arr bs s b
| blocks_cons s b rest :
    length b = bs ->
    sorted_by (sorted_before arr) b -> Permutation b (seq s bs) ->
    blocks arr bs (s + bs) rest ->
    blocks arr bs s (b ++ rest).

(** The entry [sort_array[j]] points at. *)
Abbreviation ref_at s j := (default 0 (s !! j)).

(** The value [xm_table_compress] builds under the merge policy from the
    values [vs] of the entries of one key. *)
Fixpoint merge_vals (vs : list string) : string :=
  match vs with
  | [] => EmptyString
  | v :: r =>
      match r with
      | [] => v
      | _ => v +:+ ", " +:+ merge_vals r
      end
  end.

(** The value kept for a key whose entries have the values [vs], in
    table order: all of them under the merge policy, the last one
    otherwise. *)
Definition kept_val (flags : Z) (vs : list string) : string :=
  if (flags =? XM_OVERLAP_TABLES_MERGE)%Z then merge_vals vs
  else List.last vs EmptyString.

(** An entry marked for removal. *)
Definition marked (e : xm_table_entry_t) : xm_table_entry_t :=
  {| key := None; val := val e; key_checksum := key_checksum e |}.

(** [e'] has the key of [e], case-insensitively. *)
Definition same_key_as (e e' : xm_table_entry_t) : bool :=
  key_is (deref (key e)) e'.

(** What [xm_table_compress] is to do to the sequence of entries: an
    entry whose key occurs before it is dropped; the first entry of a
    key stays where it is and gets the value kept for the key.  [all] is
    the whole sequence and [before] the part already walked. *)
Fixpoint compress_from (flags : Z) (all before l : list xm_table_entry_t)
    : list xm_table_entry_t :=
  match l with
  | [] => []
  | e :: r =>
      if existsb (same_key_as e) before
      then compress_from flags all (before ++ [e]) r
      else with_val e
             (kept_val flags (map val (List.filter (same_key_as e) all)))
           :: compress_from flags all (before ++ [e]) r
  end.

Definition compress_elts (flags : Z) (l : list xm_table_entry_t)
    : list xm_table_entry_t :=
  compress_from flags l [] l.

(** The array as the first loop of [xm_table_compress] leaves it, the
    entries to drop marked. *)
Fixpoint compress_marks (flags : Z) (all before l : list xm_table_entry_t)
    : list xm_table_entry_t :=
  match l with
  | [] => []
  | e :: r =>
      (if existsb (same_key_as e) before then marked e
       else with_val e
              (kept_val flags (map val (List.filter (same_key_as e) all))))
      :: compress_marks flags all (before ++ [e]) r
  end.

(** The key and the entry [sort_array[j]] points at. *)
Abbreviation key_ref arr s j := (key_at arr (default 0 (s !! j))).
Abbreviation entry_ref arr s j := (entry_at arr (default 0 (s !! j))).

(** The state of the first loop of [xm_table_compress] at its head,
    [arr0] being the entries on entry and [s] the sorted references.
    The entries referred to before [last] are as the loop is to leave
    them and those from [sort_next] on are untouched.  The references
    from [last] to [sort_next] are of one key: either that of [last]
    alone, untouched ([fresh]), or all of the key, already processed. *)
Definition dedup_inv (flags : Z) (arr0 : list xm_table_entry_t)
    (s : list nat) (arr : list xm_table_entry_t) (last sort_next : nat)
    (fresh : bool) : Prop :=
  let n := length arr0 in
  let target := compress_marks flags arr0 [] arr0 in
  length arr = n /\ last < sort_next <= n /\
  (forall j, j < last ->
     (strcasecmp (key_ref arr0 s j) (key_ref arr0 s last) < 0)%Z) /\
  (forall j, j < last -> arr !! ref_at s j = target !! ref_at s j) /\
  (forall j, sort_next <= j < n -> arr !! ref_at s j = arr0 !! ref_at s j) /\
  if fresh then
    sort_next = S last /\ arr !! ref_at s last = arr0 !! ref_at s last
  else
    (forall j, sort_next <= j < n ->
       (strcasecmp (key_ref arr0 s last) (key_ref arr0 s j) < 0)%Z) /\
    (forall j, last <= j < sort_next ->
       strcasecmp (key_ref arr0 s j) (key_ref arr0 s last) = 0%Z) /\
    (forall j, last <= j < sort_next ->
       arr !! ref_at s j = target !! ref_at s j).
(* ================================================================== *)
(** * Properties *)

Example checksum_Host : @COMPUTE_KEY_CHECKSUM x86_64 "Host" = 0x484f5354%Z.
Proof. reflexivity. Qed.
Example checksum_host : @COMPUTE_KEY_CHECKSUM x86_64 "host" = 0x484f5354%Z.
Proof. reflexivity. Qed.
Example checksum_a : @COMPUTE_KEY_CHECKSUM aarch64 "a" = 0x41000000%Z.
Proof. reflexivity. Qed.
Example strcasecmp_ex :
  strcasecmp "Host" "hOSt" = 0%Z /\ strcasecmp "a" "B" = (-1)%Z /\
  strcasecmp "ab" "a" = 98%Z.
Proof. repeat split; reflexivity. Qed.
Example hash_ex :
  TABLE_HASH "Host" = 8 /\ TABLE_HASH "host" = 8 /\ TABLE_HASH EmptyString = 0.
Proof. repeat split; reflexivity. Qed.

(** ** Bytes, case folding and the checksum *)

Lemma byte_of_range a : (0 <= byte_of a < 256)%Z.
Proof.
  unfold byte_of. pose proof (Ascii.N_ascii_bounded a). lia.
Qed.

Lemma hd_byte_range s : (0 <= hd_byte s < 256)%Z.
Proof. destruct s; simpl; [lia | apply byte_of_range]. Qed.

Lemma tolower_zero c : (0 <= c < 256)%Z -> tolower c = 0%Z -> c = 0%Z.
Proof.
  unfold tolower. intros Hc.
  destruct ((65 <=? c)%Z && (c <=? 90)%Z) eqn:E; lia.
Qed.

(** Two bytes that [tolower] identifies are equal or are the two cases of
    one letter. *)
Lemma tolower_eq_cases a b :
  tolower a = tolower b ->
  a = b \/ ((65 <= a <= 90)%Z /\ b = (a + 32)%Z) \/
  ((65 <= b <= 90)%Z /\ a = (b + 32)%Z).
Proof.
  unfold tolower.
  destruct ((65 <=? a)%Z && (a <=? 90)%Z) eqn:Ea;
    destruct ((65 <=? b)%Z && (b <=? 90)%Z) eqn:Eb; lia.
Qed.

Lemma in_upper_case a : (65 <= a <= 90)%Z -> In a upper_case.
Proof.
  intros Ha. unfold upper_case. apply in_map_iff.
  exists (Z.to_nat a). split; [lia | apply in_seq; lia].
Qed.

Lemma checksum_part_upper `{Target} s a :
  In s [0; 8; 16; 24]%Z -> (65 <= a <= 90)%Z ->
  checksum_part s a = checksum_part s (a + 32).
Proof.
  intros Hs Ha.
  assert (Hall : forall sg,
    forallb (fun a => forallb (fun s =>
      (@checksum_part {| char_signed := sg |} s a =?
       @checksum_part {| char_signed := sg |} s (a + 32))%Z)
      [0; 8; 16; 24]%Z) upper_case = true).
  { intros [|]; vm_compute; reflexivity. }
  destruct H as [sg]. specialize (Hall sg).
  rewrite forallb_forall in Hall.
  specialize (Hall a (in_upper_case a Ha)).
  rewrite forallb_forall in Hall.
  apply Z.eqb_eq, Hall, Hs.
Qed.

Lemma checksum_part_tolower `{Target} s a b :
  In s [0; 8; 16; 24]%Z ->
  tolower a = tolower b ->
  checksum_part s a = checksum_part s b.
Proof.
  intros Hs Hab.
  destruct (tolower_eq_cases a b Hab) as [-> | [[Ha ->] | [Hb ->]]].
  - reflexivity.
  - apply checksum_part_upper; assumption.
  - symmetry. apply checksum_part_upper; assumption.
Qed.

Lemma hash_upper a :
  (65 <= a <= 90)%Z ->
  Z.land TABLE_INDEX_MASK a = Z.land TABLE_INDEX_MASK (a + 32).
Proof.
  intros Ha.
  assert (Hall : forallb (fun a =>
    (Z.land TABLE_INDEX_MASK a =? Z.land TABLE_INDEX_MASK (a + 32))%Z)
    upper_case = true) by (vm_compute; reflexivity).
  rewrite forallb_forall in Hall.
  apply Z.eqb_eq, Hall, in_upper_case, Ha.
Qed.

Lemma hash_tolower a b :
  tolower a = tolower b ->
  Z.land TABLE_INDEX_MASK a = Z.land TABLE_INDEX_MASK b.
Proof.
  intros Hab.
  destruct (tolower_eq_cases a b Hab) as [-> | [[Ha ->] | [Hb ->]]].
  - reflexivity.
  - apply hash_upper; assumption.
  - symmetry. apply hash_upper; assumption.
Qed.

Lemma CASE_MASK_high n : (32 <= n)%Z -> Z.testbit CASE_MASK n = false.
Proof.
  intros Hn. apply Z.bits_above_log2; [unfold CASE_MASK; lia |].
  change (Z.log2 CASE_MASK) with 31%Z. lia.
Qed.

Lemma u32_testbit x n :
  (n < 32)%Z -> Z.testbit (u32 x) n = Z.testbit x n.
Proof. intros Hn. unfold u32. apply Z.mod_pow2_bits_low. lia. Qed.

(** The three shifts and ors of [COMPUTE_KEY_CHECKSUM], byte by byte. *)
Lemma checksum_split c0 c1 c2 c3 :
  Z.land
    (Z.lor (u32 (Z.shiftl
       (Z.lor (u32 (Z.shiftl
          (Z.lor (u32 (Z.shiftl c0 8)) c1) 8)) c2) 8)) c3) CASE_MASK =
  Z.lor (Z.lor (Z.lor
    (Z.land (u32 (Z.shiftl c0 24)) CASE_MASK)
    (Z.land (u32 (Z.shiftl c1 16)) CASE_MASK))
    (Z.land (u32 (Z.shiftl c2 8)) CASE_MASK))
    (Z.land (u32 (Z.shiftl c3 0)) CASE_MASK).
Proof.
  apply Z.bits_inj'. intros n Hn.
  rewrite !Z.land_spec, !Z.lor_spec, !Z.land_spec.
  destruct (Z.testbit CASE_MASK n) eqn:Em.
  2:{ rewrite !andb_false_r. reflexivity. }
  assert (Hlt : (n < 32)%Z).
  { destruct (Z.lt_ge_cases n 32) as [|Hge]; [assumption |].
    rewrite CASE_MASK_high in Em by assumption. discriminate. }
  rewrite !andb_true_r.
  rewrite !u32_testbit by lia.
  rewrite !Z.shiftl_spec by lia.
  rewrite Z.lor_spec.
  destruct (Z.lt_ge_cases (n - 8) 0) as [Hneg | Hpos].
  { rewrite !(Z.testbit_neg_r _ (n - 8)) by lia.
    rewrite !(Z.testbit_neg_r _ (n - 16)) by lia.
    rewrite !(Z.testbit_neg_r _ (n - 24)) by lia.
    rewrite Z.sub_0_r. reflexivity. }
  rewrite !u32_testbit by lia.
  rewrite !Z.shiftl_spec by lia.
  rewrite Z.lor_spec.
  replace (n - 8 - 8)%Z with (n - 16)%Z by lia.
  destruct (Z.lt_ge_cases (n - 16) 0) as [Hneg2 | Hpos2].
  { rewrite !(Z.testbit_neg_r _ (n - 16)) by lia.
    rewrite !(Z.testbit_neg_r _ (n - 24)) by lia.
    rewrite Z.sub_0_r. reflexivity. }
  rewrite !u32_testbit by lia.
  rewrite !Z.shiftl_spec by lia.
  replace (n - 16 - 8)%Z with (n - 24)%Z by lia.
  rewrite Z.sub_0_r.
  rewrite <- !orb_assoc. reflexivity.
Qed.

Lemma char_to_u32_zero `{Target} b :
  (0 <= b < 256)%Z -> (char_to_u32 b =? 0)%Z = (b =? 0)%Z.
Proof.
  intros Hb. unfold char_to_u32, u32.
  destruct (char_signed && (128 <=? b)%Z) eqn:E; [| reflexivity].
  apply andb_true_iff in E as [_ E]. apply Z.leb_le in E.
  assert (Hm : ((b - 256) mod 2 ^ 32 = b - 256 + 2 ^ 32)%Z).
  { rewrite <- (Z.mod_add (b - 256) 1 (2 ^ 32)) by lia.
    rewrite Z.mul_1_l. apply Z.mod_small. lia. }
  rewrite Hm.
  destruct (Z.eqb_spec (b - 256 + 2 ^ 32) 0); destruct (Z.eqb_spec b 0); lia.
Qed.

Lemma char_to_u32_0 `{Target} : char_to_u32 0 = 0%Z.
Proof. unfold char_to_u32. rewrite andb_false_r. reflexivity. Qed.

Lemma key_byte_ended k i : hd_byte k = 0%Z -> key_byte k i = 0%Z.
Proof. intros Hk. destruct i; simpl; rewrite Hk; reflexivity. Qed.

Lemma key_byte_advance k i : key_byte k (S i) = key_byte (advance k) i.
Proof.
  unfold advance. simpl.
  destruct (Z.eqb_spec (hd_byte k) 0) as [E | E]; [| reflexivity].
  symmetry. apply key_byte_ended, E.
Qed.

Lemma checksum_step_advance `{Target} k x :
  checksum_step (k, char_to_u32 (hd_byte k), x) =
  (advance k, char_to_u32 (hd_byte (advance k)),
   Z.lor x (char_to_u32 (hd_byte (advance k)))).
Proof.
  unfold checksum_step, advance.
  rewrite char_to_u32_zero by apply hd_byte_range.
  destruct (Z.eqb_spec (hd_byte k) 0) as [E | E]; simpl negb; cbv iota.
  - rewrite E, char_to_u32_0, Z.lor_0_r. reflexivity.
  - reflexivity.
Qed.

Lemma COMPUTE_KEY_CHECKSUM_parts `{Target} k :
  COMPUTE_KEY_CHECKSUM k =
  Z.lor (Z.lor (Z.lor
    (checksum_part 24 (key_byte k 0))
    (checksum_part 16 (key_byte k 1)))
    (checksum_part 8 (key_byte k 2)))
    (checksum_part 0 (key_byte k 3)).
Proof.
  unfold checksum_part. rewrite <- checksum_split.
  rewrite !key_byte_advance. simpl key_byte.
  unfold COMPUTE_KEY_CHECKSUM.
  rewrite checksum_step_advance.
  rewrite checksum_step_advance.
  rewrite checksum_step_advance.
  reflexivity.
Qed.

(** Keys equal under [strcasecmp] have bytes equal under [tolower], at
    every position. *)
Lemma strcasecmp_key_byte k1 :
  forall k2 i, strcasecmp k1 k2 = 0%Z ->
  tolower (key_byte k1 i) = tolower (key_byte k2 i).
Proof.
  induction k1 as [| a r1 IH]; intros k2 i Hc; simpl in Hc.
  - assert (Hk2 : hd_byte k2 = 0%Z).
    { apply tolower_zero; [apply hd_byte_range | lia]. }
    destruct i; simpl; rewrite Hk2; reflexivity.
  - destruct (Z.eqb_spec (tolower (byte_of a)) (tolower (hd_byte k2)))
      as [Eh | Eh]; simpl negb in Hc; cbv iota in Hc; [| lia].
    destruct i as [| i]; simpl; [exact Eh |].
    destruct (Z.eqb_spec (tolower (byte_of a)) 0) as [Ez | Ez].
    + assert (Ha : byte_of a = 0%Z)
        by (apply tolower_zero; [apply byte_of_range | exact Ez]).
      assert (Hb : hd_byte k2 = 0%Z).
      { apply tolower_zero; [apply hd_byte_range | lia]. }
      rewrite Ha, Hb. reflexivity.
    + assert (Ha : byte_of a <> 0%Z).
      { intros E. apply Ez. rewrite E. reflexivity. }
      assert (Hb : hd_byte k2 <> 0%Z).
      { intros E. apply Ez. rewrite Eh, E. reflexivity. }
      destruct (Z.eqb_spec (byte_of a) 0); [lia |].
      destruct (Z.eqb_spec (hd_byte k2) 0); [lia |].
      apply IH, Hc.
Qed.

Lemma strcasecmp_checksum `{Target} k1 k2 :
  strcasecmp k1 k2 = 0%Z ->
  COMPUTE_KEY_CHECKSUM k1 = COMPUTE_KEY_CHECKSUM k2.
Proof.
  intros Hc. rewrite !COMPUTE_KEY_CHECKSUM_parts.
  rewrite (checksum_part_tolower 24 (key_byte k1 0) (key_byte k2 0));
    [| simpl; tauto | apply strcasecmp_key_byte, Hc].
  rewrite (checksum_part_tolower 16 (key_byte k1 1) (key_byte k2 1));
    [| simpl; tauto | apply strcasecmp_key_byte, Hc].
  rewrite (checksum_part_tolower 8 (key_byte k1 2) (key_byte k2 2));
    [| simpl; tauto | apply strcasecmp_key_byte, Hc].
  rewrite (checksum_part_tolower 0 (key_byte k1 3) (key_byte k2 3));
    [| simpl; tauto | apply strcasecmp_key_byte, Hc].
  reflexivity.
Qed.

Lemma strcasecmp_hash k1 k2 :
  strcasecmp k1 k2 = 0%Z -> TABLE_HASH k1 = TABLE_HASH k2.
Proof.
  intros Hc. unfold TABLE_HASH. f_equal. apply hash_tolower.
  exact (strcasecmp_key_byte k1 k2 0 Hc).
Qed.

(** ** [strcasecmp] as an equivalence *)

Lemma strcasecmp_refl k : strcasecmp k k = 0%Z.
Proof.
  induction k as [| a r IH]; simpl; [reflexivity |].
  rewrite Z.eqb_refl. simpl.
  destruct (tolower (byte_of a) =? 0)%Z; [reflexivity | exact IH].
Qed.

Lemma strcasecmp_antisym k1 :
  forall k2, strcasecmp k2 k1 = (- strcasecmp k1 k2)%Z.
Proof.
  induction k1 as [| a r1 IH]; intros [| b r2]; simpl;
    change (tolower 0) with 0%Z.
  - reflexivity.
  - destruct (Z.eqb_spec (tolower (byte_of b)) 0) as [E | E];
      simpl negb; cbv iota; lia.
  - destruct (Z.eqb_spec (tolower (byte_of a)) 0) as [E | E];
      simpl negb; cbv iota; lia.
  - rewrite (Z.eqb_sym (tolower (byte_of b)) (tolower (byte_of a))).
    destruct (Z.eqb_spec (tolower (byte_of a)) (tolower (byte_of b)))
      as [E | E]; simpl negb; cbv iota; [| lia].
    rewrite E.
    destruct (tolower (byte_of b) =? 0)%Z; [reflexivity | apply IH].
Qed.

Lemma strcasecmp_sym k1 k2 :
  strcasecmp k1 k2 = 0%Z -> strcasecmp k2 k1 = 0%Z.
Proof. intros Hc. rewrite strcasecmp_antisym, Hc. reflexivity. Qed.

Lemma strcasecmp_trans k1 :
  forall k2 k3, strcasecmp k1 k2 = 0%Z -> strcasecmp k2 k3 = 0%Z ->
  strcasecmp k1 k3 = 0%Z.
Proof.
  induction k1 as [| a r1 IH]; intros k2 k3 H12 H23.
  - simpl in *.
    assert (H2 : hd_byte k2 = 0%Z)
      by (apply tolower_zero; [apply hd_byte_range | lia]).
    pose proof (strcasecmp_key_byte k2 k3 0 H23) as Hb. simpl in Hb.
    rewrite H2 in Hb. change (tolower 0) with 0%Z in Hb. lia.
  - pose proof (strcasecmp_key_byte _ _ 0 H12) as Hb12.
    pose proof (strcasecmp_key_byte _ _ 0 H23) as Hb23.
    simpl in Hb12, Hb23. simpl in H12 |- *.
    rewrite Hb12, Z.eqb_refl in H12. simpl negb in H12. cbv iota in H12.
    rewrite Hb12, Hb23, Z.eqb_refl. simpl negb. cbv iota.
    rewrite <- Hb23.
    destruct (Z.eqb_spec (tolower (hd_byte k2)) 0) as [Ez | Ez];
      [reflexivity |].
    destruct k2 as [| b r2]; [exfalso; apply Ez; reflexivity |].
    simpl in H23, H12, Hb23, Ez.
    rewrite Hb23, Z.eqb_refl in H23. simpl negb in H23. cbv iota in H23.
    rewrite <- Hb23 in H23.
    destruct (Z.eqb_spec (tolower (byte_of b)) 0); [lia |].
    exact (IH _ _ H12 H23).
Qed.

(** ** The checksum never rejects a matching entry *)

Lemma entry_matches_key_is `{Target} k e :
  entry_ok e -> entry_matches (COMPUTE_KEY_CHECKSUM k) k e = key_is k e.
Proof.
  intros (ek & Hk & Hc). unfold entry_matches, key_is.
  rewrite Hk, Hc. simpl deref.
  destruct (Z.eqb_spec (strcasecmp ek k) 0) as [E | E].
  - rewrite (strcasecmp_checksum ek k E), Z.eqb_refl. reflexivity.
  - apply andb_false_r.
Qed.

(** C10. Keys equal under [strcasecmp] have equal checksums, so the
    checksum test that precedes [strcasecmp] in the table functions
    accepts every entry whose key matches: there are no false
    negatives. *)
Theorem checksum_no_false_negative `{Target} (k1 k2 : string) :
  strcasecmp k1 k2 = 0%Z ->
  COMPUTE_KEY_CHECKSUM k1 = COMPUTE_KEY_CHECKSUM k2 /\
  forall e, key e = Some k1 -> key_checksum e = COMPUTE_KEY_CHECKSUM k1 ->
    entry_matches (COMPUTE_KEY_CHECKSUM k2) k2 e = true.
Proof.
  intros Hc. split; [apply strcasecmp_checksum, Hc |].
  intros e Hk Hs. rewrite entry_matches_key_is by (exists k1; auto).
  unfold key_is. rewrite Hk. simpl. rewrite Hc. reflexivity.
Qed.

Lemma checksum_no_false_negative_witness :
  strcasecmp "Content-Type" "content-type" = 0%Z /\
  (@COMPUTE_KEY_CHECKSUM x86_64 "Content-Type" =
   @COMPUTE_KEY_CHECKSUM x86_64 "content-type" /\
   forall e, key e = Some "Content-Type" ->
     key_checksum e = @COMPUTE_KEY_CHECKSUM x86_64 "Content-Type" ->
     entry_matches
       (@COMPUTE_KEY_CHECKSUM x86_64 "content-type") "content-type" e = true).
Proof.
  split; [reflexivity |].
  apply (@checksum_no_false_negative x86_64 "Content-Type" "content-type").
  reflexivity.
Defined.

(** ** The bucket bits *)

Lemma index_is_initialized_testbit init i :
  index_is_initialized init i = Z.testbit init (Z.of_nat i).
Proof.
  unfold index_is_initialized. rewrite Z.shiftl_1_l.
  assert (Hland : Z.land init (2 ^ Z.of_nat i) =
    if Z.testbit init (Z.of_nat i) then (2 ^ Z.of_nat i)%Z else 0%Z).
  { apply Z.bits_inj'. intros n Hn. rewrite Z.land_spec.
    rewrite Z.pow2_bits_eqb by lia.
    destruct (Z.eqb_spec (Z.of_nat i) n) as [<- | Hne].
    - destruct (Z.testbit init (Z.of_nat i)).
      + rewrite Z.pow2_bits_eqb, Z.eqb_refl by lia. reflexivity.
      + rewrite Z.bits_0. reflexivity.
    - rewrite andb_false_r.
      destruct (Z.testbit init (Z.of_nat i)).
      + rewrite Z.pow2_bits_eqb by lia. symmetry. apply Z.eqb_neq, Hne.
      + rewrite Z.bits_0. reflexivity. }
  rewrite Hland.
  destruct (Z.testbit init (Z.of_nat i)); [| reflexivity].
  assert (0 < 2 ^ Z.of_nat i)%Z by (apply Z.pow_pos_nonneg; lia).
  destruct (Z.eqb_spec (2 ^ Z.of_nat i) 0); [lia | reflexivity].
Qed.

Lemma index_is_initialized_0 i : index_is_initialized 0 i = false.
Proof. rewrite index_is_initialized_testbit. apply Z.bits_0. Qed.

Lemma index_is_initialized_set init i j :
  index_is_initialized (index_set_initialized init i) j =
  bool_decide (i = j) || index_is_initialized init j.
Proof.
  rewrite !index_is_initialized_testbit. unfold index_set_initialized.
  rewrite Z.lor_spec, Z.shiftl_1_l, Z.pow2_bits_eqb by lia.
  rewrite orb_comm. f_equal.
  destruct (Z.eqb_spec (Z.of_nat i) (Z.of_nat j)) as [E | E];
    case_bool_decide; try reflexivity; lia.
Qed.

Lemma TABLE_HASH_lt k : TABLE_HASH k < TABLE_HASH_SIZE.
Proof.
  unfold TABLE_HASH, TABLE_HASH_SIZE, TABLE_INDEX_MASK.
  pose proof (hd_byte_range k) as Hk.
  change 31%Z with (Z.ones 5). rewrite Z.land_comm, Z.land_ones by lia.
  pose proof (Z.mod_pos_bound (hd_byte k) (2 ^ 5) ltac:(lia)). lia.
Qed.

(** ** The index *)

(** What [xm_table_add], [add_new_elt] and one round of [table_reindex]
    do to the index when entry [e] goes to the end of the array. *)
Lemma index_ok_push elts init first last e :
  index_ok elts init first last ->
  index_ok (elts ++ [e])
    (if index_is_initialized init (entry_hash e) then init
     else index_set_initialized init (entry_hash e))
    (if index_is_initialized init (entry_hash e) then first
     else <[entry_hash e := length elts]> first)
    (<[entry_hash e := length elts]> last).
Proof.
  intros (Hlf & Hll & Hin & Hbd).
  pose proof (TABLE_HASH_lt (deref (key e))) as Hh.
  fold (entry_hash e) in Hh. remember (entry_hash e) as h eqn:Hhdef.
  assert (Hbit : forall j,
    index_is_initialized
      (if index_is_initialized init h then init
       else index_set_initialized init h) j =
    bool_decide (h = j) || index_is_initialized init j).
  { intros j. destruct (index_is_initialized init h) eqn:Eb.
    - case_bool_decide; [subst j; rewrite Eb |]; reflexivity.
    - apply index_is_initialized_set. }
  assert (Hfirst : forall j, j <> h ->
    (if index_is_initialized init h then first
     else <[h := length elts]> first) !!! j = first !!! j).
  { intros j Hj. destruct (index_is_initialized init h); [reflexivity |].
    apply list_lookup_total_insert_ne. congruence. }
  assert (Hfirsth :
    (if index_is_initialized init h then first
     else <[h := length elts]> first) !!! h <= length elts).
  { destruct (index_is_initialized init h) eqn:Eb.
    - specialize (Hbd h Hh Eb). lia.
    - rewrite list_lookup_total_insert_eq by lia. lia. }
  split; [destruct (index_is_initialized init h);
          rewrite ?length_insert; assumption |].
  split; [rewrite length_insert; assumption |].
  split.
  - intros i e' Hi. rewrite Hbit.
    apply lookup_app_Some in Hi as [Hi | [Hge Hi]].
    + destruct (Hin i e' Hi) as [Hb Hr]. rewrite Hb, orb_true_r.
      split; [reflexivity |].
      pose proof (lookup_lt_Some _ _ _ Hi) as Hlt.
      destruct (decide (entry_hash e' = h)) as [Heq | Hne].
      * rewrite Heq in Hb, Hr |- *.
        rewrite list_lookup_total_insert_eq by lia.
        rewrite Hb. lia.
      * rewrite Hfirst by assumption.
        rewrite list_lookup_total_insert_ne by congruence. lia.
    + apply list_lookup_singleton_Some in Hi as [Ei <-]. rewrite <- Hhdef.
      rewrite bool_decide_true by reflexivity.
      split; [reflexivity |].
      rewrite list_lookup_total_insert_eq by lia.
      assert (i = length elts) by lia. subst i. lia.
  - intros j Hj. rewrite Hbit, length_app. simpl.
    destruct (decide (h = j)) as [<- | Hne].
    + intros _. rewrite list_lookup_total_insert_eq by lia. lia.
    + rewrite bool_decide_false by assumption. simpl. intros Hb.
      specialize (Hbd j Hj Hb).
      rewrite Hfirst by congruence.
      rewrite list_lookup_total_insert_ne by assumption. lia.
Qed.

Lemma reindex_loop_ok rest :
  forall done init first last,
  index_ok done init first last ->
  forall init' first' last',
  reindex_loop rest (length done) init first last = (init', first', last') ->
  index_ok (done ++ rest) init' first' last'.
Proof.
  induction rest as [| e rest IH]; intros done init first last Hok
    init' first' last' Hr; simpl in Hr.
  - injection Hr as <- <- <-. rewrite app_nil_r. exact Hok.
  - pose proof (index_ok_push _ _ _ _ e Hok) as Hpush.
    unfold entry_hash in Hpush.
    replace (done ++ e :: rest) with ((done ++ [e]) ++ rest)
      by (rewrite <- app_assoc; reflexivity).
    destruct (index_is_initialized init (TABLE_HASH (deref (key e)))) eqn:Eb;
      simpl negb in Hr; cbv iota in Hr.
    + eapply IH; [exact Hpush |].
      rewrite length_app. simpl. rewrite Nat.add_1_r. exact Hr.
    + eapply IH; [exact Hpush |].
      rewrite length_app. simpl. rewrite Nat.add_1_r. exact Hr.
Qed.

Lemma index_ok_nil first last :
  length first = TABLE_HASH_SIZE -> length last = TABLE_HASH_SIZE ->
  index_ok [] 0 first last.
Proof.
  intros Hf Hl. repeat split; try assumption.
  - rewrite lookup_nil in H. discriminate.
  - rewrite lookup_nil in H. discriminate.
  - rewrite lookup_nil in H. discriminate.
  - rewrite index_is_initialized_0 in H0. discriminate.
  - rewrite index_is_initialized_0 in H0. discriminate.
Qed.

Lemma table_reindex_elts `{Target} elts t : a_elts (table_reindex elts t) = elts.
Proof.
  unfold table_reindex.
  destruct (reindex_loop elts 0 0 (index_first t) (index_last t))
    as [[init first] last]. reflexivity.
Qed.

Lemma table_reindex_ok `{Target} elts t :
  length (index_first t) = TABLE_HASH_SIZE ->
  length (index_last t) = TABLE_HASH_SIZE ->
  Forall entry_ok elts ->
  table_ok (table_reindex elts t).
Proof.
  intros Hf Hl Hall. unfold table_reindex.
  destruct (reindex_loop elts 0 0 (index_first t) (index_last t))
    as [[init first] last] eqn:Hr.
  split; simpl; [exact Hall |].
  exact (reindex_loop_ok elts [] 0 _ _ (index_ok_nil _ _ Hf Hl) _ _ _ Hr).
Qed.

Lemma xm_table_make_ok `{Target} : table_ok xm_table_make.
Proof.
  split; simpl; [constructor |].
  apply index_ok_nil; reflexivity.
Qed.

(** ** The compaction loops

    In each of them the array is [P ++ J ++ S]: [P] the entries kept so
    far, ending at [dst_elt]; [J] the slots already read and free to be
    overwritten; [S] the entries from [next_elt] on. *)

Ltac tuple_eq :=
  repeat match goal with
         | |- @eq (_ * _) _ _ => f_equal
         end;
  try reflexivity; try lia.

Section Compaction.
Variable checksum : Z.
Variable k : string.

Lemma filter_take_length (f : xm_table_entry_t -> bool) n l :
  length (List.filter f (take n l)) <= n.
Proof.
  etransitivity; [apply List.filter_length_le |].
  rewrite length_take. lia.
Qed.

Lemma insert_app_head {A} (P : list A) j T e :
  <[length P := e]> (P ++ j :: T) = P ++ e :: T.
Proof.
  rewrite <- (Nat.add_0_r (length P)), insert_app_r. reflexivity.
Qed.

Lemma shift_loop_spec S0 :
  forall P J, J <> [] ->
  exists J', length J' = length J /\
    shift_loop (length S0) (length P + length J) (length P) (P ++ J ++ S0) =
    P ++ S0 ++ J'.
Proof.
  induction S0 as [| e S' IH]; intros P J HJ.
  - exists J. split; [reflexivity |]. simpl. rewrite app_nil_r. reflexivity.
  - destruct J as [| j Jt]; [congruence |].
    cbn [shift_loop length].
    replace (P ++ (j :: Jt) ++ e :: S') with ((P ++ j :: Jt) ++ e :: S')
      by (rewrite <- app_assoc; reflexivity).
    rewrite (list_lookup_middle (P ++ j :: Jt) S' e)
      by (rewrite length_app; reflexivity).
    replace ((P ++ j :: Jt) ++ e :: S') with (P ++ j :: (Jt ++ e :: S'))
      by (rewrite <- app_assoc; reflexivity).
    replace (<[length P := e]> (P ++ j :: (Jt ++ e :: S')))
      with ((P ++ [e]) ++ (Jt ++ [e]) ++ S').
    2:{ rewrite insert_app_head, <- !app_assoc. reflexivity. }
    destruct (IH (P ++ [e]) (Jt ++ [e])) as (J' & HJ' & Hs).
    { destruct Jt; discriminate. }
    exists J'. split.
    { rewrite HJ', length_app. simpl. lia. }
    rewrite !length_app in Hs. simpl in Hs.
    replace (S (length P + S (length Jt)))
      with (length P + 1 + (length Jt + 1)) by lia.
    replace (S (length P)) with (length P + 1) by lia.
    rewrite Hs, <- app_assoc. reflexivity.
Qed.

Lemma unset_dups_loop_spec n :
  forall P J S0 nelts0, J <> [] -> n <= length S0 ->
  exists J', length J' = length J + (n - length (List.filter (keeps checksum k) (take n S0))) /\
    unset_dups_loop checksum k n (length P + length J) (length P)
      (P ++ J ++ S0) nelts0 =
    ((P ++ List.filter (keeps checksum k) (take n S0)) ++ J' ++ drop n S0,
     length P + length (List.filter (keeps checksum k) (take n S0)),
     nelts0 - (n - length (List.filter (keeps checksum k) (take n S0)))).
Proof.
  induction n as [| n IH]; intros P J S0 nelts0 HJ Hn.
  - exists J. simpl. rewrite drop_0, app_nil_r, !Nat.add_0_r, Nat.sub_0_r.
    split; [lia | reflexivity].
  - destruct S0 as [| e S']; [simpl in Hn; lia |].
    simpl in Hn.
    cbn [unset_dups_loop].
    replace (P ++ J ++ e :: S') with ((P ++ J) ++ e :: S')
      by (rewrite <- app_assoc; reflexivity).
    rewrite (list_lookup_middle (P ++ J) S' e)
      by (rewrite length_app; reflexivity).
    pose proof (filter_take_length (keeps checksum k) n S') as Hle.
    cbn [take List.filter drop].
    assert (Ek : keeps checksum k e = negb (entry_matches checksum k e))
      by reflexivity.
    destruct (entry_matches checksum k e) eqn:Em; cbn [negb] in Ek;
      rewrite Ek.
    + destruct (IH P (J ++ [e]) S' (nelts0 - 1)) as (J' & HJ' & Hs);
        [destruct J; discriminate | lia |].
      exists J'. split.
      { rewrite HJ', length_app. simpl. lia. }
      rewrite length_app in Hs. simpl in Hs.
      replace (S (length P + length J))
        with (length P + (length J + 1)) by lia.
      replace ((P ++ J) ++ e :: S') with (P ++ (J ++ [e]) ++ S')
        by (rewrite <- !app_assoc; reflexivity).
      rewrite Hs. tuple_eq.
    + destruct J as [| j Jt]; [congruence |].
      replace (<[length P := e]> ((P ++ j :: Jt) ++ e :: S'))
        with ((P ++ [e]) ++ (Jt ++ [e]) ++ S').
      2:{ rewrite <- !app_assoc. simpl. rewrite insert_app_head.
          reflexivity. }
      destruct (IH (P ++ [e]) (Jt ++ [e]) S' nelts0) as (J' & HJ' & Hs);
        [destruct Jt; discriminate | lia |].
      exists J'. split.
      { rewrite HJ', length_app. simpl. lia. }
      rewrite !length_app in Hs. simpl in Hs. simpl length.
      replace (S (length P + S (length Jt)))
        with (length P + 1 + (length Jt + 1)) by lia.
      replace (S (length P)) with (length P + 1) by lia.
      rewrite Hs. rewrite <- !app_assoc. simpl. tuple_eq.
Qed.

(** Once [dst_elt] is set the inner loop of [xm_table_set] is the one of
    [xm_table_unset]. *)
Lemma set_dups_loop_some n :
  forall i d arr nelts0 must,
  exists must',
    set_dups_loop checksum k n i arr (Some d) nelts0 must =
    (let '(a, d', ne) := unset_dups_loop checksum k n i d arr nelts0 in
     (a, Some d', ne, must')).
Proof.
  induction n as [| n IH]; intros i d arr nelts0 must; simpl.
  - exists must. reflexivity.
  - destruct (arr !! i) as [e |]; [| apply IH].
    destruct (entry_matches checksum k e); apply IH.
Qed.

Lemma set_dups_loop_none n :
  forall P S0 nelts0 must, n <= length S0 ->
  (List.filter (keeps checksum k) (take n S0) = take n S0 /\
   set_dups_loop checksum k n (length P) (P ++ S0) None nelts0 must =
   (P ++ S0, None, nelts0, must)) \/
  (exists J' must', J' <> [] /\
     length J' = n - length (List.filter (keeps checksum k) (take n S0)) /\
     set_dups_loop checksum k n (length P) (P ++ S0) None nelts0 must =
     ((P ++ List.filter (keeps checksum k) (take n S0)) ++ J' ++ drop n S0,
      Some (length P + length (List.filter (keeps checksum k) (take n S0))),
      nelts0 - (n - length (List.filter (keeps checksum k) (take n S0))), must')).
Proof.
  induction n as [| n IH]; intros P S0 nelts0 must Hn.
  - left. split; reflexivity.
  - destruct S0 as [| e S']; [simpl in Hn; lia |].
    simpl in Hn.
    cbn [set_dups_loop].
    rewrite (list_lookup_middle P S' e) by reflexivity.
    pose proof (filter_take_length (keeps checksum k) n S') as Hle.
    cbn [take List.filter drop].
    assert (Ek : keeps checksum k e = negb (entry_matches checksum k e))
      by reflexivity.
    destruct (entry_matches checksum k e) eqn:Em; cbn [negb] in Ek;
      rewrite Ek; cbn [default].
    + right.
      destruct (set_dups_loop_some n (S (length P)) (length P)
                  (P ++ e :: S') (nelts0 - 1) must) as (must' & Hsome).
      destruct (unset_dups_loop_spec n P [e] S' (nelts0 - 1))
        as (J' & HJ' & Hs); [discriminate | lia |].
      simpl in Hs. rewrite Nat.add_1_r in Hs.
      rewrite Hs in Hsome.
      exists J', must'. split; [| split].
      * intros ->. simpl in HJ'. lia.
      * rewrite HJ'. simpl. lia.
      * rewrite Hsome. tuple_eq.
    + destruct (IH (P ++ [e]) S' nelts0 must) as
        [[Hk Hs] | (J' & must' & HJ & HJ' & Hs)]; [lia | |].
      * left. split; [rewrite Hk; reflexivity |].
        rewrite length_app in Hs. simpl in Hs.
        rewrite Nat.add_1_r, <- app_assoc in Hs. exact Hs.
      * right. exists J', must'. split; [exact HJ |]. split.
        { rewrite HJ'. simpl. lia. }
        rewrite length_app in Hs. simpl in Hs.
        rewrite Nat.add_1_r, <- !app_assoc in Hs. simpl in Hs.
        rewrite Hs. rewrite <- !app_assoc. simpl. tuple_eq.
        f_equal. lia.
Qed.

End Compaction.

(** ** [xm_table_set] at a match *)

Lemma set_found_spec `{Target} t checksum k v m e end_elt :
  a_elts t !! m = Some e -> m <= end_elt -> S end_elt <= a_nelts t ->
  let seg := take (end_elt - m) (drop (S m) (a_elts t)) in
  (List.filter (keeps checksum k) seg = seg /\
   set_found t checksum k v m e end_elt =
   {| a_elts := <[m := with_val e v]> (a_elts t);
      index_initialized := index_initialized t;
      index_first := index_first t;
      index_last := index_last t |}) \/
  (length (List.filter (keeps checksum k) seg) < length seg /\
   set_found t checksum k v m e end_elt =
   table_reindex
     (take m (a_elts t) ++ with_val e v ::
      List.filter (keeps checksum k) seg ++ drop (S end_elt) (a_elts t)) t).
Proof.
  intros Hm Hle Hend seg. unfold a_nelts in Hend.
  pose proof (lookup_lt_Some _ _ _ Hm) as Hlt.
  set (P := take m (a_elts t) ++ [with_val e v]).
  set (S0 := drop (S m) (a_elts t)).
  assert (HP : length P = S m).
  { unfold P. rewrite length_app, length_take_le by lia. simpl. lia. }
  assert (HS : length S0 = length (a_elts t) - S m)
    by (unfold S0; apply length_drop).
  assert (Harr : <[m := with_val e v]> (a_elts t) = P ++ S0).
  { unfold P, S0. rewrite insert_take_drop by lia.
    rewrite <- app_assoc. reflexivity. }
  assert (Hdd : drop (end_elt - m) S0 = drop (S end_elt) (a_elts t)).
  { unfold S0. rewrite drop_drop. f_equal. lia. }
  assert (Hseg : length seg = end_elt - m).
  { unfold seg. fold S0. rewrite length_take_le; lia. }
  unfold set_found. fold (with_val e v).
  change (xm_pstrdup v) with v. fold (with_val e v).
  replace (S end_elt - S m) with (end_elt - m) by lia.
  rewrite Harr. unfold a_nelts.
  destruct (set_dups_loop_none checksum k (end_elt - m) P S0
              (length (a_elts t)) false) as
    [[Hk Hs] | (J' & must' & HJ & HJ' & Hs)]; [lia | |];
    rewrite HP in Hs; rewrite Hs; fold S0 in seg; fold seg.
  - left. split; [exact Hk |].
    f_equal. apply take_ge. rewrite <- Harr, length_insert. lia.
  - right.
    pose proof (filter_take_length (keeps checksum k) (end_elt - m) S0)
      as Hfl. fold seg in Hfl, HJ'.
    assert (HJpos : 0 < length J') by (destruct J'; [congruence | simpl; lia]).
    split; [lia |].
    destruct (shift_loop_spec (drop (end_elt - m) S0)
                (P ++ List.filter (keeps checksum k) seg) J' HJ)
      as (J'' & HJ'' & Hsh).
    rewrite length_drop, length_app, HP, HJ', HS in Hsh.
    replace (length (a_elts t) - S m - (end_elt - m))
      with (length (a_elts t) - S end_elt) in Hsh by lia.
    replace (S m + length (List.filter (keeps checksum k) seg) +
             (end_elt - m - length (List.filter (keeps checksum k) seg)))
      with (S end_elt) in Hsh by lia.
    rewrite <- app_assoc in Hsh. rewrite <- app_assoc. rewrite Hsh.
    f_equal. rewrite Hdd.
    unfold P. rewrite <- !app_assoc. simpl.
    set (L := take m (a_elts t) ++ with_val e v ::
                List.filter (keeps checksum k) seg ++
                drop (S end_elt) (a_elts t)).
    replace (take m (a_elts t) ++ with_val e v ::
               List.filter (keeps checksum k) seg ++
               drop (S end_elt) (a_elts t) ++ J'') with (L ++ J'').
    2:{ unfold L. rewrite <- !app_assoc. simpl. rewrite <- !app_assoc.
        reflexivity. }
    apply take_app_length'. unfold L.
    rewrite length_app, length_take_le by lia. simpl.
    rewrite length_app, length_drop. lia.
Qed.

(** ** [xm_table_unset] at a match *)

Lemma unset_found_spec `{Target} t checksum k m e end_elt :
  a_elts t !! m = Some e -> m <= end_elt -> S end_elt <= a_nelts t ->
  unset_found t checksum k m end_elt =
  table_reindex
    (take m (a_elts t) ++
     List.filter (keeps checksum k)
       (take (end_elt - m) (drop (S m) (a_elts t))) ++
     drop (S end_elt) (a_elts t)) t.
Proof.
  intros Hm Hle Hend. unfold a_nelts in Hend.
  pose proof (lookup_lt_Some _ _ _ Hm) as Hlt.
  set (P := take m (a_elts t)).
  set (S0 := drop (S m) (a_elts t)).
  set (seg := take (end_elt - m) S0).
  assert (HP : length P = m) by (unfold P; apply length_take_le; lia).
  assert (HS : length S0 = length (a_elts t) - S m)
    by (unfold S0; apply length_drop).
  assert (Harr : a_elts t = P ++ [e] ++ S0).
  { unfold P, S0. symmetry. apply take_drop_middle, Hm. }
  assert (Hdd : drop (end_elt - m) S0 = drop (S end_elt) (a_elts t)).
  { unfold S0. rewrite drop_drop. f_equal. lia. }
  unfold unset_found, a_nelts.
  replace (S end_elt - S m) with (end_elt - m) by lia.
  destruct (unset_dups_loop_spec checksum k (end_elt - m) P [e] S0
              (length (a_elts t) - 1)) as (J' & HJ' & Hs);
    [discriminate | lia |].
  rewrite HP in Hs. simpl length in Hs. rewrite Nat.add_1_r in Hs.
  rewrite <- Harr in Hs. rewrite Hs. fold seg in HJ' |- *.
  pose proof (filter_take_length (keeps checksum k) (end_elt - m) S0)
    as Hfl. fold seg in Hfl.
  destruct (shift_loop_spec (drop (end_elt - m) S0)
              (P ++ List.filter (keeps checksum k) seg) J')
    as (J'' & HJ'' & Hsh).
  { intros ->. simpl in HJ'. lia. }
  rewrite length_drop, length_app, HP, HJ', HS in Hsh. simpl in Hsh.
  replace (length (a_elts t) - S m - (end_elt - m))
    with (length (a_elts t) - S end_elt) in Hsh by lia.
  replace (m + length (List.filter (keeps checksum k) seg) +
           S (end_elt - m - length (List.filter (keeps checksum k) seg)))
    with (S end_elt) in Hsh by lia.
  rewrite Hsh. f_equal. rewrite Hdd.
  rewrite !app_assoc. apply take_app_length'.
  rewrite !length_app, HP, length_drop. lia.
Qed.

(** ** Scans for the first match *)

Lemma scan_cases (p : xm_table_entry_t -> bool) elts n :
  forall i,
  no_match_in p elts i (i + n) \/
  exists m e, i <= m < i + n /\ elts !! m = Some e /\ p e = true /\
    no_match_in p elts i m.
Proof.
  induction n as [| n IH]; intros i.
  - left. intros q e Hq. lia.
  - destruct (elts !! i) as [e |] eqn:Ei.
    + destruct (p e) eqn:Ep.
      * right. exists i, e. repeat split; try lia; try assumption.
        intros q e' Hq. lia.
      * destruct (IH (S i)) as [Hno | (m & e' & Hm & He' & Hp & Hno)].
        -- left. intros q e' Hq Hq'.
           destruct (decide (q = i)) as [-> | Hne]; [congruence |].
           apply (Hno q); [lia | assumption].
        -- right. exists m, e'. repeat split; try lia; try assumption.
           intros q e'' Hq Hq'.
           destruct (decide (q = i)) as [-> | Hne]; [congruence |].
           apply (Hno q); [lia | assumption].
    + destruct (IH (S i)) as [Hno | (m & e' & Hm & He' & Hp & Hno)].
      * left. intros q e' Hq Hq'.
        destruct (decide (q = i)) as [-> | Hne]; [congruence |].
        apply (Hno q); [lia | assumption].
      * right. exists m, e'. repeat split; try lia; try assumption.
        intros q e'' Hq Hq'.
        destruct (decide (q = i)) as [-> | Hne]; [congruence |].
        apply (Hno q); [lia | assumption].
Qed.

Section Scans.
Context `{Target}.
Variable t : xm_table_t.
Variable checksum : Z.
Variable k : string.

Lemma get_loop_none n :
  forall i, no_match_in (entry_matches checksum k) (a_elts t) i (i + n) ->
  get_loop (a_elts t) checksum k i n = None.
Proof.
  induction n as [| n IH]; intros i Hno; simpl; [reflexivity |].
  assert (Hrest : no_match_in (entry_matches checksum k) (a_elts t) (S i) (S i + n))
    by (intros q e Hq; apply Hno; lia).
  destruct (a_elts t !! i) as [e |] eqn:Ei; [| apply IH, Hrest].
  rewrite (Hno i e) by (lia || assumption). apply IH, Hrest.
Qed.

Lemma get_loop_found n :
  forall i m e, i <= m < i + n -> a_elts t !! m = Some e -> entry_matches checksum k e = true ->
  no_match_in (entry_matches checksum k) (a_elts t) i m ->
  get_loop (a_elts t) checksum k i n = Some (val e).
Proof.
  induction n as [| n IH]; intros i m e Hm He Hp Hno; [lia |]. simpl.
  destruct (decide (m = i)) as [-> | Hne].
  - rewrite He, Hp. reflexivity.
  - assert (Hrest : no_match_in (entry_matches checksum k) (a_elts t) (S i) m)
      by (intros q e' Hq; apply Hno; lia).
    destruct (a_elts t !! i) as [e' |] eqn:Ei.
    + rewrite (Hno i e') by (lia || assumption).
      apply (IH (S i) m e); (lia || assumption).
    + apply (IH (S i) m e); (lia || assumption).
Qed.

Lemma set_loop_none v end_elt n :
  forall i, no_match_in (entry_matches checksum k) (a_elts t) i (i + n) ->
  set_loop t checksum k v end_elt i n = None.
Proof.
  induction n as [| n IH]; intros i Hno; simpl; [reflexivity |].
  assert (Hrest : no_match_in (entry_matches checksum k) (a_elts t) (S i) (S i + n))
    by (intros q e Hq; apply Hno; lia).
  destruct (a_elts t !! i) as [e |] eqn:Ei; [| apply IH, Hrest].
  rewrite (Hno i e) by (lia || assumption). apply IH, Hrest.
Qed.

Lemma set_loop_found v end_elt n :
  forall i m e, i <= m < i + n -> a_elts t !! m = Some e -> entry_matches checksum k e = true ->
  no_match_in (entry_matches checksum k) (a_elts t) i m ->
  set_loop t checksum k v end_elt i n =
  Some (set_found t checksum k v m e end_elt).
Proof.
  induction n as [| n IH]; intros i m e Hm He Hp Hno; [lia |]. simpl.
  destruct (decide (m = i)) as [-> | Hne].
  - rewrite He, Hp. reflexivity.
  - assert (Hrest : no_match_in (entry_matches checksum k) (a_elts t) (S i) m)
      by (intros q e' Hq; apply Hno; lia).
    destruct (a_elts t !! i) as [e' |] eqn:Ei.
    + rewrite (Hno i e') by (lia || assumption).
      apply (IH (S i) m e); (lia || assumption).
    + apply (IH (S i) m e); (lia || assumption).
Qed.

Lemma unset_loop_none end_elt n :
  forall i, no_match_in (entry_matches checksum k) (a_elts t) i (i + n) ->
  unset_loop t checksum k end_elt i n = t.
Proof.
  induction n as [| n IH]; intros i Hno; simpl; [reflexivity |].
  assert (Hrest : no_match_in (entry_matches checksum k) (a_elts t) (S i) (S i + n))
    by (intros q e Hq; apply Hno; lia).
  destruct (a_elts t !! i) as [e |] eqn:Ei; [| apply IH, Hrest].
  rewrite (Hno i e) by (lia || assumption). apply IH, Hrest.
Qed.

Lemma unset_loop_found end_elt n :
  forall i m e, i <= m < i + n -> a_elts t !! m = Some e -> entry_matches checksum k e = true ->
  no_match_in (entry_matches checksum k) (a_elts t) i m ->
  unset_loop t checksum k end_elt i n = unset_found t checksum k m end_elt.
Proof.
  induction n as [| n IH]; intros i m e Hm He Hp Hno; [lia |]. simpl.
  destruct (decide (m = i)) as [-> | Hne].
  - rewrite He, Hp. reflexivity.
  - assert (Hrest : no_match_in (entry_matches checksum k) (a_elts t) (S i) m)
      by (intros q e' Hq; apply Hno; lia).
    destruct (a_elts t !! i) as [e' |] eqn:Ei.
    + rewrite (Hno i e') by (lia || assumption).
      apply (IH (S i) m e); (lia || assumption).
    + apply (IH (S i) m e); (lia || assumption).
Qed.

End Scans.

(** ** From positions to sequences *)

Lemma no_match_Forall (p : xm_table_entry_t -> bool) elts i j :
  no_match_in p elts i j ->
  Forall (fun e => p e = false) (take (j - i) (drop i elts)).
Proof.
  intros Hno. apply Forall_lookup. intros q e Hq.
  apply lookup_take_Some in Hq as [Hq Hlt].
  rewrite lookup_drop in Hq. apply (Hno (i + q)); [lia | exact Hq].
Qed.

Lemma no_match_all (p : xm_table_entry_t -> bool) elts :
  no_match_in p elts 0 (length elts) -> Forall (fun e => p e = false) elts.
Proof.
  intros Hno. apply no_match_Forall in Hno.
  rewrite drop_0, Nat.sub_0_r, take_ge in Hno by lia. exact Hno.
Qed.

Lemma no_match_join (p : xm_table_entry_t -> bool) elts i j l :
  no_match_in p elts i j -> no_match_in p elts j l ->
  no_match_in p elts i l.
Proof.
  intros H1 H2 q e Hq He.
  destruct (Nat.lt_ge_cases q j); [apply (H1 q) | apply (H2 q)];
    (lia || assumption).
Qed.

Lemma no_match_agree (p p' : xm_table_entry_t -> bool) elts i j :
  (forall q e, elts !! q = Some e -> p e = p' e) ->
  no_match_in p elts i j -> no_match_in p' elts i j.
Proof.
  intros Hag Hno q e Hq He. rewrite <- (Hag q e He). exact (Hno q e Hq He).
Qed.

Lemma filter_none (p : xm_table_entry_t -> bool) l :
  Forall (fun e => p e = false) l -> List.filter p l = [].
Proof.
  induction 1 as [| e l He _ IH]; simpl; [reflexivity |].
  rewrite He. exact IH.
Qed.

Lemma filter_neg_all (p : xm_table_entry_t -> bool) l :
  Forall (fun e => p e = false) l -> List.filter (fun e => negb (p e)) l = l.
Proof.
  induction 1 as [| e l He _ IH]; simpl; [reflexivity |].
  rewrite He. simpl. rewrite IH. reflexivity.
Qed.

Lemma filter_agree (p p' : xm_table_entry_t -> bool) l :
  Forall (fun e => p e = p' e) l -> List.filter p l = List.filter p' l.
Proof.
  induction 1 as [| e l He _ IH]; simpl; [reflexivity |].
  rewrite He, IH. reflexivity.
Qed.

Lemma Forall_list_filter (P : xm_table_entry_t -> Prop)
    (p : xm_table_entry_t -> bool) l :
  Forall P l -> Forall P (List.filter p l).
Proof.
  induction 1 as [| e l He _ IH]; simpl; [constructor |].
  destruct (p e); [constructor |]; assumption.
Qed.

Lemma set_elts_no_match checksum k v l :
  Forall (fun e => key_is k e = false) l ->
  forall l', set_elts checksum k v (l ++ l') = l ++ set_elts checksum k v l'.
Proof.
  induction 1 as [| e l He _ IH]; intros l'; simpl; [reflexivity |].
  rewrite He, IH. reflexivity.
Qed.

(** ** The bucket bounds the entries of a key *)

Lemma key_is_entry_hash k e :
  key_is k e = true -> entry_hash e = TABLE_HASH k.
Proof.
  unfold key_is, entry_hash. intros Hk. apply strcasecmp_hash.
  apply Z.eqb_eq, Hk.
Qed.

Lemma key_is_false_outside elts init first last k q e :
  index_ok elts init first last ->
  elts !! q = Some e ->
  index_is_initialized init (TABLE_HASH k) = false \/
  q < first !!! TABLE_HASH k \/ last !!! TABLE_HASH k < q ->
  key_is k e = false.
Proof.
  intros (_ & _ & Hin & _) He Hout.
  destruct (key_is k e) eqn:Ek; [| reflexivity].
  apply key_is_entry_hash in Ek.
  destruct (Hin q e He) as [Hb Hr]. rewrite Ek in Hb, Hr.
  destruct Hout as [Hf | Hout]; [congruence | lia].
Qed.

Lemma matches_agree `{Target} k elts q e :
  Forall entry_ok elts -> elts !! q = Some e ->
  entry_matches (COMPUTE_KEY_CHECKSUM k) k e = key_is k e.
Proof.
  intros Hall He. apply entry_matches_key_is.
  exact (Forall_lookup_1 _ _ _ _ Hall He).
Qed.

Lemma keeps_agree `{Target} k l :
  Forall entry_ok l ->
  List.filter (keeps (COMPUTE_KEY_CHECKSUM k) k) l =
  List.filter (fun e => negb (key_is k e)) l.
Proof.
  intros Hall. apply filter_agree.
  eapply Forall_impl; [exact Hall |].
  intros e He. unfold keeps. rewrite entry_matches_key_is by exact He.
  reflexivity.
Qed.

(** What a scan of the bucket of [k] meets in a table that satisfies the
    invariant: no entry of the key anywhere, or a first one at [m] with
    none before it and none past the end of the range. *)
Lemma key_cases `{Target} t k :
  table_ok t ->
  let h := TABLE_HASH k in
  let checksum := COMPUTE_KEY_CHECKSUM k in
  let f := index_first t !!! h in
  let l := index_last t !!! h in
  (Forall (fun e => key_is k e = false) (a_elts t) /\
   (TABLE_INDEX_IS_INITIALIZED t h = false \/
    (TABLE_INDEX_IS_INITIALIZED t h = true /\ l < a_nelts t /\
     no_match_in (entry_matches checksum k) (a_elts t) f (f + (S l - f)))))
  \/
  (TABLE_INDEX_IS_INITIALIZED t h = true /\
   exists m e, f <= m < f + (S l - f) /\ m <= l /\ l < a_nelts t /\
     a_elts t !! m = Some e /\
     entry_matches checksum k e = true /\ key_is k e = true /\
     no_match_in (entry_matches checksum k) (a_elts t) f m /\
     Forall (fun e => key_is k e = false) (take m (a_elts t)) /\
     Forall (fun e => key_is k e = false) (drop (S l) (a_elts t))).
Proof.
  intros [Hall Hidx] h checksum f l.
  assert (Hag : forall q e, a_elts t !! q = Some e ->
            entry_matches checksum k e = key_is k e)
    by (intros q e He; exact (matches_agree k _ q e Hall He)).
  assert (Hag' : forall q e, a_elts t !! q = Some e ->
            key_is k e = entry_matches checksum k e)
    by (intros q e He; symmetry; exact (Hag q e He)).
  unfold TABLE_INDEX_IS_INITIALIZED.
  destruct (index_is_initialized (index_initialized t) h) eqn:Eb.
  2:{ left. split; [| left; reflexivity].
      apply Forall_lookup. intros q e He.
      apply (key_is_false_outside _ _ _ _ k q e Hidx He). left. exact Eb. }
  pose proof Hidx as (_ & _ & _ & Hbd).
  specialize (Hbd h (TABLE_HASH_lt k) Eb). fold f l in Hbd.
  assert (Hpre : no_match_in (key_is k) (a_elts t) 0 f).
  { intros q e Hq He.
    apply (key_is_false_outside _ _ _ _ k q e Hidx He).
    right. left. fold h f. lia. }
  assert (Hpost : no_match_in (key_is k) (a_elts t) (S l)
                    (length (a_elts t))).
  { intros q e Hq He.
    apply (key_is_false_outside _ _ _ _ k q e Hidx He).
    right. right. fold h l. lia. }
  destruct (scan_cases (entry_matches checksum k) (a_elts t) (S l - f) f)
    as [Hno | (m & e & Hm & He & Hp & Hno)].
  - left. split.
    + apply no_match_all.
      apply (no_match_join _ _ 0 f); [exact Hpre |].
      apply (no_match_join _ _ f (S l)); [| exact Hpost].
      replace (f + (S l - f)) with (S l) in Hno by lia.
      exact (no_match_agree _ _ _ _ _ Hag Hno).
    + right. repeat split; [unfold a_nelts; lia | exact Hno].
  - right. split; [reflexivity |].
    exists m, e. repeat split; try assumption; try lia.
    + unfold a_nelts; lia.
    + rewrite <- (Hag m e He). exact Hp.
    + pose proof (no_match_Forall (key_is k) (a_elts t) 0 m) as HF.
      rewrite drop_0, Nat.sub_0_r in HF. apply HF.
      apply (no_match_join _ _ 0 f); [exact Hpre |].
      exact (no_match_agree _ _ _ _ _ Hag Hno).
    + pose proof (no_match_Forall (key_is k) (a_elts t) (S l)
                    (length (a_elts t)) Hpost) as HF.
      rewrite take_ge in HF by (rewrite length_drop; lia). exact HF.
Qed.

(** ** Lookup *)

Lemma xm_table_get_spec `{Target} t k :
  table_ok t ->
  xm_table_get t (Some k) = val <$> head (List.filter (key_is k) (a_elts t)).
Proof.
  intros Hok. unfold xm_table_get.
  destruct (key_cases t k Hok) as
    [[Hall [Hb | (Hb & _ & Hno)]] |
     (Hb & m & e & Hm & _ & _ & He & Hp & Hk & Hno & Hpre & _)];
    rewrite Hb; simpl negb; cbv iota.
  - rewrite (filter_none _ _ Hall). reflexivity.
  - rewrite (get_loop_none t _ _ _ _ Hno), (filter_none _ _ Hall).
    reflexivity.
  - rewrite (get_loop_found t _ _ _ _ m e Hm He Hp Hno).
    rewrite <- (take_drop_middle _ _ _ He), List.filter_app.
    rewrite (filter_none _ _ Hpre). simpl. rewrite Hk. reflexivity.
Qed.

(** ** [xm_table_add] and [add_new_elt] *)

Lemma new_entry_ok `{Target} k v :
  entry_ok {| key := Some (xm_pstrdup k); val := xm_pstrdup v;
              key_checksum := COMPUTE_KEY_CHECKSUM k |}.
Proof. exists k. split; reflexivity. Qed.

Lemma xm_table_add_ok `{Target} t k v :
  table_ok t -> table_ok (xm_table_add t k v).
Proof.
  intros [Hall Hidx]. unfold xm_table_add, TABLE_INDEX_IS_INITIALIZED.
  pose proof (index_ok_push _ _ _ _
    {| key := Some (xm_pstrdup k); val := xm_pstrdup v;
       key_checksum := COMPUTE_KEY_CHECKSUM k |} Hidx) as Hpush.
  change (entry_hash _) with (TABLE_HASH k) in Hpush.
  destruct (index_is_initialized (index_initialized t) (TABLE_HASH k));
    simpl negb; cbv iota; (split; simpl; [| exact Hpush]);
    (apply Forall_app; split; [exact Hall |]);
    (constructor; [apply new_entry_ok | constructor]).
Qed.

Lemma xm_table_add_elts `{Target} t k v :
  a_elts (xm_table_add t k v) =
  a_elts t ++ [ {| key := Some k; val := v;
                   key_checksum := COMPUTE_KEY_CHECKSUM k |} ].
Proof.
  unfold xm_table_add.
  destruct (negb (TABLE_INDEX_IS_INITIALIZED t (TABLE_HASH k))); reflexivity.
Qed.

(** ** [xm_table_set] *)

Lemma with_val_ok `{Target} e v : entry_ok e -> entry_ok (with_val e v).
Proof. intros (k & Hk & Hc). exists k. split; assumption. Qed.

Lemma index_ok_same_hashes elts elts' init first last :
  map entry_hash elts' = map entry_hash elts ->
  index_ok elts init first last -> index_ok elts' init first last.
Proof.
  intros Hmap (Hlf & Hll & Hin & Hbd).
  assert (Hlen : length elts' = length elts).
  { rewrite <- (length_map entry_hash elts'), Hmap. apply length_map. }
  repeat split; try assumption.
  - assert (Hl : map entry_hash elts' !! i = Some (entry_hash e))
      by (rewrite list_lookup_fmap, H; reflexivity).
    rewrite Hmap, list_lookup_fmap in Hl.
    destruct (elts !! i) as [e0 |] eqn:E0; [| discriminate].
    simpl in Hl. injection Hl as Hl. rewrite <- Hl.
    apply (Hin i e0 E0).
  - assert (Hl : map entry_hash elts' !! i = Some (entry_hash e))
      by (rewrite list_lookup_fmap, H; reflexivity).
    rewrite Hmap, list_lookup_fmap in Hl.
    destruct (elts !! i) as [e0 |] eqn:E0; [| discriminate].
    simpl in Hl. injection Hl as Hl. rewrite <- Hl.
    apply (Hin i e0 E0).
  - assert (Hl : map entry_hash elts' !! i = Some (entry_hash e))
      by (rewrite list_lookup_fmap, H; reflexivity).
    rewrite Hmap, list_lookup_fmap in Hl.
    destruct (elts !! i) as [e0 |] eqn:E0; [| discriminate].
    simpl in Hl. injection Hl as Hl. rewrite <- Hl.
    apply (Hin i e0 E0).
  - apply (Hbd h H H0).
  - rewrite Hlen. apply (Hbd h H H0).
Qed.

Lemma table_ok_lengths `{Target} t :
  table_ok t ->
  length (index_first t) = TABLE_HASH_SIZE /\
  length (index_last t) = TABLE_HASH_SIZE.
Proof. intros [_ (Hf & Hl & _)]. split; assumption. Qed.

Lemma set_elts_ok `{Target} k v l :
  Forall entry_ok l -> Forall entry_ok (set_elts (COMPUTE_KEY_CHECKSUM k) k v l).
Proof.
  induction 1 as [| e l He Hl IH]; simpl.
  - constructor; [exists k; split; reflexivity | constructor].
  - destruct (key_is k e).
    + constructor; [apply with_val_ok, He | apply Forall_list_filter, Hl].
    + constructor; assumption.
Qed.

Lemma xm_table_set_spec `{Target} t k v :
  table_ok t ->
  a_elts (xm_table_set t k v) =
    set_elts (COMPUTE_KEY_CHECKSUM k) k v (a_elts t) /\
  table_ok (xm_table_set t k v).
Proof.
  intros Hok. pose proof Hok as [Hall Hidx].
  pose proof (table_ok_lengths t Hok) as [Hlf Hll].
  pose proof (index_ok_push _ _ _ _
    {| key := Some (xm_pstrdup k); val := xm_pstrdup v;
       key_checksum := COMPUTE_KEY_CHECKSUM k |} Hidx) as Hpush.
  change (entry_hash _) with (TABLE_HASH k) in Hpush.
  assert (Hnew : Forall entry_ok (a_elts t ++
    [ {| key := Some (xm_pstrdup k); val := xm_pstrdup v;
         key_checksum := COMPUTE_KEY_CHECKSUM k |} ])).
  { apply Forall_app; split; [exact Hall |].
    constructor; [apply new_entry_ok | constructor]. }
  assert (Happ : Forall (fun e => key_is k e = false) (a_elts t) ->
    set_elts (COMPUTE_KEY_CHECKSUM k) k v (a_elts t) =
    a_elts t ++ [ {| key := Some (xm_pstrdup k); val := xm_pstrdup v;
                     key_checksum := COMPUTE_KEY_CHECKSUM k |} ]).
  { intros Hno.
    rewrite <- (app_nil_r (a_elts t)) at 1.
    rewrite (set_elts_no_match _ _ _ _ Hno). reflexivity. }
  unfold xm_table_set.
  destruct (key_cases t k Hok) as
    [[Hno [Hb | (Hb & _ & Hscan)]] |
     (Hb & m & e & Hm & Hml & Hl & He & Hp & Hk & Hscan & Hpre & Hpost)];
    rewrite Hb; simpl negb; cbv iota.
  - unfold TABLE_INDEX_IS_INITIALIZED in Hb. rewrite Hb in Hpush.
    split; [simpl; symmetry; apply Happ, Hno |].
    split; simpl; [exact Hnew | exact Hpush].
  - rewrite (set_loop_none t _ _ _ _ _ _ Hscan).
    unfold TABLE_INDEX_IS_INITIALIZED in Hb. rewrite Hb in Hpush.
    split; [simpl; symmetry; apply Happ, Hno |].
    split; simpl; [exact Hnew | exact Hpush].
  - rewrite (set_loop_found t _ _ _ _ _ _ m e Hm He Hp Hscan).
    set (seg := take (index_last t !!! TABLE_HASH k - m)
                  (drop (S m) (a_elts t))).
    assert (Hspec : set_elts (COMPUTE_KEY_CHECKSUM k) k v (a_elts t) =
      take m (a_elts t) ++ with_val e v ::
        List.filter (keeps (COMPUTE_KEY_CHECKSUM k) k) seg ++
        drop (S (index_last t !!! TABLE_HASH k)) (a_elts t)).
    { rewrite <- (take_drop_middle _ _ _ He) at 1.
      rewrite (set_elts_no_match _ _ _ _ Hpre). simpl. rewrite Hk.
      f_equal. f_equal.
      rewrite <- (take_drop (index_last t !!! TABLE_HASH k - m)
                    (drop (S m) (a_elts t))) at 1.
      rewrite List.filter_app. fold seg. f_equal.
      - symmetry. apply keeps_agree. unfold seg.
        apply Forall_take, Forall_drop, Hall.
      - rewrite drop_drop.
        replace (S m + (index_last t !!! TABLE_HASH k - m))
          with (S (index_last t !!! TABLE_HASH k)) by lia.
        apply filter_neg_all, Hpost. }
    destruct (set_found_spec t (COMPUTE_KEY_CHECKSUM k) k v m e
                (index_last t !!! TABLE_HASH k) He Hml)
      as [[Hkeep Hs] | [Hlt Hs]]; [unfold a_nelts in *; lia | |];
      fold seg in Hkeep || fold seg in Hlt; rewrite Hs.
    + assert (Hins : <[m := with_val e v]> (a_elts t) =
        set_elts (COMPUTE_KEY_CHECKSUM k) k v (a_elts t)).
      { rewrite Hspec, Hkeep.
        rewrite insert_take_drop by (eapply lookup_lt_Some; exact He).
        f_equal. f_equal.
        rewrite <- (take_drop (index_last t !!! TABLE_HASH k - m)
                      (drop (S m) (a_elts t))) at 1.
        fold seg. f_equal. rewrite drop_drop. f_equal. lia. }
      split; [exact Hins |].
      split; simpl.
      * rewrite Hins. apply set_elts_ok, Hall.
      * eapply index_ok_same_hashes; [| exact Hidx].
        rewrite list_fmap_insert. apply list_insert_id.
        rewrite list_lookup_fmap, He. reflexivity.
    + fold seg. rewrite <- Hspec.
      split; [apply table_reindex_elts |].
      apply table_reindex_ok; [assumption | assumption |].
      apply set_elts_ok, Hall.
Qed.

Lemma key_is_with_val k e v : key_is k (with_val e v) = key_is k e.
Proof. reflexivity. Qed.

Lemma filter_filter_neg (p : xm_table_entry_t -> bool) l :
  List.filter p (List.filter (fun e => negb (p e)) l) = [].
Proof.
  induction l as [| e l IH]; simpl; [reflexivity |].
  destruct (p e) eqn:Ep; simpl; [exact IH |].
  rewrite Ep. exact IH.
Qed.

Lemma filter_nil_Forall (p : xm_table_entry_t -> bool) l :
  List.filter p l = [] -> Forall (fun e => p e = false) l.
Proof.
  induction l as [| e l IH]; simpl; [constructor |].
  destruct (p e) eqn:Ep; [discriminate |].
  intros Hl. constructor; [exact Ep | exact (IH Hl)].
Qed.

(** After [set] the key has exactly one entry, and it holds the value. *)
Lemma set_elts_matching checksum k v l :
  exists e, val e = v /\
    List.filter (key_is k) (set_elts checksum k v l) = [e].
Proof.
  induction l as [| e l IH]; simpl.
  - eexists. split; [| unfold key_is at 1; simpl;
                       rewrite strcasecmp_refl; reflexivity].
    reflexivity.
  - destruct (key_is k e) eqn:Ek; simpl.
    + exists (with_val e v). split; [reflexivity |].
      rewrite key_is_with_val, Ek, filter_filter_neg. reflexivity.
    + rewrite Ek. exact IH.
Qed.

Lemma set_elts_length_one checksum k v l e :
  List.filter (key_is k) l = [e] ->
  length (set_elts checksum k v l) = length l.
Proof.
  revert e. induction l as [| e0 l IH]; intros e; simpl; [discriminate |].
  destruct (key_is k e0) eqn:Ek; simpl.
  - intros Hl. injection Hl as _ Hl.
    rewrite (filter_neg_all _ _ (filter_nil_Forall _ _ Hl)). reflexivity.
  - intros Hl. rewrite (IH e Hl). reflexivity.
Qed.

(** C3. In a table that satisfies the invariant, [get(K)] after
    [set(K, V)] returns [V]; after a second [set(K, V)] it still does,
    exactly one entry has a key equal to [K] case-insensitively, and the
    table has not grown. *)
Theorem set_then_get `{Target} (t : xm_table_t) (K V : string) :
  table_ok t ->
  xm_table_get (xm_table_set t K V) (Some K) = Some V /\
  xm_table_get (xm_table_set (xm_table_set t K V) K V) (Some K) = Some V /\
  length (List.filter (key_is K)
            (a_elts (xm_table_set (xm_table_set t K V) K V))) = 1 /\
  a_nelts (xm_table_set (xm_table_set t K V) K V) =
    a_nelts (xm_table_set t K V).
Proof.
  intros Hok.
  destruct (xm_table_set_spec t K V Hok) as [He1 Hok1].
  destruct (xm_table_set_spec _ K V Hok1) as [He2 Hok2].
  destruct (set_elts_matching (COMPUTE_KEY_CHECKSUM K) K V (a_elts t))
    as (e1 & Hv1 & Hf1).
  destruct (set_elts_matching (COMPUTE_KEY_CHECKSUM K) K V
              (a_elts (xm_table_set t K V))) as (e2 & Hv2 & Hf2).
  rewrite <- He1 in Hf1. rewrite <- He2 in Hf2.
  repeat split.
  - rewrite (xm_table_get_spec _ K Hok1), Hf1. simpl. rewrite Hv1.
    reflexivity.
  - rewrite (xm_table_get_spec _ K Hok2), Hf2. simpl. rewrite Hv2.
    reflexivity.
  - rewrite Hf2. reflexivity.
  - unfold a_nelts. rewrite He2.
    apply (set_elts_length_one _ _ _ _ e1 Hf1).
Qed.

(** ** [xm_table_unset] *)

Lemma xm_table_unset_spec `{Target} t k :
  table_ok t ->
  a_elts (xm_table_unset t k) =
    List.filter (fun e => negb (key_is k e)) (a_elts t) /\
  table_ok (xm_table_unset t k).
Proof.
  intros Hok. pose proof Hok as [Hall Hidx].
  pose proof (table_ok_lengths t Hok) as [Hlf Hll].
  unfold xm_table_unset.
  destruct (key_cases t k Hok) as
    [[Hno [Hb | (Hb & _ & Hscan)]] |
     (Hb & m & e & Hm & Hml & Hl & He & Hp & Hk & Hscan & Hpre & Hpost)];
    rewrite Hb; simpl negb; cbv iota.
  - split; [symmetry; apply filter_neg_all, Hno | exact Hok].
  - rewrite (unset_loop_none t _ _ _ _ _ Hscan).
    split; [symmetry; apply filter_neg_all, Hno | exact Hok].
  - rewrite (unset_loop_found t _ _ _ _ _ m e Hm He Hp Hscan).
    rewrite (unset_found_spec t _ k m e _ He Hml) by (unfold a_nelts in *; lia).
    set (seg := take (index_last t !!! TABLE_HASH k - m)
                  (drop (S m) (a_elts t))).
    assert (Hspec : List.filter (fun e => negb (key_is k e)) (a_elts t) =
      take m (a_elts t) ++
        List.filter (keeps (COMPUTE_KEY_CHECKSUM k) k) seg ++
        drop (S (index_last t !!! TABLE_HASH k)) (a_elts t)).
    { rewrite <- (take_drop_middle _ _ _ He) at 1.
      rewrite List.filter_app, (filter_neg_all _ _ Hpre). simpl.
      rewrite Hk. simpl. f_equal.
      rewrite <- (take_drop (index_last t !!! TABLE_HASH k - m)
                    (drop (S m) (a_elts t))) at 1.
      rewrite List.filter_app. fold seg. f_equal.
      - symmetry. apply keeps_agree. unfold seg.
        apply Forall_take, Forall_drop, Hall.
      - rewrite drop_drop.
        replace (S m + (index_last t !!! TABLE_HASH k - m))
          with (S (index_last t !!! TABLE_HASH k)) by lia.
        apply filter_neg_all, Hpost. }
    rewrite <- Hspec.
    split; [apply table_reindex_elts |].
    apply table_reindex_ok; [assumption | assumption |].
    apply Forall_list_filter, Hall.
Qed.

(** C5. In a table that satisfies the invariant, [unset(K)] leaves the
    entries whose key differs from [K], each as it was and in their
    order, and no entry whose key equals [K] case-insensitively; it
    changes nothing when the bucket of [K] was never populated. *)
Theorem unset_removes_key `{Target} (t : xm_table_t) (K : string) :
  table_ok t ->
  a_elts (xm_table_unset t K) =
    List.filter (fun e => negb (key_is K e)) (a_elts t) /\
  List.filter (key_is K) (a_elts (xm_table_unset t K)) = [] /\
  (TABLE_INDEX_IS_INITIALIZED t (TABLE_HASH K) = false ->
   xm_table_unset t K = t).
Proof.
  intros Hok. destruct (xm_table_unset_spec t K Hok) as [He _].
  split; [exact He |]. split.
  - rewrite He. apply filter_filter_neg.
  - intros Hb. unfold xm_table_unset. rewrite Hb. reflexivity.
Qed.

(** ** [xm_table_merge] and the tables a program can build *)

Lemma merge_loop_none `{Target} t checksum k v n :
  forall i, no_match_in (entry_matches checksum k) (a_elts t) i (i + n) ->
  merge_loop t checksum k v i n = None.
Proof.
  induction n as [| n IH]; intros i Hno; simpl; [reflexivity |].
  assert (Hrest : no_match_in (entry_matches checksum k) (a_elts t)
                    (S i) (S i + n))
    by (intros q e Hq; apply Hno; lia).
  destruct (a_elts t !! i) as [e |] eqn:Ei; [| apply IH, Hrest].
  rewrite (Hno i e) by (lia || assumption). apply IH, Hrest.
Qed.

Lemma merge_loop_found `{Target} t checksum k v n :
  forall i m e, i <= m < i + n -> a_elts t !! m = Some e ->
  entry_matches checksum k e = true ->
  no_match_in (entry_matches checksum k) (a_elts t) i m ->
  merge_loop t checksum k v i n =
  Some {| a_elts :=
            <[m := with_val e (xm_pstrcat3 (val e) ", " v)]> (a_elts t);
          index_initialized := index_initialized t;
          index_first := index_first t;
          index_last := index_last t |}.
Proof.
  induction n as [| n IH]; intros i m e Hm He Hp Hno; [lia |]. simpl.
  destruct (decide (m = i)) as [-> | Hne].
  - rewrite He, Hp. reflexivity.
  - assert (Hrest : no_match_in (entry_matches checksum k) (a_elts t)
                      (S i) m)
      by (intros q e' Hq; apply Hno; lia).
    destruct (a_elts t !! i) as [e' |] eqn:Ei.
    + rewrite (Hno i e') by (lia || assumption).
      apply (IH (S i) m e); (lia || assumption).
    + apply (IH (S i) m e); (lia || assumption).
Qed.

Lemma xm_table_merge_ok `{Target} t k v :
  table_ok t -> table_ok (xm_table_merge t k v).
Proof.
  intros Hok. pose proof Hok as [Hall Hidx].
  pose proof (index_ok_push _ _ _ _
    {| key := Some (xm_pstrdup k); val := xm_pstrdup v;
       key_checksum := COMPUTE_KEY_CHECKSUM k |} Hidx) as Hpush.
  change (entry_hash _) with (TABLE_HASH k) in Hpush.
  assert (Hnew : Forall entry_ok (a_elts t ++
    [ {| key := Some (xm_pstrdup k); val := xm_pstrdup v;
         key_checksum := COMPUTE_KEY_CHECKSUM k |} ])).
  { apply Forall_app; split; [exact Hall |].
    constructor; [apply new_entry_ok | constructor]. }
  unfold xm_table_merge.
  destruct (key_cases t k Hok) as
    [[Hno [Hb | (Hb & _ & Hscan)]] |
     (Hb & m & e & Hm & Hml & Hl & He & Hp & Hk & Hscan & Hpre & Hpost)];
    rewrite Hb; simpl negb; cbv iota.
  - unfold TABLE_INDEX_IS_INITIALIZED in Hb. rewrite Hb in Hpush.
    split; simpl; [exact Hnew | exact Hpush].
  - rewrite (merge_loop_none t _ _ _ _ _ Hscan).
    unfold TABLE_INDEX_IS_INITIALIZED in Hb. rewrite Hb in Hpush.
    split; simpl; [exact Hnew | exact Hpush].
  - rewrite (merge_loop_found t _ _ _ _ _ m e Hm He Hp Hscan).
    split; simpl.
    + apply Forall_insert; [exact Hall |].
      apply with_val_ok. exact (Forall_lookup_1 _ _ _ _ Hall He).
    + eapply index_ok_same_hashes; [| exact Hidx].
      rewrite list_fmap_insert. apply list_insert_id.
      rewrite list_lookup_fmap, He. reflexivity.
Qed.

Lemma apply_op_ok `{Target} t op : table_ok t -> table_ok (apply_op t op).
Proof.
  intros Hok. destruct op as [k v | k v | k v | k]; simpl.
  - apply xm_table_add_ok, Hok.
  - apply xm_table_set_spec, Hok.
  - apply xm_table_merge_ok, Hok.
  - apply xm_table_unset_spec, Hok.
Qed.

(** Every table built from [xm_table_make] by [add], [set], [merge] and
    [unset] satisfies the invariant. *)
Lemma run_ops_ok `{Target} ops : table_ok (run_ops ops).
Proof.
  unfold run_ops. generalize xm_table_make_ok.
  generalize xm_table_make.
  induction ops as [| op ops IH]; intros t Hok; simpl; [exact Hok |].
  apply IH, apply_op_ok, Hok.
Qed.

Lemma set_then_get_witness :
  @table_ok x86_64
    (@run_ops x86_64 [OpAdd "Host" "a"; OpAdd "Via" "b"; OpAdd "host" "c"]) /\
  @xm_table_get x86_64
    (@xm_table_set x86_64
       (@run_ops x86_64 [OpAdd "Host" "a"; OpAdd "Via" "b"; OpAdd "host" "c"])
       "HOST" "d") (Some "HOST") = Some "d".
Proof.
  split; [apply run_ops_ok |].
  apply (@set_then_get x86_64
           (@run_ops x86_64
              [OpAdd "Host" "a"; OpAdd "Via" "b"; OpAdd "host" "c"])
           "HOST" "d").
  apply run_ops_ok.
Defined.

Lemma unset_removes_key_witness :
  @table_ok x86_64
    (@run_ops x86_64 [OpAdd "Host" "a"; OpAdd "Via" "b"; OpAdd "host" "c"]) /\
  a_elts (@xm_table_unset x86_64
    (@run_ops x86_64 [OpAdd "Host" "a"; OpAdd "Via" "b"; OpAdd "host" "c"])
    "HOST") =
  [ {| key := Some "Via"; val := "b";
       key_checksum := @COMPUTE_KEY_CHECKSUM x86_64 "Via" |} ].
Proof.
  split; [apply run_ops_ok |].
  apply (@unset_removes_key x86_64
           (@run_ops x86_64
              [OpAdd "Host" "a"; OpAdd "Via" "b"; OpAdd "host" "c"])
           "HOST").
  apply run_ops_ok.
Defined.

(** ** Iteration *)

Lemma bucket_filter `{Target} t k :
  table_ok t ->
  TABLE_INDEX_IS_INITIALIZED t (TABLE_HASH k) = true ->
  List.filter (entry_matches (COMPUTE_KEY_CHECKSUM k) k)
    (take (S (index_last t !!! TABLE_HASH k) - index_first t !!! TABLE_HASH k)
       (drop (index_first t !!! TABLE_HASH k) (a_elts t))) =
  List.filter (key_is k) (a_elts t).
Proof.
  intros [Hall Hidx] Hb.
  set (f := index_first t !!! TABLE_HASH k).
  set (l := index_last t !!! TABLE_HASH k).
  pose proof Hidx as (_ & _ & _ & Hbd).
  specialize (Hbd _ (TABLE_HASH_lt k) Hb). fold f l in Hbd.
  rewrite <- (take_drop f (a_elts t)) at 2.
  rewrite <- (take_drop (S l - f) (drop f (a_elts t))) at 2.
  rewrite !List.filter_app.
  rewrite (filter_none (key_is k) (take f (a_elts t))).
  2:{ apply Forall_lookup. intros q e Hq.
      apply lookup_take_Some in Hq as [Hq Hlt].
      apply (key_is_false_outside _ _ _ _ k q e Hidx Hq).
      right. left. exact Hlt. }
  rewrite (filter_none (key_is k) (drop (S l - f) (drop f (a_elts t)))).
  2:{ apply Forall_lookup. intros q e Hq.
      rewrite drop_drop, lookup_drop in Hq.
      apply (key_is_false_outside _ _ _ _ k _ e Hidx Hq).
      right. right. fold l. lia. }
  simpl. rewrite app_nil_r. apply filter_agree.
  apply Forall_take, Forall_drop.
  eapply Forall_impl; [exact Hall |].
  intros e He. apply entry_matches_key_is, He.
Qed.

Lemma bucket_empty `{Target} t k :
  table_ok t ->
  TABLE_INDEX_IS_INITIALIZED t (TABLE_HASH k) = false ->
  List.filter (key_is k) (a_elts t) = [].
Proof.
  intros [Hall Hidx] Hb. apply filter_none, Forall_lookup.
  intros q e Hq. apply (key_is_false_outside _ _ _ _ k q e Hidx Hq).
  left. exact Hb.
Qed.

Section IterateProofs.
Context `{Target} {R : Type}.
Variable comp : R -> string -> string -> Z * R.

Lemma call_each_stopped l rec : call_each comp l 0 rec = (0%Z, rec).
Proof. destruct l; reflexivity. Qed.

Lemma vdo_all_loop_spec elts :
  Forall entry_ok elts ->
  forall rv rec, vdo_all_loop comp elts rv rec = call_each comp elts rv rec.
Proof.
  induction 1 as [| e l (ek & Hk & _) _ IH]; intros rv rec; simpl;
    [reflexivity |].
  destruct (rv =? 0)%Z; [reflexivity |].
  rewrite Hk. simpl.
  destruct (comp rec ek (val e)) as [rv' rec']. apply IH.
Qed.

Lemma vdo_key_loop_spec elts checksum k :
  Forall entry_ok elts ->
  forall n i rv rec,
  vdo_key_loop comp elts checksum k i n rv rec =
  call_each comp
    (List.filter (entry_matches checksum k) (take n (drop i elts))) rv rec.
Proof.
  intros Hall. induction n as [| n IH]; intros i rv rec.
  - reflexivity.
  - cbn [vdo_key_loop].
    destruct (Z.eqb_spec rv 0) as [-> | Hrv].
    { rewrite call_each_stopped. reflexivity. }
    destruct (elts !! i) as [e |] eqn:Ei.
    + rewrite (drop_S _ _ _ Ei). cbn [take List.filter].
      destruct (Forall_lookup_1 _ _ _ _ Hall Ei) as (ek & Hk & _).
      assert (Hm : entry_matches checksum k e =
                   (checksum =? key_checksum e)%Z &&
                   (strcasecmp ek k =? 0)%Z)
        by (unfold entry_matches; rewrite Hk; reflexivity).
      rewrite Hk, <- Hm.
      destruct (entry_matches checksum k e).
      * cbn [call_each]. destruct (Z.eqb_spec rv 0); [lia |].
        rewrite Hk. change (deref (Some ek)) with ek.
        destruct (comp rec ek (val e)) as [rv' rec']. apply IH.
      * apply IH.
    + rewrite IH.
      rewrite (drop_ge elts i) by (apply lookup_ge_None; exact Ei).
      rewrite (drop_ge elts (S i))
        by (apply lookup_ge_None in Ei; lia).
      rewrite !take_nil. reflexivity.
Qed.

Lemma vdo_body_key t k rec :
  table_ok t ->
  vdo_body comp t (Some k) rec =
  call_each comp (List.filter (key_is k) (a_elts t)) 1 rec.
Proof.
  intros Hok. unfold vdo_body.
  destruct (TABLE_INDEX_IS_INITIALIZED t (TABLE_HASH k)) eqn:Hb.
  - rewrite vdo_key_loop_spec by apply Hok.
    rewrite (bucket_filter t k Hok Hb). reflexivity.
  - rewrite (bucket_empty t k Hok Hb). reflexivity.
Qed.

Lemma vdo_do_while_keys t :
  table_ok t ->
  forall vp k result rec,
  vdo_do_while comp t (Some k) vp result rec =
  iterate_keys comp (a_elts t) (k :: vp) result rec.
Proof.
  intros Hok. induction vp as [| k' vp IH]; intros k result rec.
  - cbn [vdo_do_while iterate_keys]. rewrite vdo_body_key by exact Hok.
    destruct (call_each comp _ 1 rec) as [rv rec']. reflexivity.
  - cbn [vdo_do_while]. rewrite vdo_body_key by exact Hok.
    cbn [iterate_keys].
    destruct (call_each comp _ 1 rec) as [rv rec']. apply IH.
Qed.

Lemma xm_table_vdo_spec t rec keys :
  table_ok t ->
  xm_table_vdo comp rec t keys = iterate_spec comp rec (a_elts t) keys.
Proof.
  intros Hok. unfold xm_table_vdo, iterate_spec.
  destruct keys as [| k vp].
  - cbn [vdo_do_while]. unfold vdo_body.
    rewrite vdo_all_loop_spec by apply Hok.
    destruct (call_each comp (a_elts t) 1 rec) as [rv rec']. reflexivity.
  - apply vdo_do_while_keys, Hok.
Qed.

End IterateProofs.

Section IterateLog.
Context {R : Type}.
Variable comp : R -> string -> string -> Z * R.

(** Running the recording callback is running the callback, with the
    returns of the invocations appended to the record. *)
Lemma call_each_logged l :
  forall rv rec log,
  exists new,
    call_each (logged comp) l rv (rec, log) =
      (fst (call_each comp l rv rec),
       (snd (call_each comp l rv rec), log ++ new)) /\
    (fst (call_each comp l rv rec) = 0%Z <-> rv = 0%Z \/ In 0%Z new).
Proof.
  induction l as [| e l IH]; intros rv rec log.
  - exists []. simpl. rewrite app_nil_r. split; [reflexivity | tauto].
  - cbn [call_each].
    destruct (Z.eqb_spec rv 0) as [-> | Hrv].
    { exists []. simpl. rewrite app_nil_r. split; [reflexivity | tauto]. }
    unfold logged at 1. cbn [fst snd].
    destruct (comp rec (deref (key e)) (val e)) as [rv1 rec1].
    destruct (IH rv1 rec1 (log ++ [rv1])) as (new & Heq & Hiff).
    exists (rv1 :: new). split.
    + rewrite Heq, <- app_assoc. reflexivity.
    + rewrite Hiff. simpl. split; [intros [-> | Hin]; auto |].
      intros [Hc | [Hc | Hin]]; [contradiction | auto | auto].
Qed.

Lemma iterate_keys_logged elts keys :
  forall result rec log,
  exists new,
    iterate_keys (logged comp) elts keys result (rec, log) =
      (fst (iterate_keys comp elts keys result rec),
       (snd (iterate_keys comp elts keys result rec), log ++ new)) /\
    (fst (iterate_keys comp elts keys result rec) = 0%Z <->
     result = 0%Z \/ In 0%Z new).
Proof.
  induction keys as [| k keys IH]; intros result rec log.
  - exists []. simpl. rewrite app_nil_r. split; [reflexivity | tauto].
  - cbn [iterate_keys].
    destruct (call_each_logged (List.filter (key_is k) elts) 1 rec log)
      as (new1 & Heq1 & Hiff1).
    rewrite Heq1.
    destruct (call_each comp (List.filter (key_is k) elts) 1 rec)
      as [rv rec1]. cbn [fst snd] in *.
    destruct (IH (if (rv =? 0)%Z then 0%Z else result) rec1 (log ++ new1))
      as (new2 & Heq2 & Hiff2).
    exists (new1 ++ new2). split.
    + rewrite Heq2, <- app_assoc. reflexivity.
    + rewrite Hiff2, in_app_iff.
      destruct (Z.eqb_spec rv 0) as [Hrv | Hrv].
      * assert (In 0%Z new1) by (apply Hiff1 in Hrv as [? | ?]; [lia | auto]).
        tauto.
      * assert (~ In 0%Z new1) by (intros Hin; apply Hrv, Hiff1; auto).
        tauto.
Qed.

Lemma iterate_spec_logged elts keys rec :
  exists returns,
    iterate_spec (logged comp) (rec, []) elts keys =
      (fst (iterate_spec comp rec elts keys),
       (snd (iterate_spec comp rec elts keys), returns)) /\
    (fst (iterate_spec comp rec elts keys) = 0%Z <-> In 0%Z returns).
Proof.
  unfold iterate_spec. destruct keys as [| k keys].
  - destruct (call_each_logged elts 1 rec []) as (new & Heq & Hiff).
    rewrite Heq.
    destruct (call_each comp elts 1 rec) as [rv rec1]. cbn [fst snd] in *.
    exists new. split; [reflexivity |].
    destruct (Z.eqb_spec rv 0) as [Hrv | Hrv].
    + split; [intros _ | reflexivity].
      apply Hiff in Hrv as [? | ?]; [lia | auto].
    + split; [lia |]. intros Hin. exfalso. apply Hrv, Hiff. auto.
  - destruct (iterate_keys_logged elts (k :: keys) 1 rec [])
      as (new & Heq & Hiff).
    exists new. split; [exact Heq |].
    rewrite Hiff. split; [intros [? | ?]; [lia | auto] | auto].
Qed.

End IterateLog.

(** C6. On a table that satisfies the invariant, [xm_table_do] and
    [xm_table_vdo] with keys run, for each key in turn, the callback over
    the entries of that key in table order, a false return ending the
    scan of that key only; with no key they run it over all entries up
    to the first false return.  The result is false exactly when one of
    the invocations returned false. *)
Theorem iterate_semantics `{Target} {R : Type}
    (comp : R -> string -> string -> Z * R) (rec : R) (t : xm_table_t)
    (keys : list string) :
  table_ok t ->
  xm_table_do comp rec t keys = xm_table_vdo comp rec t keys /\
  xm_table_vdo comp rec t keys = iterate_spec comp rec (a_elts t) keys /\
  exists returns,
    xm_table_vdo (logged comp) (rec, []) t keys =
      (fst (xm_table_vdo comp rec t keys),
       (snd (xm_table_vdo comp rec t keys), returns)) /\
    (fst (xm_table_vdo comp rec t keys) = 0%Z <-> In 0%Z returns).
Proof.
  intros Hok. split; [reflexivity |].
  split; [apply xm_table_vdo_spec, Hok |].
  rewrite !xm_table_vdo_spec by exact Hok.
  apply iterate_spec_logged.
Qed.

(** ** Strings *)

Lemma str_app_nil_r s : s +:+ EmptyString = s.
Proof.
  induction s as [| a s IH]; [reflexivity |].
  change (String a (s +:+ EmptyString) = String a s). rewrite IH.
  reflexivity.
Qed.

Lemma str_app_assoc s1 s2 s3 : (s1 +:+ s2) +:+ s3 = s1 +:+ s2 +:+ s3.
Proof.
  induction s1 as [| a s1 IH]; [reflexivity |].
  change (String a ((s1 +:+ s2) +:+ s3) = String a (s1 +:+ s2 +:+ s3)).
  rewrite IH. reflexivity.
Qed.

Lemma str_length_app s1 s2 :
  String.length (s1 +:+ s2) = (String.length s1 + String.length s2)%nat.
Proof.
  induction s1 as [| a s1 IH]; [reflexivity |].
  change (S (String.length (s1 +:+ s2)) =
          S (String.length s1 + String.length s2)).
  rewrite IH. reflexivity.
Qed.

Lemma deref_Some s : deref (Some s) = s.
Proof. reflexivity. Qed.

Lemma deref_None : deref None = EmptyString.
Proof. reflexivity. Qed.

Lemma str_app_nil_l s : EmptyString +:+ s = s.
Proof. reflexivity. Qed.

(** ** [xm_array_pstrcat] *)

Section Pstrcat.
Variable m : @mem (option string).
Variable arr : xm_array_header_t.
Variable sep : Ascii.ascii.
Variable l : list (option string).
Hypothesis Hholds : array_holds m arr l.

Lemma strpp_at_holds i s :
  l !! i = Some s -> strpp_at m arr (Z.of_nat i) = Some s.
Proof.
  intros Hi. destruct Hholds as (Hn & e & He & Hload).
  unfold strpp_at. rewrite He. simpl.
  unfold load in *. simpl.
  destruct (m !! blk e) as [b |]; [| discriminate]. simpl in *.
  destruct ((0 <=? off e)%Z && (0 <=? nelts arr)%Z &&
            (off e + nelts arr <=? Z.of_nat (length b))%Z) eqn:Ec;
    [| discriminate].
  injection Hload as Hcells.
  apply andb_true_iff in Ec as [Ec Ec3].
  apply andb_true_iff in Ec as [Ec1 Ec2].
  apply Z.leb_le in Ec1, Ec2, Ec3.
  pose proof (lookup_lt_Some _ _ _ Hi) as Hlt.
  assert (Hb : b !! (Z.to_nat (off e) + i)%nat = Some (Some s)).
  { rewrite <- lookup_drop.
    rewrite <- (lookup_take_lt _ (Z.to_nat (nelts arr))) by lia.
    rewrite Hcells, list_lookup_fmap, Hi. reflexivity. }
  replace ((0 <=? off e + Z.of_nat i)%Z && (0 <=? 1)%Z &&
           (off e + Z.of_nat i + 1 <=? Z.of_nat (length b))%Z) with true.
  2:{ symmetry. rewrite !andb_true_iff, !Z.leb_le. lia. }
  replace (Z.to_nat (off e + Z.of_nat i))
    with (Z.to_nat (off e) + i)%nat by lia.
  rewrite (drop_S _ _ _ Hb). reflexivity.
Qed.

Lemma pstrcat_copy_spec n :
  forall i res, (i + n)%nat = length l -> (0 < n)%nat ->
  pstrcat_copy m arr sep n (Z.of_nat i) res =
  Some (res +:+ join_strings sep (drop i l)).
Proof.
  pose proof Hholds as (Hn & _).
  induction n as [| n IH]; intros i res Hin Hpos; [lia |].
  cbn [pstrcat_copy].
  destruct (l !! i) as [s |] eqn:Ei;
    [| apply lookup_ge_None in Ei; lia].
  rewrite (strpp_at_holds i s Ei). simpl.
  rewrite (drop_S _ _ _ Ei). cbn [join_strings].
  destruct (Z.geb_spec (Z.of_nat i + 1) (nelts arr)) as [Hge | Hlt].
  - assert (Hd : drop (S i) l = []) by (apply drop_ge; lia).
    rewrite Hd. destruct s; rewrite ?deref_Some, ?deref_None, ?str_app_nil_r;
      reflexivity.
  - replace (Z.of_nat i + 1)%Z with (Z.of_nat (S i)) by lia.
    rewrite IH by lia.
    destruct (drop (S i) l) as [| x r] eqn:Ed.
    { apply (f_equal length) in Ed. rewrite length_drop in Ed.
      simpl in Ed. lia. }
    f_equal. unfold sep_string.
    destruct s as [s |]; rewrite ?deref_Some, ?deref_None;
      destruct (negb (byte_of sep =? 0)%Z);
      rewrite ?str_app_assoc, ?str_app_nil_r, ?str_app_nil_l; reflexivity.
Qed.

Lemma pstrcat_len_spec n :
  forall i len, (i + n)%nat = length l -> (0 < n)%nat ->
  pstrcat_len m arr sep n (Z.of_nat i) len =
  Some (len + String.length (join_strings sep (drop i l)))%nat.
Proof.
  pose proof Hholds as (Hn & _).
  induction n as [| n IH]; intros i len Hin Hpos; [lia |].
  cbn [pstrcat_len].
  destruct (l !! i) as [s |] eqn:Ei;
    [| apply lookup_ge_None in Ei; lia].
  rewrite (strpp_at_holds i s Ei). simpl.
  rewrite (drop_S _ _ _ Ei). cbn [join_strings].
  destruct (Z.geb_spec (Z.of_nat i + 1) (nelts arr)) as [Hge | Hlt].
  - assert (Hd : drop (S i) l = []) by (apply drop_ge; lia).
    rewrite Hd. destruct s; rewrite ?deref_Some, ?deref_None;
      [reflexivity | simpl; f_equal; lia].
  - replace (Z.of_nat i + 1)%Z with (Z.of_nat (S i)) by lia.
    rewrite IH by lia.
    destruct (drop (S i) l) as [| x r] eqn:Ed.
    { apply (f_equal length) in Ed. rewrite length_drop in Ed.
      simpl in Ed. lia. }
    f_equal. unfold sep_string, strlen.
    destruct s as [s |]; rewrite ?deref_Some, ?deref_None;
      destruct (negb (byte_of sep =? 0)%Z);
      rewrite ?str_app_nil_l, ?str_length_app; simpl; lia.
Qed.

Lemma xm_array_pstrcat_spec :
  xm_array_pstrcat m arr sep = Some (join_strings sep l).
Proof.
  pose proof Hholds as (Hn & e & He & _).
  unfold xm_array_pstrcat. rewrite He.
  destruct (decide (length l = 0%nat)) as [Hz | Hnz].
  - rewrite Hn, Hz. simpl.
    assert (Hnil : join_strings sep l = EmptyString)
      by (rewrite (nil_length_inv l Hz); reflexivity).
    rewrite Hnil. reflexivity.
  - destruct (Z.leb_spec (nelts arr) 0) as [Hle | Hgt]; [lia |].
    rewrite bool_decide_true by (eexists; reflexivity). cbn [negb orb].
    pose proof (pstrcat_len_spec (Z.to_nat (nelts arr)) 0 0
                  ltac:(lia) ltac:(lia)) as Hl.
    pose proof (pstrcat_copy_spec (Z.to_nat (nelts arr)) 0 EmptyString
                  ltac:(lia) ltac:(lia)) as Hc.
    change (Z.of_nat 0) with 0%Z in Hl, Hc.
    rewrite Hl, Hc. simpl. rewrite drop_0, str_app_nil_l.
    destruct (Nat.leb_spec (String.length (join_strings sep l))
                (String.length (join_strings sep l))); [reflexivity | lia].
Qed.

End Pstrcat.

(** What [xm_array_pstrcat] computes, never [NULL]: the elements in
    order with the separator after every position of the array but the
    last, whether the element there is null or not.  An empty array
    gives the empty string. *)
Lemma pstrcat_joins_positions (m : @mem (option string))
    (arr : xm_array_header_t) (sep : Ascii.ascii)
    (l : list (option string)) :
  array_holds m arr l ->
  xm_array_pstrcat m arr sep = Some (join_strings sep l).
Proof. apply xm_array_pstrcat_spec. Qed.

Example pstrcat_joins_positions_example :
  array_holds [[Some (Some "a"); Some None; Some (Some "b")]]
    {| pool := 0; elt_size := 1; nelts := 3; nalloc := 3;
       elts := Some {| blk := 0; off := 0 |} |}
    [Some "a"; None; Some "b"] /\
  xm_array_pstrcat [[Some (Some "a"); Some None; Some (Some "b")]]
    {| pool := 0; elt_size := 1; nelts := 3; nalloc := 3;
       elts := Some {| blk := 0; off := 0 |} |}
    (Ascii.ascii_of_nat 44) =
  Some (join_strings (Ascii.ascii_of_nat 44) [Some "a"; None; Some "b"]).
Proof.
  assert (Hh : array_holds [[Some (Some "a"); Some None; Some (Some "b")]]
    {| pool := 0; elt_size := 1; nelts := 3; nalloc := 3;
       elts := Some {| blk := 0; off := 0 |} |}
    [Some "a"; None; Some "b"]).
  { split; [reflexivity |]. eexists. split; reflexivity. }
  split; [exact Hh |].
  apply (pstrcat_joins_positions _ _ _ _ Hh).
Qed.

(** Elements that are all null or empty leave the separators alone. *)
Lemma join_strings_all_empty sep l :
  Forall (fun x => deref x = EmptyString) l -> byte_of sep <> 0%Z ->
  String.length (join_strings sep l) = (length l - 1)%nat.
Proof.
  intros Hall Hsep.
  assert (Hs : sep_string sep = String sep EmptyString).
  { unfold sep_string. destruct (Z.eqb_spec (byte_of sep) 0);
      [contradiction | reflexivity]. }
  induction Hall as [| x r Hx Hr IH]; [reflexivity |].
  cbn [join_strings]. rewrite Hx. destruct r as [| y r']; [reflexivity |].
  rewrite str_app_nil_l, Hs, str_length_app, IH. simpl. lia.
Qed.

(** C2, where the code departs from it.  The claim has the result
    empty when every element is null, and so has the comment of the
    function: "The string will be empty if all substrings are empty or
    null".  [xm_array_pstrcat] adds the separator after every position
    but the last, null or not.  On an array of two null elements with
    [','] it returns [","], and on [["a", NULL, "b"]] it returns
    ["a,,b"], not ["a,b"]; on every array of two or more elements that
    are all null or empty, with a separator that is not NUL, it returns
    one separator for each element but the last. *)
Theorem pstrcat_all_null_not_empty :
  xm_array_pstrcat [[Some None; Some None]]
    {| pool := 0; elt_size := 1; nelts := 2; nalloc := 2;
       elts := Some {| blk := 0; off := 0 |} |}
    (Ascii.ascii_of_nat 44) = Some "," /\
  xm_array_pstrcat [[Some (Some "a"); Some None; Some (Some "b")]]
    {| pool := 0; elt_size := 1; nelts := 3; nalloc := 3;
       elts := Some {| blk := 0; off := 0 |} |}
    (Ascii.ascii_of_nat 44) = Some "a,,b" /\
  forall (m : @mem (option string)) (arr : xm_array_header_t)
      (sep : Ascii.ascii) (l : list (option string)),
    array_holds m arr l ->
    Forall (fun x => deref x = EmptyString) l ->
    (2 <= length l)%nat -> byte_of sep <> 0%Z ->
    exists r,
      xm_array_pstrcat m arr sep = Some r /\
      String.length r = (length l - 1)%nat /\ r <> EmptyString.
Proof.
  split; [reflexivity |]. split; [reflexivity |].
  intros m arr sep l Hh Hall Hlen Hsep.
  exists (join_strings sep l).
  split; [apply (xm_array_pstrcat_spec m arr sep l Hh) |].
  pose proof (join_strings_all_empty sep l Hall Hsep) as Hl.
  split; [exact Hl |].
  intros E. rewrite E in Hl. simpl in Hl. lia.
Qed.

(** ** Merged lookup *)

Lemma lookup_fresh {cell : Type} (m : @mem cell) b :
  (m ++ [b]) !! length m = Some b.
Proof. apply list_lookup_middle. reflexivity. Qed.

Lemma insert_fresh {cell : Type} (m : @mem cell) b b' :
  <[length m := b']> (m ++ [b]) = m ++ [b'].
Proof. apply insert_app_head. Qed.

Lemma load_fresh {cell : Type} (m : @mem cell) b o n :
  (0 <= o)%Z -> (0 <= n)%Z -> (o + n <= Z.of_nat (length b))%Z ->
  load (m ++ [b]) {| blk := length m; off := o |} n =
  Some (take (Z.to_nat n) (drop (Z.to_nat o) b)).
Proof.
  intros Ho Hn Hb. unfold load, mem in *. cbn [blk off].
  rewrite lookup_fresh. simpl.
  replace ((0 <=? o)%Z && (0 <=? n)%Z && (o + n <=? Z.of_nat (length b))%Z)
    with true; [reflexivity |].
  symmetry. rewrite !andb_true_iff, !Z.leb_le. lia.
Qed.

Lemma store_fresh {cell : Type} (m : @mem cell) b o cs :
  (0 <= o)%Z -> (o + Z.of_nat (length cs) <= Z.of_nat (length b))%Z ->
  store (m ++ [b]) {| blk := length m; off := o |} cs =
  Some (m ++ [take (Z.to_nat o) b ++ cs ++
              drop (Z.to_nat o + length cs) b]).
Proof.
  intros Ho Hb. unfold store, mem in *. cbn [blk off].
  rewrite lookup_fresh. simpl.
  replace ((0 <=? o)%Z && (o + Z.of_nat (length cs) <=? Z.of_nat (length b))%Z)
    with true.
  2:{ symmetry. rewrite !andb_true_iff, !Z.leb_le. lia. }
  rewrite insert_fresh. reflexivity.
Qed.

Lemma getm_do_two p (m : @mem (option string)) e1 e2 :
  call_each (table_getm_do p) [e1; e2] 1
    (Some (m, {| first := None; merged := None |})) =
  (1%Z,
   Some (m ++ [Some (Some (val e1)) :: Some (Some (val e2)) ::
               replicate 8 (Some None)],
         {| first := Some (val e1);
            merged := Some {| pool := p; elt_size := 1; nelts := 2;
                              nalloc := 10;
                              elts := Some {| blk := length m;
                                              off := 0 |} |} |})).
Proof.
  cbn [call_each table_getm_do Z.eqb first merged mbind option_bind].
  unfold xm_array_make, make_array_core, xm_pcalloc, sizeof_char_ptr. simpl.
  unfold push_string at 2, xm_array_push, ptr_add.
  simpl.
  rewrite store_fresh by (simpl; lia). simpl.
  unfold push_string, xm_array_push, ptr_add. simpl.
  rewrite store_fresh by (simpl; lia). simpl.
  reflexivity.
Qed.

(** C8, as the code has it. In a table that satisfies the invariant and
    has no entry for [K], after [add(K, V1)] and [add(K, V2)] a [get(K)]
    returns [V1] and [get_merged(K)] returns [V1], a comma and [V2]. *)
Theorem add_twice_get_getm `{Target} (m : @mem (option string)) (p : nat)
    (t : xm_table_t) (K V1 V2 : string) :
  table_ok t ->
  List.filter (key_is K) (a_elts t) = [] ->
  xm_table_get (xm_table_add (xm_table_add t K V1) K V2) (Some K) =
    Some V1 /\
  xm_table_getm m p (xm_table_add (xm_table_add t K V1) K V2) K =
    Some (Some (V1 +:+ "," +:+ V2)).
Proof.
  intros Hok Hnone.
  assert (Hok2 : table_ok (xm_table_add (xm_table_add t K V1) K V2))
    by (apply xm_table_add_ok, xm_table_add_ok, Hok).
  set (e1 := {| key := Some K; val := V1;
                key_checksum := COMPUTE_KEY_CHECKSUM K |}).
  set (e2 := {| key := Some K; val := V2;
                key_checksum := COMPUTE_KEY_CHECKSUM K |}).
  assert (Hf : List.filter (key_is K)
                 (a_elts (xm_table_add (xm_table_add t K V1) K V2)) =
               [e1; e2]).
  { rewrite !xm_table_add_elts, !List.filter_app, Hnone. simpl.
    unfold key_is. simpl. rewrite strcasecmp_refl. reflexivity. }
  split.
  - rewrite (xm_table_get_spec _ K Hok2), Hf. reflexivity.
  - unfold xm_table_getm, xm_table_do.
    rewrite (xm_table_vdo_spec _ _ _ _ Hok2).
    unfold iterate_spec. cbn [iterate_keys]. rewrite Hf.
    rewrite getm_do_two. cbn [Z.eqb mbind option_bind first merged].
    rewrite (xm_array_pstrcat_spec _ _ _ [Some V1; Some V2]);
      [reflexivity |].
    split; [reflexivity |]. eexists. split; [reflexivity |].
    cbn [nelts]. rewrite load_fresh by (simpl; lia). reflexivity.
Qed.

Lemma add_twice_get_getm_witness :
  @table_ok x86_64 (@run_ops x86_64 [OpAdd "Via" "x"]) /\
  List.filter (key_is "Host") (a_elts (@run_ops x86_64 [OpAdd "Via" "x"])) =
    [] /\
  (@xm_table_get x86_64
     (@xm_table_add x86_64
        (@xm_table_add x86_64 (@run_ops x86_64 [OpAdd "Via" "x"])
           "Host" "a") "Host" "b") (Some "Host") = Some "a" /\
   @xm_table_getm x86_64 [] 0
     (@xm_table_add x86_64
        (@xm_table_add x86_64 (@run_ops x86_64 [OpAdd "Via" "x"])
           "Host" "a") "Host" "b") "Host" = Some (Some ("a" +:+ "," +:+ "b"))).
Proof.
  split; [apply run_ops_ok |]. split; [reflexivity |].
  apply (@add_twice_get_getm x86_64 [] 0
           (@run_ops x86_64 [OpAdd "Via" "x"]) "Host" "a" "b");
    [apply run_ops_ok | reflexivity].
Defined.

(** On a table that already holds an entry for the key, [get] returns
    the value of that entry and [get_merged] starts with it. *)
Lemma add_twice_existing_key_counterexample :
  @xm_table_get x86_64
    (@xm_table_add x86_64
       (@xm_table_add x86_64 (@run_ops x86_64 [OpAdd "K" "0"]) "K" "1")
       "K" "2") (Some "K") = Some "0" /\
  @xm_table_get x86_64
    (@xm_table_add x86_64
       (@xm_table_add x86_64 (@run_ops x86_64 [OpAdd "K" "0"]) "K" "1")
       "K" "2") (Some "K") <> Some "1" /\
  @xm_table_getm x86_64 [] 0
    (@xm_table_add x86_64
       (@xm_table_add x86_64 (@run_ops x86_64 [OpAdd "K" "0"]) "K" "1")
       "K" "2") "K" = Some (Some "0,1,2") /\
  @xm_table_getm x86_64 [] 0
    (@xm_table_add x86_64
       (@xm_table_add x86_64 (@run_ops x86_64 [OpAdd "K" "0"]) "K" "1")
       "K" "2") "K" <> Some (Some "1,2").
Proof.
  split; [reflexivity |]. split; [intros Heq; vm_compute in Heq; discriminate |].
  split; [reflexivity |]. intros Heq; vm_compute in Heq; discriminate.
Qed.

(** ** Compression *)

(** The sort leaves the two entries of [A] in insertion order, before or
    after the entry of [B]. *)
Lemma mergesort_three (A B v1 v2 v3 : string) (ca cb : Z) :
  strcasecmp A B <> 0%Z ->
  table_mergesort
    [ {| key := Some A; val := v1; key_checksum := ca |};
      {| key := Some B; val := v2; key_checksum := cb |};
      {| key := Some A; val := v3; key_checksum := ca |} ] [0; 1; 2] 3 =
  if (strcasecmp A B >? 0)%Z then [1; 0; 2] else [0; 2; 1].
Proof.
  intros Hne. unfold table_mergesort.
  cbn [sort_pairs]. unfold key_at, entry_at.
  cbn [lookup list_lookup default from_option id key deref].
  pose proof (strcasecmp_antisym A B) as Hanti.
  pose proof (strcasecmp_refl A) as Hrefl.
  destruct (Z.gtb_spec (strcasecmp A B) 0) as [Hgt | Hle].
  - cbn [merge_passes Nat.ltb Nat.leb merge_pass Nat.add slice take drop
         Nat.sub app length merge_blocks].
    unfold key_at, entry_at.
    cbn [lookup list_lookup default from_option id key deref].
    rewrite Hanti, Hrefl.
    destruct (Z.gtb_spec (- strcasecmp A B) 0) as [Hgt' | Hle']; [lia |].
    reflexivity.
  - cbn [merge_passes Nat.ltb Nat.leb merge_pass Nat.add slice take drop
         Nat.sub app length merge_blocks].
    unfold key_at, entry_at.
    cbn [lookup list_lookup default from_option id key deref].
    rewrite Hanti, Hrefl.
    destruct (Z.gtb_spec (- strcasecmp A B) 0) as [Hgt' | Hle']; [| lia].
    reflexivity.
Qed.

Lemma dedup_loop_unfold fuel flags sort_array sort_end arr last sort_next
    dups_found :
  dedup_loop (S fuel) flags sort_array sort_end arr last sort_next
    dups_found =
  if sort_next <? sort_end then
    if same_key arr sort_array sort_next last then
      let dup_last :=
        find_dup_last arr sort_array last (sort_end - S sort_next)
          (S sort_next) in
      let dup_last := dup_last - 1 in
      let plast := default 0 (sort_array !! last) in
      let elast := entry_at arr plast in
      let new_val :=
        if (flags =? XM_OVERLAP_TABLES_MERGE)%Z
        then merged_val arr sort_array (dup_last - last) last
        else val (entry_at arr (default 0 (sort_array !! dup_last))) in
      let arr :=
        <[plast := {| key := key elast; val := new_val;
                      key_checksum := key_checksum elast |}]> arr in
      let arr :=
        mark_dups arr sort_array (S dup_last - sort_next) sort_next in
      dedup_loop fuel flags sort_array sort_end arr last (S dup_last) true
    else
      dedup_loop fuel flags sort_array sort_end arr sort_next
        (S sort_next) dups_found
  else (arr, dups_found).
Proof. reflexivity. Qed.

Lemma dedup_three flags (A B : string) (ca cb : Z) sort_array :
  strcasecmp A B <> 0%Z ->
  sort_array = [1; 0; 2] \/ sort_array = [0; 2; 1] ->
  dedup_loop 3 flags sort_array 3
    [ {| key := Some A; val := "1"; key_checksum := ca |};
      {| key := Some B; val := "x"; key_checksum := cb |};
      {| key := Some A; val := "2"; key_checksum := ca |} ] 0 1 false =
  ([ {| key := Some A;
        val := if (flags =? XM_OVERLAP_TABLES_MERGE)%Z
               then "1" +:+ ", " +:+ "2" else "2";
        key_checksum := ca |};
     {| key := Some B; val := "x"; key_checksum := cb |};
     {| key := None; val := "2"; key_checksum := ca |} ], true).
Proof.
  intros Hne Hs.
  pose proof (strcasecmp_antisym A B) as Hanti.
  pose proof (strcasecmp_refl A) as Hrefl.
  assert (Hab : (strcasecmp A B =? 0)%Z = false)
    by (apply Z.eqb_neq; exact Hne).
  assert (Hba : (strcasecmp B A =? 0)%Z = false)
    by (apply Z.eqb_neq; lia).
  destruct Hs as [-> | ->].
  - rewrite dedup_loop_unfold. cbn [Nat.ltb Nat.leb].
    replace (same_key _ [1; 0; 2] 1 0) with false
      by (unfold same_key, entry_at; simpl; rewrite Hab, andb_false_r;
          reflexivity).
    rewrite dedup_loop_unfold. cbn [Nat.ltb Nat.leb].
    replace (same_key _ [1; 0; 2] 2 1) with true
      by (unfold same_key, entry_at; simpl; rewrite Hrefl, Z.eqb_refl;
          reflexivity).
    cbn [Nat.sub find_dup_last]. cbv zeta.
    unfold entry_at. simpl.
    destruct (flags =? XM_OVERLAP_TABLES_MERGE)%Z; reflexivity.
  - rewrite dedup_loop_unfold. cbn [Nat.ltb Nat.leb].
    replace (same_key _ [0; 2; 1] 1 0) with true
      by (unfold same_key, entry_at; simpl; rewrite Hrefl, Z.eqb_refl;
          reflexivity).
    cbn [Nat.sub find_dup_last].
    replace (same_key _ [0; 2; 1] 2 0) with false
      by (unfold same_key, entry_at; simpl; rewrite Hba, andb_false_r;
          reflexivity).
    cbv zeta. unfold entry_at. simpl.
    replace (same_key _ [0; 2; 1] 2 0) with false
      by (unfold same_key, entry_at; simpl; rewrite Hba, andb_false_r;
          reflexivity).
    destruct (flags =? XM_OVERLAP_TABLES_MERGE)%Z; reflexivity.
Qed.

Lemma compress_three `{Target} t flags (A B : string) (ca cb : Z) :
  strcasecmp A B <> 0%Z ->
  a_elts t =
    [ {| key := Some A; val := "1"; key_checksum := ca |};
      {| key := Some B; val := "x"; key_checksum := cb |};
      {| key := Some A; val := "2"; key_checksum := ca |} ] ->
  a_elts (xm_table_compress t flags) =
    [ {| key := Some A;
         val := if (flags =? XM_OVERLAP_TABLES_MERGE)%Z then "1, 2" else "2";
         key_checksum := ca |};
      {| key := Some B; val := "x"; key_checksum := cb |} ].
Proof.
  intros Hne Helts. unfold xm_table_compress, a_nelts. rewrite Helts.
  cbn [length Nat.leb seq].
  rewrite mergesort_three by exact Hne.
  rewrite (dedup_three flags A B ca cb _ Hne)
    by (destruct (strcasecmp A B >? 0)%Z; auto).
  rewrite table_reindex_elts.
  destruct (flags =? XM_OVERLAP_TABLES_MERGE)%Z; reflexivity.
Qed.

(** C4. On a table whose entries are, in insertion order, [(A, "1")],
    [(B, "x")] and [(A, "2")], with [A] and [B] different keys,
    [xm_table_compress] with the merge policy leaves [(A, "1, 2")] and
    [(B, "x")], and with any other flags, so with the overwrite policy,
    [(A, "2")] and [(B, "x")]. *)
Theorem compress_merges_in_insertion_order `{Target} (t : xm_table_t)
    (A B : string) :
  strcasecmp A B <> 0%Z ->
  a_elts t = [stored_entry A "1"; stored_entry B "x"; stored_entry A "2"] ->
  a_elts (xm_table_compress t XM_OVERLAP_TABLES_MERGE) =
    [stored_entry A "1, 2"; stored_entry B "x"] /\
  forall flags, flags <> XM_OVERLAP_TABLES_MERGE ->
    a_elts (xm_table_compress t flags) =
      [stored_entry A "2"; stored_entry B "x"].
Proof.
  intros Hne Helts. split.
  - rewrite (compress_three t _ A B _ _ Hne Helts). reflexivity.
  - intros flags Hf.
    rewrite (compress_three t flags A B _ _ Hne Helts).
    apply Z.eqb_neq in Hf. rewrite Hf. reflexivity.
Qed.

Lemma compress_merges_in_insertion_order_witness :
  strcasecmp "A" "B" <> 0%Z /\
  a_elts (@run_ops x86_64 [OpAdd "A" "1"; OpAdd "B" "x"; OpAdd "A" "2"]) =
    [@stored_entry x86_64 "A" "1"; @stored_entry x86_64 "B" "x";
     @stored_entry x86_64 "A" "2"] /\
  (a_elts (xm_table_compress
     (@run_ops x86_64 [OpAdd "A" "1"; OpAdd "B" "x"; OpAdd "A" "2"])
     XM_OVERLAP_TABLES_MERGE) =
     [@stored_entry x86_64 "A" "1, 2"; @stored_entry x86_64 "B" "x"] /\
   forall flags, flags <> XM_OVERLAP_TABLES_MERGE ->
     a_elts (xm_table_compress
       (@run_ops x86_64 [OpAdd "A" "1"; OpAdd "B" "x"; OpAdd "A" "2"])
       flags) =
       [@stored_entry x86_64 "A" "2"; @stored_entry x86_64 "B" "x"]).
Proof.
  split; [vm_compute; discriminate |]. split; [reflexivity |].
  apply (@compress_merges_in_insertion_order x86_64
           (@run_ops x86_64 [OpAdd "A" "1"; OpAdd "B" "x"; OpAdd "A" "2"])
           "A" "B"); [vm_compute; discriminate | reflexivity].
Defined.

(** ** Arena memory *)

Lemma ranges_overlap_other_block (p q : ptr) n :
  blk p <> blk q -> ranges_overlap p q n = false.
Proof.
  intros Hne. unfold ranges_overlap.
  destruct (Nat.eqb_spec (blk p) (blk q)); [contradiction | reflexivity].
Qed.

Lemma ranges_overlap_empty (p q : ptr) n :
  (n <= 0)%Z -> ranges_overlap p q n = false.
Proof.
  intros Hn. unfold ranges_overlap.
  destruct (blk p =? blk q); [| reflexivity]. simpl.
  destruct (Z.ltb_spec (off p) (off q + n)); [| reflexivity].
  destruct (Z.ltb_spec (off q) (off p + n)); [lia | reflexivity].
Qed.

Section Memory.
Context {cell : Type}.
Implicit Types (m : @mem cell) (b cs : list (option cell)).

Lemma memcpy_separate m dst src n :
  ranges_overlap dst src n = false ->
  memcpy m dst src n = (cs ← load m src n; store m dst cs).
Proof. intros Hs. unfold memcpy. rewrite Hs. reflexivity. Qed.

Lemma splice_lookup b a cs i :
  (a + length cs <= length b)%nat ->
  (take a b ++ cs ++ drop (a + length cs) b) !! i =
  if decide (a <= i < a + length cs)%nat then cs !! (i - a)%nat else b !! i.
Proof.
  intros Hb. case_decide as Hi.
  - rewrite lookup_app_r by (rewrite length_take; lia).
    rewrite length_take_le by lia.
    rewrite lookup_app_l by lia. reflexivity.
  - destruct (Nat.lt_ge_cases i a) as [Hlt | Hge].
    + rewrite lookup_app_l by (rewrite length_take; lia).
      apply lookup_take_lt. exact Hlt.
    + rewrite lookup_app_r by (rewrite length_take; lia).
      rewrite length_take_le by lia.
      rewrite lookup_app_r by lia.
      rewrite lookup_drop. f_equal. lia.
Qed.

Lemma splice_length b a cs :
  (a + length cs <= length b)%nat ->
  length (take a b ++ cs ++ drop (a + length cs) b) = length b.
Proof.
  intros Hb. rewrite !length_app, length_take_le, length_drop by lia. lia.
Qed.

Lemma splice_same b a cs :
  (a + length cs <= length b)%nat ->
  take (length cs) (drop a (take a b ++ cs ++ drop (a + length cs) b)) = cs.
Proof.
  intros Hb. apply list_eq. intros i.
  destruct (Nat.lt_ge_cases i (length cs)) as [Hlt | Hge].
  - rewrite lookup_take_lt, lookup_drop, splice_lookup by lia.
    rewrite decide_True by lia. f_equal. lia.
  - rewrite lookup_take_ge by lia. symmetry. apply lookup_ge_None. lia.
Qed.

Lemma splice_other b a cs o n :
  (a + length cs <= length b)%nat ->
  (o + n <= a \/ a + length cs <= o)%nat ->
  take n (drop o (take a b ++ cs ++ drop (a + length cs) b)) =
  take n (drop o b).
Proof.
  intros Hb Hdisj. apply list_eq. intros i.
  destruct (Nat.lt_ge_cases i n) as [Hlt | Hge].
  - rewrite !lookup_take_lt, !lookup_drop, splice_lookup by lia.
    rewrite decide_False by lia. reflexivity.
  - rewrite !lookup_take_ge by lia. reflexivity.
Qed.

Lemma load_Some m p n cs :
  load m p n = Some cs <->
  exists b, m !! blk p = Some b /\ (0 <= off p)%Z /\ (0 <= n)%Z /\
    (off p + n <= Z.of_nat (length b))%Z /\
    cs = take (Z.to_nat n) (drop (Z.to_nat (off p)) b).
Proof.
  unfold load. destruct (m !! blk p) as [b |]; simpl.
  - destruct (Z.leb_spec 0 (off p)); destruct (Z.leb_spec 0 n);
      destruct (Z.leb_spec (off p + n) (Z.of_nat (length b))); simpl;
      split;
      try (intros [= <-]; exists b; repeat split; (lia || reflexivity));
      try (intros (b' & [= <-] & ? & ? & ? & ->); reflexivity);
      try (intros (b' & [= <-] & ? & ? & ? & ->); lia);
      discriminate.
  - split; [discriminate | intros (b & Hb & _); discriminate].
Qed.

Lemma store_Some m p cs :
  (exists b, m !! blk p = Some b /\ (0 <= off p)%Z /\
     (off p + Z.of_nat (length cs) <= Z.of_nat (length b))%Z) ->
  exists b, m !! blk p = Some b /\
    store m p cs =
    Some (<[blk p := take (Z.to_nat (off p)) b ++ cs ++
                     drop (Z.to_nat (off p) + length cs) b]> m).
Proof.
  intros (b & Hb & Ho & Hl). exists b. split; [exact Hb |].
  unfold store. rewrite Hb. simpl.
  destruct (Z.leb_spec 0 (off p)); [| lia].
  destruct (Z.leb_spec (off p + Z.of_nat (length cs)) (Z.of_nat (length b)));
    [reflexivity | lia].
Qed.

(** A store leaves the other blocks as they are. *)
Lemma load_store_other_block m m' p cs q n :
  store m p cs = Some m' -> blk q <> blk p -> load m' q n = load m q n.
Proof.
  unfold store. destruct (m !! blk p) as [b |]; simpl; [| discriminate].
  destruct (_ && _); [| discriminate]. intros [= <-] Hne.
  unfold load, mem in *. rewrite list_lookup_insert_ne by congruence.
  reflexivity.
Qed.

(** An allocation leaves the blocks there were as they are. *)
Lemma load_app_old m b q n :
  (blk q < length m)%nat -> load (m ++ [b]) q n = load m q n.
Proof.
  intros Hq. unfold load, mem in *. rewrite lookup_app_l by exact Hq.
  reflexivity.
Qed.

End Memory.

(** ** Arrays *)

Section ArrayProofs.
Context {cell : Type}.
Variable zero : cell.
Implicit Types (m : @mem cell) (arr : xm_array_header_t).

Lemma cint_Some z : (INT_MIN <= z <= INT_MAX)%Z -> cint z = Some z.
Proof.
  intros Hz. unfold cint.
  destruct (Z.leb_spec INT_MIN z); destruct (Z.leb_spec z INT_MAX);
    simpl; (reflexivity || lia).
Qed.

Lemma read_elt_Some m arr i e b :
  elts arr = Some e -> m !! blk e = Some b ->
  (0 <= off e)%Z -> (0 <= elt_size arr)%Z -> (0 <= i)%Z ->
  (off e + elt_size arr * (i + 1) <= Z.of_nat (length b))%Z ->
  read_elt m arr i =
  Some (take (Z.to_nat (elt_size arr))
          (drop (Z.to_nat (off e + elt_size arr * i)) b)).
Proof.
  intros He Hb Ho Hs Hi Hlen. unfold read_elt. rewrite He. simpl.
  apply load_Some. exists b. cbn [ptr_add blk off].
  repeat split; try assumption; nia.
Qed.

Lemma take_drop_take {A} (l : list A) a o n :
  (o + a <= n)%nat -> take a (drop o (take n l)) = take a (drop o l).
Proof.
  intros Hle. apply list_eq. intros i.
  destruct (Nat.lt_ge_cases i a) as [Hlt | Hge].
  - rewrite !lookup_take_lt, !lookup_drop by lia.
    apply lookup_take_lt. lia.
  - rewrite !lookup_take_ge by lia. reflexivity.
Qed.

Lemma take_drop_app_l {A} (l1 l2 : list A) a o :
  (o + a <= length l1)%nat ->
  take a (drop o (l1 ++ l2)) = take a (drop o l1).
Proof.
  intros Hle. rewrite drop_app_le by lia.
  rewrite take_app_le by (rewrite length_drop; lia). reflexivity.
Qed.

Lemma xm_array_push_parts m arr :
  xm_array_push zero m arr =
  push_grow zero true m arr ≫= fun '(m', arr') => push_last m' arr'.
Proof.
  unfold xm_array_push, push_grow, push_last.
  destruct (nelts arr =? nalloc arr)%Z; reflexivity.
Qed.

Lemma xm_array_push_noclear_parts m arr :
  xm_array_push_noclear m arr =
  push_grow zero false m arr ≫= fun '(m', arr') => push_last m' arr'.
Proof.
  unfold xm_array_push_noclear, push_grow, push_last.
  destruct (nelts arr =? nalloc arr)%Z; reflexivity.
Qed.

(** The step of the two pushes that makes room. *)
Lemma push_grow_spec clear m arr :
  array_ok m arr ->
  (elt_size arr * Z.max 1 (2 * nalloc arr) <= INT_MAX)%Z ->
  (2 * nalloc arr <= INT_MAX)%Z ->
  exists m' arr',
    push_grow zero clear m arr = Some (m', arr') /\
    array_ok m' arr' /\
    elt_size arr' = elt_size arr /\ nelts arr' = nelts arr /\
    (nelts arr' < nalloc arr')%Z /\
    nalloc arr' =
      (if (nelts arr =? nalloc arr)%Z then Z.max 1 (2 * nalloc arr)
       else nalloc arr) /\
    (forall i, (0 <= i < nelts arr)%Z ->
       read_elt m' arr' i = read_elt m arr i) /\
    (forall q n, (blk q < length m)%nat -> load m' q n = load m q n) /\
    (length m <= length m')%nat /\
    ((nelts arr =? nalloc arr)%Z = true ->
     elts arr' = Some {| blk := length m; off := 0 |}).
Proof.
  intros Hok Hb1 Hb2.
  pose proof Hok as (Hs & Hn & e & b & He & Hb & Ho & Hlen).
  unfold push_grow.
  destruct (Z.eqb_spec (nelts arr) (nalloc arr)) as [Heq | Hne].
  2:{ exists m, arr. split; [reflexivity |]. split; [exact Hok |].
      repeat split; try reflexivity; try lia; discriminate. }
  set (new_size := Z.max 1 (2 * nalloc arr)).
  assert (Hns : (if (nalloc arr <=? 0)%Z then Some 1%Z
                 else cint (nalloc arr * 2)) = Some new_size).
  { unfold new_size. destruct (Z.leb_spec (nalloc arr) 0).
    - f_equal. lia.
    - rewrite cint_Some by (unfold INT_MIN; lia). f_equal. lia. }
  rewrite Hns. cbn [mbind option_bind].
  assert (Hsz : (0 <= elt_size arr * new_size <= INT_MAX)%Z)
    by (unfold new_size in *; nia).
  rewrite (cint_Some (elt_size arr * new_size)) by (unfold INT_MIN; lia).
  cbn [mbind option_bind].
  unfold xm_palloc.
  replace (0 <=? elt_size arr * new_size)%Z with true
    by (symmetry; apply Z.leb_le; lia).
  cbn [mbind option_bind]. rewrite He. cbn [mbind option_bind].
  set (n := (nalloc arr * elt_size arr)%Z).
  assert (Hn0 : (0 <= n <= elt_size arr * new_size)%Z)
    by (unfold n, new_size; nia).
  rewrite (cint_Some n) by (unfold INT_MIN; lia). cbn [mbind option_bind].
  set (nb := replicate (Z.to_nat (elt_size arr * new_size)) (@None cell)).
  set (cs := take (Z.to_nat n) (drop (Z.to_nat (off e)) b)).
  assert (Hblt : (blk e < length m)%nat)
    by (eapply lookup_lt_Some; exact Hb).
  assert (Hcs : length cs = Z.to_nat n).
  { unfold cs. rewrite length_take_le; [reflexivity |].
    rewrite length_drop. unfold n. lia. }
  assert (Hnb : length nb = Z.to_nat (elt_size arr * new_size))
    by (unfold nb; apply length_replicate).
  assert (Hload : load (m ++ [nb]) e n = Some cs).
  { rewrite load_app_old by exact Hblt. apply load_Some.
    exists b. repeat split; try assumption; unfold n; lia. }
  rewrite memcpy_separate
    by (apply ranges_overlap_other_block; cbn [blk]; lia).
  rewrite Hload. cbn [mbind option_bind].
  rewrite store_fresh by (rewrite ?Hcs, ?Hnb; lia).
  change (Z.to_nat 0) with 0%nat. rewrite take_0.
  cbn [app Nat.add mbind option_bind].
  set (rest := if clear
               then replicate (Z.to_nat (elt_size arr * (new_size - nalloc arr)))
                      (Some zero)
               else drop (length cs) nb).
  assert (Hrest : length rest = (length nb - length cs)%nat).
  { unfold rest. destruct clear.
    - rewrite length_replicate, Hnb, Hcs. unfold n. nia.
    - apply length_drop. }
  match goal with
  | |- exists _ _, ?x ≫= _ = _ /\ _ =>
      assert (Hfinal : x = Some (m ++ [cs ++ rest]))
  end.
  { unfold rest. destruct clear; [| reflexivity].
    unfold memset0, ptr_add. cbn [blk off].
    destruct (Z.leb_spec 0 (elt_size arr * (new_size - nalloc arr)));
      [| unfold new_size in *; nia].
    rewrite store_fresh.
    2:{ lia. }
    2:{ rewrite length_replicate, length_app, length_drop, Hcs, Hnb.
        unfold n. nia. }
    f_equal. f_equal. f_equal.
    rewrite length_replicate.
    replace (Z.to_nat (0 + n)) with (length cs) by lia.
    rewrite take_app_length.
    rewrite drop_ge; [rewrite app_nil_r; reflexivity |].
    rewrite length_app, length_drop, Hcs, Hnb. unfold n. nia. }
  rewrite Hfinal. cbn [mbind option_bind].
  eexists _, _. split; [reflexivity |].
  assert (Hlk : (m ++ [cs ++ rest]) !! length m = Some (cs ++ rest))
    by apply lookup_fresh.
  split.
  { split; [exact Hs |]. split; [cbn [nelts nalloc]; lia |].
    exists {| blk := length m; off := 0 |}, (cs ++ rest).
    repeat split; try assumption; cbn [off nalloc elt_size]; try lia.
    rewrite length_app, Hrest, Hcs, Hnb. lia. }
  split; [reflexivity |]. split; [reflexivity |].
  split; [cbn [nelts nalloc]; lia |].
  split; [reflexivity |].
  split.
  { intros i Hi.
    rewrite (read_elt_Some (m ++ [cs ++ rest]) _ i
               {| blk := length m; off := 0 |} (cs ++ rest));
      try assumption; try reflexivity; cbn [off elt_size]; try lia;
      try (rewrite length_app, Hrest, Hcs, Hnb; nia).
    rewrite (read_elt_Some m arr i e b); try assumption; try lia;
      try nia.
    f_equal.
    rewrite take_drop_app_l by (rewrite Hcs; unfold n; nia).
    unfold cs. rewrite take_drop_take by (unfold n; nia).
    rewrite drop_drop. f_equal. f_equal. nia. }
  split; [intros q k Hq; apply load_app_old, Hq |].
  split; [rewrite length_app; simpl; lia |].
  intros _. reflexivity.
Qed.

(** [++arr->nelts], and the caller's write through the handle. *)
Lemma push_last_store_spec m arr v :
  array_ok m arr ->
  (nelts arr < nalloc arr)%Z -> (nelts arr + 1 <= INT_MAX)%Z ->
  Z.of_nat (length v) = elt_size arr ->
  exists arr' h m',
    push_last m arr = Some (m, arr', h) /\
    store m h v = Some m' /\
    array_ok m' arr' /\
    nelts arr' = (nelts arr + 1)%Z /\ nalloc arr' = nalloc arr /\
    elt_size arr' = elt_size arr /\ elts arr' = elts arr /\
    read_elt m' arr' (nelts arr) = Some v /\
    (forall i, (0 <= i < nelts arr)%Z ->
       read_elt m' arr' i = read_elt m arr i) /\
    (forall q n, (forall e, elts arr = Some e -> blk q <> blk e) ->
       load m' q n = load m q n) /\
    length m' = length m.
Proof.
  intros (Hs & Hn & e & b & He & Hb & Ho & Hlen) Hlt Hmax Hv.
  unfold push_last.
  rewrite cint_Some by (unfold INT_MIN; lia). cbn [mbind option_bind].
  rewrite He. cbn [mbind option_bind].
  replace (nelts arr + 1 - 1)%Z with (nelts arr) by lia.
  set (h := ptr_add e (elt_size arr * nelts arr)).
  set (a := Z.to_nat (off e + elt_size arr * nelts arr)).
  assert (Ha : (a + length v <= length b)%nat) by (unfold a; nia).
  destruct (store_Some m h v) as (b' & Hb' & Hst).
  { exists b. unfold h. cbn [ptr_add blk off].
    repeat split; try assumption; nia. }
  unfold h in Hb'. cbn [ptr_add blk] in Hb'.
  assert (b' = b) by congruence. subst b'.
  unfold h in Hst at 2 3 4. cbn [ptr_add blk off] in Hst. fold a in Hst.
  set (b2 := take a b ++ v ++ drop (a + length v) b) in *.
  assert (Hlen2 : length b2 = length b) by (apply splice_length, Ha).
  assert (Hblt : (blk e < length m)%nat)
    by (eapply lookup_lt_Some; exact Hb).
  assert (Hlk : (<[blk e := b2]> m) !! blk e = Some b2)
    by (unfold mem in *; apply list_lookup_insert_eq, Hblt).
  eexists _, h, _. split; [reflexivity |]. split; [exact Hst |].
  split.
  { split; [exact Hs |]. split; [cbn [nelts nalloc]; lia |].
    exists e, b2. cbn [elts nalloc elt_size].
    repeat split; try assumption. rewrite Hlen2. exact Hlen. }
  split; [reflexivity |]. split; [reflexivity |].
  split; [reflexivity |]. split; [reflexivity |].
  split.
  { rewrite (read_elt_Some _ _ (nelts arr) e b2);
      try assumption; try reflexivity; cbn [elt_size]; try lia;
      try (rewrite Hlen2; nia).
    f_equal. fold a. rewrite <- Hv, Nat2Z.id. apply splice_same, Ha. }
  split.
  { intros i Hi.
    rewrite (read_elt_Some _ _ i e b2);
      try assumption; try reflexivity; cbn [elt_size]; try lia;
      try (rewrite Hlen2; nia).
    rewrite (read_elt_Some m arr i e b); try assumption; try lia;
      try nia.
    f_equal. apply splice_other; [exact Ha |]. left. unfold a. nia. }
  split.
  { intros q n Hq. eapply load_store_other_block; [exact Hst |].
    unfold h. cbn [ptr_add blk]. apply Hq. reflexivity. }
  unfold mem in *. apply length_insert.
Qed.

(** One push, of either variant, and the write of the new element. *)
Lemma push_step_spec (clear : bool) m arr v :
  array_ok m arr ->
  (2 * (nelts arr + 1) * Z.max 1 (elt_size arr) <= INT_MAX)%Z ->
  Z.of_nat (length v) = elt_size arr ->
  exists m1 arr1 h m2,
    (if clear then xm_array_push zero m arr
     else xm_array_push_noclear m arr) = Some (m1, arr1, h) /\
    store m1 h v = Some m2 /\
    array_ok m2 arr1 /\
    nelts arr1 = (nelts arr + 1)%Z /\ elt_size arr1 = elt_size arr /\
    nalloc arr1 =
      (if (nelts arr =? nalloc arr)%Z then Z.max 1 (2 * nalloc arr)
       else nalloc arr) /\
    read_elt m2 arr1 (nelts arr) = Some v /\
    (forall i, (0 <= i < nelts arr)%Z ->
       read_elt m2 arr1 i = read_elt m arr i) /\
    (forall q n, (blk q < length m)%nat ->
       (forall e, elts arr1 = Some e -> blk q <> blk e) ->
       load m2 q n = load m q n) /\
    (length m <= length m2)%nat /\
    ((nelts arr =? nalloc arr)%Z = true ->
     elts arr1 = Some {| blk := length m; off := 0 |}).
Proof.
  intros Hok Hbound Hv. pose proof Hok as (Hs & Hn & _).
  assert (Hg : exists m' arr',
    push_grow zero clear m arr = Some (m', arr') /\
    array_ok m' arr' /\
    elt_size arr' = elt_size arr /\ nelts arr' = nelts arr /\
    (nelts arr' < nalloc arr')%Z /\
    nalloc arr' =
      (if (nelts arr =? nalloc arr)%Z then Z.max 1 (2 * nalloc arr)
       else nalloc arr) /\
    (forall i, (0 <= i < nelts arr)%Z ->
       read_elt m' arr' i = read_elt m arr i) /\
    (forall q n, (blk q < length m)%nat -> load m' q n = load m q n) /\
    (length m <= length m')%nat /\
    ((nelts arr =? nalloc arr)%Z = true ->
     elts arr' = Some {| blk := length m; off := 0 |})).
  { destruct (Z.eq_dec (nelts arr) (nalloc arr)) as [Heq | Hne].
    - apply push_grow_spec; [exact Hok | nia | nia].
    - exists m, arr. unfold push_grow.
      destruct (Z.eqb_spec (nelts arr) (nalloc arr)); [contradiction |].
      split; [reflexivity |]. split; [exact Hok |].
      repeat split; try reflexivity; try lia; discriminate. }
  destruct Hg as (m' & arr' & Hgrow & Hok' & Hes & Hne & Hlt & Hna & Hrd &
                  Hfr & Hlen & Hel).
  destruct (push_last_store_spec m' arr' v Hok' Hlt)
    as (arr1 & h & m2 & Hpl & Hst & Hok1 & Hn1 & Hna1 & Hes1 & Hel1 &
        Hnew & Hold & Hfr1 & Hlen1); [nia | congruence |].
  exists m', arr1, h, m2.
  split.
  { destruct clear;
      rewrite ?xm_array_push_parts, ?xm_array_push_noclear_parts, Hgrow;
      cbn [mbind option_bind]; exact Hpl. }
  split; [exact Hst |]. split; [exact Hok1 |].
  split; [lia |]. split; [congruence |]. split; [congruence |].
  split; [rewrite <- Hne; exact Hnew |].
  split.
  { intros i Hi. rewrite Hold by lia. apply Hrd, Hi. }
  split.
  { intros q n Hq Hblk. rewrite Hfr1; [apply Hfr, Hq |].
    intros e He. apply Hblk. congruence. }
  split; [lia |].
  intros Heq. rewrite Hel1. apply Hel, Heq.
Qed.

Lemma push_all_app (clear : bool) vs1 :
  forall m arr vs2,
  push_all zero clear m arr (vs1 ++ vs2) =
  push_all zero clear m arr vs1 ≫= fun '(m', arr') =>
    push_all zero clear m' arr' vs2.
Proof.
  induction vs1 as [| v vs1 IH]; intros m arr vs2; [reflexivity |].
  cbn [push_all app].
  destruct (if clear then xm_array_push zero m arr
            else xm_array_push_noclear m arr) as [[[m1 arr1] h] |];
    [| reflexivity].
  cbn [mbind option_bind].
  destruct (store m1 h v) as [m2 |]; [| reflexivity].
  cbn [mbind option_bind]. apply IH.
Qed.

Lemma push_all_spec (clear : bool) vs :
  forall m arr,
  array_ok m arr ->
  Forall (fun v => Z.of_nat (length v) = elt_size arr) vs ->
  (2 * (nelts arr + Z.of_nat (length vs)) * Z.max 1 (elt_size arr)
   <= INT_MAX)%Z ->
  exists m' arr',
    push_all zero clear m arr vs = Some (m', arr') /\
    array_ok m' arr' /\ elt_size arr' = elt_size arr /\
    nelts arr' = (nelts arr + Z.of_nat (length vs))%Z /\
    (forall i, (0 <= i < nelts arr)%Z ->
       read_elt m' arr' i = read_elt m arr i) /\
    (forall k v, vs !! k = Some v ->
       read_elt m' arr' (nelts arr + Z.of_nat k) = Some v).
Proof.
  induction vs as [| v vs IH]; intros m arr Hok Hall Hbound.
  - exists m, arr. split; [reflexivity |]. split; [exact Hok |].
    split; [reflexivity |]. split; [simpl; lia |].
    split; [reflexivity |]. intros k v Hk. rewrite lookup_nil in Hk.
    discriminate.
  - pose proof Hok as (Hs & Hn & _).
    apply Forall_cons in Hall as [Hv Hall]. simpl length in Hbound.
    destruct (push_step_spec clear m arr v Hok)
      as (m1 & arr1 & h & m2 & Hpush & Hst & Hok1 & Hn1 & Hes1 & _ &
          Hnew & Hold & _); [nia | exact Hv |].
    destruct (IH m2 arr1 Hok1) as (m' & arr' & Hall' & Hok' & Hes' & Hn' &
                                   Hold' & Hnew').
    { rewrite Hes1. exact Hall. }
    { rewrite Hn1, Hes1. nia. }
    exists m', arr'. split.
    { cbn [push_all]. rewrite Hpush. cbn [mbind option_bind].
      rewrite Hst. cbn [mbind option_bind]. exact Hall'. }
    split; [exact Hok' |]. split; [congruence |].
    split; [simpl length; lia |].
    split.
    { intros i Hi. rewrite Hold' by lia. apply Hold, Hi. }
    intros k v' Hk. destruct k as [| k]; simpl in Hk.
    + injection Hk as <-. rewrite Z.add_0_r, Hold' by lia. exact Hnew.
    + replace (nelts arr + Z.of_nat (S k))%Z
        with (nelts arr1 + Z.of_nat k)%Z by lia.
      apply Hnew', Hk.
Qed.

(** An array fresh from [xm_array_make] owns its storage and is empty,
    with room for [max(1, n)] elements. *)
Lemma xm_array_make_ok m p n es :
  (0 <= es)%Z -> (Z.max 1 n * es <= INT_MAX)%Z ->
  exists m' arr,
    xm_array_make zero m p n es = Some (m', arr) /\
    array_ok m' arr /\
    nelts arr = 0%Z /\ nalloc arr = Z.max 1 n /\ elt_size arr = es.
Proof.
  intros Hes Hb.
  unfold xm_array_make, make_array_core, xm_pcalloc.
  assert (Hn : (if (n <? 1)%Z then 1%Z else n) = Z.max 1 n)
    by (destruct (Z.ltb_spec n 1); lia).
  rewrite Hn.
  rewrite (cint_Some (Z.max 1 n * es)) by (unfold INT_MIN; nia).
  cbn [mbind option_bind].
  assert (Hle : (0 <=? Z.max 1 n * es)%Z = true) by (apply Z.leb_le; nia).
  rewrite Hle. cbn [mbind option_bind].
  eexists _, _. split; [reflexivity |].
  split; [| cbn [nelts nalloc elt_size]; auto].
  split; [exact Hes |]. split; [cbn [nelts nalloc]; lia |].
  eexists _, _. split; [reflexivity |]. cbn [blk off nalloc elt_size].
  split; [apply lookup_fresh |].
  rewrite length_replicate. nia.
Qed.

End ArrayProofs.

(** C7. For an array that owns its storage, a sequence of pushes of
    either variant, each followed by the write of the new element, adds
    the number of pushes to the count (so the count is that number for an
    array fresh from [xm_array_make]) and leaves every element readable
    as it was written.  Each push keeps the capacity, or, the array
    being full, makes it [max(1, 2 * capacity)], and the elements there
    were read the same before and after it.  The sizes are to fit in an
    [int]. *)
Theorem pushes_keep_elements {cell : Type} (zero : cell) (clear : bool)
    (m : @mem cell) (arr : xm_array_header_t)
    (vs : list (list (option cell))) :
  array_ok m arr ->
  Forall (fun v => Z.of_nat (length v) = elt_size arr) vs ->
  (2 * (nelts arr + Z.of_nat (length vs)) * Z.max 1 (elt_size arr)
   <= INT_MAX)%Z ->
  (exists m' arr',
     push_all zero clear m arr vs = Some (m', arr') /\
     nelts arr' = (nelts arr + Z.of_nat (length vs))%Z /\
     (forall i, (0 <= i < nelts arr)%Z ->
        read_elt m' arr' i = read_elt m arr i) /\
     (forall k v, vs !! k = Some v ->
        read_elt m' arr' (nelts arr + Z.of_nat k) = Some v)) /\
  (forall k v, vs !! k = Some v ->
     exists mk ak mk' ak',
       push_all zero clear m arr (take k vs) = Some (mk, ak) /\
       push_all zero clear m arr (take (S k) vs) = Some (mk', ak') /\
       nelts ak = (nelts arr + Z.of_nat k)%Z /\
       nalloc ak' =
         (if (nelts ak =? nalloc ak)%Z then Z.max 1 (2 * nalloc ak)
          else nalloc ak) /\
       (forall i, (0 <= i < nelts ak)%Z ->
          read_elt mk' ak' i = read_elt mk ak i)).
Proof.
  intros Hok Hall Hbound. split.
  - destruct (push_all_spec zero clear vs m arr Hok Hall Hbound)
      as (m' & arr' & Hp & _ & _ & Hn & Hold & Hnew).
    exists m', arr'. auto.
  - intros k v Hk.
    pose proof (lookup_lt_Some _ _ _ Hk) as Hlt.
    destruct (push_all_spec zero clear (take k vs) m arr Hok)
      as (mk & ak & Hp & Hokk & Hes & Hn & _ & _).
    { apply Forall_take, Hall. }
    { rewrite length_take_le by lia. nia. }
    rewrite length_take_le in Hn by lia.
    destruct (push_step_spec zero clear mk ak v Hokk)
      as (m1 & a1 & h & m2 & Hpush & Hst & _ & _ & _ & Hna & _ & Hold & _).
    { rewrite Hn, Hes. nia. }
    { rewrite Hes. exact (Forall_lookup_1 _ _ _ _ Hall Hk). }
    exists mk, ak, m2, a1. split; [exact Hp |]. split.
    { rewrite (take_S_r _ _ _ Hk), push_all_app, Hp.
      cbn [mbind option_bind push_all]. rewrite Hpush.
      cbn [mbind option_bind]. rewrite Hst. reflexivity. }
    split; [exact Hn |]. split; [exact Hna | exact Hold].
Qed.

(** C9. For an array that owns its storage, a push on the header copy
    goes to a fresh block, so that after it and the write of the new
    element every element of the original reads as before; the copy has
    the elements of the original and the new one. *)
Theorem copy_hdr_push_isolated {cell : Type} (zero : cell) (clear : bool)
    (m : @mem cell) (p : nat) (A : xm_array_header_t)
    (v : list (option cell)) :
  array_ok m A ->
  (2 * (nelts A + 1) * Z.max 1 (elt_size A) <= INT_MAX)%Z ->
  Z.of_nat (length v) = elt_size A ->
  nalloc (xm_array_copy_hdr p A) = nelts A /\
  exists m1 C1 h m2,
    (if clear then xm_array_push zero m (xm_array_copy_hdr p A)
     else xm_array_push_noclear m (xm_array_copy_hdr p A)) =
      Some (m1, C1, h) /\
    store m1 h v = Some m2 /\
    elts C1 = Some {| blk := length m; off := 0 |} /\
    (forall e, elts A = Some e -> blk e <> length m) /\
    (forall i, (0 <= i < nelts A)%Z ->
       read_elt m2 A i = read_elt m A i) /\
    (forall i, (0 <= i < nelts A)%Z ->
       read_elt m2 C1 i = read_elt m A i) /\
    read_elt m2 C1 (nelts A) = Some v.
Proof.
  intros Hok Hbound Hv. split; [reflexivity |].
  pose proof Hok as (Hs & Hn & e & b & He & Hb & Ho & Hlen).
  assert (Hblt : (blk e < length m)%nat)
    by (eapply lookup_lt_Some; exact Hb).
  assert (HokC : array_ok m (xm_array_copy_hdr p A)).
  { split; [exact Hs |]. split; [cbn [nelts nalloc xm_array_copy_hdr
                                       copy_array_hdr_core]; lia |].
    exists e, b. cbn. repeat split; try assumption. nia. }
  destruct (push_step_spec zero clear m (xm_array_copy_hdr p A) v HokC)
    as (m1 & C1 & h & m2 & Hpush & Hst & _ & _ & _ & _ & Hnew & Hold &
        Hfr & _ & Hel); [exact Hbound | exact Hv |].
  cbn [nelts nalloc xm_array_copy_hdr copy_array_hdr_core] in Hnew, Hold, Hel.
  specialize (Hel (Z.eqb_refl _)).
  exists m1, C1, h, m2.
  split; [exact Hpush |]. split; [exact Hst |]. split; [exact Hel |].
  split; [intros e' He'; assert (e' = e) by congruence; subst; lia |].
  split.
  { intros i Hi. unfold read_elt. rewrite He. cbn [mbind option_bind].
    apply Hfr; [exact Hblt |].
    intros e' He'. rewrite Hel in He'. injection He' as <-.
    cbn [ptr_add blk]. lia. }
  split; [| exact Hnew].
  intros i Hi. rewrite (Hold i Hi). unfold read_elt. reflexivity.
Qed.

Lemma iterate_semantics_witness :
  @table_ok x86_64
    (@run_ops x86_64 [OpAdd "Host" "a"; OpAdd "Via" "b"; OpAdd "host" "c"]) /\
  (@xm_table_vdo x86_64 nat
     (fun n _ v => ((if String.eqb v "a" then 0 else 1)%Z, S n)) 0
     (@run_ops x86_64 [OpAdd "Host" "a"; OpAdd "Via" "b"; OpAdd "host" "c"])
     ["HOST"; "via"] =
   iterate_spec
     (fun n _ v => ((if String.eqb v "a" then 0 else 1)%Z, S n)) 0
     (a_elts (@run_ops x86_64
                [OpAdd "Host" "a"; OpAdd "Via" "b"; OpAdd "host" "c"]))
     ["HOST"; "via"]).
Proof.
  split; [apply run_ops_ok |].
  apply (@iterate_semantics x86_64 nat
           (fun n _ v => ((if String.eqb v "a" then 0 else 1)%Z, S n)) 0
           (@run_ops x86_64
              [OpAdd "Host" "a"; OpAdd "Via" "b"; OpAdd "host" "c"])
           ["HOST"; "via"]).
  apply run_ops_ok.
Defined.

Example iterate_stops_one_key :
  @xm_table_vdo x86_64 nat
    (fun n _ v => ((if String.eqb v "a" then 0 else 1)%Z, S n)) 0
    (@run_ops x86_64 [OpAdd "Host" "a"; OpAdd "Via" "b"; OpAdd "host" "c"])
    ["HOST"; "via"] = (0%Z, 2).
Proof. reflexivity. Qed.

Lemma array_ok_example :
  array_ok [[Some 1%Z; Some 2%Z]]
    {| pool := 0; elt_size := 2; nelts := 1; nalloc := 1;
       elts := Some {| blk := 0; off := 0 |} |}.
Proof.
  split; [simpl; lia |]. split; [simpl; lia |].
  eexists _, _. split; [reflexivity |]. split; [reflexivity |].
  simpl. lia.
Qed.

Lemma array_made_example :
  xm_array_make 0%Z [] 0 0 2 =
    Some ([[Some 0%Z; Some 0%Z]],
          {| pool := 0; elt_size := 2; nelts := 0; nalloc := 1;
             elts := Some {| blk := 0; off := 0 |} |}) /\
  array_ok [[Some 0%Z; Some 0%Z]]
    {| pool := 0; elt_size := 2; nelts := 0; nalloc := 1;
       elts := Some {| blk := 0; off := 0 |} |}.
Proof.
  destruct (xm_array_make_ok 0%Z [] 0 0 2) as (m' & arr & Hm & Hok & _);
    [lia | vm_compute; discriminate |].
  vm_compute in Hm. injection Hm as <- <-. split; [reflexivity | exact Hok].
Qed.

Lemma pushes_keep_elements_witness :
  array_ok [[Some 0%Z; Some 0%Z]]
    {| pool := 0; elt_size := 2; nelts := 0; nalloc := 1;
       elts := Some {| blk := 0; off := 0 |} |} /\
  exists m' arr',
    push_all 0%Z false [[Some 0%Z; Some 0%Z]]
      {| pool := 0; elt_size := 2; nelts := 0; nalloc := 1;
         elts := Some {| blk := 0; off := 0 |} |}
      [[Some 1%Z; Some 2%Z]; [Some 3%Z; Some 4%Z]; [Some 5%Z; Some 6%Z]] =
      Some (m', arr') /\
    nelts arr' = 3%Z.
Proof.
  split; [exact (proj2 array_made_example) |].
  destruct (pushes_keep_elements 0%Z false [[Some 0%Z; Some 0%Z]]
              {| pool := 0; elt_size := 2; nelts := 0; nalloc := 1;
                 elts := Some {| blk := 0; off := 0 |} |}
              [[Some 1%Z; Some 2%Z]; [Some 3%Z; Some 4%Z];
               [Some 5%Z; Some 6%Z]]
              (proj2 array_made_example))
    as [(m' & arr' & Hp & Hn & _) _].
  - repeat constructor.
  - vm_compute. discriminate.
  - exists m', arr'. split; [exact Hp | exact Hn].
Defined.

Example pushes_example :
  push_all 0%Z false [[Some 0%Z; Some 0%Z]]
    {| pool := 0; elt_size := 2; nelts := 0; nalloc := 1;
       elts := Some {| blk := 0; off := 0 |} |}
    [[Some 1%Z; Some 2%Z]; [Some 3%Z; Some 4%Z]; [Some 5%Z; Some 6%Z]] =
  Some ([[Some 1%Z; Some 2%Z];
         [Some 1%Z; Some 2%Z; Some 3%Z; Some 4%Z];
         [Some 1%Z; Some 2%Z; Some 3%Z; Some 4%Z; Some 5%Z; Some 6%Z;
          None; None]],
        {| pool := 0; elt_size := 2; nelts := 3; nalloc := 4;
           elts := Some {| blk := 2; off := 0 |} |}).
Proof. reflexivity. Qed.

Lemma copy_hdr_push_isolated_witness :
  array_ok [[Some 1%Z; Some 2%Z]]
    {| pool := 0; elt_size := 2; nelts := 1; nalloc := 1;
       elts := Some {| blk := 0; off := 0 |} |} /\
  exists m1 C1 h m2,
    xm_array_push 0%Z [[Some 1%Z; Some 2%Z]]
      (xm_array_copy_hdr 1
         {| pool := 0; elt_size := 2; nelts := 1; nalloc := 1;
            elts := Some {| blk := 0; off := 0 |} |}) = Some (m1, C1, h) /\
    store m1 h [Some 7%Z; Some 8%Z] = Some m2 /\
    read_elt m2
      {| pool := 0; elt_size := 2; nelts := 1; nalloc := 1;
         elts := Some {| blk := 0; off := 0 |} |} 0 =
    Some [Some 1%Z; Some 2%Z].
Proof.
  split; [exact array_ok_example |].
  destruct (copy_hdr_push_isolated 0%Z true [[Some 1%Z; Some 2%Z]] 1
              {| pool := 0; elt_size := 2; nelts := 1; nalloc := 1;
                 elts := Some {| blk := 0; off := 0 |} |}
              [Some 7%Z; Some 8%Z] array_ok_example)
    as [_ (m1 & C1 & h & m2 & Hp & Hst & _ & _ & HA & _)].
  - vm_compute. discriminate.
  - reflexivity.
  - exists m1, C1, h, m2. split; [exact Hp |]. split; [exact Hst |].
    rewrite HA by (simpl; lia). reflexivity.
Defined.

(** ** The pool agent *)

(** [xm_mpool_agent_free] keeps the cache within its maximum. *)
Lemma agent_free_bounded mpa mp :
  (max_cache_n mpa < 2 ^ 64)%Z ->
  (0 <= cur_cache_n mpa <= max_cache_n mpa)%Z ->
  (0 <= cur_cache_n (xm_mpool_agent_free mpa mp)
     <= max_cache_n (xm_mpool_agent_free mpa mp))%Z.
Proof.
  intros Hmax Hcur. unfold xm_mpool_agent_free.
  destruct (Z.ltb_spec (cur_cache_n mpa) (max_cache_n mpa)) as [Hlt | Hge];
    cbn [cur_cache_n max_cache_n]; [| exact Hcur].
  unfold u64. rewrite Z.mod_small by lia. lia.
Qed.

(** The loop of [xm_mpool_agent_init] counts every arena created, and
    never looks at [max_cache_n]. *)
Lemma init_loop_all_created n :
  forall i creates mpa,
  (0 <= i)%Z -> (i + Z.of_nat n = pre_alloc_n mpa)%Z ->
  (pre_alloc_n mpa <= INT_MAX)%Z ->
  (0 <= cur_cache_n mpa)%Z ->
  (cur_cache_n mpa + Z.of_nat n < 2 ^ 64)%Z ->
  exists mpa',
    init_loop n i (replicate n true ++ creates) mpa = Some (mpa', creates) /\
    cur_cache_n mpa' = (cur_cache_n mpa + Z.of_nat n)%Z /\
    max_cache_n mpa' = max_cache_n mpa.
Proof.
  induction n as [| n IH]; intros i creates mpa Hi Hn Hmax H0 Hlt.
  - exists mpa. cbn [init_loop replicate app].
    assert (Hu : u64 i = i)
      by (unfold u64; apply Z.mod_small; unfold INT_MAX in Hmax; lia).
    rewrite Hu. destruct (Z.ltb_spec i (pre_alloc_n mpa)); [lia |].
    split; [reflexivity |]. split; [lia | reflexivity].
  - cbn [replicate app init_loop xm_pool_create].
    assert (Hu : u64 i = i)
      by (unfold u64; apply Z.mod_small; unfold INT_MAX in Hmax; lia).
    rewrite Hu. destruct (Z.ltb_spec i (pre_alloc_n mpa)); [| lia].
    rewrite (cint_Some (i + 1)) by (unfold INT_MIN; lia).
    cbn [mbind option_bind].
    assert (Hc : u64 (cur_cache_n mpa + 1) = (cur_cache_n mpa + 1)%Z)
      by (unfold u64; apply Z.mod_small; lia).
    rewrite Hc.
    destruct (IH (i + 1)%Z creates
                {| cache_list :=
                     {| pool_block_size := pool_size mpa; pool_live := [] |}
                     :: cache_list mpa;
                   max_cache_n := max_cache_n mpa;
                   cur_cache_n := (cur_cache_n mpa + 1)%Z;
                   pool_size := pool_size mpa;
                   pre_alloc_n := pre_alloc_n mpa |})
      as (mpa' & Hr & Hcn & Hm);
      cbn [cur_cache_n max_cache_n pre_alloc_n]; try lia.
    exists mpa'. split; [exact Hr |].
    cbn [cur_cache_n max_cache_n] in Hcn, Hm. split; [lia | exact Hm].
Qed.

(** C1, where the code departs from it.  [xm_mpool_agent_init] asked for
    a maximum of 2 and 5 arenas in advance, all created, leaves 5 arenas
    cached: more than the maximum. *)
Theorem agent_init_exceeds_max :
  exists mpa,
    xm_mpool_agent_init (replicate 5 true) 2 4096 5 = Some (mpa, []) /\
    cur_cache_n mpa = 5%Z /\
    max_cache_n mpa = 2%Z /\
    length (cache_list mpa) = 5 /\
    ~ (cur_cache_n mpa <= max_cache_n mpa)%Z.
Proof.
  eexists. split; [reflexivity |].
  split; [reflexivity |]. split; [reflexivity |]. split; [reflexivity |].
  vm_compute. intros Hle. apply Hle. reflexivity.
Qed.

(** * Further properties *)

(** ** Keys *)

Lemma key_is_congr K K' e :
  strcasecmp K K' = 0%Z -> key_is K' e = key_is K e.
Proof.
  intros Hc. unfold key_is.
  destruct (Z.eqb_spec (strcasecmp (deref (key e)) K) 0) as [E | E];
    destruct (Z.eqb_spec (strcasecmp (deref (key e)) K') 0) as [E' | E'];
    try reflexivity; exfalso.
  - apply E'. exact (strcasecmp_trans _ _ _ E Hc).
  - apply E. exact (strcasecmp_trans _ _ _ E' (strcasecmp_sym _ _ Hc)).
Qed.

Lemma key_is_disjoint K K' e :
  strcasecmp K K' <> 0%Z -> key_is K e = true -> key_is K' e = false.
Proof.
  intros Hc HK. unfold key_is in *.
  apply Z.eqb_eq in HK.
  destruct (Z.eqb_spec (strcasecmp (deref (key e)) K') 0) as [E' | E'];
    [| reflexivity].
  exfalso. apply Hc.
  exact (strcasecmp_trans _ _ _ (strcasecmp_sym _ _ HK) E').
Qed.

Lemma filter_key_congr K K' l :
  strcasecmp K K' = 0%Z ->
  List.filter (key_is K') l = List.filter (key_is K) l.
Proof.
  intros Hc. apply filter_agree, Forall_forall. intros e _.
  apply key_is_congr, Hc.
Qed.

Lemma key_is_stored `{Target} K V K' :
  key_is K' (stored_entry K V) = (strcasecmp K K' =? 0)%Z.
Proof. reflexivity. Qed.

(** The first entry a filter keeps, with none kept before it. *)
Lemma head_filter_Some (p : xm_table_entry_t -> bool) l e :
  head (List.filter p l) = Some e ->
  exists i, l !! i = Some e /\ p e = true /\
    forall j e', j < i -> l !! j = Some e' -> p e' = false.
Proof.
  induction l as [| x l IH]; simpl; [discriminate |].
  destruct (p x) eqn:Ex; simpl.
  - intros [= ->]. exists 0. repeat split; [assumption |]. intros; lia.
  - intros Hh. destruct (IH Hh) as (i & Hi & Hp & Hbefore).
    exists (S i). repeat split; [assumption .. |].
    intros [| j] e' Hj; simpl; [intros [= <-]; exact Ex |].
    apply Hbefore. lia.
Qed.

Lemma head_filter_None (p : xm_table_entry_t -> bool) l :
  head (List.filter p l) = None <-> Forall (fun e => p e = false) l.
Proof.
  split.
  - intros Hh. apply filter_nil_Forall.
    destruct (List.filter p l); [reflexivity | discriminate].
  - intros Hall. rewrite (filter_none _ _ Hall). reflexivity.
Qed.

(** ** Lookup *)

(** X1. [xm_table_get] returns [NULL] for a [NULL] key, and for a key
    exactly when no entry has it; otherwise it returns the value of the
    first entry, in table order, whose key equals the one asked for
    without regard to case.  Two spellings of a key get the same
    answer. *)
Theorem get_first_match `{Target} (t : xm_table_t) (K : string) :
  table_ok t ->
  xm_table_get t None = None /\
  (xm_table_get t (Some K) = None <->
   Forall (fun e => key_is K e = false) (a_elts t)) /\
  (forall v, xm_table_get t (Some K) = Some v ->
     exists i e, a_elts t !! i = Some e /\ key_is K e = true /\
       val e = v /\
       forall j e', j < i -> a_elts t !! j = Some e' ->
         key_is K e' = false) /\
  (forall K', strcasecmp K K' = 0%Z ->
     xm_table_get t (Some K') = xm_table_get t (Some K)).
Proof.
  intros Hok. split; [reflexivity |].
  rewrite (xm_table_get_spec t K Hok). split; [| split].
  - rewrite <- head_filter_None.
    destruct (head (List.filter (key_is K) (a_elts t))); simpl;
      split; congruence.
  - intros v Hv.
    destruct (head (List.filter (key_is K) (a_elts t))) as [e |] eqn:Hh;
      [| discriminate].
    injection Hv as Hv.
    destruct (head_filter_Some _ _ _ Hh) as (i & Hi & Hp & Hbefore).
    exists i, e. auto.
  - intros K' Hc.
    rewrite (xm_table_get_spec t K' Hok), (filter_key_congr K K' _ Hc).
    reflexivity.
Qed.

Lemma get_first_match_witness :
  @table_ok x86_64
    (@run_ops x86_64 [OpAdd "Via" "b"; OpAdd "Host" "a"; OpAdd "host" "c"]) /\
  forall K', strcasecmp "HOST" K' = 0%Z ->
    @xm_table_get x86_64
      (@run_ops x86_64 [OpAdd "Via" "b"; OpAdd "Host" "a"; OpAdd "host" "c"])
      (Some K') =
    @xm_table_get x86_64
      (@run_ops x86_64 [OpAdd "Via" "b"; OpAdd "Host" "a"; OpAdd "host" "c"])
      (Some "HOST").
Proof.
  split; [apply run_ops_ok |].
  apply (@get_first_match x86_64
           (@run_ops x86_64
              [OpAdd "Via" "b"; OpAdd "Host" "a"; OpAdd "host" "c"]) "HOST").
  apply run_ops_ok.
Defined.

Example get_first_match_example :
  @xm_table_get x86_64
    (@run_ops x86_64 [OpAdd "Via" "b"; OpAdd "Host" "a"; OpAdd "host" "c"])
    (Some "hOST") = Some "a" /\
  @xm_table_get x86_64
    (@run_ops x86_64 [OpAdd "Via" "b"; OpAdd "Host" "a"; OpAdd "host" "c"])
    (Some "Hos") = None.
Proof. split; reflexivity. Qed.

(** ** [xm_table_add] *)

(** X2. [xm_table_add] keeps the invariant of the table and puts one
    entry for the key at the end, whatever the table holds; a lookup of
    any key answers as before when it had an answer, and finds the new
    value when it had none and asks for the key added. *)
Theorem add_appends `{Target} (t : xm_table_t) (K V K' : string) :
  table_ok t ->
  table_ok (xm_table_add t K V) /\
  a_elts (xm_table_add t K V) = a_elts t ++ [stored_entry K V] /\
  xm_table_get (xm_table_add t K V) (Some K') =
    match xm_table_get t (Some K') with
    | Some v => Some v
    | None => if (strcasecmp K K' =? 0)%Z then Some V else None
    end.
Proof.
  intros Hok.
  pose proof (xm_table_add_ok t K V Hok) as Hok'.
  split; [exact Hok' |]. split; [apply xm_table_add_elts |].
  rewrite (xm_table_get_spec _ K' Hok'), (xm_table_get_spec _ K' Hok).
  rewrite xm_table_add_elts, List.filter_app.
  destruct (List.filter (key_is K') (a_elts t)) as [| e r]; simpl.
  - fold (stored_entry K V). rewrite key_is_stored.
    destruct (strcasecmp K K' =? 0)%Z; reflexivity.
  - reflexivity.
Qed.

Lemma add_appends_witness :
  @table_ok x86_64 (@run_ops x86_64 [OpAdd "Via" "b"]) /\
  a_elts (@xm_table_add x86_64 (@run_ops x86_64 [OpAdd "Via" "b"])
            "Host" "a") =
  a_elts (@run_ops x86_64 [OpAdd "Via" "b"]) ++
    [@stored_entry x86_64 "Host" "a"].
Proof.
  split; [apply run_ops_ok |].
  apply (@add_appends x86_64 (@run_ops x86_64 [OpAdd "Via" "b"])
           "Host" "a" "host").
  apply run_ops_ok.
Defined.

(** ** [xm_table_set] and the other keys *)

Lemma set_elts_other checksum K V K' l :
  strcasecmp K K' <> 0%Z ->
  List.filter (key_is K') (set_elts checksum K V l) =
  List.filter (key_is K') l.
Proof.
  intros Hc. induction l as [| e l IH]; simpl.
  - unfold key_is. simpl.
    destruct (Z.eqb_spec (strcasecmp K K') 0); [contradiction | reflexivity].
  - destruct (key_is K e) eqn:EK; simpl.
    + rewrite key_is_with_val, (key_is_disjoint K K' e Hc EK).
      clear IH. induction l as [| x l IHl]; simpl; [reflexivity |].
      destruct (key_is K x) eqn:Ex; simpl.
      * rewrite (key_is_disjoint K K' x Hc Ex). exact IHl.
      * destruct (key_is K' x); [f_equal |]; exact IHl.
    + destruct (key_is K' e); [f_equal |]; exact IH.
Qed.

Lemma set_elts_rest checksum K V l :
  List.filter (fun e => negb (key_is K e)) (set_elts checksum K V l) =
  List.filter (fun e => negb (key_is K e)) l.
Proof.
  induction l as [| e l IH]; simpl.
  - unfold key_is. simpl. rewrite strcasecmp_refl. reflexivity.
  - destruct (key_is K e) eqn:EK; simpl.
    + rewrite key_is_with_val, EK. simpl.
      clear IH. induction l as [| x l IHl]; simpl; [reflexivity |].
      destruct (key_is K x) eqn:Ex; simpl; [exact IHl |].
      rewrite Ex. simpl. f_equal. exact IHl.
    + rewrite EK. simpl. f_equal. exact IH.
Qed.

(** X3. [xm_table_set] keeps the invariant and touches the entries of
    its key only: the entries of every other key stay as they were and
    in their order, a lookup of another key answers as before, and a
    lookup of any spelling of the key set finds the new value.  The
    table grows by at most one entry. *)
Theorem set_leaves_other_keys `{Target} (t : xm_table_t) (K V K' : string) :
  table_ok t ->
  table_ok (xm_table_set t K V) /\
  List.filter (fun e => negb (key_is K e)) (a_elts (xm_table_set t K V)) =
    List.filter (fun e => negb (key_is K e)) (a_elts t) /\
  xm_table_get (xm_table_set t K V) (Some K') =
    (if (strcasecmp K K' =? 0)%Z then Some V
     else xm_table_get t (Some K')) /\
  a_nelts (xm_table_set t K V) <= S (a_nelts t).
Proof.
  intros Hok.
  destruct (xm_table_set_spec t K V Hok) as [He Hok'].
  split; [exact Hok' |]. split; [rewrite He; apply set_elts_rest |].
  split.
  - rewrite (xm_table_get_spec _ K' Hok'), He.
    destruct (Z.eqb_spec (strcasecmp K K') 0) as [Hc | Hc].
    + rewrite (filter_key_congr K K' _ Hc).
      destruct (set_elts_matching (COMPUTE_KEY_CHECKSUM K) K V (a_elts t))
        as (e & Hv & Hf).
      rewrite Hf. simpl. rewrite Hv. reflexivity.
    + rewrite (set_elts_other _ K V K' _ Hc).
      symmetry. apply xm_table_get_spec, Hok.
  - unfold a_nelts. rewrite He. clear.
    induction (a_elts t) as [| e l IH]; simpl; [lia |].
    destruct (key_is K e); simpl; [| lia].
    pose proof (filter_take_length (fun e => negb (key_is K e))
                  (length l) l) as Hl.
    rewrite take_ge in Hl by lia. lia.
Qed.

Lemma set_leaves_other_keys_witness :
  @table_ok x86_64
    (@run_ops x86_64 [OpAdd "Host" "a"; OpAdd "Via" "b"; OpAdd "host" "c"]) /\
  @xm_table_get x86_64
    (@xm_table_set x86_64
       (@run_ops x86_64 [OpAdd "Host" "a"; OpAdd "Via" "b"; OpAdd "host" "c"])
       "HOST" "d") (Some "via") =
  (if (strcasecmp "HOST" "via" =? 0)%Z then Some "d"
   else @xm_table_get x86_64
          (@run_ops x86_64
             [OpAdd "Host" "a"; OpAdd "Via" "b"; OpAdd "host" "c"])
          (Some "via")).
Proof.
  split; [apply run_ops_ok |].
  apply (@set_leaves_other_keys x86_64
           (@run_ops x86_64
              [OpAdd "Host" "a"; OpAdd "Via" "b"; OpAdd "host" "c"])
           "HOST" "d" "via").
  apply run_ops_ok.
Defined.

(** ** [xm_table_merge] *)

Lemma merge_elts_no_match checksum k v l :
  Forall (fun e => key_is k e = false) l ->
  merge_elts checksum k v l =
  l ++ [ {| key := Some k; val := v; key_checksum := checksum |} ].
Proof.
  induction 1 as [| e l He _ IH]; simpl; [reflexivity |].
  rewrite He, IH. reflexivity.
Qed.

Lemma merge_elts_found checksum k v l :
  forall m e, l !! m = Some e -> key_is k e = true ->
  Forall (fun e => key_is k e = false) (take m l) ->
  merge_elts checksum k v l = <[m := with_val e (val e +:+ ", " +:+ v)]> l.
Proof.
  induction l as [| x l IH]; intros m e Hm Hk Hpre; [discriminate |].
  destruct m as [| m]; simpl in *.
  - injection Hm as ->. rewrite Hk. reflexivity.
  - apply Forall_cons in Hpre as [Hx Hpre]. rewrite Hx.
    f_equal. exact (IH m e Hm Hk Hpre).
Qed.

Lemma xm_table_merge_elts `{Target} t k v :
  table_ok t ->
  a_elts (xm_table_merge t k v) =
  merge_elts (COMPUTE_KEY_CHECKSUM k) k v (a_elts t).
Proof.
  intros Hok. unfold xm_table_merge.
  destruct (key_cases t k Hok) as
    [[Hno [Hb | (Hb & _ & Hscan)]] |
     (Hb & m & e & Hm & Hml & Hl & He & Hp & Hk & Hscan & Hpre & Hpost)];
    rewrite Hb; simpl negb; cbv iota.
  - rewrite (merge_elts_no_match _ _ _ _ Hno). reflexivity.
  - rewrite (merge_loop_none t _ _ _ _ _ Hscan).
    rewrite (merge_elts_no_match _ _ _ _ Hno). reflexivity.
  - rewrite (merge_loop_found t _ _ _ _ _ m e Hm He Hp Hscan).
    rewrite (merge_elts_found _ _ _ _ m e He Hk Hpre). reflexivity.
Qed.

Lemma merge_elts_other checksum K V K' l :
  strcasecmp K K' <> 0%Z ->
  List.filter (key_is K') (merge_elts checksum K V l) =
  List.filter (key_is K') l.
Proof.
  intros Hc. induction l as [| e l IH]; simpl.
  - unfold key_is. simpl.
    destruct (Z.eqb_spec (strcasecmp K K') 0); [contradiction | reflexivity].
  - destruct (key_is K e) eqn:EK; simpl.
    + rewrite key_is_with_val, (key_is_disjoint K K' e Hc EK). reflexivity.
    + destruct (key_is K' e); [f_equal |]; exact IH.
Qed.

Lemma merge_elts_head checksum K V l :
  val <$> head (List.filter (key_is K) (merge_elts checksum K V l)) =
  Some (match val <$> head (List.filter (key_is K) l) with
        | Some old => old +:+ ", " +:+ V
        | None => V
        end).
Proof.
  induction l as [| e l IH]; simpl.
  - unfold key_is. simpl. rewrite strcasecmp_refl. reflexivity.
  - destruct (key_is K e) eqn:EK; simpl.
    + rewrite key_is_with_val, EK. reflexivity.
    + rewrite EK. exact IH.
Qed.

Lemma merge_elts_length checksum K V l :
  length (merge_elts checksum K V l) =
  if bool_decide (List.filter (key_is K) l = []) then S (length l)
  else length l.
Proof.
  induction l as [| e l IH]; simpl; [reflexivity |].
  destruct (key_is K e) eqn:EK; simpl; rewrite ?EK.
  - reflexivity.
  - rewrite IH. destruct (bool_decide _); reflexivity.
Qed.

(** X4. [xm_table_merge] keeps the invariant.  When the table has an
    entry for the key, the value of the first one becomes the old value,
    a comma, a space and the new value, every other entry stays, and the
    table does not grow; when it has none, one entry is added at the end.
    A lookup of another key answers as before. *)
Theorem merge_extends_first `{Target} (t : xm_table_t) (K V K' : string) :
  table_ok t ->
  table_ok (xm_table_merge t K V) /\
  a_elts (xm_table_merge t K V) =
    merge_elts (COMPUTE_KEY_CHECKSUM K) K V (a_elts t) /\
  xm_table_get (xm_table_merge t K V) (Some K') =
    (if (strcasecmp K K' =? 0)%Z then
       Some (match xm_table_get t (Some K) with
             | Some old => old +:+ ", " +:+ V
             | None => V
             end)
     else xm_table_get t (Some K')) /\
  a_nelts (xm_table_merge t K V) =
    match xm_table_get t (Some K) with
    | Some _ => a_nelts t
    | None => S (a_nelts t)
    end.
Proof.
  intros Hok.
  pose proof (xm_table_merge_ok t K V Hok) as Hok'.
  pose proof (xm_table_merge_elts t K V Hok) as He.
  split; [exact Hok' |]. split; [exact He |]. split.
  - rewrite (xm_table_get_spec _ K' Hok'), He.
    destruct (Z.eqb_spec (strcasecmp K K') 0) as [Hc | Hc].
    + rewrite (filter_key_congr K K' _ Hc), merge_elts_head.
      rewrite (xm_table_get_spec _ K Hok). reflexivity.
    + rewrite (merge_elts_other _ K V K' _ Hc).
      symmetry. apply xm_table_get_spec, Hok.
  - unfold a_nelts. rewrite He, merge_elts_length.
    rewrite (xm_table_get_spec _ K Hok).
    destruct (List.filter (key_is K) (a_elts t)) as [| e r]; reflexivity.
Qed.

Lemma merge_extends_first_witness :
  @table_ok x86_64 (@run_ops x86_64 [OpAdd "Via" "b"; OpAdd "Host" "a"]) /\
  @xm_table_get x86_64
    (@xm_table_merge x86_64
       (@run_ops x86_64 [OpAdd "Via" "b"; OpAdd "Host" "a"]) "host" "c")
    (Some "HOST") =
  (if (strcasecmp "host" "HOST" =? 0)%Z then
     Some (match @xm_table_get x86_64
                   (@run_ops x86_64 [OpAdd "Via" "b"; OpAdd "Host" "a"])
                   (Some "host") with
           | Some old => old +:+ ", " +:+ "c"
           | None => "c"
           end)
   else @xm_table_get x86_64
          (@run_ops x86_64 [OpAdd "Via" "b"; OpAdd "Host" "a"])
          (Some "HOST")).
Proof.
  split; [apply run_ops_ok |].
  apply (@merge_extends_first x86_64
           (@run_ops x86_64 [OpAdd "Via" "b"; OpAdd "Host" "a"])
           "host" "c" "HOST").
  apply run_ops_ok.
Defined.

Example merge_example :
  @xm_table_get x86_64
    (@xm_table_merge x86_64
       (@run_ops x86_64 [OpAdd "Via" "b"; OpAdd "Host" "a"]) "host" "c")
    (Some "HOST") = Some "a, c".
Proof. reflexivity. Qed.

(** ** [xm_table_unset] and lookup *)

Lemma filter_other_key K K' l :
  strcasecmp K K' <> 0%Z ->
  List.filter (key_is K') (List.filter (fun e => negb (key_is K e)) l) =
  List.filter (key_is K') l.
Proof.
  intros Hc. induction l as [| e l IH]; simpl; [reflexivity |].
  destruct (key_is K e) eqn:EK; simpl.
  - rewrite (key_is_disjoint K K' e Hc EK). exact IH.
  - destruct (key_is K' e); [f_equal |]; exact IH.
Qed.

(** X5. After [xm_table_unset] a lookup of any spelling of the key finds
    nothing, a lookup of another key answers as before, the invariant
    holds and the table has not grown. *)
Theorem unset_then_get `{Target} (t : xm_table_t) (K K' : string) :
  table_ok t ->
  table_ok (xm_table_unset t K) /\
  xm_table_get (xm_table_unset t K) (Some K') =
    (if (strcasecmp K K' =? 0)%Z then None
     else xm_table_get t (Some K')) /\
  a_nelts (xm_table_unset t K) <= a_nelts t.
Proof.
  intros Hok.
  destruct (xm_table_unset_spec t K Hok) as [He Hok'].
  split; [exact Hok' |]. split.
  - rewrite (xm_table_get_spec _ K' Hok'), He.
    destruct (Z.eqb_spec (strcasecmp K K') 0) as [Hc | Hc].
    + rewrite (filter_key_congr K K' _ Hc), filter_filter_neg.
      reflexivity.
    + rewrite (filter_other_key K K' _ Hc).
      symmetry. apply xm_table_get_spec, Hok.
  - unfold a_nelts. rewrite He.
    pose proof (filter_take_length (fun e => negb (key_is K e))
                  (length (a_elts t)) (a_elts t)) as Hl.
    rewrite take_ge in Hl by lia. exact Hl.
Qed.

Lemma unset_then_get_witness :
  @table_ok x86_64
    (@run_ops x86_64 [OpAdd "Host" "a"; OpAdd "Via" "b"; OpAdd "host" "c"]) /\
  @xm_table_get x86_64
    (@xm_table_unset x86_64
       (@run_ops x86_64 [OpAdd "Host" "a"; OpAdd "Via" "b"; OpAdd "host" "c"])
       "HOST") (Some "hosT") =
  (if (strcasecmp "HOST" "hosT" =? 0)%Z then None
   else @xm_table_get x86_64
          (@run_ops x86_64
             [OpAdd "Host" "a"; OpAdd "Via" "b"; OpAdd "host" "c"])
          (Some "hosT")).
Proof.
  split; [apply run_ops_ok |].
  apply (@unset_then_get x86_64
           (@run_ops x86_64
              [OpAdd "Host" "a"; OpAdd "Via" "b"; OpAdd "host" "c"])
           "HOST" "hosT").
  apply run_ops_ok.
Defined.

(** ** [xm_table_clear] *)

Lemma apply_op_elts `{Target} t1 t2 op :
  table_ok t1 -> table_ok t2 -> a_elts t1 = a_elts t2 ->
  a_elts (apply_op t1 op) = a_elts (apply_op t2 op).
Proof.
  intros H1 H2 He. destruct op as [k v | k v | k v | k]; simpl.
  - rewrite !xm_table_add_elts, He. reflexivity.
  - rewrite (proj1 (xm_table_set_spec t1 k v H1)),
      (proj1 (xm_table_set_spec t2 k v H2)), He. reflexivity.
  - rewrite (xm_table_merge_elts t1 k v H1),
      (xm_table_merge_elts t2 k v H2), He. reflexivity.
  - rewrite (proj1 (xm_table_unset_spec t1 k H1)),
      (proj1 (xm_table_unset_spec t2 k H2)), He. reflexivity.
Qed.

Lemma fold_ops_elts `{Target} ops :
  forall t1 t2, table_ok t1 -> table_ok t2 -> a_elts t1 = a_elts t2 ->
  table_ok (fold_left apply_op ops t1) /\
  a_elts (fold_left apply_op ops t1) = a_elts (fold_left apply_op ops t2).
Proof.
  induction ops as [| op ops IH]; intros t1 t2 H1 H2 He; simpl.
  - split; assumption.
  - apply IH; [apply apply_op_ok, H1 | apply apply_op_ok, H2 |].
    apply apply_op_elts; assumption.
Qed.

Lemma xm_table_clear_ok `{Target} t :
  length (index_first t) = TABLE_HASH_SIZE ->
  length (index_last t) = TABLE_HASH_SIZE ->
  table_ok (xm_table_clear t).
Proof.
  intros Hf Hl. split; simpl; [constructor |].
  apply index_ok_nil; assumption.
Qed.

(** X6. A cleared table is empty and every lookup in it finds nothing,
    although the index arrays still hold the old positions; from then on
    it behaves as a table fresh from [xm_table_make]: any run of [add],
    [set], [merge] and [unset] leaves the entries it leaves there, and
    the invariant holds. *)
Theorem clear_acts_as_fresh `{Target} (t : xm_table_t)
    (ops : list table_op) :
  length (index_first t) = TABLE_HASH_SIZE ->
  length (index_last t) = TABLE_HASH_SIZE ->
  xm_is_empty_table (Some (xm_table_clear t)) = true /\
  (forall k, xm_table_get (xm_table_clear t) k = None) /\
  table_ok (fold_left apply_op ops (xm_table_clear t)) /\
  a_elts (fold_left apply_op ops (xm_table_clear t)) = a_elts (run_ops ops).
Proof.
  intros Hf Hl. split; [reflexivity |]. split.
  - intros [k |]; [| reflexivity].
    unfold xm_table_get, TABLE_INDEX_IS_INITIALIZED.
    cbn [xm_table_clear index_initialized].
    rewrite index_is_initialized_0. reflexivity.
  - apply fold_ops_elts;
      [apply xm_table_clear_ok; assumption | apply xm_table_make_ok |
       reflexivity].
Qed.

Lemma clear_acts_as_fresh_witness :
  length (index_first
            (@run_ops x86_64 [OpAdd "Host" "a"; OpAdd "Via" "b"])) =
    TABLE_HASH_SIZE /\
  length (index_last
            (@run_ops x86_64 [OpAdd "Host" "a"; OpAdd "Via" "b"])) =
    TABLE_HASH_SIZE /\
  a_elts (fold_left (@apply_op x86_64) [OpSet "via" "c"; OpAdd "Host" "d"]
            (xm_table_clear
               (@run_ops x86_64 [OpAdd "Host" "a"; OpAdd "Via" "b"]))) =
  a_elts (@run_ops x86_64 [OpSet "via" "c"; OpAdd "Host" "d"]).
Proof.
  split; [reflexivity |]. split; [reflexivity |].
  apply (@clear_acts_as_fresh x86_64
           (@run_ops x86_64 [OpAdd "Host" "a"; OpAdd "Via" "b"])
           [OpSet "via" "c"; OpAdd "Host" "d"]); reflexivity.
Defined.

(** ** [xm_table_clone] *)

Lemma clone_loop_spec `{Target} elts :
  forall new, table_ok new -> Forall entry_ok elts ->
  exists t', clone_loop elts new = Some t' /\ table_ok t' /\
    a_elts t' = a_elts new ++ elts.
Proof.
  induction elts as [| e elts IH]; intros new Hok Hall; simpl.
  - exists new. rewrite app_nil_r. auto.
  - apply Forall_cons in Hall as [(k & Hk & Hc) Hall].
    rewrite Hk. simpl.
    destruct (IH (xm_table_add new k (val e))
                (xm_table_add_ok new k (val e) Hok) Hall)
      as (t' & Ht' & Hok' & He').
    exists t'. split; [exact Ht' |]. split; [exact Hok' |].
    rewrite He', xm_table_add_elts, <- app_assoc. simpl.
    do 2 f_equal. destruct e as [ek ev ec]. simpl in *. subst. reflexivity.
Qed.

Lemma clone_loop_null `{Target} elts :
  forall new, Exists (fun e => key e = None) elts ->
  clone_loop elts new = None.
Proof.
  induction elts as [| e elts IH]; intros new Hex; simpl.
  - inversion Hex.
  - destruct (key e) as [k |] eqn:Hk; [| reflexivity]. simpl.
    apply IH. inversion Hex; subst; [congruence | assumption].
Qed.

(** X7. [xm_table_clone] of a table whose entries carry their key and its
    checksum yields a table with the same entries in the same order and
    an index built anew, so the invariant holds for the clone whatever
    the index of the original; every lookup then answers as in an
    original that satisfies the invariant.  There is no result when some
    entry has a [NULL] key. *)
Theorem clone_rebuilds `{Target} (t : xm_table_t) :
  (Forall entry_ok (a_elts t) ->
   exists t', xm_table_clone t = Some t' /\
     a_elts t' = a_elts t /\ table_ok t' /\
     (table_ok t -> forall k, xm_table_get t' k = xm_table_get t k)) /\
  (Exists (fun e => key e = None) (a_elts t) -> xm_table_clone t = None).
Proof.
  split.
  - intros Hall.
    destruct (clone_loop_spec (a_elts t) xm_table_make xm_table_make_ok Hall)
      as (t' & Ht' & Hok' & He').
    exists t'. split; [exact Ht' |]. split; [exact He' |].
    split; [exact Hok' |].
    intros Hok [k |]; [| reflexivity].
    rewrite (xm_table_get_spec _ k Hok'), (xm_table_get_spec _ k Hok), He'.
    reflexivity.
  - apply clone_loop_null.
Qed.

Lemma clone_rebuilds_witness :
  Forall (@entry_ok x86_64)
    (a_elts (@run_ops x86_64 [OpAdd "Host" "a"; OpAdd "Via" "b"])) /\
  exists t',
    @xm_table_clone x86_64
      (@run_ops x86_64 [OpAdd "Host" "a"; OpAdd "Via" "b"]) = Some t' /\
    a_elts t' = a_elts (@run_ops x86_64 [OpAdd "Host" "a"; OpAdd "Via" "b"]).
Proof.
  split; [apply run_ops_ok |].
  destruct (proj1 (@clone_rebuilds x86_64
                     (@run_ops x86_64 [OpAdd "Host" "a"; OpAdd "Via" "b"])))
    as (t' & Ht' & He' & _); [apply run_ops_ok |].
  exists t'. split; assumption.
Defined.

(** ** [xm_table_overlay] *)

Lemma xm_table_overlay_elts `{Target} o b :
  a_elts (xm_table_overlay o b) = a_elts o ++ a_elts b.
Proof. apply table_reindex_elts. Qed.

(** X8. [xm_table_overlay] yields the entries of the overlay followed by
    those of the base, with an index that satisfies the invariant; a
    lookup answers from the overlay when the overlay has the key, and
    from the base otherwise. *)
Theorem overlay_first_wins `{Target} (o b : xm_table_t) (K : string) :
  table_ok o -> table_ok b ->
  table_ok (xm_table_overlay o b) /\
  a_elts (xm_table_overlay o b) = a_elts o ++ a_elts b /\
  xm_table_get (xm_table_overlay o b) (Some K) =
    match xm_table_get o (Some K) with
    | Some v => Some v
    | None => xm_table_get b (Some K)
    end.
Proof.
  intros [Hao Hio] [Hab Hib].
  assert (Hok : table_ok (xm_table_overlay o b)).
  { apply table_reindex_ok; [apply length_replicate .. |].
    apply Forall_app. split; assumption. }
  split; [exact Hok |]. split; [apply xm_table_overlay_elts |].
  rewrite (xm_table_get_spec _ K Hok), xm_table_overlay_elts.
  rewrite (xm_table_get_spec o K) by (split; assumption).
  rewrite (xm_table_get_spec b K) by (split; assumption).
  rewrite List.filter_app.
  destruct (List.filter (key_is K) (a_elts o)); reflexivity.
Qed.

Lemma overlay_first_wins_witness :
  @table_ok x86_64 (@run_ops x86_64 [OpAdd "Host" "a"]) /\
  @table_ok x86_64 (@run_ops x86_64 [OpAdd "host" "b"; OpAdd "Via" "c"]) /\
  a_elts (xm_table_overlay
            (@run_ops x86_64 [OpAdd "Host" "a"])
            (@run_ops x86_64 [OpAdd "host" "b"; OpAdd "Via" "c"])) =
  a_elts (@run_ops x86_64 [OpAdd "Host" "a"]) ++
  a_elts (@run_ops x86_64 [OpAdd "host" "b"; OpAdd "Via" "c"]).
Proof.
  split; [apply run_ops_ok |]. split; [apply run_ops_ok |].
  apply (@overlay_first_wins x86_64
           (@run_ops x86_64 [OpAdd "Host" "a"])
           (@run_ops x86_64 [OpAdd "host" "b"; OpAdd "Via" "c"]) "HOST");
    apply run_ops_ok.
Defined.

Example overlay_example :
  @xm_table_get x86_64
    (xm_table_overlay
       (@run_ops x86_64 [OpAdd "Host" "a"])
       (@run_ops x86_64 [OpAdd "host" "b"; OpAdd "Via" "c"]))
    (Some "HOST") = Some "a" /\
  @xm_table_get x86_64
    (xm_table_overlay
       (@run_ops x86_64 [OpAdd "Host" "a"])
       (@run_ops x86_64 [OpAdd "host" "b"; OpAdd "Via" "c"]))
    (Some "VIA") = Some "c".
Proof. split; reflexivity. Qed.

(** ** [xm_table_cat] *)

Lemma index_is_initialized_lor a b i :
  index_is_initialized (Z.lor a b) i =
  index_is_initialized a i || index_is_initialized b i.
Proof. rewrite !index_is_initialized_testbit. apply Z.lor_spec. Qed.

Lemma cat_index_loop_spec t s n count :
  forall idx first last,
  length first = TABLE_HASH_SIZE -> length last = TABLE_HASH_SIZE ->
  idx + count <= TABLE_HASH_SIZE ->
  exists first' last',
    cat_index_loop t s n count idx first last = (first', last') /\
    length first' = TABLE_HASH_SIZE /\ length last' = TABLE_HASH_SIZE /\
    forall h, h < TABLE_HASH_SIZE ->
      first' !!! h =
        (if bool_decide (idx <= h < idx + count) &&
            TABLE_INDEX_IS_INITIALIZED s h &&
            negb (TABLE_INDEX_IS_INITIALIZED t h)
         then index_first s !!! h + n else first !!! h) /\
      last' !!! h =
        (if bool_decide (idx <= h < idx + count) &&
            TABLE_INDEX_IS_INITIALIZED s h
         then index_last s !!! h + n else last !!! h).
Proof.
  induction count as [| count IH]; intros idx first last Hf Hl Hle.
  - exists first, last. repeat split; try assumption;
      rewrite bool_decide_false by lia; reflexivity.
  - cbn [cat_index_loop].
    set (last1 := if TABLE_INDEX_IS_INITIALIZED s idx
                  then <[idx := index_last s !!! idx + n]> last else last).
    set (first1 := if TABLE_INDEX_IS_INITIALIZED s idx &&
                      negb (TABLE_INDEX_IS_INITIALIZED t idx)
                   then <[idx := index_first s !!! idx + n]> first
                   else first).
    assert (Hstep : (if TABLE_INDEX_IS_INITIALIZED s idx
       then cat_index_loop t s n count (S idx)
              (if negb (TABLE_INDEX_IS_INITIALIZED t idx)
               then <[idx := index_first s !!! idx + n]> first else first)
              (<[idx := index_last s !!! idx + n]> last)
       else cat_index_loop t s n count (S idx) first last) =
      cat_index_loop t s n count (S idx) first1 last1).
    { unfold first1, last1.
      destruct (TABLE_INDEX_IS_INITIALIZED s idx); reflexivity. }
    rewrite Hstep.
    assert (Hf1 : length first1 = TABLE_HASH_SIZE).
    { unfold first1. destruct (_ && _); rewrite ?length_insert; exact Hf. }
    assert (Hl1 : length last1 = TABLE_HASH_SIZE).
    { unfold last1. destruct (TABLE_INDEX_IS_INITIALIZED s idx);
        rewrite ?length_insert; exact Hl. }
    destruct (IH (S idx) first1 last1 Hf1 Hl1 ltac:(lia))
      as (first' & last' & Hr & Hf' & Hl' & Hval).
    exists first', last'. split; [exact Hr |].
    split; [exact Hf' |]. split; [exact Hl' |].
    intros h Hh. destruct (Hval h Hh) as [Hvf Hvl]. rewrite Hvf, Hvl.
    destruct (decide (h = idx)) as [-> | Hne].
    + rewrite (bool_decide_false (S idx <= idx < _)) by lia.
      rewrite (bool_decide_true (idx <= idx < _)) by lia. simpl.
      unfold first1, last1.
      destruct (TABLE_INDEX_IS_INITIALIZED s idx); simpl.
      * rewrite list_lookup_total_insert_eq by lia.
        destruct (TABLE_INDEX_IS_INITIALIZED t idx); simpl;
          [| rewrite list_lookup_total_insert_eq by lia]; auto.
      * auto.
    + assert (Hf1h : first1 !!! h = first !!! h).
      { unfold first1. destruct (_ && _); [| reflexivity].
        apply list_lookup_total_insert_ne. congruence. }
      assert (Hl1h : last1 !!! h = last !!! h).
      { unfold last1. destruct (TABLE_INDEX_IS_INITIALIZED s idx);
          [| reflexivity].
        apply list_lookup_total_insert_ne. congruence. }
      rewrite Hf1h, Hl1h.
      assert (Hbd : bool_decide (S idx <= h < S idx + count) =
                    bool_decide (idx <= h < idx + S count)).
      { apply bool_decide_ext. lia. }
      rewrite Hbd. auto.
Qed.

Lemma xm_table_cat_elts t s :
  a_elts (xm_table_cat t s) = a_elts t ++ a_elts s.
Proof.
  unfold xm_table_cat. destruct (a_nelts t =? 0); [reflexivity |].
  destruct (cat_index_loop _ _ _ _ _ _ _). reflexivity.
Qed.

Lemma xm_table_cat_ok `{Target} t s :
  table_ok t -> table_ok s -> table_ok (xm_table_cat t s).
Proof.
  intros [Hat Hit] [Has His].
  assert (Hall : Forall entry_ok (a_elts t ++ a_elts s))
    by (apply Forall_app; split; assumption).
  unfold xm_table_cat. destruct (Nat.eqb_spec (a_nelts t) 0) as [Hn | Hn].
  - apply nil_length_inv in Hn. rewrite Hn in *.
    split; simpl; assumption.
  - pose proof Hit as (Hft & Hlt & Hint & Hbdt).
    pose proof His as (Hfs & Hls & Hins & Hbds).
    destruct (cat_index_loop_spec t s (a_nelts t) TABLE_HASH_SIZE 0
                (index_first t) (index_last t) Hft Hlt ltac:(lia))
      as (first' & last' & Hr & Hf' & Hl' & Hval).
    rewrite Hr. split; simpl; [exact Hall |].
    assert (Hv : forall h, h < TABLE_HASH_SIZE ->
      first' !!! h =
        (if TABLE_INDEX_IS_INITIALIZED s h &&
            negb (TABLE_INDEX_IS_INITIALIZED t h)
         then index_first s !!! h + a_nelts t else index_first t !!! h) /\
      last' !!! h =
        (if TABLE_INDEX_IS_INITIALIZED s h
         then index_last s !!! h + a_nelts t else index_last t !!! h)).
    { intros h Hh. destruct (Hval h Hh) as [Hvf Hvl].
      rewrite bool_decide_true in Hvf, Hvl by lia. auto. }
    clear Hval Hr.
    unfold TABLE_INDEX_IS_INITIALIZED, a_nelts in *.
    split; [exact Hf' |]. split; [exact Hl' |]. split.
    + intros i e Hi. rewrite index_is_initialized_lor.
      assert (Hh : entry_hash e < TABLE_HASH_SIZE)
        by apply TABLE_HASH_lt.
      destruct (Hv _ Hh) as [Hvf Hvl]. rewrite Hvf, Hvl.
      apply lookup_app_Some in Hi as [Hi | [Hge Hi]].
      * destruct (Hint i e Hi) as [Hb Hr]. rewrite Hb. simpl.
        rewrite andb_false_r.
        split; [reflexivity |].
        pose proof (lookup_lt_Some _ _ _ Hi) as Hlt'.
        destruct (index_is_initialized (index_initialized s) (entry_hash e));
          lia.
      * destruct (Hins _ e Hi) as [Hb Hr]. rewrite Hb, orb_true_r. simpl.
        split; [reflexivity |].
        destruct (index_is_initialized (index_initialized t) (entry_hash e))
          eqn:Ebt; simpl; [| lia].
        specialize (Hbdt _ Hh Ebt). lia.
    + intros h Hh. rewrite index_is_initialized_lor, length_app.
      destruct (Hv _ Hh) as [Hvf Hvl]. rewrite Hvf, Hvl.
      destruct (index_is_initialized (index_initialized s) h) eqn:Ebs;
        destruct (index_is_initialized (index_initialized t) h) eqn:Ebt;
        simpl; intros Hb; try discriminate.
      * specialize (Hbdt _ Hh Ebt). specialize (Hbds _ Hh Ebs). lia.
      * specialize (Hbds _ Hh Ebs). lia.
      * specialize (Hbdt _ Hh Ebt). lia.
Qed.

(** X9. [xm_table_cat], which [xm_table_overlap] uses to append a table
    to another, puts the entries of the second table after those of the
    first and merges the two indexes without a scan of the entries; the
    result satisfies the invariant, so a lookup answers from the first
    table when it has the key and from the second otherwise. *)
Theorem cat_merges_indexes `{Target} (t s : xm_table_t) (K : string) :
  table_ok t -> table_ok s ->
  table_ok (xm_table_cat t s) /\
  a_elts (xm_table_cat t s) = a_elts t ++ a_elts s /\
  xm_table_get (xm_table_cat t s) (Some K) =
    match xm_table_get t (Some K) with
    | Some v => Some v
    | None => xm_table_get s (Some K)
    end.
Proof.
  intros Ht Hs. pose proof (xm_table_cat_ok t s Ht Hs) as Hok.
  split; [exact Hok |]. split; [apply xm_table_cat_elts |].
  rewrite (xm_table_get_spec _ K Hok), xm_table_cat_elts.
  rewrite (xm_table_get_spec t K Ht), (xm_table_get_spec s K Hs).
  rewrite List.filter_app.
  destruct (List.filter (key_is K) (a_elts t)); reflexivity.
Qed.

Lemma cat_merges_indexes_witness :
  @table_ok x86_64 (@run_ops x86_64 [OpAdd "Host" "a"; OpAdd "Age" "1"]) /\
  @table_ok x86_64 (@run_ops x86_64 [OpAdd "host" "b"; OpAdd "Via" "c"]) /\
  @table_ok x86_64
    (xm_table_cat (@run_ops x86_64 [OpAdd "Host" "a"; OpAdd "Age" "1"])
       (@run_ops x86_64 [OpAdd "host" "b"; OpAdd "Via" "c"])).
Proof.
  split; [apply run_ops_ok |]. split; [apply run_ops_ok |].
  apply (@cat_merges_indexes x86_64
           (@run_ops x86_64 [OpAdd "Host" "a"; OpAdd "Age" "1"])
           (@run_ops x86_64 [OpAdd "host" "b"; OpAdd "Via" "c"]) "via");
    apply run_ops_ok.
Defined.

Example cat_example :
  index_first
    (xm_table_cat (@run_ops x86_64 [OpAdd "Host" "a"; OpAdd "Age" "1"])
       (@run_ops x86_64 [OpAdd "host" "b"; OpAdd "Via" "c"])) !!! 8 = 0 /\
  index_last
    (xm_table_cat (@run_ops x86_64 [OpAdd "Host" "a"; OpAdd "Age" "1"])
       (@run_ops x86_64 [OpAdd "host" "b"; OpAdd "Via" "c"])) !!! 8 = 2 /\
  index_first
    (xm_table_cat (@run_ops x86_64 [OpAdd "Host" "a"; OpAdd "Age" "1"])
       (@run_ops x86_64 [OpAdd "host" "b"; OpAdd "Via" "c"])) !!! 22 = 3.
Proof. repeat split; reflexivity. Qed.

(** ** [xm_table_compress] and the invariant *)

Lemma marked_or_ok_entry_at `{Target} arr p :
  Forall (fun e => entry_ok e \/ key e = None) arr ->
  entry_ok (entry_at arr p) \/ key (entry_at arr p) = None.
Proof.
  intros Hall. unfold entry_at.
  destruct (arr !! p) as [e |] eqn:He; simpl; [| right; reflexivity].
  exact (Forall_lookup_1 _ _ _ _ Hall He).
Qed.

Lemma mark_dups_inv `{Target} sort_array n :
  forall arr sort_next,
  Forall (fun e => entry_ok e \/ key e = None) arr ->
  Forall (fun e => entry_ok e \/ key e = None)
    (mark_dups arr sort_array n sort_next) /\
  length (mark_dups arr sort_array n sort_next) = length arr.
Proof.
  induction n as [| n IH]; intros arr sort_next Hall; simpl;
    [split; [exact Hall | reflexivity] |].
  destruct (IH (<[default 0 (sort_array !! sort_next) :=
                   {| key := None;
                      val := val (entry_at arr
                                    (default 0 (sort_array !! sort_next)));
                      key_checksum :=
                        key_checksum
                          (entry_at arr
                             (default 0 (sort_array !! sort_next))) |}]> arr)
              (S sort_next)) as [Hall' Hlen'].
  { apply Forall_insert; [exact Hall | right; reflexivity]. }
  split; [exact Hall' |]. rewrite Hlen'. apply length_insert.
Qed.

Lemma dedup_loop_inv `{Target} flags sort_array sort_end fuel :
  forall arr last sort_next dups_found,
  Forall (fun e => entry_ok e \/ key e = None) arr ->
  Forall (fun e => entry_ok e \/ key e = None)
    (fst (dedup_loop fuel flags sort_array sort_end arr last sort_next
            dups_found)) /\
  length (fst (dedup_loop fuel flags sort_array sort_end arr last sort_next
                 dups_found)) = length arr.
Proof.
  induction fuel as [| fuel IH]; intros arr last sort_next dups_found Hall;
    [split; [exact Hall | reflexivity] |].
  rewrite dedup_loop_unfold.
  destruct (sort_next <? sort_end); [| split; [exact Hall | reflexivity]].
  destruct (same_key arr sort_array sort_next last); [| apply IH, Hall].
  cbv zeta.
  match goal with
  | |- Forall _ (fst (dedup_loop _ _ _ _ (mark_dups ?a _ ?n ?s) _ _ _)) /\ _ =>
      destruct (mark_dups_inv sort_array n a s) as [Hm Hl]
  end.
  { apply Forall_insert; [exact Hall |].
    destruct (marked_or_ok_entry_at arr (default 0 (sort_array !! last)) Hall)
      as [(k & Hk & Hc) | Hn]; [left; exists k; auto | right; exact Hn]. }
  match goal with
  | |- Forall _ (fst (dedup_loop _ _ _ _ ?a ?l ?s ?d)) /\ _ =>
      destruct (IH a l s d Hm) as [HF HL]
  end.
  split; [exact HF |]. rewrite HL, Hl. apply length_insert.
Qed.

Lemma dedup_loop_found flags sort_array sort_end fuel :
  forall arr last sort_next,
  snd (dedup_loop fuel flags sort_array sort_end arr last sort_next true) =
  true.
Proof.
  induction fuel as [| fuel IH]; intros arr last sort_next; [reflexivity |].
  rewrite dedup_loop_unfold.
  destruct (sort_next <? sort_end); [| reflexivity].
  destruct (same_key arr sort_array sort_next last); apply IH.
Qed.

Lemma dedup_loop_no_dups flags sort_array sort_end fuel :
  forall arr last sort_next,
  snd (dedup_loop fuel flags sort_array sort_end arr last sort_next false) =
  false ->
  fst (dedup_loop fuel flags sort_array sort_end arr last sort_next false) =
  arr.
Proof.
  induction fuel as [| fuel IH]; intros arr last sort_next; [reflexivity |].
  rewrite dedup_loop_unfold.
  destruct (sort_next <? sort_end); [| reflexivity].
  destruct (same_key arr sort_array sort_next last); [| apply IH].
  cbv zeta. rewrite dedup_loop_found. discriminate.
Qed.

(** The compaction of [xm_table_compress]: the array is [P ++ J ++ S0],
    [P] the entries kept so far, [J] slots free to be overwritten, [S0]
    the entries still to be read. *)
Lemma compact_loop_spec S0 :
  forall P J,
  exists J',
    compact_loop (length S0) (length P + length J) (length P)
      (P ++ J ++ S0) =
    (P ++ List.filter (fun e => bool_decide (is_Some (key e))) S0 ++ J',
     length P + length (List.filter
                          (fun e => bool_decide (is_Some (key e))) S0)).
Proof.
  induction S0 as [| e S0 IH]; intros P J; simpl.
  - exists J. rewrite app_nil_r, Nat.add_0_r. reflexivity.
  - assert (He : (P ++ J ++ e :: S0) !! (length P + length J) = Some e).
    { rewrite app_assoc, <- length_app. apply list_lookup_middle.
      reflexivity. }
    rewrite He. destruct (key e) as [k |] eqn:Hk; simpl.
    + destruct J as [| j J].
      * simpl. rewrite Nat.add_0_r, insert_app_head.
        destruct (IH (P ++ [e]) []) as (J' & HJ').
        rewrite length_app in HJ'. simpl in HJ'.
        rewrite Nat.add_0_r, Nat.add_1_r, <- app_assoc in HJ'. simpl in HJ'.
        rewrite HJ'. exists J'. rewrite <- app_assoc. simpl.
        f_equal. lia.
      * simpl. rewrite insert_app_head.
        destruct (IH (P ++ [e]) (J ++ [e])) as (J' & HJ').
        rewrite !length_app in HJ'. simpl in HJ'.
        rewrite <- !app_assoc in HJ'. simpl in HJ'.
        replace (length P + 1 + (length J + 1))
          with (S (length P + S (length J))) in HJ' by lia.
        replace (length P + 1) with (S (length P)) in HJ' by lia.
        rewrite HJ'. exists J'. f_equal. lia.
    + destruct (IH P (J ++ [e])) as (J' & HJ').
      rewrite length_app in HJ'. simpl in HJ'.
      rewrite <- app_assoc in HJ'. simpl in HJ'.
      replace (length P + (length J + 1))
        with (S (length P + length J)) in HJ' by lia.
      rewrite HJ'. exists J'. reflexivity.
Qed.

Lemma compact_loop_all arr :
  let '(arr', dst) := compact_loop (length arr) 0 0 arr in
  take (length arr - (length arr - dst)) arr' =
  List.filter (fun e => bool_decide (is_Some (key e))) arr.
Proof.
  destruct (compact_loop_spec arr [] []) as (J' & HJ'). simpl in HJ'.
  rewrite HJ'.
  pose proof (filter_take_length
                (fun e => bool_decide (is_Some (key e))) (length arr) arr)
    as Hle.
  rewrite take_ge in Hle by lia.
  replace (length arr - (length arr - _))
    with (length (List.filter (fun e => bool_decide (is_Some (key e))) arr))
    by lia.
  rewrite take_app_length. reflexivity.
Qed.

Lemma xm_table_compress_ok `{Target} t flags :
  table_ok t ->
  table_ok (xm_table_compress t flags) /\
  a_nelts (xm_table_compress t flags) <= a_nelts t.
Proof.
  intros Hok. pose proof Hok as [Hall Hidx].
  pose proof (table_ok_lengths t Hok) as [Hlf Hll].
  unfold xm_table_compress.
  destruct (a_nelts t <=? 1); [split; [exact Hok | lia] |].
  assert (HP : Forall (fun e => entry_ok e \/ key e = None) (a_elts t))
    by (eapply Forall_impl; [exact Hall | intros e He; left; exact He]).
  pose proof (dedup_loop_inv flags
                (table_mergesort (a_elts t) (seq 0 (a_nelts t)) (a_nelts t))
                (a_nelts t) (a_nelts t) (a_elts t) 0 1 false HP)
    as [HF HL].
  pose proof (dedup_loop_no_dups flags
                (table_mergesort (a_elts t) (seq 0 (a_nelts t)) (a_nelts t))
                (a_nelts t) (a_nelts t) (a_elts t) 0 1) as Hno.
  destruct (dedup_loop _ _ _ _ _ _ _ _) as [arr dups_found].
  simpl in HF, HL, Hno.
  destruct dups_found.
  - pose proof (compact_loop_all arr) as Hc.
    unfold a_nelts. rewrite <- HL.
    destruct (compact_loop (length arr) 0 0 arr) as [arr' dst].
    rewrite Hc, table_reindex_elts.
    split.
    + apply table_reindex_ok; [assumption .. |].
      apply Forall_forall. intros e He.
      apply list_elem_of_In, List.filter_In in He as [He Hk].
      apply list_elem_of_In in He.
      destruct (proj1 (Forall_forall _ _) HF e He) as [Hok' | Hn];
        [exact Hok' |].
      rewrite Hn in Hk. apply bool_decide_eq_true in Hk.
      destruct Hk as [? ?]. discriminate.
    + pose proof (filter_take_length
                    (fun e => bool_decide (is_Some (key e)))
                    (length arr) arr) as Hle.
      rewrite take_ge in Hle by lia. exact Hle.
  - rewrite (Hno eq_refl). split.
    + apply table_reindex_ok; assumption.
    + unfold a_nelts. rewrite table_reindex_elts. lia.
Qed.

(** X10. [xm_table_compress] keeps the invariant of the table, with
    either policy, and never adds an entry; [xm_table_overlap] of two
    tables that satisfy the invariant leaves one that satisfies it, and
    leaves the first table as it is when both are empty. *)
Theorem compress_keeps_invariant `{Target} (a b : xm_table_t) (flags : Z) :
  table_ok a -> table_ok b ->
  table_ok (xm_table_compress a flags) /\
  a_nelts (xm_table_compress a flags) <= a_nelts a /\
  table_ok (xm_table_overlap a b flags) /\
  a_nelts (xm_table_overlap a b flags) <= a_nelts a + a_nelts b /\
  (a_nelts a + a_nelts b = 0 -> xm_table_overlap a b flags = a).
Proof.
  intros Ha Hb.
  destruct (xm_table_compress_ok a flags Ha) as [Hc Hn].
  split; [exact Hc |]. split; [exact Hn |].
  unfold xm_table_overlap.
  destruct (Nat.eqb_spec (a_nelts a + a_nelts b) 0) as [Hz | Hz].
  - split; [exact Ha |]. split; [lia | reflexivity].
  - destruct (xm_table_compress_ok (xm_table_cat a b) flags
                (xm_table_cat_ok a b Ha Hb)) as [Hc' Hn'].
    split; [exact Hc' |]. split; [| lia].
    unfold a_nelts in Hn' |- *.
    rewrite xm_table_cat_elts, length_app in Hn'. exact Hn'.
Qed.

Lemma compress_keeps_invariant_witness :
  @table_ok x86_64
    (@run_ops x86_64 [OpAdd "A" "1"; OpAdd "B" "x"; OpAdd "a" "2"]) /\
  @table_ok x86_64 (@run_ops x86_64 [OpAdd "b" "y"]) /\
  @table_ok x86_64
    (xm_table_overlap
       (@run_ops x86_64 [OpAdd "A" "1"; OpAdd "B" "x"; OpAdd "a" "2"])
       (@run_ops x86_64 [OpAdd "b" "y"]) XM_OVERLAP_TABLES_MERGE).
Proof.
  split; [apply run_ops_ok |]. split; [apply run_ops_ok |].
  apply (@compress_keeps_invariant x86_64
           (@run_ops x86_64 [OpAdd "A" "1"; OpAdd "B" "x"; OpAdd "a" "2"])
           (@run_ops x86_64 [OpAdd "b" "y"]) XM_OVERLAP_TABLES_MERGE);
    apply run_ops_ok.
Defined.

Example overlap_example :
  a_elts (xm_table_overlap
            (@run_ops x86_64 [OpAdd "A" "1"; OpAdd "B" "x"; OpAdd "a" "2"])
            (@run_ops x86_64 [OpAdd "b" "y"]) XM_OVERLAP_TABLES_MERGE) =
  [@stored_entry x86_64 "A" "1, 2"; @stored_entry x86_64 "B" "x, y"].
Proof. reflexivity. Qed.

(** ** [xm_array_cat], [xm_array_copy] and [xm_array_append] *)

Lemma mul_le_bounds (a b c : Z) :
  (0 <= a <= b)%Z -> (0 <= c)%Z -> (0 <= c * a <= c * b)%Z.
Proof. intros Ha Hc. nia. Qed.

Section MoreArrayProofs.
Context {cell : Type}.
Variable zero : cell.
Implicit Types (m : @mem cell) (arr dst src : xm_array_header_t).
Implicit Types (b cs cd : list (option cell)).

Lemma contents_Some m arr :
  array_ok m arr ->
  exists e b, elts arr = Some e /\ m !! blk e = Some b /\
    (0 <= off e)%Z /\
    (off e + nalloc arr * elt_size arr <= Z.of_nat (length b))%Z /\
    contents m arr =
    Some (take (Z.to_nat (elt_size arr * nelts arr))
            (drop (Z.to_nat (off e)) b)).
Proof.
  intros (Hs & Hn & e & b & He & Hb & Ho & Hlen).
  exists e, b. repeat split; try assumption.
  unfold contents. rewrite He. simpl. apply load_Some.
  exists b. repeat split; try assumption; nia.
Qed.

(** An element is its cells among those in use. *)
Lemma read_elt_contents m arr cs i :
  array_ok m arr -> contents m arr = Some cs ->
  (0 <= i < nelts arr)%Z ->
  read_elt m arr i =
  Some (take (Z.to_nat (elt_size arr))
          (drop (Z.to_nat (elt_size arr * i)) cs)).
Proof.
  intros Hok Hc Hi.
  destruct (contents_Some m arr Hok) as (e & b & He & Hb & Ho & Hlen & Hc').
  pose proof Hok as (Hs & Hn & _).
  rewrite Hc in Hc'. injection Hc' as ->.
  rewrite (read_elt_Some m arr i e b) by (assumption || lia || nia).
  f_equal. rewrite take_drop_take by nia.
  rewrite drop_drop. f_equal. f_equal. nia.
Qed.

Lemma cat_size_loop_spec need fuel :
  forall new_size,
  (1 <= new_size)%Z -> (need <= new_size * 2 ^ Z.of_nat fuel)%Z ->
  (2 * need <= INT_MAX)%Z ->
  exists r,
    cat_size_loop (S fuel) need new_size = Some r /\
    (need <= r)%Z /\ (new_size <= r)%Z /\
    (need <= new_size -> r = new_size)%Z /\
    (new_size < need -> r < 2 * need)%Z.
Proof.
  induction fuel as [| fuel IH]; intros new_size H1 Hf Hmax.
  - simpl in *. destruct (Z.gtb_spec need new_size); [lia |].
    exists new_size. repeat split; (reflexivity || lia).
  - cbn [cat_size_loop]. destruct (Z.gtb_spec need new_size) as [Hgt | Hle].
    + rewrite (cint_Some (new_size * 2)) by (unfold INT_MIN; lia).
      cbn [mbind option_bind].
      destruct (IH (new_size * 2)%Z) as (r & Hr & Hn & Hs & Heq & Hlt);
        [lia | | exact Hmax |].
      { rewrite Nat2Z.inj_succ, Z.pow_succ_r in Hf by lia. lia. }
      exists r. split; [exact Hr |]. repeat split; lia.
    + exists new_size. repeat split; (reflexivity || lia).
Qed.

Lemma splice_prefix b o a cs :
  (o <= a)%nat -> (a + length cs <= length b)%nat ->
  take (a - o + length cs)
    (drop o (take a b ++ cs ++ drop (a + length cs) b)) =
  take (a - o) (drop o b) ++ cs.
Proof.
  intros Hoa Hb. apply list_eq. intros i.
  destruct (Nat.lt_ge_cases i (a - o + length cs)) as [Hlt | Hge].
  - rewrite lookup_take_lt, lookup_drop, splice_lookup by lia.
    destruct (Nat.lt_ge_cases i (a - o)) as [Hi | Hi].
    + rewrite decide_False by lia.
      rewrite lookup_app_l by (rewrite length_take, length_drop; lia).
      rewrite lookup_take_lt, lookup_drop by lia. reflexivity.
    + rewrite decide_True by lia.
      rewrite lookup_app_r by (rewrite length_take, length_drop; lia).
      rewrite length_take_le by (rewrite length_drop; lia).
      f_equal. lia.
  - rewrite lookup_take_ge by lia. symmetry. apply lookup_ge_None.
    rewrite length_app, length_take_le by (rewrite length_drop; lia). lia.
Qed.

Lemma store_same_block m p cs b :
  m !! blk p = Some b -> (0 <= off p)%Z ->
  (off p + Z.of_nat (length cs) <= Z.of_nat (length b))%Z ->
  store m p cs =
  Some (<[blk p := take (Z.to_nat (off p)) b ++ cs ++
                   drop (Z.to_nat (off p) + length cs) b]> m).
Proof.
  intros Hb Ho Hl.
  destruct (store_Some m p cs) as (b' & Hb' & Hst);
    [exists b; auto |].
  assert (b' = b) by congruence. subst b'. exact Hst.
Qed.

(** The sizes [xm_array_cat] computes, for two arrays that own their
    storage. *)
Lemma cat_bounds m dst src :
  array_ok m dst -> array_ok m src -> elt_size src = elt_size dst ->
  (2 * (nelts dst + nelts src) * Z.max 1 (elt_size dst) <= INT_MAX)%Z ->
  (0 <= elt_size dst)%Z /\ (0 <= nelts dst <= nalloc dst)%Z /\
  (0 <= nelts src <= nalloc src)%Z /\
  (0 <= elt_size dst * nelts dst <= elt_size dst * nalloc dst)%Z /\
  (0 <= elt_size dst * nelts src <= elt_size dst * nalloc src)%Z /\
  (2 * (nelts dst + nelts src) <= INT_MAX)%Z /\
  (2 * (elt_size dst * nelts dst + elt_size dst * nelts src) <= INT_MAX)%Z.
Proof.
  intros (Hs & Hn & _) (_ & Hns & _) Hes Hmax.
  split; [exact Hs |]. split; [exact Hn |]. split; [exact Hns |].
  split; [apply mul_le_bounds; assumption |].
  split; [apply mul_le_bounds; assumption |].
  pose proof (mul_le_bounds (elt_size dst) (Z.max 1 (elt_size dst))
                (2 * (nelts dst + nelts src)) ltac:(lia) ltac:(lia)) as H1.
  pose proof (mul_le_bounds 1 (Z.max 1 (elt_size dst))
                (2 * (nelts dst + nelts src)) ltac:(lia) ltac:(lia)) as H2.
  split; lia.
Qed.

(** [xm_array_cat] when [dst] has room. *)
Lemma xm_array_cat_fits m dst src cd cs :
  array_ok m dst -> array_ok m src -> elt_size src = elt_size dst ->
  (nelts dst + nelts src <= nalloc dst)%Z ->
  (2 * (nelts dst + nelts src) * Z.max 1 (elt_size dst) <= INT_MAX)%Z ->
  (forall e s, elts dst = Some e -> elts src = Some s ->
     ranges_overlap (ptr_add e (nelts dst * elt_size dst)) s
       (elt_size dst * nelts src) = false) ->
  contents m dst = Some cd -> contents m src = Some cs ->
  exists m' e,
    elts dst = Some e /\
    xm_array_cat zero m dst src =
      Some (m', {| pool := pool dst; elt_size := elt_size dst;
                   nelts := nelts dst + nelts src; nalloc := nalloc dst;
                   elts := elts dst |}) /\
    array_ok m' {| pool := pool dst; elt_size := elt_size dst;
                   nelts := nelts dst + nelts src; nalloc := nalloc dst;
                   elts := elts dst |} /\
    contents m' {| pool := pool dst; elt_size := elt_size dst;
                   nelts := nelts dst + nelts src; nalloc := nalloc dst;
                   elts := elts dst |} = Some (cd ++ cs) /\
    length m' = length m /\
    (forall q k, blk q <> blk e -> load m' q k = load m q k) /\
    (nelts src = 0%Z -> m' = m).
Proof.
  intros Hokd Hoks Hes Hfit Hmax Hsep Hcd Hcs.
  destruct (cat_bounds m dst src Hokd Hoks Hes Hmax)
    as (Hs & Hn & Hns & Hp1 & Hp2 & Hm1 & Hm2).
  destruct (contents_Some m dst Hokd)
    as (e & b & He & Hb & Ho & Hlen & Hcd').
  destruct (contents_Some m src Hoks)
    as (s & bs & Hse & Hbs & Hso & Hslen & Hcs').
  rewrite Hcd in Hcd'. injection Hcd' as Hcd'.
  rewrite Hcs in Hcs'. injection Hcs' as Hcs'.
  rewrite Hes in Hcs', Hslen.
  pose proof (mul_le_bounds (nelts dst + nelts src) (nalloc dst)
                (elt_size dst) ltac:(lia) Hs) as Hp3.
  assert (Hlcs : length cs = Z.to_nat (elt_size dst * nelts src)).
  { rewrite Hcs'. rewrite length_take_le; [reflexivity |].
    rewrite length_drop. lia. }
  assert (Hlcd : length cd = Z.to_nat (elt_size dst * nelts dst)).
  { rewrite Hcd'. rewrite length_take_le; [reflexivity |].
    rewrite length_drop. lia. }
  set (a := Z.to_nat (off e + nelts dst * elt_size dst)).
  assert (Ha : (a + length cs <= length b)%nat) by (unfold a; lia).
  set (b2 := take a b ++ cs ++ drop (a + length cs) b).
  exists (<[blk e := b2]> m), e. split; [exact He |].
  assert (Hblt : (blk e < length m)%nat)
    by (eapply lookup_lt_Some; exact Hb).
  assert (Hlk : (<[blk e := b2]> m) !! blk e = Some b2)
    by (unfold mem in *; apply list_lookup_insert_eq, Hblt).
  assert (Hlen2 : length b2 = length b) by (apply splice_length, Ha).
  split.
  { unfold xm_array_cat.
    rewrite (cint_Some (nelts dst + nelts src)) by (unfold INT_MIN; lia).
    cbn [mbind option_bind].
    destruct (Z.gtb_spec (nelts dst + nelts src) (nalloc dst)); [lia |].
    cbn [mbind option_bind]. rewrite He, Hse. cbn [mbind option_bind].
    rewrite (cint_Some (nelts dst * elt_size dst)) by (unfold INT_MIN; lia).
    cbn [mbind option_bind].
    rewrite (cint_Some (elt_size dst * nelts src)) by (unfold INT_MIN; lia).
    cbn [mbind option_bind].
    rewrite memcpy_separate by (apply Hsep; assumption).
    assert (Hload : load m s (elt_size dst * nelts src) = Some cs).
    { apply load_Some. exists bs. repeat split; try assumption; lia. }
    rewrite Hload. cbn [mbind option_bind].
    rewrite (store_same_block m _ cs b); unfold ptr_add; cbn [blk off];
      try assumption; try lia.
    reflexivity. }
  split.
  { split; [exact Hs |]. split; [cbn [nelts nalloc]; lia |].
    exists e, b2. cbn [elts nalloc elt_size].
    repeat split; try assumption. rewrite Hlen2. exact Hlen. }
  split.
  { unfold contents. cbn [elts elt_size nelts]. rewrite He.
    cbn [mbind option_bind]. apply load_Some. exists b2.
    split; [exact Hlk |]. split; [exact Ho |]. split; [lia |].
    split; [rewrite Hlen2; lia |].
    replace (Z.to_nat (elt_size dst * (nelts dst + nelts src)))
      with (a - Z.to_nat (off e) + length cs)%nat by (unfold a; lia).
    unfold b2. rewrite splice_prefix by (unfold a; lia).
    f_equal. rewrite Hcd'. f_equal. unfold a. lia. }
  split; [unfold mem in *; apply length_insert |].
  split.
  { intros q k Hq. unfold load, mem in *.
    rewrite list_lookup_insert_ne by congruence. reflexivity. }
  intros Hz. unfold mem in *. apply list_insert_id.
  rewrite Hb. f_equal. unfold b2.
  assert (Hnil : cs = []).
  { apply nil_length_inv. rewrite Hlcs, Hz. rewrite Z.mul_0_r.
    reflexivity. }
  rewrite Hnil. simpl. rewrite Nat.add_0_r. symmetry. apply take_drop.
Qed.

(** [xm_array_cat] when [dst] has to grow: the elements go to a fresh,
    zero-filled block [nb]. *)
Lemma xm_array_cat_grows m dst src cd cs :
  array_ok m dst -> array_ok m src -> elt_size src = elt_size dst ->
  (nalloc dst < nelts dst + nelts src)%Z ->
  (2 * (nelts dst + nelts src) * Z.max 1 (elt_size dst) <= INT_MAX)%Z ->
  contents m dst = Some cd -> contents m src = Some cs ->
  exists nb new_size,
    xm_array_cat zero m dst src =
      Some (m ++ [nb],
            {| pool := pool dst; elt_size := elt_size dst;
               nelts := nelts dst + nelts src; nalloc := new_size;
               elts := Some {| blk := length m; off := 0 |} |}) /\
    (nelts dst + nelts src <= new_size < 2 * (nelts dst + nelts src))%Z /\
    length nb = Z.to_nat (elt_size dst * new_size) /\
    take (Z.to_nat (elt_size dst * (nelts dst + nelts src))) nb = cd ++ cs.
Proof.
  intros Hokd Hoks Hes Hgrow Hmax Hcd Hcs.
  destruct (cat_bounds m dst src Hokd Hoks Hes Hmax)
    as (Hs & Hn & Hns & Hp1 & Hp2 & Hm1 & Hm2).
  clear Hmax.
  destruct (contents_Some m dst Hokd)
    as (e & b & He & Hb & Ho & Hlen & Hcd').
  destruct (contents_Some m src Hoks)
    as (s & bs & Hse & Hbs & Hso & Hslen & Hcs').
  rewrite Hcd in Hcd'. injection Hcd' as Hcd'.
  rewrite Hcs in Hcs'. injection Hcs' as Hcs'.
  rewrite Hes in Hcs', Hslen.
  assert (Hlcs : length cs = Z.to_nat (elt_size dst * nelts src)).
  { rewrite Hcs'. rewrite length_take_le; [reflexivity |].
    rewrite length_drop. lia. }
  assert (Hlcd : length cd = Z.to_nat (elt_size dst * nelts dst)).
  { rewrite Hcd'. rewrite length_take_le; [reflexivity |].
    rewrite length_drop. lia. }
  assert (Hblt : (blk e < length m)%nat)
    by (eapply lookup_lt_Some; exact Hb).
  assert (Hslt : (blk s < length m)%nat)
    by (eapply lookup_lt_Some; exact Hbs).
  assert (Hns0 : (if (nalloc dst <=? 0)%Z then Some 1%Z
                  else cint (nalloc dst * 2)) =
                 Some (Z.max 1 (2 * nalloc dst))).
  { destruct (Z.leb_spec (nalloc dst) 0).
    - f_equal. lia.
    - rewrite cint_Some by (unfold INT_MIN; lia). f_equal. lia. }
  destruct (cat_size_loop_spec (nelts dst + nelts src) 31
              (Z.max 1 (2 * nalloc dst)))
    as (r & Hr & Hnr & Hsr & Hreq & Hrlt); [lia | | exact Hm1 |].
  { change (Z.of_nat 31) with 31%Z. unfold INT_MAX in Hm1. lia. }
  assert (Hr2 : (r < 2 * (nelts dst + nelts src))%Z) by lia.
  clear Hsr Hreq Hrlt.
  pose proof (mul_le_bounds (nelts dst + nelts src) r (elt_size dst)
                ltac:(lia) Hs) as Hp3.
  pose proof (mul_le_bounds r (2 * (nelts dst + nelts src)) (elt_size dst)
                ltac:(lia) Hs) as Hp4.
  pose proof (mul_le_bounds (nalloc dst) (nelts dst + nelts src)
                (elt_size dst) ltac:(lia) Hs) as Hp5.
  set (nb0 := replicate (Z.to_nat (elt_size dst * r)) (Some zero)).
  set (cso := take (Z.to_nat (nalloc dst * elt_size dst))
                (drop (Z.to_nat (off e)) b)).
  assert (Hlcso : length cso = Z.to_nat (nalloc dst * elt_size dst)).
  { unfold cso. rewrite length_take_le; [reflexivity |].
    rewrite length_drop. lia. }
  assert (Hlnb0 : length nb0 = Z.to_nat (elt_size dst * r))
    by apply length_replicate.
  set (nb1 := cso ++ drop (length cso) nb0).
  assert (Hlnb1 : length nb1 = Z.to_nat (elt_size dst * r)).
  { unfold nb1. rewrite length_app, length_drop, Hlcso, Hlnb0. lia. }
  set (o := Z.to_nat (nelts dst * elt_size dst)).
  set (nb := take o nb1 ++ cs ++ drop (o + length cs) nb1).
  assert (Ho2 : (o + length cs <= length nb1)%nat)
    by (unfold o; rewrite Hlnb1, Hlcs; lia).
  exists nb, r. split.
  { unfold xm_array_cat.
    rewrite (cint_Some (nelts dst + nelts src)) by (unfold INT_MIN; lia).
    cbn [mbind option_bind].
    destruct (Z.gtb_spec (nelts dst + nelts src) (nalloc dst)); [| lia].
    rewrite Hns0. cbn [mbind option_bind]. rewrite Hr.
    cbn [mbind option_bind].
    rewrite (cint_Some (elt_size dst * r)) by (unfold INT_MIN; lia).
    cbn [mbind option_bind]. unfold xm_pcalloc.
    replace (0 <=? elt_size dst * r)%Z with true
      by (symmetry; apply Z.leb_le; lia).
    cbn [mbind option_bind]. rewrite He. cbn [mbind option_bind].
    rewrite (cint_Some (nalloc dst * elt_size dst))
      by (unfold INT_MIN; lia).
    cbn [mbind option_bind]. fold nb0.
    rewrite memcpy_separate
      by (apply ranges_overlap_other_block; cbn [blk]; lia).
    assert (Hl1 : load (m ++ [nb0]) e (nalloc dst * elt_size dst) =
                  Some cso).
    { rewrite load_app_old by exact Hblt. apply load_Some.
      exists b. repeat split; try assumption; (reflexivity || lia). }
    rewrite Hl1. cbn [mbind option_bind].
    rewrite store_fresh by (rewrite ?Hlcso, ?Hlnb0; lia).
    change (Z.to_nat 0) with 0%nat. rewrite take_0.
    cbn [app Nat.add mbind option_bind]. fold nb1.
    cbn [elts nelts pool elt_size nalloc mbind option_bind].
    rewrite Hse. cbn [mbind option_bind].
    rewrite (cint_Some (nelts dst * elt_size dst))
      by (unfold INT_MIN; lia).
    cbn [mbind option_bind].
    rewrite (cint_Some (elt_size dst * nelts src))
      by (unfold INT_MIN; lia).
    cbn [mbind option_bind].
    assert (Hl2 : load (m ++ [nb1]) s (elt_size dst * nelts src) =
                  Some cs).
    { rewrite load_app_old by exact Hslt. apply load_Some.
      exists bs. repeat split; try assumption; lia. }
    rewrite memcpy_separate
      by (apply ranges_overlap_other_block; unfold ptr_add; cbn [blk]; lia).
    rewrite Hl2. cbn [mbind option_bind]. unfold ptr_add. cbn [blk off].
    rewrite (store_fresh m nb1 (0 + nelts dst * elt_size dst) cs)
      by (rewrite ?Hlcs, ?Hlnb1; lia).
    replace (Z.to_nat (0 + nelts dst * elt_size dst)) with o
      by (unfold o; lia).
    reflexivity. }
  split; [lia |].
  split; [unfold nb; rewrite splice_length by exact Ho2; exact Hlnb1 |].
  replace (Z.to_nat (elt_size dst * (nelts dst + nelts src)))
    with (o - 0 + length cs)%nat by (unfold o; rewrite Hlcs; lia).
  rewrite <- (drop_0 nb). unfold nb.
  rewrite splice_prefix by (lia || exact Ho2).
  rewrite drop_0, Nat.sub_0_r. f_equal.
  unfold nb1. rewrite take_app_le by (rewrite Hlcso; unfold o; lia).
  unfold cso. rewrite take_take. rewrite Hcd'. f_equal. unfold o. lia.
Qed.

(** X11. [xm_array_cat] leaves in [dst] the elements it had followed by
    those of [src], for two arrays that own their storage, have the
    same element size and sizes that fit in an [int].  When the sum of
    the counts fits the capacity, the elements of [src] are copied into
    the free slots of [dst], which they may not overlap, as [memcpy]
    requires; the storage and the capacity stay.  Otherwise the
    elements go to a fresh block whose capacity is at least the sum and
    less than twice the sum.  Only the block [dst] ends up in is
    written. *)
Theorem cat_appends_elements m dst src cd cs :
  array_ok m dst -> array_ok m src -> elt_size src = elt_size dst ->
  (2 * (nelts dst + nelts src) * Z.max 1 (elt_size dst) <= INT_MAX)%Z ->
  ((nelts dst + nelts src <= nalloc dst)%Z ->
   forall e s, elts dst = Some e -> elts src = Some s ->
     ranges_overlap (ptr_add e (nelts dst * elt_size dst)) s
       (elt_size dst * nelts src) = false) ->
  contents m dst = Some cd -> contents m src = Some cs ->
  exists m' dst',
    xm_array_cat zero m dst src = Some (m', dst') /\
    array_ok m' dst' /\
    pool dst' = pool dst /\ elt_size dst' = elt_size dst /\
    nelts dst' = (nelts dst + nelts src)%Z /\
    contents m' dst' = Some (cd ++ cs) /\
    (if (nelts dst + nelts src >? nalloc dst)%Z
     then elts dst' = Some {| blk := length m; off := 0 |} /\
          (nalloc dst' < 2 * nelts dst')%Z
     else elts dst' = elts dst /\ nalloc dst' = nalloc dst /\
          length m' = length m) /\
    (forall q k, (blk q < length m)%nat ->
       (forall e', elts dst' = Some e' -> blk q <> blk e') ->
       load m' q k = load m q k).
Proof.
  intros Hokd Hoks Hes Hmax Hsep Hcd Hcs.
  pose proof Hokd as (Hs & Hn & _). pose proof Hoks as (_ & Hns & _).
  destruct (Z.gtb_spec (nelts dst + nelts src) (nalloc dst)) as [Hgt | Hle].
  - destruct (xm_array_cat_grows m dst src cd cs Hokd Hoks Hes Hgt Hmax
                Hcd Hcs) as (nb & r & Hcat & Hr & Hlnb & Htake).
    pose proof (mul_le_bounds (nelts dst + nelts src) r (elt_size dst)
                  ltac:(lia) Hs) as Hp2.
    eexists _, _. split; [exact Hcat |].
    assert (Hlk : (m ++ [nb]) !! length m = Some nb) by apply lookup_fresh.
    split.
    { split; [exact Hs |]. split; [cbn [nelts nalloc]; lia |].
      exists {| blk := length m; off := 0 |}, nb.
      cbn [elts blk off nalloc elt_size].
      repeat split; try assumption; try lia. }
    split; [reflexivity |]. split; [reflexivity |].
    split; [reflexivity |]. split.
    { unfold contents. cbn [elts elt_size nelts mbind option_bind].
      rewrite load_fresh by (rewrite ?Hlnb; lia).
      change (Z.to_nat 0) with 0%nat. rewrite drop_0, Htake. reflexivity. }
    split; [split; [reflexivity | cbn [nalloc nelts]; lia] |].
    intros q k Hq _. apply load_app_old, Hq.
  - destruct (xm_array_cat_fits m dst src cd cs Hokd Hoks Hes Hle Hmax
                (Hsep Hle) Hcd Hcs)
      as (m' & e & He & Hcat & Hok & Hc & Hlen & Hfr & _).
    eexists _, _. split; [exact Hcat |]. split; [exact Hok |].
    split; [reflexivity |]. split; [reflexivity |].
    split; [reflexivity |]. split; [exact Hc |].
    split; [repeat split; (reflexivity || exact Hlen) |].
    intros q k _ Hq. apply Hfr, Hq. exact He.
Qed.

(** [xm_array_copy]. *)
Lemma xm_array_copy_spec m p arr cd :
  array_ok m arr -> (nalloc arr <= INT_MAX)%Z ->
  (Z.max 1 (nalloc arr) * elt_size arr <= INT_MAX)%Z ->
  contents m arr = Some cd ->
  xm_array_copy zero m p arr =
    Some (m ++ [cd ++ replicate
                  (Z.to_nat (elt_size arr *
                             (Z.max 1 (nalloc arr) - nelts arr)))
                  (Some zero)],
          {| pool := p; elt_size := elt_size arr; nelts := nelts arr;
             nalloc := Z.max 1 (nalloc arr);
             elts := Some {| blk := length m; off := 0 |} |}) /\
  length cd = Z.to_nat (elt_size arr * nelts arr).
Proof.
  intros Hok Hint Hmax Hcd.
  destruct (contents_Some m arr Hok) as (e & b & He & Hb & Ho & Hlen & Hcd').
  pose proof Hok as (Hs & Hn & _).
  rewrite Hcd in Hcd'. injection Hcd' as Hcd'.
  assert (Hna : (1 <= Z.max 1 (nalloc arr) <= INT_MAX /\
                 nalloc arr <= Z.max 1 (nalloc arr))%Z)
    by (unfold INT_MAX in *; lia).
  assert (Hna' : (if (nalloc arr <? 1)%Z then 1%Z else nalloc arr) =
                 Z.max 1 (nalloc arr))
    by (destruct (Z.ltb_spec (nalloc arr) 1); lia).
  set (na := Z.max 1 (nalloc arr)) in *. clearbody na.
  pose proof (mul_le_bounds (nelts arr) na (elt_size arr)
                ltac:(lia) Hs) as Hp1.
  pose proof (mul_le_bounds (na - nelts arr) na (elt_size arr)
                ltac:(lia) Hs) as Hp2.
  pose proof (mul_le_bounds (nelts arr) (nalloc arr) (elt_size arr)
                ltac:(lia) Hs) as Hp3.
  assert (Hlcd : length cd = Z.to_nat (elt_size arr * nelts arr)).
  { rewrite Hcd'. rewrite length_take_le; [reflexivity |].
    rewrite length_drop. lia. }
  split; [| exact Hlcd].
  assert (Hblt : (blk e < length m)%nat)
    by (eapply lookup_lt_Some; exact Hb).
  unfold xm_array_copy, make_array_core. rewrite Hna'.
  rewrite (cint_Some (na * elt_size arr)) by (unfold INT_MIN; lia).
  cbn [mbind option_bind]. unfold xm_palloc.
  replace (0 <=? na * elt_size arr)%Z with true
    by (symmetry; apply Z.leb_le; lia).
  cbn [mbind option_bind elts elt_size nalloc pool nelts].
  rewrite He. cbn [mbind option_bind].
  rewrite (cint_Some (elt_size arr * nelts arr)) by (unfold INT_MIN; lia).
  cbn [mbind option_bind].
  set (nb0 := replicate (Z.to_nat (na * elt_size arr)) (@None cell)).
  assert (Hlnb0 : length nb0 = Z.to_nat (na * elt_size arr))
    by apply length_replicate.
  rewrite memcpy_separate
    by (apply ranges_overlap_other_block; cbn [blk]; lia).
  assert (Hl1 : load (m ++ [nb0]) e (elt_size arr * nelts arr) = Some cd).
  { rewrite load_app_old by exact Hblt. apply load_Some.
    exists b. repeat split; try assumption; lia. }
  rewrite Hl1. cbn [mbind option_bind].
  rewrite store_fresh by (rewrite ?Hlcd, ?Hlnb0; lia).
  change (Z.to_nat 0) with 0%nat. rewrite take_0.
  cbn [app Nat.add mbind option_bind].
  rewrite (cint_Some (na - nelts arr)) by (unfold INT_MIN; lia).
  cbn [mbind option_bind].
  rewrite (cint_Some (elt_size arr * (na - nelts arr)))
    by (unfold INT_MIN; lia).
  cbn [mbind option_bind]. unfold memset0.
  replace (0 <=? elt_size arr * (na - nelts arr))%Z with true
    by (symmetry; apply Z.leb_le; lia).
  unfold ptr_add. cbn [blk off].
  rewrite store_fresh.
  2:{ lia. }
  2:{ rewrite length_replicate, length_app, length_drop, Hlcd, Hlnb0. lia. }
  cbn [mbind option_bind]. f_equal. f_equal. f_equal. f_equal.
  rewrite length_replicate.
  replace (Z.to_nat (0 + elt_size arr * nelts arr)) with (length cd)
    by (rewrite Hlcd; lia).
  rewrite take_app_length.
  rewrite drop_ge; [rewrite app_nil_r; reflexivity |].
  rewrite length_app, length_drop, Hlcd, Hlnb0. lia.
Qed.

(** X12. [xm_array_copy] of an array that owns its storage, with sizes
    that fit in an [int], yields, in a
    fresh block, an array with the same elements, the same element size
    and count, and the capacity of the original (1 when that is less);
    the capacity past the elements is zero-filled.  No block there was
    is written, so the original reads as before. *)
Theorem copy_is_deep m p arr cd :
  array_ok m arr -> (nalloc arr <= INT_MAX)%Z ->
  (Z.max 1 (nalloc arr) * elt_size arr <= INT_MAX)%Z ->
  contents m arr = Some cd ->
  exists m' res,
    xm_array_copy zero m p arr = Some (m', res) /\
    array_ok m' res /\
    pool res = p /\ elt_size res = elt_size arr /\
    nelts res = nelts arr /\ nalloc res = Z.max 1 (nalloc arr) /\
    elts res = Some {| blk := length m; off := 0 |} /\
    contents m' res = Some cd /\
    load m' {| blk := length m; off := elt_size arr * nelts arr |}
      (elt_size arr * (nalloc res - nelts arr)) =
      Some (replicate (Z.to_nat (elt_size arr * (nalloc res - nelts arr)))
              (Some zero)) /\
    (forall q k, (blk q < length m)%nat -> load m' q k = load m q k) /\
    contents m' arr = Some cd.
Proof.
  intros Hok Hint Hmax Hcd.
  pose proof Hok as (Hs & Hn & e & b & He & Hb & _).
  destruct (xm_array_copy_spec m p arr cd Hok Hint Hmax Hcd)
    as [Hcopy Hlcd].
  pose proof (mul_le_bounds (nelts arr) (Z.max 1 (nalloc arr))
                (elt_size arr) ltac:(lia) Hs) as Hp1.
  pose proof (mul_le_bounds (Z.max 1 (nalloc arr) - nelts arr)
                (Z.max 1 (nalloc arr)) (elt_size arr) ltac:(lia) Hs) as Hp2.
  assert (Hsum : (elt_size arr * nelts arr +
                  elt_size arr * (Z.max 1 (nalloc arr) - nelts arr) =
                  Z.max 1 (nalloc arr) * elt_size arr)%Z) by ring.
  set (na := Z.max 1 (nalloc arr)) in *.
  assert (Hna : (nelts arr <= na)%Z) by (unfold na; lia).
  clearbody na.
  set (z := replicate (Z.to_nat (elt_size arr * (na - nelts arr)))
              (Some zero)) in *.
  assert (Hlz : length z = Z.to_nat (elt_size arr * (na - nelts arr)))
    by apply length_replicate.
  assert (Hblt : (blk e < length m)%nat)
    by (eapply lookup_lt_Some; exact Hb).
  eexists _, _. split; [exact Hcopy |].
  split.
  { split; [exact Hs |]. split; [cbn [nelts nalloc]; lia |].
    exists {| blk := length m; off := 0 |}, (cd ++ z).
    cbn [elts blk off nalloc elt_size].
    split; [reflexivity |]. split; [apply lookup_fresh |].
    split; [lia |]. rewrite length_app, Hlcd, Hlz. lia. }
  split; [reflexivity |]. split; [reflexivity |].
  split; [reflexivity |]. split; [reflexivity |].
  split; [reflexivity |]. split.
  { unfold contents. cbn [elts elt_size nelts mbind option_bind].
    rewrite load_fresh by (rewrite ?length_app, ?Hlcd, ?Hlz; lia).
    change (Z.to_nat 0) with 0%nat. rewrite drop_0, <- Hlcd.
    rewrite take_app_length. reflexivity. }
  split.
  { cbn [nalloc].
    rewrite load_fresh by (rewrite ?length_app, ?Hlcd, ?Hlz; lia).
    rewrite <- Hlcd, drop_app_length.
    rewrite take_ge by (rewrite Hlz; lia). reflexivity. }
  split; [intros q k Hq; apply load_app_old, Hq |].
  unfold contents in *. rewrite He in *. cbn [mbind option_bind] in *.
  rewrite load_app_old by exact Hblt. exact Hcd.
Qed.

(** X13. [xm_array_append] yields the elements of [first] followed by
    those of [second] and writes no block there was, so both arrays read
    as before.  When [second] is empty nothing is allocated and the
    result shares the storage of [first]; otherwise the result is in a
    fresh block. *)
Theorem append_shares_or_copies m p first second c1 c2 :
  array_ok m first -> array_ok m second ->
  elt_size second = elt_size first ->
  (2 * (nelts first + nelts second) * Z.max 1 (elt_size first)
   <= INT_MAX)%Z ->
  contents m first = Some c1 -> contents m second = Some c2 ->
  exists m' res,
    xm_array_append zero m p first second = Some (m', res) /\
    array_ok m' res /\ pool res = p /\
    nelts res = (nelts first + nelts second)%Z /\
    contents m' res = Some (c1 ++ c2) /\
    (forall q k, (blk q < length m)%nat -> load m' q k = load m q k) /\
    (if (nelts second =? 0)%Z
     then m' = m /\ elts res = elts first
     else elts res = Some {| blk := length m; off := 0 |}).
Proof.
  intros Hok1 Hok2 Hes Hmax Hc1 Hc2.
  pose proof Hok1 as (Hs & Hn & e & b & He & Hb & Ho & Hlen).
  pose proof Hok2 as (_ & Hn2 & _).
  pose proof (mul_le_bounds (nelts first) (nalloc first) (elt_size first)
                Hn Hs) as Hp1.
  assert (Hokh : array_ok m (xm_array_copy_hdr p first)).
  { split; [exact Hs |]. split; [cbn; lia |].
    exists e, b. cbn. repeat split; try assumption. lia. }
  unfold xm_array_append.
  destruct (Z.eqb_spec (nelts second) 0) as [Hz | Hz].
  - destruct (xm_array_cat_fits m (xm_array_copy_hdr p first) second c1 c2
                Hokh Hok2 Hes) as (m' & e' & He' & Hcat & Hok & Hc & Hl &
                                   Hfr & Hsame);
      [cbn; lia | exact Hmax | | exact Hc1 | exact Hc2 |].
    { intros e0 s0 _ _. apply ranges_overlap_empty. rewrite Hz. lia. }
    specialize (Hsame Hz). subst m'.
    eexists _, _. split; [exact Hcat |]. split; [exact Hok |].
    split; [reflexivity |]. split; [reflexivity |].
    split; [exact Hc |]. split; [reflexivity |].
    split; reflexivity.
  - destruct (xm_array_cat_grows m (xm_array_copy_hdr p first) second c1 c2
                Hokh Hok2 Hes) as (nb & r & Hcat & Hr & Hlnb & Htake);
      [cbn; lia | exact Hmax | exact Hc1 | exact Hc2 |].
    cbn [xm_array_copy_hdr copy_array_hdr_core nelts elt_size pool]
      in Hr, Hlnb, Htake.
    pose proof (mul_le_bounds (nelts first + nelts second) r
                  (elt_size first) ltac:(lia) Hs) as Hp2.
    eexists _, _. split; [exact Hcat |].
    split.
    { split; [exact Hs |]. split; [cbn [nelts nalloc]; cbn; lia |].
      exists {| blk := length m; off := 0 |}, nb.
      cbn [elts blk off nalloc elt_size].
      split; [reflexivity |]. split; [apply lookup_fresh |].
      split; [lia |]. cbn. rewrite Hlnb. lia. }
    split; [reflexivity |]. split; [reflexivity |]. split.
    { unfold contents. cbn [elts elt_size nelts mbind option_bind].
      cbn [xm_array_copy_hdr copy_array_hdr_core nelts elt_size].
      rewrite load_fresh by (rewrite ?Hlnb; lia).
      change (Z.to_nat 0) with 0%nat. rewrite drop_0, Htake. reflexivity. }
    split; [intros q k Hq; apply load_app_old, Hq |].
    reflexivity.
Qed.

(** ** [xm_array_make], [xm_array_pop] and [xm_array_clear] *)

(** X14. [xm_array_make] with an element size that is not negative and
    sizes that fit in an [int] yields an empty array in a fresh block,
    with room for the number of elements asked for, or for one when
    that number is less than one; every element of the capacity reads
    as zeros, and no block there was is written. *)
Theorem make_gives_zeroed m p n es :
  (0 <= es)%Z -> (Z.max 1 n * es <= INT_MAX)%Z ->
  exists m' arr,
    xm_array_make zero m p n es = Some (m', arr) /\
    array_ok m' arr /\
    pool arr = p /\ elt_size arr = es /\ nelts arr = 0%Z /\
    nalloc arr = Z.max 1 n /\
    elts arr = Some {| blk := length m; off := 0 |} /\
    xm_is_empty_array (Some arr) = true /\
    (forall i, (0 <= i < nalloc arr)%Z ->
       read_elt m' arr i = Some (replicate (Z.to_nat es) (Some zero))) /\
    (forall q k, (blk q < length m)%nat -> load m' q k = load m q k).
Proof.
  intros Hes Hb.
  assert (Hn : (if (n <? 1)%Z then 1%Z else n) = Z.max 1 n)
    by (destruct (Z.ltb_spec n 1); lia).
  assert (Hna : (1 <= Z.max 1 n)%Z) by lia.
  set (na := Z.max 1 n) in *. clearbody na.
  pose proof (mul_le_bounds 1 na es ltac:(lia) Hes) as Hp.
  set (nb := replicate (Z.to_nat (na * es)) (Some zero)).
  assert (Hlnb : length nb = Z.to_nat (na * es)) by apply length_replicate.
  assert (Hmake : xm_array_make zero m p n es =
    Some (m ++ [nb],
          {| pool := p; elt_size := es; nelts := 0; nalloc := na;
             elts := Some {| blk := length m; off := 0 |} |})).
  { unfold xm_array_make, make_array_core, xm_pcalloc. rewrite Hn.
    rewrite (cint_Some (na * es)) by (unfold INT_MIN; lia).
    cbn [mbind option_bind].
    replace (0 <=? na * es)%Z with true by (symmetry; apply Z.leb_le; lia).
    reflexivity. }
  eexists _, _. split; [exact Hmake |].
  split.
  { split; [exact Hes |]. split; [cbn [nelts nalloc]; lia |].
    exists {| blk := length m; off := 0 |}, nb.
    cbn [elts blk off nalloc elt_size].
    split; [reflexivity |]. split; [apply lookup_fresh |]. lia. }
  split; [reflexivity |]. split; [reflexivity |].
  split; [reflexivity |]. split; [reflexivity |].
  split; [reflexivity |]. split; [reflexivity |]. split.
  - intros i Hi. cbn [nalloc] in Hi.
    pose proof (mul_le_bounds (i + 1) na es ltac:(lia) Hes) as Hpi.
    pose proof (mul_le_bounds i na es ltac:(lia) Hes) as Hpi'.
    rewrite (read_elt_Some (m ++ [nb]) _ i {| blk := length m; off := 0 |}
               nb);
      cbn [elts blk off elt_size];
      try (reflexivity || apply lookup_fresh || lia).
    f_equal. unfold nb. rewrite drop_replicate, take_replicate.
    f_equal. lia.
  - intros q k Hq. apply load_app_old, Hq.
Qed.

Lemma push_grow_fields (clear : bool) m arr m1 arr1 :
  push_grow zero clear m arr = Some (m1, arr1) ->
  nelts arr1 = nelts arr /\ elt_size arr1 = elt_size arr /\
  pool arr1 = pool arr.
Proof.
  unfold push_grow. destruct (nelts arr =? nalloc arr)%Z.
  - intros Hg.
    destruct (if (nalloc arr <=? 0)%Z then Some 1%Z
              else cint (nalloc arr * 2)) as [new_size |];
      [| discriminate].
    cbn [mbind option_bind] in Hg.
    destruct (cint (elt_size arr * new_size)) as [sz |]; [| discriminate].
    cbn [mbind option_bind] in Hg.
    destruct (xm_palloc m sz) as [[m2 new_data] |]; [| discriminate].
    cbn [mbind option_bind] in Hg.
    destruct (elts arr) as [src |]; [| discriminate].
    cbn [mbind option_bind] in Hg.
    destruct (cint (nalloc arr * elt_size arr)) as [k |]; [| discriminate].
    cbn [mbind option_bind] in Hg.
    destruct (memcpy m2 new_data src k) as [m3 |]; [| discriminate].
    cbn [mbind option_bind] in Hg.
    destruct (if clear then _ else _) as [m4 |]; [| discriminate].
    cbn [mbind option_bind] in Hg. injection Hg as _ <-.
    repeat split.
  - intros [= <- <-]. repeat split.
Qed.

(** X15. [xm_array_pop] and [xm_array_clear] move the count only.  A pop
    of an empty array returns [NULL] and changes nothing; a pop after a
    push, of either variant, returns the handle the push returned and
    puts the count back, with the storage and capacity the push left.
    [xm_array_clear] empties the array and keeps its storage, so the
    next push returns the first slot without an allocation. *)
Theorem pop_and_clear_move_count (clear : bool) m arr :
  (0 <= nelts arr)%Z ->
  (nelts arr = 0%Z -> xm_array_pop arr = (arr, None)) /\
  (forall m' arr' h,
     (if clear then xm_array_push zero m arr
      else xm_array_push_noclear m arr) = Some (m', arr', h) ->
     xm_array_pop arr' =
       ({| pool := pool arr'; elt_size := elt_size arr';
           nelts := nelts arr; nalloc := nalloc arr';
           elts := elts arr' |}, Some h)) /\
  xm_is_empty_array (Some (xm_array_clear arr)) = true /\
  (forall e, elts arr = Some e -> (0 < nalloc arr)%Z ->
     xm_array_push zero m (xm_array_clear arr) =
       Some (m, {| pool := pool arr; elt_size := elt_size arr; nelts := 1;
                   nalloc := nalloc arr; elts := elts arr |}, e)).
Proof.
  intros Hn. split; [| split; [| split]].
  - intros Hz. unfold xm_array_pop, xm_is_empty_array. rewrite Hz.
    reflexivity.
  - intros m' arr' h Hpush.
    assert (Hparts : exists m1 arr1,
      push_grow zero clear m arr = Some (m1, arr1) /\
      push_last m1 arr1 = Some (m', arr', h)).
    { destruct clear;
        rewrite ?xm_array_push_parts, ?(xm_array_push_noclear_parts zero)
          in Hpush.
      - destruct (push_grow zero true m arr) as [[m1 arr1] |];
          [| discriminate].
        exists m1, arr1. split; [reflexivity | exact Hpush].
      - destruct (push_grow zero false m arr) as [[m1 arr1] |];
          [| discriminate].
        exists m1, arr1. split; [reflexivity | exact Hpush]. }
    destruct Hparts as (m1 & arr1 & Hg & Hl).
    destruct (push_grow_fields clear m arr m1 arr1 Hg) as (Hne & _ & _).
    unfold push_last in Hl.
    destruct (cint (nelts arr1 + 1)) as [k |] eqn:Hk; [| discriminate].
    cbn [mbind option_bind] in Hl.
    destruct (elts arr1) as [e |] eqn:He; [| discriminate].
    cbn [mbind option_bind] in Hl. injection Hl as <- <- <-.
    assert (k = (nelts arr + 1)%Z).
    { unfold cint in Hk. destruct (_ && _); [| discriminate].
      injection Hk as <-. lia. }
    subst k. unfold xm_array_pop, xm_is_empty_array. cbn [nelts].
    destruct (Z.eqb_spec (nelts arr + 1) 0); [lia |].
    cbn [pool elt_size nelts nalloc elts mbind option_bind].
    replace (nelts arr + 1 - 1)%Z with (nelts arr) by lia.
    reflexivity.
  - reflexivity.
  - intros e He Hna. unfold xm_array_push, xm_array_clear.
    cbn [nelts nalloc elts elt_size pool].
    destruct (Z.eqb_spec 0 (nalloc arr)); [lia |].
    cbn [mbind option_bind nelts nalloc elts elt_size pool].
    rewrite (cint_Some (0 + 1)) by (unfold INT_MIN, INT_MAX; lia).
    cbn [mbind option_bind]. rewrite He. cbn [mbind option_bind].
    do 2 f_equal. destruct e as [be oe]. unfold ptr_add. cbn [blk off].
    f_equal. lia.
Qed.

End MoreArrayProofs.

Lemma two_arrays_example :
  array_ok [[Some 1%Z; Some 2%Z; None; None]; [Some 3%Z; Some 4%Z]]
    {| pool := 0; elt_size := 2; nelts := 1; nalloc := 2;
       elts := Some {| blk := 0; off := 0 |} |} /\
  array_ok [[Some 1%Z; Some 2%Z; None; None]; [Some 3%Z; Some 4%Z]]
    {| pool := 0; elt_size := 2; nelts := 1; nalloc := 1;
       elts := Some {| blk := 1; off := 0 |} |}.
Proof.
  split.
  - split; [simpl; lia |]. split; [simpl; lia |].
    eexists _, _. split; [reflexivity |]. split; [reflexivity |].
    simpl. lia.
  - split; [simpl; lia |]. split; [simpl; lia |].
    eexists _, _. split; [reflexivity |]. split; [reflexivity |].
    simpl. lia.
Qed.

Lemma cat_appends_elements_witness :
  array_ok [[Some 1%Z; Some 2%Z; None; None]; [Some 3%Z; Some 4%Z]]
    {| pool := 0; elt_size := 2; nelts := 1; nalloc := 2;
       elts := Some {| blk := 0; off := 0 |} |} /\
  array_ok [[Some 1%Z; Some 2%Z; None; None]; [Some 3%Z; Some 4%Z]]
    {| pool := 0; elt_size := 2; nelts := 1; nalloc := 1;
       elts := Some {| blk := 1; off := 0 |} |} /\
  ranges_overlap (ptr_add {| blk := 0; off := 0 |} (1 * 2))
    {| blk := 1; off := 0 |} (2 * 1) = false /\
  exists m' dst',
    xm_array_cat 0%Z
      [[Some 1%Z; Some 2%Z; None; None]; [Some 3%Z; Some 4%Z]]
      {| pool := 0; elt_size := 2; nelts := 1; nalloc := 2;
         elts := Some {| blk := 0; off := 0 |} |}
      {| pool := 0; elt_size := 2; nelts := 1; nalloc := 1;
         elts := Some {| blk := 1; off := 0 |} |} = Some (m', dst') /\
    contents m' dst' =
      Some ([Some 1%Z; Some 2%Z] ++ [Some 3%Z; Some 4%Z]).
Proof.
  split; [exact (proj1 two_arrays_example) |].
  split; [exact (proj2 two_arrays_example) |].
  split; [reflexivity |].
  destruct (cat_appends_elements 0%Z
              [[Some 1%Z; Some 2%Z; None; None]; [Some 3%Z; Some 4%Z]]
              {| pool := 0; elt_size := 2; nelts := 1; nalloc := 2;
                 elts := Some {| blk := 0; off := 0 |} |}
              {| pool := 0; elt_size := 2; nelts := 1; nalloc := 1;
                 elts := Some {| blk := 1; off := 0 |} |}
              [Some 1%Z; Some 2%Z] [Some 3%Z; Some 4%Z]
              (proj1 two_arrays_example) (proj2 two_arrays_example))
    as (m' & dst' & Hcat & _ & _ & _ & _ & Hc & _).
  - reflexivity.
  - vm_compute. discriminate.
  - intros _ e s He Hs. injection He as <-. injection Hs as <-.
    reflexivity.
  - reflexivity.
  - reflexivity.
  - exists m', dst'. split; [exact Hcat | exact Hc].
Defined.

(** A worked case: the one element of [src] is the free slot of [dst],
    which [memcpy] may not be asked to copy onto itself. *)
Example cat_example_overlap :
  xm_array_cat 0%Z
    [[Some 1%Z; Some 2%Z; Some 3%Z; Some 4%Z]]
    {| pool := 0; elt_size := 2; nelts := 1; nalloc := 2;
       elts := Some {| blk := 0; off := 0 |} |}
    {| pool := 0; elt_size := 2; nelts := 1; nalloc := 1;
       elts := Some {| blk := 0; off := 2 |} |} = None.
Proof. reflexivity. Qed.

Example cat_example_fits :
  xm_array_cat 0%Z
    [[Some 1%Z; Some 2%Z; None; None]; [Some 3%Z; Some 4%Z]]
    {| pool := 0; elt_size := 2; nelts := 1; nalloc := 2;
       elts := Some {| blk := 0; off := 0 |} |}
    {| pool := 0; elt_size := 2; nelts := 1; nalloc := 1;
       elts := Some {| blk := 1; off := 0 |} |} =
  Some ([[Some 1%Z; Some 2%Z; Some 3%Z; Some 4%Z]; [Some 3%Z; Some 4%Z]],
        {| pool := 0; elt_size := 2; nelts := 2; nalloc := 2;
           elts := Some {| blk := 0; off := 0 |} |}).
Proof. reflexivity. Qed.

Example cat_example_grows :
  xm_array_cat 0%Z
    [[Some 1%Z; Some 2%Z; None; None]; [Some 3%Z; Some 4%Z]]
    {| pool := 0; elt_size := 2; nelts := 1; nalloc := 1;
       elts := Some {| blk := 1; off := 0 |} |}
    {| pool := 0; elt_size := 2; nelts := 1; nalloc := 2;
       elts := Some {| blk := 0; off := 0 |} |} =
  Some ([[Some 1%Z; Some 2%Z; None; None]; [Some 3%Z; Some 4%Z];
         [Some 3%Z; Some 4%Z; Some 1%Z; Some 2%Z]],
        {| pool := 0; elt_size := 2; nelts := 2; nalloc := 2;
           elts := Some {| blk := 2; off := 0 |} |}).
Proof. reflexivity. Qed.

Lemma copy_is_deep_witness :
  array_ok [[Some 1%Z; Some 2%Z; None; None]; [Some 3%Z; Some 4%Z]]
    {| pool := 0; elt_size := 2; nelts := 1; nalloc := 2;
       elts := Some {| blk := 0; off := 0 |} |} /\
  exists m' res,
    xm_array_copy 0%Z
      [[Some 1%Z; Some 2%Z; None; None]; [Some 3%Z; Some 4%Z]] 7
      {| pool := 0; elt_size := 2; nelts := 1; nalloc := 2;
         elts := Some {| blk := 0; off := 0 |} |} = Some (m', res) /\
    contents m' res = Some [Some 1%Z; Some 2%Z].
Proof.
  split; [exact (proj1 two_arrays_example) |].
  destruct (copy_is_deep 0%Z
              [[Some 1%Z; Some 2%Z; None; None]; [Some 3%Z; Some 4%Z]] 7
              {| pool := 0; elt_size := 2; nelts := 1; nalloc := 2;
                 elts := Some {| blk := 0; off := 0 |} |}
              [Some 1%Z; Some 2%Z] (proj1 two_arrays_example))
    as (m' & res & Hcopy & _ & _ & _ & _ & _ & _ & Hc & _).
  - vm_compute. discriminate.
  - vm_compute. discriminate.
  - reflexivity.
  - exists m', res. split; [exact Hcopy | exact Hc].
Defined.

Example copy_example :
  xm_array_copy 0%Z
    [[Some 1%Z; Some 2%Z; None; None]; [Some 3%Z; Some 4%Z]] 7
    {| pool := 0; elt_size := 2; nelts := 1; nalloc := 2;
       elts := Some {| blk := 0; off := 0 |} |} =
  Some ([[Some 1%Z; Some 2%Z; None; None]; [Some 3%Z; Some 4%Z];
         [Some 1%Z; Some 2%Z; Some 0%Z; Some 0%Z]],
        {| pool := 7; elt_size := 2; nelts := 1; nalloc := 2;
           elts := Some {| blk := 2; off := 0 |} |}).
Proof. reflexivity. Qed.

Lemma append_shares_or_copies_witness :
  array_ok [[Some 1%Z; Some 2%Z; None; None]; [Some 3%Z; Some 4%Z]]
    {| pool := 0; elt_size := 2; nelts := 1; nalloc := 2;
       elts := Some {| blk := 0; off := 0 |} |} /\
  array_ok [[Some 1%Z; Some 2%Z; None; None]; [Some 3%Z; Some 4%Z]]
    {| pool := 0; elt_size := 2; nelts := 1; nalloc := 1;
       elts := Some {| blk := 1; off := 0 |} |} /\
  exists m' res,
    xm_array_append 0%Z
      [[Some 1%Z; Some 2%Z; None; None]; [Some 3%Z; Some 4%Z]] 7
      {| pool := 0; elt_size := 2; nelts := 1; nalloc := 2;
         elts := Some {| blk := 0; off := 0 |} |}
      {| pool := 0; elt_size := 2; nelts := 1; nalloc := 1;
         elts := Some {| blk := 1; off := 0 |} |} = Some (m', res) /\
    contents m' res =
      Some ([Some 1%Z; Some 2%Z] ++ [Some 3%Z; Some 4%Z]).
Proof.
  split; [exact (proj1 two_arrays_example) |].
  split; [exact (proj2 two_arrays_example) |].
  destruct (append_shares_or_copies 0%Z
              [[Some 1%Z; Some 2%Z; None; None]; [Some 3%Z; Some 4%Z]] 7
              {| pool := 0; elt_size := 2; nelts := 1; nalloc := 2;
                 elts := Some {| blk := 0; off := 0 |} |}
              {| pool := 0; elt_size := 2; nelts := 1; nalloc := 1;
                 elts := Some {| blk := 1; off := 0 |} |}
              [Some 1%Z; Some 2%Z] [Some 3%Z; Some 4%Z]
              (proj1 two_arrays_example) (proj2 two_arrays_example))
    as (m' & res & Happ & _ & _ & _ & Hc & _).
  - reflexivity.
  - vm_compute. discriminate.
  - reflexivity.
  - reflexivity.
  - exists m', res. split; [exact Happ | exact Hc].
Defined.

Lemma make_gives_zeroed_witness :
  (0 <= 2)%Z /\ (Z.max 1 0 * 2 <= INT_MAX)%Z /\
  exists m' arr,
    xm_array_make 0%Z [[Some 5%Z]] 3 0 2 = Some (m', arr) /\
    nalloc arr = Z.max 1 0 /\
    elts arr = Some {| blk := 1; off := 0 |}.
Proof.
  split; [lia |]. split; [vm_compute; discriminate |].
  destruct (make_gives_zeroed 0%Z [[Some 5%Z]] 3 0 2)
    as (m' & arr & Hmake & _ & _ & _ & _ & Hna & He & _).
  - lia.
  - vm_compute. discriminate.
  - exists m', arr. split; [exact Hmake |]. split; [exact Hna | exact He].
Defined.

Lemma pop_and_clear_move_count_witness :
  (0 <= nelts {| pool := 0; elt_size := 2; nelts := 1; nalloc := 2;
                 elts := Some {| blk := 0; off := 0 |} |})%Z /\
  xm_array_push 0%Z [[Some 1%Z; Some 2%Z; None; None]]
    (xm_array_clear
       {| pool := 0; elt_size := 2; nelts := 1; nalloc := 2;
          elts := Some {| blk := 0; off := 0 |} |}) =
  Some ([[Some 1%Z; Some 2%Z; None; None]],
        {| pool := 0; elt_size := 2; nelts := 1; nalloc := 2;
           elts := Some {| blk := 0; off := 0 |} |},
        {| blk := 0; off := 0 |}).
Proof.
  split; [simpl; lia |].
  apply (pop_and_clear_move_count 0%Z true
           [[Some 1%Z; Some 2%Z; None; None]]
           {| pool := 0; elt_size := 2; nelts := 1; nalloc := 2;
              elts := Some {| blk := 0; off := 0 |} |});
    [simpl; lia | reflexivity | simpl; lia].
Defined.

(** ** [xm_table_getm] *)

Lemma call_each_app {R : Type} (comp : R -> string -> string -> Z * R) l1 :
  forall l2 rv rec,
  call_each comp (l1 ++ l2) rv rec =
  call_each comp l2 (fst (call_each comp l1 rv rec))
    (snd (call_each comp l1 rv rec)).
Proof.
  induction l1 as [| e l1 IH]; intros l2 rv rec; simpl; [reflexivity |].
  destruct (rv =? 0)%Z eqn:Erv.
  - simpl. apply Z.eqb_eq in Erv. subst rv. symmetry.
    apply call_each_stopped.
  - destruct (comp rec (deref (key e)) (val e)) as [rv' rec']. apply IH.
Qed.

(** An array of [char *] holds [l] when each element reads as the
    string at its position. *)
Lemma holds_read_elt (m : @mem (option string)) arr l i s :
  array_ok m arr -> elt_size arr = 1%Z -> array_holds m arr l ->
  l !! i = Some s -> read_elt m arr (Z.of_nat i) = Some [Some s].
Proof.
  intros (Hs & Hn & e & b & He & Hb & Ho & Hlen) Hes (Hnl & e' & He' & Hl)
    Hi.
  assert (e' = e) by congruence. subst e'.
  pose proof (lookup_lt_Some _ _ _ Hi) as Hlt.
  apply load_Some in Hl as (b' & Hb' & _ & _ & Hbl & Hcells).
  assert (b' = b) by congruence. subst b'.
  rewrite (read_elt_Some m arr (Z.of_nat i) e b) by (assumption || lia).
  rewrite Hes. f_equal. change (Z.to_nat 1) with 1.
  assert (Hbi : b !! (Z.to_nat (off e) + i) = Some (Some s)).
  { rewrite <- lookup_drop.
    rewrite <- (lookup_take_lt _ (Z.to_nat (nelts arr))) by lia.
    rewrite <- Hcells, list_lookup_fmap, Hi. reflexivity. }
  replace (Z.to_nat (off e + 1 * Z.of_nat i)) with (Z.to_nat (off e) + i)
    by lia.
  rewrite (drop_S _ _ _ Hbi). reflexivity.
Qed.

Lemma read_elt_holds (m : @mem (option string)) arr l :
  array_ok m arr -> elt_size arr = 1%Z ->
  nelts arr = Z.of_nat (length l) ->
  (forall i s, l !! i = Some s ->
     read_elt m arr (Z.of_nat i) = Some [Some s]) ->
  array_holds m arr l.
Proof.
  intros (Hs & Hn & e & b & He & Hb & Ho & Hlen) Hes Hnl Hread.
  split; [exact Hnl |]. exists e. split; [exact He |].
  apply load_Some. exists b. repeat split; try assumption; try lia.
  apply list_eq. intros i.
  destruct (l !! i) as [s |] eqn:Hi.
  - pose proof (lookup_lt_Some _ _ _ Hi) as Hlt.
    specialize (Hread i s Hi).
    rewrite (read_elt_Some m arr (Z.of_nat i) e b) in Hread
      by (assumption || lia).
    rewrite Hes in Hread. change (Z.to_nat 1) with 1 in Hread.
    injection Hread as Hread.
    rewrite list_lookup_fmap, Hi. simpl.
    rewrite lookup_take_lt, lookup_drop by lia.
    replace (Z.to_nat (off e + 1 * Z.of_nat i)) with (Z.to_nat (off e) + i)
      in Hread by lia.
    destruct (b !! (Z.to_nat (off e) + i)) as [c |] eqn:Hbi.
    + rewrite (drop_S _ _ _ Hbi) in Hread. simpl in Hread.
      rewrite take_0 in Hread. congruence.
    + apply lookup_ge_None in Hbi. lia.
  - rewrite list_lookup_fmap, Hi. simpl.
    apply lookup_ge_None in Hi. symmetry.
    apply lookup_ge_None. rewrite length_take, length_drop. lia.
Qed.

Lemma push_string_holds (m : @mem (option string)) arr l s :
  array_ok m arr -> elt_size arr = 1%Z -> array_holds m arr l ->
  (2 * (nelts arr + 1) <= INT_MAX)%Z ->
  exists m' arr',
    push_string m arr s = Some (m', arr') /\
    array_ok m' arr' /\ elt_size arr' = 1%Z /\
    array_holds m' arr' (l ++ [s]).
Proof.
  intros Hok Hes Hh Hmax. pose proof Hh as (Hnl & _).
  destruct (push_step_spec None true m arr [Some s] Hok)
    as (m1 & arr1 & h & m2 & Hpush & Hst & Hok1 & Hn1 & Hes1 & _ & Hnew &
        Hold & _); [rewrite Hes; lia | rewrite Hes; reflexivity |].
  exists m2, arr1. split.
  { unfold push_string. rewrite Hpush. cbn [mbind option_bind].
    rewrite Hst. reflexivity. }
  split; [exact Hok1 |]. split; [congruence |].
  apply read_elt_holds; [exact Hok1 | congruence | |].
  { rewrite Hn1, Hnl, length_app. simpl. lia. }
  intros i s' Hi.
  apply lookup_app_Some in Hi as [Hi | [Hge Hi]].
  - pose proof (lookup_lt_Some _ _ _ Hi) as Hlt.
    rewrite Hold by lia.
    exact (holds_read_elt m arr l i s' Hok Hes Hh Hi).
  - apply list_lookup_singleton_Some in Hi as [Hi <-].
    replace (Z.of_nat i) with (nelts arr) by lia. exact Hnew.
Qed.

(** The calls of [table_getm_do] once the array exists. *)
Lemma getm_do_rest p f r :
  forall (m : @mem (option string)) arr l,
  array_ok m arr -> elt_size arr = 1%Z -> array_holds m arr l ->
  (2 * (nelts arr + Z.of_nat (length r)) <= INT_MAX)%Z ->
  exists m' arr',
    call_each (table_getm_do p) r 1
      (Some (m, {| first := Some f; merged := Some arr |})) =
    (1%Z, Some (m', {| first := Some f; merged := Some arr' |})) /\
    array_holds m' arr' (l ++ map (fun e => Some (val e)) r).
Proof.
  induction r as [| e r IH]; intros m arr l Hok Hes Hh Hmax.
  - exists m, arr. rewrite app_nil_r. split; [reflexivity | exact Hh].
  - cbn [length] in Hmax.
    destruct (push_string_holds m arr l (Some (val e)) Hok Hes Hh)
      as (m1 & arr1 & Hp & Hok1 & Hes1 & Hh1); [lia |].
    pose proof Hh as (Hnl & _). pose proof Hh1 as (Hnl1 & _).
    rewrite length_app in Hnl1. simpl in Hnl1.
    destruct (IH m1 arr1 (l ++ [Some (val e)]) Hok1 Hes1 Hh1)
      as (m' & arr' & Hc & Hh'); [lia |].
    exists m', arr'. split.
    + cbn [call_each table_getm_do Z.eqb first merged mbind option_bind].
      rewrite Hp. cbn [mbind option_bind]. exact Hc.
    + rewrite <- app_assoc in Hh'. exact Hh'.
Qed.

Lemma getm_do_all p (m : @mem (option string)) es :
  (2 * Z.of_nat (length es) <= INT_MAX)%Z ->
  exists rec,
    call_each (table_getm_do p) es 1
      (Some (m, {| first := None; merged := None |})) = (1%Z, rec) /\
    match es with
    | [] => rec = Some (m, {| first := None; merged := None |})
    | [e] => rec = Some (m, {| first := Some (val e); merged := None |})
    | e :: _ =>
        exists m' arr,
          rec = Some (m', {| first := Some (val e); merged := Some arr |}) /\
          array_holds m' arr (map (fun e => Some (val e)) es)
    end.
Proof.
  intros Hmax. destruct es as [| e1 [| e2 r]].
  - eexists. split; reflexivity.
  - eexists. split; reflexivity.
  - change (e1 :: e2 :: r) with ([e1; e2] ++ r) at 1.
    rewrite call_each_app, getm_do_two. cbn [fst snd].
    cbn [length] in Hmax.
    set (nb := Some (Some (val e1)) :: Some (Some (val e2)) ::
               replicate 8 (Some None)).
    set (arr := {| pool := p; elt_size := 1; nelts := 2; nalloc := 10;
                   elts := Some {| blk := length m; off := 0 |} |}).
    assert (Hok : array_ok (m ++ [nb]) arr).
    { split; [simpl; lia |]. split; [simpl; lia |].
      exists {| blk := length m; off := 0 |}, nb.
      split; [reflexivity |]. split; [apply lookup_fresh |].
      simpl. lia. }
    assert (Hh : array_holds (m ++ [nb]) arr
                   [Some (val e1); Some (val e2)]).
    { split; [reflexivity |]. eexists. split; [reflexivity |].
      cbn [nelts arr]. rewrite load_fresh by (simpl; lia). reflexivity. }
    destruct (getm_do_rest p (val e1) r (m ++ [nb]) arr
                [Some (val e1); Some (val e2)] Hok eq_refl Hh)
      as (m' & arr' & Hc & Hh'); [cbn [nelts arr]; lia |].
    eexists. split; [exact Hc |].
    exists m', arr'. split; [reflexivity | exact Hh'].
Qed.

(** X16. [xm_table_getm] returns [NULL] when the table has no entry for
    the key, and otherwise the values of all the entries of the key, in
    table order, joined by a comma: the value itself when there is one
    entry.  The table is to satisfy the invariant and the number of its
    entries to fit in an [int] when doubled. *)
Theorem getm_joins_all `{Target} (m : @mem (option string)) (p : nat)
    (t : xm_table_t) (K : string) :
  table_ok t ->
  (2 * Z.of_nat (a_nelts t) <= INT_MAX)%Z ->
  xm_table_getm m p t K =
    Some (match List.filter (key_is K) (a_elts t) with
          | [] => None
          | es =>
              Some (join_strings (Ascii.ascii_of_nat 44)
                      (map (fun e => Some (val e)) es))
          end).
Proof.
  intros Hok Hmax.
  unfold xm_table_getm, xm_table_do.
  rewrite (xm_table_vdo_spec _ _ _ _ Hok).
  unfold iterate_spec. cbn [iterate_keys].
  pose proof (filter_take_length (key_is K) (length (a_elts t)) (a_elts t))
    as Hle.
  rewrite take_ge in Hle by lia. unfold a_nelts in Hmax.
  destruct (getm_do_all p m (List.filter (key_is K) (a_elts t)))
    as (rec & Hc & Hrec); [lia |].
  rewrite Hc. cbn [Z.eqb].
  destruct (List.filter (key_is K) (a_elts t)) as [| e1 [| e2 r]].
  - subst rec. reflexivity.
  - subst rec. reflexivity.
  - destruct Hrec as (m' & arr & -> & Hh).
    cbn [mbind option_bind first merged].
    rewrite (xm_array_pstrcat_spec _ _ _ _ Hh). reflexivity.
Qed.

Lemma getm_joins_all_witness :
  @table_ok x86_64
    (@run_ops x86_64
       [OpAdd "Via" "x"; OpAdd "Host" "a"; OpAdd "host" "b";
        OpAdd "HOST" "c"]) /\
  (2 * Z.of_nat
         (a_nelts (@run_ops x86_64
                     [OpAdd "Via" "x"; OpAdd "Host" "a"; OpAdd "host" "b";
                      OpAdd "HOST" "c"])) <= INT_MAX)%Z /\
  @xm_table_getm x86_64 [] 0
    (@run_ops x86_64
       [OpAdd "Via" "x"; OpAdd "Host" "a"; OpAdd "host" "b";
        OpAdd "HOST" "c"]) "hOst" =
  Some (match List.filter (key_is "hOst")
                (a_elts (@run_ops x86_64
                           [OpAdd "Via" "x"; OpAdd "Host" "a";
                            OpAdd "host" "b"; OpAdd "HOST" "c"])) with
        | [] => None
        | es =>
            Some (join_strings (Ascii.ascii_of_nat 44)
                    (map (fun e => Some (val e)) es))
        end).
Proof.
  split; [apply run_ops_ok |]. split; [vm_compute; discriminate |].
  apply (@getm_joins_all x86_64 [] 0
           (@run_ops x86_64
              [OpAdd "Via" "x"; OpAdd "Host" "a"; OpAdd "host" "b";
               OpAdd "HOST" "c"]) "hOst");
    [apply run_ops_ok | vm_compute; discriminate].
Defined.

Example getm_example :
  @xm_table_getm x86_64 [] 0
    (@run_ops x86_64
       [OpAdd "Via" "x"; OpAdd "Host" "a"; OpAdd "host" "b";
        OpAdd "HOST" "c"]) "hOst" = Some (Some "a,b,c") /\
  @xm_table_getm x86_64 [] 0
    (@run_ops x86_64
       [OpAdd "Via" "x"; OpAdd "Host" "a"; OpAdd "host" "b";
        OpAdd "HOST" "c"]) "via" = Some (Some "x") /\
  @xm_table_getm x86_64 [] 0
    (@run_ops x86_64
       [OpAdd "Via" "x"; OpAdd "Host" "a"; OpAdd "host" "b";
        OpAdd "HOST" "c"]) "Age" = Some None.
Proof. repeat split; reflexivity. Qed.

(** ** The pool agent: what the cache holds *)

Lemma filter_take_length_bool n (l : list bool) :
  length (List.filter (fun b : bool => b) (take n l)) <= n.
Proof.
  revert l. induction n as [| n IH]; intros [| x l]; simpl; try lia.
  destruct x; simpl; specialize (IH l); lia.
Qed.

Lemma init_loop_spec n :
  forall i creates mpa,
  (0 <= i)%Z -> (i + Z.of_nat n = pre_alloc_n mpa)%Z ->
  (pre_alloc_n mpa <= INT_MAX)%Z ->
  (0 <= cur_cache_n mpa)%Z ->
  (cur_cache_n mpa + Z.of_nat n < 2 ^ 64)%Z ->
  init_loop n i creates mpa =
  Some ({| cache_list :=
             replicate
               (length (List.filter (fun b : bool => b) (take n creates)))
               {| pool_block_size := pool_size mpa; pool_live := [] |} ++
             cache_list mpa;
           max_cache_n := max_cache_n mpa;
           cur_cache_n :=
             cur_cache_n mpa +
             Z.of_nat
               (length (List.filter (fun b : bool => b) (take n creates)));
           pool_size := pool_size mpa;
           pre_alloc_n := pre_alloc_n mpa |},
        drop n creates).
Proof.
  induction n as [| n IH]; intros i creates mpa Hi Hn Hmax H0 Hlt;
    cbn [init_loop];
    assert (Hu : u64 i = i)
      by (unfold u64; apply Z.mod_small; unfold INT_MAX in Hmax; lia);
    rewrite Hu.
  - destruct (Z.ltb_spec i (pre_alloc_n mpa)); [lia |].
    simpl. rewrite Z.add_0_r, drop_0. destruct mpa; reflexivity.
  - destruct (Z.ltb_spec i (pre_alloc_n mpa)); [| lia].
    rewrite (cint_Some (i + 1)) by (unfold INT_MIN; lia).
    destruct creates as [| [|] creates];
      cbn [xm_pool_create take List.filter length drop mbind option_bind].
    + rewrite IH by lia. rewrite take_nil, drop_nil. reflexivity.
    + rewrite IH by (cbn [cur_cache_n pre_alloc_n]; unfold u64;
                     rewrite ?Z.mod_small by lia; lia).
      cbn [cache_list max_cache_n cur_cache_n pool_size pre_alloc_n].
      unfold u64. rewrite Z.mod_small by lia.
      f_equal. f_equal. f_equal.
      * rewrite replicate_S_end, <- app_assoc. reflexivity.
      * lia.
    + rewrite IH by lia. reflexivity.
Qed.

(** Past [INT_MAX] rounds the counter [i] overflows. *)
Lemma init_loop_overflow fuel :
  forall i creates mpa,
  (0 <= i <= INT_MAX)%Z -> (INT_MAX < pre_alloc_n mpa)%Z ->
  init_loop fuel i creates mpa = None.
Proof.
  induction fuel as [| fuel IH]; intros i creates mpa Hi Hpre;
    cbn [init_loop];
    assert (Hu : u64 i = i)
      by (unfold u64; apply Z.mod_small; unfold INT_MAX in Hi; lia);
    rewrite Hu;
    (destruct (Z.ltb_spec i (pre_alloc_n mpa)); [| lia]);
    [reflexivity |].
  destruct (xm_pool_create creates (pool_size mpa)) as [mp creates'].
  destruct (Z.eq_dec i INT_MAX) as [-> | Hne]; [reflexivity |].
  rewrite (cint_Some (i + 1)) by (unfold INT_MIN; lia).
  cbn [mbind option_bind]. apply IH; [lia |].
  destruct mp; exact Hpre.
Qed.

Lemma xm_mpool_agent_init_spec (creates : list bool)
    (max_cache_n0 pool_size0 pre_alloc_n0 : Z) :
  (0 <= pre_alloc_n0 <= INT_MAX)%Z ->
  let n := Z.to_nat (if (pre_alloc_n0 =? 0)%Z then 1000%Z
                     else pre_alloc_n0) in
  let size := if (pool_size0 =? 0)%Z then 4096%Z else pool_size0 in
  let created := length (List.filter (fun b : bool => b) (take n creates)) in
  exists mpa,
    xm_mpool_agent_init creates max_cache_n0 pool_size0 pre_alloc_n0 =
      Some (mpa, drop n creates) /\
    cache_list mpa =
      replicate created {| pool_block_size := size; pool_live := [] |} /\
    cur_cache_n mpa = Z.of_nat created /\
    pool_size mpa = size /\
    max_cache_n mpa =
      (if (max_cache_n0 =? 0)%Z then 100000%Z else max_cache_n0).
Proof.
  intros Hpre n size created.
  unfold xm_mpool_agent_init. cbn [pre_alloc_n]. fold n.
  rewrite init_loop_spec.
  - eexists. split; [reflexivity |].
    cbn [cache_list cur_cache_n pool_size max_cache_n].
    fold created size. rewrite app_nil_r.
    repeat split; reflexivity.
  - lia.
  - cbn [pre_alloc_n]. unfold n.
    destruct (Z.eqb_spec pre_alloc_n0 0); lia.
  - cbn [pre_alloc_n]. unfold INT_MAX in *.
    destruct (Z.eqb_spec pre_alloc_n0 0); lia.
  - cbn [cur_cache_n]. lia.
  - cbn [cur_cache_n]. unfold n, INT_MAX in *.
    destruct (Z.eqb_spec pre_alloc_n0 0); lia.
Qed.

(** X17. [xm_mpool_agent_init], asked for a number of arenas in
    advance that an [int] can hold, calls [xm_pool_create] once for
    each of them (1000 when 0 is passed), with the arena size given
    (4096 when 0 is passed); a call that fails is skipped and the
    others are counted, so the cache ends with one empty arena for each
    call that succeeded and the count is their number.  Asked for more,
    it has no defined result: the loop counter is an [int] and
    overflows. *)
Theorem agent_init_counts_created (creates : list bool)
    (max_cache_n0 pool_size0 pre_alloc_n0 : Z) :
  (0 <= pre_alloc_n0 < 2 ^ 64)%Z ->
  let n := Z.to_nat (if (pre_alloc_n0 =? 0)%Z then 1000%Z
                     else pre_alloc_n0) in
  let size := if (pool_size0 =? 0)%Z then 4096%Z else pool_size0 in
  let created := length (List.filter (fun b : bool => b) (take n creates)) in
  if (pre_alloc_n0 <=? INT_MAX)%Z then
    exists mpa,
      xm_mpool_agent_init creates max_cache_n0 pool_size0 pre_alloc_n0 =
        Some (mpa, drop n creates) /\
      cache_list mpa =
        replicate created {| pool_block_size := size; pool_live := [] |} /\
      cur_cache_n mpa = Z.of_nat created /\
      pool_size mpa = size /\
      max_cache_n mpa =
        (if (max_cache_n0 =? 0)%Z then 100000%Z else max_cache_n0)
  else
    xm_mpool_agent_init creates max_cache_n0 pool_size0 pre_alloc_n0 = None.
Proof.
  intros Hpre n size created.
  destruct (Z.leb_spec pre_alloc_n0 INT_MAX) as [Hle | Hgt].
  - exact (xm_mpool_agent_init_spec creates max_cache_n0 pool_size0
             pre_alloc_n0 (conj (proj1 Hpre) Hle)).
  - unfold xm_mpool_agent_init. apply init_loop_overflow.
    + unfold INT_MAX. lia.
    + cbn [pre_alloc_n]. unfold INT_MAX in *.
      destruct (Z.eqb_spec pre_alloc_n0 0); lia.
Qed.

Lemma agent_init_counts_created_witness :
  (0 <= 4 < 2 ^ 64)%Z /\
  exists mpa,
    xm_mpool_agent_init [true; false; true; true; true] 0 0 4 =
      Some (mpa, [true]) /\
    cur_cache_n mpa = 3%Z.
Proof.
  split; [lia |].
  destruct (agent_init_counts_created [true; false; true; true; true] 0 0 4)
    as (mpa & Hr & _ & Hc & _); [lia |].
  exists mpa. split; [exact Hr | exact Hc].
Defined.

Example agent_init_example :
  xm_mpool_agent_init [true; false; true; true; true] 0 0 4 =
  Some ({| cache_list :=
             replicate 3 {| pool_block_size := 4096; pool_live := [] |};
           max_cache_n := 100000; cur_cache_n := 3; pool_size := 4096;
           pre_alloc_n := 4 |}, [true]).
Proof. reflexivity. Qed.

Lemma agent_init_ok creates max_cache_n0 pool_size0 pre_alloc_n0 :
  (0 <= pre_alloc_n0 <= INT_MAX)%Z -> (0 <= max_cache_n0 < 2 ^ 64)%Z ->
  exists mpa rest,
    xm_mpool_agent_init creates max_cache_n0 pool_size0 pre_alloc_n0 =
      Some (mpa, rest) /\
    agent_ok mpa.
Proof.
  intros Hpre Hmax.
  destruct (xm_mpool_agent_init_spec creates max_cache_n0 pool_size0
              pre_alloc_n0 Hpre) as (mpa & Hr & Hl & Hc & _ & Hm).
  exists mpa. eexists. split; [exact Hr |].
  split; [rewrite Hc, Hl, length_replicate; reflexivity |].
  split.
  { rewrite Hl. apply Forall_forall. intros mp Hin.
    apply elem_of_replicate in Hin as [-> _]. reflexivity. }
  split.
  { rewrite Hc.
    pose proof (filter_take_length_bool
                  (Z.to_nat (if (pre_alloc_n0 =? 0)%Z then 1000%Z
                             else pre_alloc_n0)) creates) as Hle.
    unfold INT_MAX in Hpre.
    destruct (Z.eqb_spec pre_alloc_n0 0); lia. }
  rewrite Hm. destruct (Z.eqb_spec max_cache_n0 0); lia.
Qed.

Lemma agent_alloc_ok creates mpa :
  agent_ok mpa ->
  agent_ok (snd (fst (xm_mpool_agent_alloc creates mpa))) /\
  (forall mp, fst (fst (xm_mpool_agent_alloc creates mpa)) = Some mp ->
     pool_live mp = []).
Proof.
  intros (Hc & Hall & Hlt & Hmax). unfold xm_mpool_agent_alloc.
  destruct (cache_list mpa) as [| mp0 rest] eqn:Hl.
  - destruct (xm_pool_create creates (pool_size mpa)) as [mp creates']
      eqn:Hcr.
    cbn [fst snd]. split.
    + split; [rewrite Hl; exact Hc |]. rewrite Hl. auto.
    + intros mp' Heq. subst mp. unfold xm_pool_create in Hcr.
      destruct creates as [| [|] creates0]; try discriminate.
      injection Hcr as <- _. reflexivity.
  - cbn [fst snd]. apply Forall_cons in Hall as [Hmp0 Hrest].
    simpl in Hc. split.
    + split; [| split; [exact Hrest | split; [| exact Hmax]]];
        cbn [cur_cache_n cache_list]; unfold u64;
        rewrite Z.mod_small by lia; lia.
    + intros mp [= <-]. exact Hmp0.
Qed.

Lemma agent_free_ok mpa mp :
  agent_ok mpa -> agent_ok (xm_mpool_agent_free mpa mp).
Proof.
  intros (Hc & Hall & Hlt & Hmax). unfold xm_mpool_agent_free.
  destruct (Z.ltb_spec (cur_cache_n mpa) (max_cache_n mpa)) as [Hl | Hge];
    [| repeat split; assumption || lia].
  split; [| split; [| split]]; cbn [cur_cache_n cache_list max_cache_n].
  - unfold u64. rewrite Z.mod_small by lia. simpl. lia.
  - constructor; [reflexivity | exact Hall].
  - unfold u64. rewrite Z.mod_small by lia. lia.
  - exact Hmax.
Qed.

(** X18. The cache of the agent stays consistent: after
    [xm_mpool_agent_init] asked for a number of arenas in advance that
    an [int] can hold, and after every [xm_mpool_agent_alloc] and
    [xm_mpool_agent_free] from a consistent cache, the count is the
    number of arenas in the list and each of them is empty; an arena
    that [xm_mpool_agent_alloc] hands out is empty, whether it comes
    from the cache or was created. *)
Theorem agent_cache_consistent (creates : list bool)
    (max_cache_n0 pool_size0 pre_alloc_n0 : Z) (mpa : xm_mpool_agent_t)
    (mp : xm_pool_t) :
  (0 <= pre_alloc_n0 <= INT_MAX)%Z -> (0 <= max_cache_n0 < 2 ^ 64)%Z ->
  (exists mpa0 rest,
     xm_mpool_agent_init creates max_cache_n0 pool_size0 pre_alloc_n0 =
       Some (mpa0, rest) /\
     agent_ok mpa0) /\
  (agent_ok mpa ->
   agent_ok (snd (fst (xm_mpool_agent_alloc creates mpa))) /\
   (forall mp', fst (fst (xm_mpool_agent_alloc creates mpa)) = Some mp' ->
      pool_live mp' = []) /\
   agent_ok (xm_mpool_agent_free mpa mp)).
Proof.
  intros Hpre Hmax. split; [apply agent_init_ok; assumption |].
  intros Hok. destruct (agent_alloc_ok creates mpa Hok) as [Ha He].
  split; [exact Ha |]. split; [exact He |].
  apply agent_free_ok, Hok.
Qed.

Lemma agent_cache_consistent_witness :
  (0 <= 3 <= INT_MAX)%Z /\ (0 <= 2 < 2 ^ 64)%Z /\
  exists mpa0 rest,
    xm_mpool_agent_init [true; false; true] 2 512 3 = Some (mpa0, rest) /\
    agent_ok mpa0.
Proof.
  split; [unfold INT_MAX; lia |]. split; [lia |].
  apply (agent_cache_consistent [true; false; true] 2 512 3
           {| cache_list := []; max_cache_n := 1; cur_cache_n := 0;
              pool_size := 1; pre_alloc_n := 1 |}
           {| pool_block_size := 512; pool_live := [16%Z] |});
    unfold INT_MAX; lia.
Defined.

(** X19. An arena given to [xm_mpool_agent_free] while the cache of a
    consistent agent is below its maximum is reset and is the one the
    next [xm_mpool_agent_alloc] returns, without a call of
    [xm_pool_create], and the agent is then as before the two calls.
    When the cache is at its maximum, or above it, the arena is
    destroyed and the agent stays as it is. *)
Theorem agent_free_then_alloc (creates : list bool)
    (mpa : xm_mpool_agent_t) (mp : xm_pool_t) :
  agent_ok mpa ->
  ((cur_cache_n mpa < max_cache_n mpa)%Z ->
   xm_mpool_agent_alloc creates (xm_mpool_agent_free mpa mp) =
     (Some (xm_pool_reset mp), mpa, creates) /\
   pool_live (xm_pool_reset mp) = [] /\
   pool_block_size (xm_pool_reset mp) = pool_block_size mp) /\
  ((max_cache_n mpa <= cur_cache_n mpa)%Z ->
   xm_mpool_agent_free mpa mp = mpa).
Proof.
  intros (Hc & Hall & Hlt & Hmax). split.
  - intros Hl. split; [| split; reflexivity].
    unfold xm_mpool_agent_free.
    destruct (Z.ltb_spec (cur_cache_n mpa) (max_cache_n mpa)); [| lia].
    unfold xm_mpool_agent_alloc.
    cbn [cache_list max_cache_n cur_cache_n pool_size pre_alloc_n].
    assert (Hu : u64 (u64 (cur_cache_n mpa + 1) - 1) = cur_cache_n mpa).
    { unfold u64. rewrite (Z.mod_small (cur_cache_n mpa + 1)) by lia.
      rewrite Z.mod_small by lia. lia. }
    rewrite Hu. destruct mpa; reflexivity.
  - intros Hge. unfold xm_mpool_agent_free.
    destruct (Z.ltb_spec (cur_cache_n mpa) (max_cache_n mpa)); [lia |].
    reflexivity.
Qed.

Lemma agent_ok_example :
  agent_ok
    {| cache_list := [ {| pool_block_size := 512; pool_live := [] |} ];
       max_cache_n := 2; cur_cache_n := 1; pool_size := 512;
       pre_alloc_n := 1 |}.
Proof.
  split; [reflexivity |].
  split; [constructor; [reflexivity | constructor] |].
  cbn [cur_cache_n max_cache_n]. lia.
Qed.

Lemma agent_free_then_alloc_witness :
  agent_ok
    {| cache_list := [ {| pool_block_size := 512; pool_live := [] |} ];
       max_cache_n := 2; cur_cache_n := 1; pool_size := 512;
       pre_alloc_n := 1 |} /\
  (1 < 2)%Z /\
  xm_mpool_agent_alloc []
    (xm_mpool_agent_free
       {| cache_list := [ {| pool_block_size := 512; pool_live := [] |} ];
          max_cache_n := 2; cur_cache_n := 1; pool_size := 512;
          pre_alloc_n := 1 |}
       {| pool_block_size := 64; pool_live := [16%Z; 8%Z] |}) =
  (Some (xm_pool_reset {| pool_block_size := 64; pool_live := [16%Z; 8%Z] |}),
   {| cache_list := [ {| pool_block_size := 512; pool_live := [] |} ];
      max_cache_n := 2; cur_cache_n := 1; pool_size := 512;
      pre_alloc_n := 1 |}, []).
Proof.
  split; [exact agent_ok_example |]. split; [lia |].
  apply (agent_free_then_alloc []
           {| cache_list := [ {| pool_block_size := 512; pool_live := [] |} ];
              max_cache_n := 2; cur_cache_n := 1; pool_size := 512;
              pre_alloc_n := 1 |}
           {| pool_block_size := 64; pool_live := [16%Z; 8%Z] |}).
  - exact agent_ok_example.
  - cbn [cur_cache_n max_cache_n]. lia.
Defined.

(** A worked case: the agent of the lemma above is the one
    [xm_mpool_agent_init] leaves, and an arena freed into it comes back
    empty from the next allocation. *)
Example agent_round_trip_example :
  xm_mpool_agent_init [true] 2 512 1 =
    Some ({| cache_list := [ {| pool_block_size := 512; pool_live := [] |} ];
             max_cache_n := 2; cur_cache_n := 1; pool_size := 512;
             pre_alloc_n := 1 |}, []) /\
  xm_mpool_agent_alloc []
    (xm_mpool_agent_free
       {| cache_list := [ {| pool_block_size := 512; pool_live := [] |} ];
          max_cache_n := 2; cur_cache_n := 1; pool_size := 512;
          pre_alloc_n := 1 |}
       {| pool_block_size := 64; pool_live := [16%Z; 8%Z] |}) =
  (Some {| pool_block_size := 64; pool_live := [] |},
   {| cache_list := [ {| pool_block_size := 512; pool_live := [] |} ];
      max_cache_n := 2; cur_cache_n := 1; pool_size := 512;
      pre_alloc_n := 1 |}, []).
Proof. split; reflexivity. Qed.

(** ** How the operations on one key compose *)

Lemma filter_neg_idem (p : xm_table_entry_t -> bool) l :
  List.filter (fun e => negb (p e)) (List.filter (fun e => negb (p e)) l) =
  List.filter (fun e => negb (p e)) l.
Proof.
  induction l as [| e l IH]; simpl; [reflexivity |].
  destruct (p e) eqn:Ep; simpl; [exact IH |].
  rewrite Ep. simpl. f_equal. exact IH.
Qed.

Lemma set_elts_twice checksum K V1 V2 l :
  set_elts checksum K V2 (set_elts checksum K V1 l) =
  set_elts checksum K V2 l.
Proof.
  induction l as [| e l IH]; simpl.
  - unfold key_is. simpl. rewrite strcasecmp_refl. reflexivity.
  - destruct (key_is K e) eqn:EK; simpl.
    + rewrite key_is_with_val, EK, filter_neg_idem. reflexivity.
    + rewrite EK. f_equal. exact IH.
Qed.

Lemma merge_elts_rest checksum K V l :
  List.filter (fun e => negb (key_is K e)) (merge_elts checksum K V l) =
  List.filter (fun e => negb (key_is K e)) l.
Proof.
  induction l as [| e l IH]; simpl.
  - unfold key_is. simpl. rewrite strcasecmp_refl. reflexivity.
  - destruct (key_is K e) eqn:EK; simpl.
    + rewrite key_is_with_val, EK. reflexivity.
    + rewrite EK. simpl. f_equal. exact IH.
Qed.

(** X20. On a table that satisfies the invariant, the operations on one
    key compose as follows.  Of two [xm_table_set] in a row only the
    second counts; [xm_table_unset] after [xm_table_add],
    [xm_table_set] or [xm_table_merge] of the key leaves the entries
    that [xm_table_unset] alone leaves, which are all the entries when
    the key was not in the table; a second [xm_table_unset] changes
    nothing. *)
Theorem same_key_compositions `{Target} (t : xm_table_t) (K V1 V2 : string) :
  table_ok t ->
  a_elts (xm_table_set (xm_table_set t K V1) K V2) =
    a_elts (xm_table_set t K V2) /\
  a_elts (xm_table_unset (xm_table_add t K V1) K) =
    a_elts (xm_table_unset t K) /\
  a_elts (xm_table_unset (xm_table_set t K V1) K) =
    a_elts (xm_table_unset t K) /\
  a_elts (xm_table_unset (xm_table_merge t K V1) K) =
    a_elts (xm_table_unset t K) /\
  a_elts (xm_table_unset (xm_table_unset t K) K) =
    a_elts (xm_table_unset t K) /\
  (xm_table_get t (Some K) = None ->
   a_elts (xm_table_unset (xm_table_add t K V1) K) = a_elts t).
Proof.
  intros Hok.
  destruct (xm_table_set_spec t K V1 Hok) as [Hs1 Hoks1].
  destruct (xm_table_set_spec t K V2 Hok) as [Hs2 _].
  destruct (xm_table_set_spec _ K V2 Hoks1) as [Hs12 _].
  destruct (xm_table_unset_spec t K Hok) as [Hu Hoku].
  pose proof (xm_table_add_ok t K V1 Hok) as Hoka.
  pose proof (xm_table_merge_ok t K V1 Hok) as Hokm.
  assert (Hua : a_elts (xm_table_unset (xm_table_add t K V1) K) =
                a_elts (xm_table_unset t K)).
  { rewrite (proj1 (xm_table_unset_spec _ K Hoka)), xm_table_add_elts, Hu.
    rewrite List.filter_app. simpl. unfold key_is at 2. simpl.
    rewrite strcasecmp_refl. simpl. apply app_nil_r. }
  split; [rewrite Hs12, Hs1, Hs2; apply set_elts_twice |].
  split; [exact Hua |].
  split.
  { rewrite (proj1 (xm_table_unset_spec _ K Hoks1)), Hs1, Hu.
    apply set_elts_rest. }
  split.
  { rewrite (proj1 (xm_table_unset_spec _ K Hokm)),
      (xm_table_merge_elts t K V1 Hok), Hu.
    apply merge_elts_rest. }
  split.
  { rewrite (proj1 (xm_table_unset_spec _ K Hoku)), Hu.
    apply filter_neg_idem. }
  intros Hnone. rewrite Hua, Hu.
  apply filter_neg_all, head_filter_None.
  rewrite (xm_table_get_spec t K Hok) in Hnone.
  destruct (head (List.filter (key_is K) (a_elts t))); [discriminate |].
  reflexivity.
Qed.

Lemma same_key_compositions_witness :
  @table_ok x86_64 (@run_ops x86_64 [OpAdd "Via" "b"; OpAdd "Age" "1"]) /\
  a_elts (@xm_table_set x86_64
            (@xm_table_set x86_64
               (@run_ops x86_64 [OpAdd "Via" "b"; OpAdd "Age" "1"])
               "via" "c") "via" "d") =
  a_elts (@xm_table_set x86_64
            (@run_ops x86_64 [OpAdd "Via" "b"; OpAdd "Age" "1"])
            "via" "d").
Proof.
  split; [apply run_ops_ok |].
  apply (@same_key_compositions x86_64
           (@run_ops x86_64 [OpAdd "Via" "b"; OpAdd "Age" "1"])
           "via" "c" "d").
  apply run_ops_ok.
Defined.

(** A worked case: a key that is added and then unset leaves the table
    as it was. *)
Example add_unset_example :
  a_elts (@xm_table_unset x86_64
            (@xm_table_add x86_64
               (@run_ops x86_64 [OpAdd "Via" "b"; OpAdd "Age" "1"])
               "Host" "h") "HOST") =
  a_elts (@run_ops x86_64 [OpAdd "Via" "b"; OpAdd "Age" "1"]).
Proof. reflexivity. Qed.

(** ** The index is exact *)

Lemma index_tight_nil first last : index_tight [] 0 first last.
Proof.
  intros h _ Hb. rewrite index_is_initialized_0 in Hb. discriminate.
Qed.

Lemma index_tight_push elts init first last e :
  index_ok elts init first last ->
  index_tight elts init first last ->
  index_tight (elts ++ [e])
    (if index_is_initialized init (entry_hash e) then init
     else index_set_initialized init (entry_hash e))
    (if index_is_initialized init (entry_hash e) then first
     else <[entry_hash e := length elts]> first)
    (<[entry_hash e := length elts]> last).
Proof.
  intros (Hlf & Hll & _ & _) Ht h' Hh' Hb.
  pose proof (TABLE_HASH_lt (deref (key e))) as Hh.
  fold (entry_hash e) in Hh. remember (entry_hash e) as h eqn:Hhdef.
  assert (Hnew : (elts ++ [e]) !! length elts = Some e)
    by (apply list_lookup_middle; reflexivity).
  destruct (decide (h' = h)) as [-> | Hne].
  - rewrite list_lookup_total_insert_eq by lia.
    split; [| exists e; split; [exact Hnew | auto]].
    destruct (index_is_initialized init h) eqn:Eb.
    + destruct (Ht h Hh Eb) as [(e0 & He0 & Hh0) _].
      exists e0. split; [| exact Hh0].
      apply lookup_app_l_Some, He0.
    + rewrite list_lookup_total_insert_eq by lia.
      exists e. split; [exact Hnew | auto].
  - rewrite list_lookup_total_insert_ne by congruence.
    assert (Hb' : index_is_initialized init h' = true).
    { destruct (index_is_initialized init h) eqn:Eb; [exact Hb |].
      rewrite index_is_initialized_set in Hb.
      rewrite bool_decide_false in Hb by congruence. exact Hb. }
    assert (Hf : (if index_is_initialized init h then first
                  else <[h := length elts]> first) !!! h' = first !!! h').
    { destruct (index_is_initialized init h); [reflexivity |].
      apply list_lookup_total_insert_ne. congruence. }
    rewrite Hf.
    destruct (Ht h' Hh' Hb') as [(e1 & He1 & Hh1) (e2 & He2 & Hh2)].
    split; [exists e1 | exists e2]; (split; [| assumption]);
      apply lookup_app_l_Some; assumption.
Qed.

Lemma index_tight_same_hashes elts elts' init first last :
  map entry_hash elts' = map entry_hash elts ->
  index_tight elts init first last -> index_tight elts' init first last.
Proof.
  intros Hmap Ht h Hh Hb.
  assert (Hback : forall i e, elts !! i = Some e ->
            exists e', elts' !! i = Some e' /\ entry_hash e' = entry_hash e).
  { intros i e He.
    assert (Hl : map entry_hash elts !! i = Some (entry_hash e))
      by (rewrite list_lookup_fmap, He; reflexivity).
    rewrite <- Hmap, list_lookup_fmap in Hl.
    destruct (elts' !! i) as [e' |]; [| discriminate].
    injection Hl as Hl. exists e'. split; [reflexivity | exact Hl]. }
  destruct (Ht h Hh Hb) as [(e1 & He1 & Hh1) (e2 & He2 & Hh2)].
  destruct (Hback _ _ He1) as (e1' & He1' & Hh1').
  destruct (Hback _ _ He2) as (e2' & He2' & Hh2').
  split; [exists e1' | exists e2']; (split; [assumption | congruence]).
Qed.

Lemma reindex_loop_tight rest :
  forall done init first last,
  index_ok done init first last ->
  index_tight done init first last ->
  forall init' first' last',
  reindex_loop rest (length done) init first last = (init', first', last') ->
  index_tight (done ++ rest) init' first' last'.
Proof.
  induction rest as [| e rest IH]; intros done init first last Hok Ht
    init' first' last' Hr; simpl in Hr.
  - injection Hr as <- <- <-. rewrite app_nil_r. exact Ht.
  - pose proof (index_ok_push _ _ _ _ e Hok) as Hpush.
    pose proof (index_tight_push _ _ _ _ e Hok Ht) as Htp.
    unfold entry_hash in Hpush, Htp.
    replace (done ++ e :: rest) with ((done ++ [e]) ++ rest)
      by (rewrite <- app_assoc; reflexivity).
    destruct (index_is_initialized init (TABLE_HASH (deref (key e)))) eqn:Eb;
      simpl negb in Hr; cbv iota in Hr;
      (eapply IH; [exact Hpush | exact Htp |]);
      rewrite length_app; simpl; rewrite Nat.add_1_r; exact Hr.
Qed.

Lemma table_reindex_tight elts t :
  length (index_first t) = TABLE_HASH_SIZE ->
  length (index_last t) = TABLE_HASH_SIZE ->
  index_tight (a_elts (table_reindex elts t))
    (index_initialized (table_reindex elts t))
    (index_first (table_reindex elts t))
    (index_last (table_reindex elts t)).
Proof.
  intros Hf Hl. unfold table_reindex.
  destruct (reindex_loop elts 0 0 (index_first t) (index_last t))
    as [[init first] last] eqn:Hr. simpl.
  exact (reindex_loop_tight elts [] 0 _ _ (index_ok_nil _ _ Hf Hl)
           (index_tight_nil _ _) _ _ _ Hr).
Qed.

Lemma table_tight_exact `{Target} t : table_tight t -> index_exact t.
Proof.
  intros [[_ (_ & _ & Hin & _)] Ht] h Hh.
  unfold TABLE_INDEX_IS_INITIALIZED. split.
  - split.
    + intros Hb. destruct (Ht h Hh Hb) as [(e & He & Hhe) _]. eauto.
    + intros (i & e & He & <-). apply (Hin i e He).
  - intros Hb. destruct (Ht h Hh Hb) as [H1 H2].
    split; [exact H1 |]. split; [exact H2 |].
    intros i e He <-. apply (Hin i e He).
Qed.

Lemma xm_table_make_tight `{Target} : table_tight xm_table_make.
Proof. split; [apply xm_table_make_ok | apply index_tight_nil]. Qed.

Lemma xm_table_add_tight `{Target} t k v :
  table_tight t -> table_tight (xm_table_add t k v).
Proof.
  intros [Hok Ht]. split; [apply xm_table_add_ok, Hok |].
  destruct Hok as [_ Hidx].
  pose proof (index_tight_push _ _ _ _
    {| key := Some (xm_pstrdup k); val := xm_pstrdup v;
       key_checksum := COMPUTE_KEY_CHECKSUM k |} Hidx Ht) as Hpush.
  change (entry_hash _) with (TABLE_HASH k) in Hpush.
  unfold xm_table_add, TABLE_INDEX_IS_INITIALIZED.
  destruct (index_is_initialized (index_initialized t) (TABLE_HASH k));
    simpl negb; cbv iota; exact Hpush.
Qed.

Lemma xm_table_set_tight `{Target} t k v :
  table_tight t -> table_tight (xm_table_set t k v).
Proof.
  intros [Hok Ht]. split; [apply xm_table_set_spec, Hok |].
  pose proof Hok as [Hall Hidx].
  pose proof (table_ok_lengths t Hok) as [Hlf Hll].
  pose proof (index_tight_push _ _ _ _
    {| key := Some (xm_pstrdup k); val := xm_pstrdup v;
       key_checksum := COMPUTE_KEY_CHECKSUM k |} Hidx Ht) as Hpush.
  change (entry_hash _) with (TABLE_HASH k) in Hpush.
  unfold xm_table_set.
  destruct (key_cases t k Hok) as
    [[Hno [Hb | (Hb & _ & Hscan)]] |
     (Hb & m & e & Hm & Hml & Hl & He & Hp & Hk & Hscan & Hpre & Hpost)];
    rewrite Hb; simpl negb; cbv iota.
  - unfold TABLE_INDEX_IS_INITIALIZED in Hb. rewrite Hb in Hpush.
    exact Hpush.
  - rewrite (set_loop_none t _ _ _ _ _ _ Hscan).
    unfold TABLE_INDEX_IS_INITIALIZED in Hb. rewrite Hb in Hpush.
    exact Hpush.
  - rewrite (set_loop_found t _ _ _ _ _ _ m e Hm He Hp Hscan).
    destruct (set_found_spec t (COMPUTE_KEY_CHECKSUM k) k v m e
                (index_last t !!! TABLE_HASH k) He Hml)
      as [[_ Hs] | [_ Hs]]; [unfold a_nelts in *; lia | |]; rewrite Hs.
    + simpl. eapply index_tight_same_hashes; [| exact Ht].
      rewrite list_fmap_insert. apply list_insert_id.
      rewrite list_lookup_fmap, He. reflexivity.
    + apply table_reindex_tight; assumption.
Qed.

Lemma xm_table_merge_tight `{Target} t k v :
  table_tight t -> table_tight (xm_table_merge t k v).
Proof.
  intros [Hok Ht]. split; [apply xm_table_merge_ok, Hok |].
  pose proof Hok as [Hall Hidx].
  pose proof (index_tight_push _ _ _ _
    {| key := Some (xm_pstrdup k); val := xm_pstrdup v;
       key_checksum := COMPUTE_KEY_CHECKSUM k |} Hidx Ht) as Hpush.
  change (entry_hash _) with (TABLE_HASH k) in Hpush.
  unfold xm_table_merge.
  destruct (key_cases t k Hok) as
    [[Hno [Hb | (Hb & _ & Hscan)]] |
     (Hb & m & e & Hm & Hml & Hl & He & Hp & Hk & Hscan & Hpre & Hpost)];
    rewrite Hb; simpl negb; cbv iota.
  - unfold TABLE_INDEX_IS_INITIALIZED in Hb. rewrite Hb in Hpush.
    exact Hpush.
  - rewrite (merge_loop_none t _ _ _ _ _ Hscan).
    unfold TABLE_INDEX_IS_INITIALIZED in Hb. rewrite Hb in Hpush.
    exact Hpush.
  - rewrite (merge_loop_found t _ _ _ _ _ m e Hm He Hp Hscan). simpl.
    eapply index_tight_same_hashes; [| exact Ht].
    rewrite list_fmap_insert. apply list_insert_id.
    rewrite list_lookup_fmap, He. reflexivity.
Qed.

Lemma xm_table_unset_tight `{Target} t k :
  table_tight t -> table_tight (xm_table_unset t k).
Proof.
  intros [Hok Ht]. split; [apply xm_table_unset_spec, Hok |].
  pose proof (table_ok_lengths t Hok) as [Hlf Hll].
  unfold xm_table_unset.
  destruct (key_cases t k Hok) as
    [[Hno [Hb | (Hb & _ & Hscan)]] |
     (Hb & m & e & Hm & Hml & Hl & He & Hp & Hk & Hscan & Hpre & Hpost)];
    rewrite Hb; simpl negb; cbv iota.
  - exact Ht.
  - rewrite (unset_loop_none t _ _ _ _ _ Hscan). exact Ht.
  - rewrite (unset_loop_found t _ _ _ _ _ m e Hm He Hp Hscan).
    rewrite (unset_found_spec t _ k m e _ He Hml)
      by (unfold a_nelts in *; lia).
    apply table_reindex_tight; assumption.
Qed.

Lemma run_ops_tight `{Target} ops : table_tight (run_ops ops).
Proof.
  unfold run_ops. generalize xm_table_make_tight.
  generalize xm_table_make.
  induction ops as [| op ops IH]; intros t Hok; simpl; [exact Hok |].
  apply IH. destruct op as [k v | k v | k v | k]; simpl.
  - apply xm_table_add_tight, Hok.
  - apply xm_table_set_tight, Hok.
  - apply xm_table_merge_tight, Hok.
  - apply xm_table_unset_tight, Hok.
Qed.

Lemma xm_table_clear_tight `{Target} t :
  table_ok t -> table_tight (xm_table_clear t).
Proof.
  intros Hok. destruct (table_ok_lengths t Hok) as [Hf Hl].
  split; [| apply index_tight_nil].
  split; simpl; [constructor | apply index_ok_nil; assumption].
Qed.

Lemma xm_table_compress_tight `{Target} t flags :
  table_tight t -> table_tight (xm_table_compress t flags).
Proof.
  intros [Hok Ht]. split; [apply xm_table_compress_ok, Hok |].
  pose proof (table_ok_lengths t Hok) as [Hlf Hll].
  unfold xm_table_compress.
  destruct (a_nelts t <=? 1); [exact Ht |].
  destruct (dedup_loop _ _ _ _ _ _ _ _) as [arr dups_found].
  apply table_reindex_tight; assumption.
Qed.

Lemma xm_table_overlay_tight `{Target} overlay base :
  table_ok overlay -> table_ok base ->
  table_tight (xm_table_overlay overlay base).
Proof.
  intros [Ho _] [Hb _]. unfold xm_table_overlay. split.
  - apply table_reindex_ok; [reflexivity | reflexivity |].
    apply Forall_app; split; assumption.
  - apply table_reindex_tight; reflexivity.
Qed.

Lemma xm_table_cat_tight `{Target} t s :
  table_tight t -> table_tight s -> table_tight (xm_table_cat t s).
Proof.
  intros [Hokt Htt] [Hoks Hts].
  split; [apply xm_table_cat_ok; assumption |].
  pose proof Hokt as [_ (Hft & Hlt & Hint & Hbdt)].
  pose proof Hoks as [_ (Hfs & Hls & Hins & Hbds)].
  unfold xm_table_cat. destruct (Nat.eqb_spec (a_nelts t) 0) as [Hn | Hn].
  - apply nil_length_inv in Hn. rewrite Hn. simpl. exact Hts.
  - destruct (cat_index_loop_spec t s (a_nelts t) TABLE_HASH_SIZE 0
                (index_first t) (index_last t) Hft Hlt ltac:(lia))
      as (first' & last' & Hr & Hf' & Hl' & Hval).
    rewrite Hr. simpl. intros h Hh.
    destruct (Hval h Hh) as [Hvf Hvl].
    rewrite bool_decide_true in Hvf, Hvl by lia. simpl in Hvf, Hvl.
    rewrite Hvf, Hvl. clear Hval Hr Hvf Hvl.
    unfold TABLE_INDEX_IS_INITIALIZED, a_nelts.
    rewrite index_is_initialized_lor.
    assert (Hshift : forall i e, a_elts s !! i = Some e ->
              (a_elts t ++ a_elts s) !! (i + length (a_elts t)) = Some e).
    { intros i e He. rewrite lookup_app_r by lia.
      replace (i + length (a_elts t) - length (a_elts t)) with i by lia.
      exact He. }
    destruct (index_is_initialized (index_initialized s) h) eqn:Ebs;
      destruct (index_is_initialized (index_initialized t) h) eqn:Ebt;
      simpl; intros Hb; try discriminate.
    + destruct (Htt h Hh Ebt) as [(e1 & He1 & Hh1) _].
      destruct (Hts h Hh Ebs) as [_ (e2 & He2 & Hh2)].
      split; [exists e1 | exists e2]; (split; [| assumption]);
        [apply lookup_app_l_Some; assumption | apply Hshift; assumption].
    + destruct (Hts h Hh Ebs) as [(e1 & He1 & Hh1) (e2 & He2 & Hh2)].
      split; [exists e1 | exists e2]; (split; [| assumption]);
        apply Hshift; assumption.
    + destruct (Htt h Hh Ebt) as [(e1 & He1 & Hh1) (e2 & He2 & Hh2)].
      split; [exists e1 | exists e2]; (split; [| assumption]);
        apply lookup_app_l_Some; assumption.
Qed.

(** X21. The index is what the comment in [struct xm_table_t] says it
    is.  In every table built from [xm_table_make] by [xm_table_add],
    [xm_table_set], [xm_table_merge] and [xm_table_unset], the bit of a
    bucket is set if and only if some entry hashes to it, and then
    [index_first] and [index_last] are the positions of the first and
    of the last entry of the bucket.  [xm_table_clear],
    [xm_table_compress], [xm_table_cat] and [xm_table_overlay] keep the
    index exact. *)
Theorem index_is_exact `{Target} (ops ops' : list table_op) (flags : Z) :
  index_exact (run_ops ops) /\
  index_exact (xm_table_clear (run_ops ops)) /\
  index_exact (xm_table_compress (run_ops ops) flags) /\
  index_exact (xm_table_cat (run_ops ops) (run_ops ops')) /\
  index_exact (xm_table_overlay (run_ops ops) (run_ops ops')) /\
  index_exact (xm_table_overlap (run_ops ops) (run_ops ops') flags).
Proof.
  pose proof (run_ops_tight ops) as Hto.
  pose proof (run_ops_tight ops') as Hto'.
  split; [apply table_tight_exact, Hto |].
  split; [apply table_tight_exact, xm_table_clear_tight, run_ops_ok |].
  split; [apply table_tight_exact, xm_table_compress_tight, Hto |].
  split; [apply table_tight_exact, xm_table_cat_tight; assumption |].
  split; [apply table_tight_exact, xm_table_overlay_tight; apply run_ops_ok |].
  apply table_tight_exact. unfold xm_table_overlap.
  destruct (_ =? 0); [exact Hto |].
  apply xm_table_compress_tight, xm_table_cat_tight; assumption.
Qed.

(** A worked case: after the first of two entries of a bucket is unset,
    the range of the bucket has closed on the one that is left. *)
Example index_exact_example :
  let t := @run_ops x86_64
             [OpAdd "Host" "a"; OpAdd "Age" "1"; OpAdd "Hop" "b";
              OpUnset "host"] in
  @TABLE_HASH "Hop" = 8 /\
  TABLE_INDEX_IS_INITIALIZED t 8 = true /\
  index_first t !!! 8 = 1 /\ index_last t !!! 8 = 1 /\
  key <$> a_elts t !! 1 = Some (Some "Hop").
Proof. repeat split; reflexivity. Qed.

(** ** What the bucket and the checksum of a key depend on *)

Lemma checksum_prefix `{Target} k1 k2 :
  (forall i, i < 4 -> tolower (key_byte k1 i) = tolower (key_byte k2 i)) ->
  COMPUTE_KEY_CHECKSUM k1 = COMPUTE_KEY_CHECKSUM k2.
Proof.
  intros Hb. rewrite !COMPUTE_KEY_CHECKSUM_parts.
  rewrite (checksum_part_tolower 24 (key_byte k1 0) (key_byte k2 0));
    [| simpl; tauto | apply Hb; lia].
  rewrite (checksum_part_tolower 16 (key_byte k1 1) (key_byte k2 1));
    [| simpl; tauto | apply Hb; lia].
  rewrite (checksum_part_tolower 8 (key_byte k1 2) (key_byte k2 2));
    [| simpl; tauto | apply Hb; lia].
  rewrite (checksum_part_tolower 0 (key_byte k1 3) (key_byte k2 3));
    [| simpl; tauto | apply Hb; lia].
  reflexivity.
Qed.

Lemma checksum_ascii k :
  (forall i, i < 4 -> (key_byte k i < 128)%Z) ->
  @COMPUTE_KEY_CHECKSUM x86_64 k = @COMPUTE_KEY_CHECKSUM aarch64 k.
Proof.
  intros Hb. rewrite !COMPUTE_KEY_CHECKSUM_parts.
  assert (Hp : forall s i, i < 4 ->
            @checksum_part x86_64 s (key_byte k i) =
            @checksum_part aarch64 s (key_byte k i)).
  { intros s i Hi. unfold checksum_part, char_to_u32. simpl.
    specialize (Hb i Hi).
    destruct (Z.leb_spec 128 (key_byte k i)); [lia | reflexivity]. }
  rewrite !Hp by lia. reflexivity.
Qed.

(** X22. The bucket of a key is below [TABLE_HASH_SIZE] and comes from
    its first byte alone, whatever its case, so keys equal under
    [strcasecmp] share their bucket.  The checksum comes from the first
    four bytes alone, whatever their case: two keys that agree there
    have one checksum however they go on, so the checksum test can let a
    different key through and the [strcasecmp] that follows it is what
    decides.  Where these four bytes are below 128 the checksum is the
    same whether plain [char] is signed or not. *)
Theorem bucket_and_checksum_prefix `{Target} (k1 k2 : string) :
  TABLE_HASH k1 < TABLE_HASH_SIZE /\
  (tolower (hd_byte k1) = tolower (hd_byte k2) ->
   TABLE_HASH k1 = TABLE_HASH k2) /\
  (strcasecmp k1 k2 = 0%Z -> TABLE_HASH k1 = TABLE_HASH k2) /\
  ((forall i, i < 4 -> tolower (key_byte k1 i) = tolower (key_byte k2 i)) ->
   COMPUTE_KEY_CHECKSUM k1 = COMPUTE_KEY_CHECKSUM k2) /\
  ((forall i, i < 4 -> (key_byte k1 i < 128)%Z) ->
   @COMPUTE_KEY_CHECKSUM x86_64 k1 = @COMPUTE_KEY_CHECKSUM aarch64 k1).
Proof.
  split; [apply TABLE_HASH_lt |].
  split; [intros Hb; unfold TABLE_HASH; f_equal; apply hash_tolower, Hb |].
  split; [apply strcasecmp_hash |].
  split; [apply checksum_prefix | apply checksum_ascii].
Qed.

(** A worked case: two different keys with one checksum, and a key
    whose checksum depends on the signedness of [char]. *)
Example checksum_collision_example :
  @COMPUTE_KEY_CHECKSUM x86_64 "Content-Type" =
    @COMPUTE_KEY_CHECKSUM x86_64 "content-length" /\
  strcasecmp "Content-Type" "content-length" <> 0%Z /\
  @COMPUTE_KEY_CHECKSUM x86_64 (String (Ascii.ascii_of_nat 116)
     (String (Ascii.ascii_of_nat 233) EmptyString)) <>
  @COMPUTE_KEY_CHECKSUM aarch64 (String (Ascii.ascii_of_nat 116)
     (String (Ascii.ascii_of_nat 233) EmptyString)).
Proof.
  split; [reflexivity |]. split; vm_compute; discriminate.
Qed.

(** ** [strcasecmp] as an order *)

Lemma tolower_nonneg c : (0 <= c)%Z -> (0 <= tolower c)%Z.
Proof.
  unfold tolower. intros Hc. destruct ((65 <=? c)%Z && (c <=? 90)%Z); lia.
Qed.

Lemma strcasecmp_unfold k1 k2 :
  strcasecmp k1 k2 =
  (let c1 := tolower (hd_byte k1) in
   let c2 := tolower (hd_byte k2) in
   if negb (c1 =? c2) then c1 - c2
   else if c1 =? 0 then 0 else strcasecmp (tl_str k1) (tl_str k2))%Z.
Proof.
  destruct k1 as [| a r1]; [| reflexivity]. simpl.
  destruct (tolower (hd_byte k2)); reflexivity.
Qed.

Lemma strcasecmp_order k1 :
  forall k2 k3,
  ((strcasecmp k1 k2 <= 0)%Z -> (strcasecmp k2 k3 <= 0)%Z ->
   (strcasecmp k1 k3 <= 0)%Z) /\
  ((strcasecmp k1 k2 < 0)%Z -> (strcasecmp k2 k3 <= 0)%Z ->
   (strcasecmp k1 k3 < 0)%Z) /\
  ((strcasecmp k1 k2 <= 0)%Z -> (strcasecmp k2 k3 < 0)%Z ->
   (strcasecmp k1 k3 < 0)%Z).
Proof.
  induction k1 as [| a r1 IH]; intros k2 k3.
  - rewrite (strcasecmp_unfold EmptyString k2),
      (strcasecmp_unfold EmptyString k3), (strcasecmp_unfold k2 k3).
    cbv zeta. simpl hd_byte. change (tolower 0) with 0%Z.
    change (0 =? 0)%Z with true. cbv iota.
    pose proof (tolower_nonneg _ (proj1 (hd_byte_range k2))) as H2.
    pose proof (tolower_nonneg _ (proj1 (hd_byte_range k3))) as H3.
    destruct (Z.eqb_spec 0 (tolower (hd_byte k2)));
      destruct (Z.eqb_spec 0 (tolower (hd_byte k3)));
      destruct (Z.eqb_spec (tolower (hd_byte k2)) (tolower (hd_byte k3)));
      destruct (Z.eqb_spec (tolower (hd_byte k2)) 0);
      simpl negb; cbv iota; lia.
  - rewrite (strcasecmp_unfold (String a r1) k2),
      (strcasecmp_unfold (String a r1) k3), (strcasecmp_unfold k2 k3).
    cbv zeta. simpl hd_byte. simpl tl_str.
    specialize (IH (tl_str k2) (tl_str k3)).
    destruct (Z.eqb_spec (tolower (byte_of a)) (tolower (hd_byte k2)));
      destruct (Z.eqb_spec (tolower (byte_of a)) (tolower (hd_byte k3)));
      destruct (Z.eqb_spec (tolower (hd_byte k2)) (tolower (hd_byte k3)));
      destruct (Z.eqb_spec (tolower (byte_of a)) 0);
      destruct (Z.eqb_spec (tolower (hd_byte k2)) 0);
      simpl negb; cbv iota; try lia; try exact IH.
Qed.

Lemma sorted_before_trans arr x y z :
  sorted_before arr x y -> sorted_before arr y z -> sorted_before arr x z.
Proof.
  unfold sorted_before.
  destruct (strcasecmp_order (key_at arr x) (key_at arr y) (key_at arr z))
    as (Hle & Hlt1 & Hlt2).
  intros [H1 | [H1 L1]] [H2 | [H2 L2]].
  - left. apply Hlt1; lia.
  - left. apply Hlt1; lia.
  - left. apply Hlt2; lia.
  - right. split; [| lia].
    apply (strcasecmp_trans _ _ _ H1 H2).
Qed.

(** ** [table_mergesort] *)

Lemma merge_blocks_nil_r arr b1 : merge_blocks arr b1 [] = b1.
Proof. destruct b1; reflexivity. Qed.

Lemma merge_blocks_cons arr x b1 y b2 :
  merge_blocks arr (x :: b1) (y :: b2) =
  if (strcasecmp (key_at arr x) (key_at arr y) >? 0)%Z
  then y :: merge_blocks arr (x :: b1) b2
  else x :: merge_blocks arr b1 (y :: b2).
Proof. reflexivity. Qed.

Lemma merge_blocks_perm arr b1 :
  forall b2, Permutation (merge_blocks arr b1 b2) (b1 ++ b2).
Proof.
  induction b1 as [| x b1 IH1]; intros b2; [reflexivity |].
  induction b2 as [| y b2 IH2].
  - rewrite merge_blocks_nil_r, app_nil_r. reflexivity.
  - rewrite merge_blocks_cons.
    destruct (strcasecmp (key_at arr x) (key_at arr y) >? 0)%Z.
    + rewrite IH2. apply Permutation_middle.
    + rewrite IH1. reflexivity.
Qed.

Lemma sorted_by_Forall_perm (R : nat -> nat -> Prop) x l l' :
  Permutation l l' -> Forall (R x) l' -> Forall (R x) l.
Proof. intros Hp Hl. rewrite Hp. exact Hl. Qed.

Lemma merge_blocks_sorted arr b1 :
  forall b2,
  sorted_by (sorted_before arr) b1 -> sorted_by (sorted_before arr) b2 ->
  (forall x y, x ∈ b1 -> y ∈ b2 -> x < y) ->
  sorted_by (sorted_before arr) (merge_blocks arr b1 b2).
Proof.
  induction b1 as [| x b1 IH1]; intros b2 H1 H2 Hlt; [exact H2 |].
  induction b2 as [| y b2 IH2].
  - rewrite merge_blocks_nil_r. exact H1.
  - rewrite merge_blocks_cons.
    destruct H1 as [Hx H1]. destruct H2 as [Hy H2].
    assert (Hxy : x < y) by (apply Hlt; constructor).
    destruct (Z.gtb_spec (strcasecmp (key_at arr x) (key_at arr y)) 0)
      as [Hgt | Hle].
    + assert (Hyx : sorted_before arr y x).
      { left. rewrite strcasecmp_antisym. lia. }
      split.
      * eapply sorted_by_Forall_perm; [apply merge_blocks_perm |].
        apply Forall_app. split; [| exact Hy].
        constructor; [exact Hyx |].
        eapply Forall_impl; [exact Hx |].
        intros z Hz. exact (sorted_before_trans _ _ _ _ Hyx Hz).
      * apply IH2; [exact H2 |].
        intros x' y' Hx' Hy'. apply Hlt; [exact Hx' |].
        constructor. exact Hy'.
    + assert (Hxy' : sorted_before arr x y).
      { unfold sorted_before.
        destruct (Z.eq_dec (strcasecmp (key_at arr x) (key_at arr y)) 0%Z);
          [right; split; assumption | left; lia]. }
      split.
      * eapply sorted_by_Forall_perm; [apply merge_blocks_perm |].
        apply Forall_app. split; [exact Hx |].
        constructor; [exact Hxy' |].
        eapply Forall_impl; [exact Hy |].
        intros z Hz. exact (sorted_before_trans _ _ _ _ Hxy' Hz).
      * apply IH1; [exact H1 | split; assumption |].
        intros x' y' Hx' Hy'. apply Hlt; [| exact Hy'].
        constructor. exact Hx'.
Qed.

Lemma sort_pairs_blocks arr n :
  forall s,
  blocks arr 2 s (sort_pairs arr (seq s n)) /\
  length (sort_pairs arr (seq s n)) = n.
Proof.
  induction n as [n IH] using lt_wf_ind. intros s.
  destruct n as [| [| n]].
  - split; [constructor | reflexivity].
  - split; [| reflexivity]. simpl. apply blocks_last.
    + discriminate.
    + simpl. lia.
    + split; constructor.
    + reflexivity.
  - destruct (IH n ltac:(lia) (S (S s))) as [Hb Hl].
    cbn [seq sort_pairs].
    destruct (Z.gtb_spec (strcasecmp (key_at arr s) (key_at arr (S s))) 0)
      as [Hgt | Hle].
    + split; [| simpl; rewrite Hl; reflexivity].
      apply (blocks_cons arr 2 s [S s; s]); [reflexivity | | |
        replace (s + 2) with (S (S s)) by lia; exact Hb].
      * split; [| split; constructor].
        constructor; [| constructor].
        left. rewrite strcasecmp_antisym. lia.
      * apply perm_swap.
    + split; [| simpl; rewrite Hl; reflexivity].
      apply (blocks_cons arr 2 s [s; S s]); [reflexivity | | |
        replace (s + 2) with (S (S s)) by lia; exact Hb].
      * split; [| split; constructor].
        constructor; [| constructor].
        unfold sorted_before.
        destruct (Z.eq_dec (strcasecmp (key_at arr s) (key_at arr (S s)))
                    0%Z); [right; split; [assumption | lia] | left; lia].
      * reflexivity.
Qed.

Lemma merge_two arr s b1 b2 :
  sorted_by (sorted_before arr) b1 -> Permutation b1 (seq s (length b1)) ->
  sorted_by (sorted_before arr) b2 ->
  Permutation b2 (seq (s + length b1) (length b2)) ->
  sorted_by (sorted_before arr) (merge_blocks arr b1 b2) /\
  Permutation (merge_blocks arr b1 b2) (seq s (length b1 + length b2)) /\
  length (merge_blocks arr b1 b2) = length b1 + length b2.
Proof.
  intros Hs1 Hp1 Hs2 Hp2. split; [| split].
  - apply merge_blocks_sorted; [assumption | assumption |].
    intros x y Hx Hy. rewrite Hp1 in Hx. rewrite Hp2 in Hy.
    apply elem_of_seq in Hx. apply elem_of_seq in Hy. lia.
  - rewrite merge_blocks_perm, seq_app, <- Hp1, <- Hp2. reflexivity.
  - rewrite (Permutation_length (merge_blocks_perm arr b1 b2)).
    apply length_app.
Qed.

Lemma merge_pass_done fuel arr values n bs next_start dst :
  n <= next_start + bs ->
  merge_pass fuel arr values n bs next_start dst = dst.
Proof.
  intros Hn. destruct fuel; [reflexivity |]. simpl.
  destruct (Nat.ltb_spec (next_start + bs) n); [lia | reflexivity].
Qed.

Lemma merge_pass_step fuel arr done b1 b2 rest n bs dst :
  length b1 = bs -> b2 <> [] -> length b2 <= bs ->
  (length b2 < bs -> rest = []) ->
  n = length done + length (b1 ++ b2 ++ rest) ->
  merge_pass (S fuel) arr (done ++ b1 ++ b2 ++ rest) n bs (length done) dst =
  merge_pass fuel arr (done ++ b1 ++ b2 ++ rest) n bs
    (length done + (bs + bs)) (dst ++ merge_blocks arr b1 b2).
Proof.
  intros H1 Hne H2 Hrest Hn. rewrite !length_app in Hn.
  assert (Hpos : 0 < length b2) by (destruct b2; [congruence | simpl; lia]).
  cbn [merge_pass].
  destruct (Nat.ltb_spec (length done + bs) n) as [_ | Hge]; [| lia].
  f_equal. f_equal. f_equal.
  - unfold slice. rewrite drop_app_length.
    replace (length done + bs - length done) with (length b1) by lia.
    apply take_app_length.
  - unfold slice.
    replace (length done + bs) with (length (done ++ b1))
      by (rewrite length_app; lia).
    rewrite (app_assoc done b1), drop_app_length.
    destruct (Nat.ltb_spec n (length (done ++ b1) + bs)) as [Hlt | Hge].
    + rewrite length_app in Hlt |- *.
      rewrite Hrest, app_nil_r by lia. apply take_ge. lia.
    + replace (length (done ++ b1) + bs - length (done ++ b1))
        with (length b2).
      * apply take_app_length.
      * rewrite length_app in Hge.
        destruct (decide (length b2 < bs)) as [Hlt | Hnlt]; [| lia].
        rewrite (Hrest Hlt) in Hn. simpl in Hn. lia.
Qed.

Lemma merge_pass_blocks arr bs :
  0 < bs ->
  forall fuel l s done dst,
  length l <= fuel -> length dst = length done -> blocks arr bs s l ->
  exists l',
    merge_pass fuel arr (done ++ l) (length done + length l) bs
      (length done) dst ++
    drop (length (merge_pass fuel arr (done ++ l)
                    (length done + length l) bs (length done) dst))
      (done ++ l) = dst ++ l' /\
    blocks arr (bs + bs) s l' /\ length l' = length l.
Proof.
  intros Hbs. induction fuel as [| fuel IH]; intros l s done dst Hf Hd Hb.
  - destruct l; [| simpl in Hf; lia]. exists []. simpl.
    rewrite app_nil_r, Hd, drop_all. repeat split. constructor.
  - destruct Hb as [s | s b Hne Hlen Hs Hp | s b1 rest Hlen1 Hs1 Hp1 Hrest].
    + exists []. rewrite merge_pass_done by (simpl; lia).
      rewrite app_nil_r, Hd, drop_all. repeat split. constructor.
    + exists b. rewrite merge_pass_done by lia.
      rewrite Hd, drop_app_length. repeat split.
      apply blocks_last; [assumption | lia | assumption | assumption].
    + remember (s + bs) as s2 eqn:Hs2.
      destruct Hrest as [s2 | s2 b2 Hne Hlen2 Hsb2 Hp2 |
                         s2 b2 rest' Hlen2 Hsb2 Hp2 Hrest'].
      * exists b1. rewrite app_nil_r.
        rewrite merge_pass_done by lia.
        rewrite Hd, drop_app_length. repeat split.
        apply blocks_last; [| lia | assumption | rewrite Hlen1; assumption].
        destruct b1; [simpl in Hlen1; lia | discriminate].
      * subst s2. rewrite <- Hlen1 in Hp1, Hp2.
        destruct (merge_two arr s b1 b2 Hs1 Hp1 Hsb2 Hp2)
          as (Hms & Hmp & Hml).
        exists (merge_blocks arr b1 b2).
        assert (Hr : merge_pass (S fuel) arr (done ++ b1 ++ b2)
                       (length done + length (b1 ++ b2)) bs (length done)
                       dst = dst ++ merge_blocks arr b1 b2).
        { pose proof (merge_pass_step fuel arr done b1 b2 []
                        (length done + length (b1 ++ b2)) bs dst
                        Hlen1 Hne Hlen2 (fun _ => eq_refl)) as Hstep.
          rewrite app_nil_r in Hstep. rewrite (Hstep eq_refl).
          apply merge_pass_done. rewrite length_app. lia. }
        rewrite Hr. rewrite drop_ge
          by (rewrite !length_app, Hml, Hd; lia).
        rewrite app_nil_r. split; [reflexivity |].
        split; [| rewrite Hml, length_app; reflexivity].
        apply blocks_last; [| lia | assumption |
                            rewrite Hml; assumption].
        destruct b2; [congruence |].
        intros E. rewrite E in Hml. simpl in Hml. lia.
      * subst s2. rewrite <- Hlen1 in Hp1. rewrite <- Hlen2 in Hp2 at 2.
        rewrite <- Hlen1 in Hp2.
        destruct (merge_two arr s b1 b2 Hs1 Hp1 Hsb2 Hp2)
          as (Hms & Hmp & Hml).
        rewrite (merge_pass_step fuel arr done b1 b2 rest' _ bs dst);
          [| assumption | destruct b2; [simpl in Hlen2; lia | discriminate]
           | lia | lia | reflexivity].
        destruct (IH rest' (s + bs + bs) (done ++ b1 ++ b2)
                    (dst ++ merge_blocks arr b1 b2)) as (l'' & Heq & Hb'' & Hl'').
        { rewrite !length_app in Hf. lia. }
        { rewrite !length_app, Hml, Hd. lia. }
        { exact Hrest'. }
        exists (merge_blocks arr b1 b2 ++ l'').
        replace (length done + (bs + bs)) with (length (done ++ b1 ++ b2))
          by (rewrite !length_app; lia).
        replace (length done + length (b1 ++ b2 ++ rest'))
          with (length (done ++ b1 ++ b2) + length rest')
          by (rewrite !length_app; lia).
        replace (done ++ b1 ++ b2 ++ rest') with ((done ++ b1 ++ b2) ++ rest')
          by (rewrite <- !app_assoc; reflexivity).
        rewrite Heq, <- app_assoc. split; [reflexivity |].
        split; [| rewrite !length_app, Hml, Hl''; lia].
        apply blocks_cons; [lia | assumption | |].
        -- rewrite Hlen1, Hlen2 in Hmp. exact Hmp.
        -- replace (s + (bs + bs)) with (s + bs + bs) by lia. exact Hb''.
Qed.

Lemma blocks_single arr bs s l :
  blocks arr bs s l -> length l <= bs ->
  sorted_by (sorted_before arr) l /\ Permutation l (seq s (length l)).
Proof.
  intros Hb Hl.
  destruct Hb as [s | s b Hne Hlen Hs Hp | s b1 rest Hlen1 Hs1 Hp1 Hrest].
  - split; [exact I | reflexivity].
  - split; assumption.
  - rewrite length_app in Hl.
    assert (rest = []) by (destruct rest; [reflexivity | simpl in Hl; lia]).
    subst rest. rewrite app_nil_r, Hlen1. split; assumption.
Qed.

Lemma merge_passes_sorted arr n :
  forall fuel bs values,
  0 < bs -> n <= bs * 2 ^ fuel -> length values = n ->
  blocks arr bs 0 values ->
  sorted_by (sorted_before arr) (merge_passes fuel arr values n bs) /\
  Permutation (merge_passes fuel arr values n bs) (seq 0 n).
Proof.
  induction fuel as [| fuel IH]; intros bs values Hbs Hn Hl Hb.
  - simpl in *. rewrite <- Hl.
    apply (blocks_single arr bs 0 values Hb). lia.
  - cbn [merge_passes].
    destruct (Nat.ltb_spec bs n) as [Hlt | Hge].
    + destruct (merge_pass_blocks arr bs Hbs n values 0 [] [])
        as (l' & Heq & Hb' & Hl'); [lia | reflexivity | exact Hb |].
      simpl in Heq. rewrite Hl in Heq. rewrite Heq.
      apply IH; [lia | | lia | exact Hb'].
      rewrite Nat.pow_succ_r' in Hn. lia.
    + rewrite <- Hl.
      apply (blocks_single arr bs 0 values Hb). lia.
Qed.

Lemma table_mergesort_spec arr n :
  sorted_by (sorted_before arr) (table_mergesort arr (seq 0 n) n) /\
  Permutation (table_mergesort arr (seq 0 n) n) (seq 0 n).
Proof.
  destruct (sort_pairs_blocks arr n 0) as [Hb Hl].
  apply merge_passes_sorted; [lia | | exact Hl | exact Hb].
  pose proof (Nat.pow_gt_lin_r 2 n ltac:(lia)). lia.
Qed.

Lemma sorted_by_lookup (R : nat -> nat -> Prop) l :
  sorted_by R l ->
  forall i j x y, i < j -> l !! i = Some x -> l !! j = Some y -> R x y.
Proof.
  induction l as [| a l IH]; intros Hs i j x y Hij Hi Hj;
    [rewrite lookup_nil in Hi; discriminate |].
  destruct Hs as [Ha Hs]. destruct j as [| j]; [lia |]. simpl in Hj.
  destruct i as [| i].
  - simpl in Hi. injection Hi as <-.
    exact (Forall_lookup_1 _ _ _ _ Ha Hj).
  - simpl in Hi. apply (IH Hs i j); [lia | assumption | assumption].
Qed.

(** X23. [table_mergesort], on the references to the [n] entries of a
    table in table order, returns a permutation of them that is sorted
    by key under [strcasecmp] and stable: of two references, the one
    that comes first never has the greater key, and when the keys are
    equal it is the one of the earlier entry. *)
Theorem mergesort_sorts_stably (arr : list xm_table_entry_t) (n : nat) :
  Permutation (table_mergesort arr (seq 0 n) n) (seq 0 n) /\
  forall i j x y, i < j ->
    table_mergesort arr (seq 0 n) n !! i = Some x ->
    table_mergesort arr (seq 0 n) n !! j = Some y ->
    (strcasecmp (key_at arr x) (key_at arr y) <= 0)%Z /\
    (strcasecmp (key_at arr x) (key_at arr y) = 0%Z -> x < y).
Proof.
  destruct (table_mergesort_spec arr n) as [Hs Hp].
  split; [exact Hp |].
  intros i j x y Hij Hi Hj.
  destruct (sorted_by_lookup _ _ Hs i j x y Hij Hi Hj) as [Hlt | [He Hl]].
  - split; lia.
  - split; [lia | intros _; exact Hl].
Qed.

(** A worked case: five entries, two keys written in different cases. *)
Example mergesort_example :
  table_mergesort
    (a_elts (@run_ops x86_64
       [OpAdd "b" "1"; OpAdd "A" "2"; OpAdd "B" "3"; OpAdd "a" "4";
        OpAdd "b" "5"]))
    (seq 0 5) 5 = [1; 3; 0; 2; 4].
Proof. reflexivity. Qed.

(** ** The first loop of [xm_table_compress] *)

Lemma merged_val_spec arr s k :
  forall next,
  merged_val arr s k next =
  merge_vals (map (fun j => val (entry_ref arr s j)) (seq next (S k))).
Proof.
  induction k as [| k IH]; intros next; [reflexivity |].
  cbn [merged_val]. rewrite IH. reflexivity.
Qed.

Lemma find_dup_last_spec arr s last k :
  forall d,
  d <= find_dup_last arr s last k d <= d + k /\
  (forall j, d <= j < find_dup_last arr s last k d ->
     same_key arr s j last = true) /\
  (find_dup_last arr s last k d < d + k ->
   same_key arr s (find_dup_last arr s last k d) last = false).
Proof.
  induction k as [| k IH]; intros d; cbn [find_dup_last].
  - repeat split; intros; lia.
  - destruct (same_key arr s d last) eqn:E.
    + destruct (IH (S d)) as (H1 & H2 & H3).
      split; [lia |]. split.
      * intros j Hj. destruct (decide (j = d)) as [-> | Hne];
          [exact E | apply H2; lia].
      * intros Hr. apply H3. lia.
    + split; [lia |]. split; [intros j Hj; lia | intros _; exact E].
Qed.

Lemma mark_dups_spec s k :
  forall i arr,
  (forall j j', i <= j < i + k -> i <= j' < i + k ->
     ref_at s j = ref_at s j' -> j = j') ->
  (forall j, i <= j < i + k -> ref_at s j < length arr) ->
  length (mark_dups arr s k i) = length arr /\
  (forall p, (forall j, i <= j < i + k -> ref_at s j <> p) ->
     mark_dups arr s k i !! p = arr !! p) /\
  (forall j, i <= j < i + k ->
     mark_dups arr s k i !! ref_at s j =
     Some (marked (entry_at arr (ref_at s j)))).
Proof.
  induction k as [| k IH]; intros i arr Hinj Hlt; cbn [mark_dups].
  - split; [reflexivity |]. split; [reflexivity |]. intros j Hj. lia.
  - fold (marked (entry_at arr (ref_at s i))).
    set (arr' := <[ref_at s i := marked (entry_at arr (ref_at s i))]> arr).
    destruct (IH (S i) arr') as (L & A & B).
    { intros j j' Hj Hj'. apply Hinj; lia. }
    { intros j Hj. unfold arr'. rewrite length_insert. apply Hlt. lia. }
    split; [rewrite L; apply length_insert |]. split.
    + intros p Hp. rewrite A by (intros j Hj; apply Hp; lia).
      apply list_lookup_insert_ne, Hp. lia.
    + intros j Hj. destruct (decide (j = i)) as [-> | Hne].
      * rewrite A.
        -- apply list_lookup_insert_eq, Hlt. lia.
        -- intros j Hj' E. apply Hinj in E; lia.
      * rewrite B by lia. f_equal. f_equal. unfold entry_at, arr'.
        rewrite list_lookup_insert_ne; [reflexivity |].
        intros E. apply Hinj in E; lia.
Qed.

(** ** Lists of positions *)

Lemma entry_at_app_l (l : list xm_table_entry_t) x q :
  q < length l -> entry_at (l ++ [x]) q = entry_at l q.
Proof. intros Hq. unfold entry_at. rewrite lookup_app_l by lia. reflexivity. Qed.

Lemma filter_by_position (P : xm_table_entry_t -> bool) l :
  List.filter P l =
  map (entry_at l)
    (List.filter (fun q => P (entry_at l q)) (seq 0 (length l))).
Proof.
  induction l as [| x l IH] using rev_ind; [reflexivity |].
  rewrite List.filter_app, length_app, seq_app, List.filter_app, map_app.
  f_equal.
  - rewrite IH at 1.
    rewrite (List.filter_ext_in (fun q => P (entry_at (l ++ [x]) q))
               (fun q => P (entry_at l q))).
    + apply map_ext_in. intros q Hq.
      apply List.filter_In in Hq as [Hq _]. apply in_seq in Hq.
      symmetry. apply entry_at_app_l. lia.
    + intros q Hq. apply in_seq in Hq. rewrite entry_at_app_l by lia.
      reflexivity.
  - assert (Hx : entry_at (l ++ [x]) (length l) = x).
    { unfold entry_at. rewrite list_lookup_middle by reflexivity.
      reflexivity. }
    simpl. rewrite Hx. destruct (P x); simpl; rewrite ?Hx; reflexivity.
Qed.

Lemma sorted_by_seq a k : sorted_by lt (seq a k).
Proof.
  revert a. induction k as [| k IH]; intros a; simpl; [exact I |].
  split; [| apply IH].
  apply Forall_forall. intros x Hx. apply elem_of_seq in Hx. lia.
Qed.

Lemma sorted_by_filter (R : nat -> nat -> Prop) f l :
  sorted_by R l -> sorted_by R (List.filter f l).
Proof.
  induction l as [| a l IH]; simpl; [auto |]. intros [Ha Hl].
  destruct (f a); [| apply IH, Hl]. split; [| apply IH, Hl].
  apply Forall_forall. intros x Hx.
  apply list_elem_of_In, List.filter_In in Hx as [Hx _].
  apply list_elem_of_In in Hx.
  exact (proj1 (Forall_forall _ _) Ha x Hx).
Qed.

Lemma sorted_by_map_seq (R : nat -> nat -> Prop) (f : nat -> nat) k :
  forall a,
  (forall i j, a <= i < j -> j < a + k -> R (f i) (f j)) ->
  sorted_by R (map f (seq a k)).
Proof.
  induction k as [| k IH]; intros a HR; simpl; [exact I |].
  split; [| apply IH; intros i j Hi Hj; apply HR; lia].
  apply Forall_forall. intros x Hx.
  apply list_elem_of_In, in_map_iff in Hx as (j & <- & Hj).
  apply in_seq in Hj. apply HR; lia.
Qed.

Lemma increasing_ext l1 :
  forall l2, sorted_by lt l1 -> sorted_by lt l2 ->
  (forall x, In x l1 <-> In x l2) -> l1 = l2.
Proof.
  induction l1 as [| x1 l1 IH]; intros [| x2 l2] H1 H2 Hex.
  - reflexivity.
  - destruct (proj2 (Hex x2) (or_introl eq_refl)).
  - destruct (proj1 (Hex x1) (or_introl eq_refl)).
  - destruct H1 as [Hx1 H1]. destruct H2 as [Hx2 H2].
    assert (Hl1 : forall z, In z l1 -> x1 < z).
    { intros z Hz. apply list_elem_of_In in Hz.
      exact (proj1 (Forall_forall _ _) Hx1 z Hz). }
    assert (Hl2 : forall z, In z l2 -> x2 < z).
    { intros z Hz. apply list_elem_of_In in Hz.
      exact (proj1 (Forall_forall _ _) Hx2 z Hz). }
    assert (Heq : x1 = x2).
    { destruct (proj1 (Hex x1) (or_introl eq_refl)) as [E | Hin1];
        [congruence |].
      destruct (proj2 (Hex x2) (or_introl eq_refl)) as [E | Hin2];
        [congruence |].
      specialize (Hl1 _ Hin2). specialize (Hl2 _ Hin1). lia. }
    subst x2. f_equal. apply IH; [assumption | assumption |].
    intros z. split; intros Hz.
    + destruct (proj1 (Hex z) (or_intror Hz)) as [E | Hin]; [| exact Hin].
      specialize (Hl1 _ Hz). lia.
    + destruct (proj2 (Hex z) (or_intror Hz)) as [E | Hin]; [| exact Hin].
      specialize (Hl2 _ Hz). lia.
Qed.

Lemma last_map_seq {A} (f : nat -> A) (x : A) k :
  forall a, List.last (map f (seq a (S k))) x = f (a + k).
Proof.
  induction k as [| k IH]; intros a.
  - simpl. f_equal. lia.
  - change (seq a (S (S k))) with (a :: seq (S a) (S k)).
    change (map f (a :: seq (S a) (S k)))
      with (f a :: map f (seq (S a) (S k))).
    transitivity (List.last (map f (seq (S a) (S k))) x).
    + reflexivity.
    + rewrite IH. f_equal. lia.
Qed.

(** ** The marks and what is left of them *)

Lemma compress_marks_length flags all l :
  forall before, length (compress_marks flags all before l) = length l.
Proof.
  induction l as [| e l IH]; intros before; simpl; [reflexivity |].
  rewrite IH. reflexivity.
Qed.

Lemma compress_marks_lookup flags all l :
  forall before i e,
  l !! i = Some e ->
  compress_marks flags all before l !! i =
  Some (if existsb (same_key_as e) (before ++ take i l) then marked e
        else with_val e
               (kept_val flags
                  (map val (List.filter (same_key_as e) all)))).
Proof.
  induction l as [| a l IH]; intros before i e Hi;
    [rewrite lookup_nil in Hi; discriminate |].
  destruct i as [| i]; simpl in Hi |- *.
  - injection Hi as ->. rewrite app_nil_r. reflexivity.
  - rewrite (IH _ _ _ Hi), <- app_assoc. reflexivity.
Qed.

Lemma compress_marks_filter `{Target} flags all l :
  forall before, Forall entry_ok l ->
  List.filter (fun e => bool_decide (is_Some (key e)))
    (compress_marks flags all before l) =
  compress_from flags all before l.
Proof.
  induction l as [| e l IH]; intros before Hl; simpl; [reflexivity |].
  apply Forall_cons in Hl as [(k & Hk & _) Hl].
  destruct (existsb (same_key_as e) before); simpl.
  - apply IH, Hl.
  - rewrite Hk. simpl. f_equal. apply IH, Hl.
Qed.

Lemma with_val_kept_single flags e : with_val e (kept_val flags [val e]) = e.
Proof.
  unfold kept_val. simpl.
  destruct (flags =? XM_OVERLAP_TABLES_MERGE)%Z; destruct e; reflexivity.
Qed.

Section Dedup.
Context `{Target}.
Variable flags : Z.
Variable arr0 : list xm_table_entry_t.
Variable s : list nat.
Hypothesis Hok : Forall entry_ok arr0.
Hypothesis Hperm : Permutation s (seq 0 (length arr0)).
Hypothesis Hsorted : sorted_by (sorted_before arr0) s.

Lemma s_length : length s = length arr0.
Proof. rewrite (Permutation_length Hperm). apply length_seq. Qed.

Lemma s_lookup j : j < length arr0 -> s !! j = Some (ref_at s j).
Proof.
  intros Hj. destruct (lookup_lt_is_Some_2 s j) as [p Hp];
    [rewrite s_length; exact Hj |].
  rewrite Hp. reflexivity.
Qed.

Lemma s_range j : j < length arr0 -> ref_at s j < length arr0.
Proof.
  intros Hj. destruct (lookup_lt_is_Some_2 s j) as [p Hp];
    [rewrite s_length; exact Hj |].
  rewrite Hp. simpl. apply list_elem_of_lookup_2 in Hp.
  rewrite Hperm in Hp. apply elem_of_seq in Hp. lia.
Qed.

Lemma s_inj i j :
  i < length arr0 -> j < length arr0 -> ref_at s i = ref_at s j -> i = j.
Proof.
  intros Hi Hj E.
  assert (Hnd : NoDup s) by (rewrite Hperm; apply NoDup_seq).
  eapply (NoDup_lookup s i j); [exact Hnd | apply s_lookup, Hi |].
  rewrite E. apply s_lookup, Hj.
Qed.

Lemma s_surj p :
  p < length arr0 -> exists j, j < length arr0 /\ ref_at s j = p.
Proof.
  intros Hp.
  assert (Hin : p ∈ s) by (rewrite Hperm; apply elem_of_seq; lia).
  apply list_elem_of_lookup in Hin as [j Hj]. exists j. split.
  - apply lookup_lt_Some in Hj. rewrite s_length in Hj. exact Hj.
  - rewrite Hj. reflexivity.
Qed.

Lemma s_sorted i j :
  i < j -> j < length arr0 ->
  sorted_before arr0 (ref_at s i) (ref_at s j).
Proof.
  intros Hij Hj.
  apply (sorted_by_lookup _ _ Hsorted i j);
    [lia | apply s_lookup; lia | apply s_lookup; lia].
Qed.

Lemma s_le i j :
  i <= j -> j < length arr0 ->
  (strcasecmp (key_ref arr0 s i) (key_ref arr0 s j) <= 0)%Z.
Proof.
  intros Hij Hj. destruct (decide (i = j)) as [-> | Hne];
    [rewrite strcasecmp_refl; lia |].
  destruct (s_sorted i j) as [Hlt | [He _]]; lia.
Qed.

Lemma s_stable i j :
  i < j -> j < length arr0 ->
  strcasecmp (key_ref arr0 s i) (key_ref arr0 s j) = 0%Z ->
  ref_at s i < ref_at s j.
Proof.
  intros Hij Hj E.
  destruct (s_sorted i j Hij Hj) as [Hlt | [_ Hl]]; [lia | exact Hl].
Qed.

Lemma entry_ref_lookup j :
  j < length arr0 -> arr0 !! ref_at s j = Some (entry_ref arr0 s j).
Proof.
  intros Hj. unfold entry_at.
  destruct (lookup_lt_is_Some_2 arr0 (ref_at s j) (s_range j Hj)) as [e He].
  rewrite He. reflexivity.
Qed.

Lemma entry_ref_ok j : j < length arr0 -> entry_ok (entry_ref arr0 s j).
Proof.
  intros Hj. exact (Forall_lookup_1 _ _ _ _ Hok (entry_ref_lookup j Hj)).
Qed.

(** The test between two references whose entries still have their key
    and checksum compares the keys. *)
Lemma same_key_eval arr i j :
  i < length arr0 -> j < length arr0 ->
  key (entry_ref arr s i) = key (entry_ref arr0 s i) ->
  key_checksum (entry_ref arr s i) = key_checksum (entry_ref arr0 s i) ->
  key (entry_ref arr s j) = key (entry_ref arr0 s j) ->
  key_checksum (entry_ref arr s j) = key_checksum (entry_ref arr0 s j) ->
  same_key arr s i j =
  (strcasecmp (key_ref arr0 s i) (key_ref arr0 s j) =? 0)%Z.
Proof.
  intros Hi Hj Hki Hci Hkj Hcj. unfold same_key. cbv zeta.
  rewrite Hki, Hci, Hkj, Hcj. unfold key_at.
  destruct (entry_ref_ok i Hi) as (ki & Ei & Ci).
  destruct (entry_ref_ok j Hj) as (kj & Ej & Cj).
  rewrite Ci, Cj, Ei, Ej. simpl deref.
  destruct (Z.eqb_spec (strcasecmp ki kj) 0) as [E | E].
  - rewrite (strcasecmp_checksum ki kj E), Z.eqb_refl. reflexivity.
  - apply andb_false_r.
Qed.

(** The references [a] to [b] are all those of one key. *)
Lemma group_members a b :
  a <= b -> b < length arr0 ->
  (forall j, a <= j <= b ->
     strcasecmp (key_ref arr0 s j) (key_ref arr0 s a) = 0%Z) ->
  (forall j, j < a ->
     (strcasecmp (key_ref arr0 s j) (key_ref arr0 s a) < 0)%Z) ->
  (forall j, b < j < length arr0 ->
     (strcasecmp (key_ref arr0 s a) (key_ref arr0 s j) < 0)%Z) ->
  forall q, q < length arr0 ->
    (strcasecmp (key_at arr0 q) (key_ref arr0 s a) = 0%Z <->
     exists j, a <= j <= b /\ q = ref_at s j).
Proof.
  intros Hab Hb Hin Hpre Hpost q Hq. split.
  - intros E. destruct (s_surj q Hq) as (j & Hj & <-).
    exists j. split; [| reflexivity].
    destruct (Nat.lt_ge_cases j a) as [Hlt | Hge];
      [specialize (Hpre j Hlt); lia |].
    destruct (Nat.lt_ge_cases b j) as [Hlt | Hle]; [| lia].
    specialize (Hpost j ltac:(lia)).
    rewrite strcasecmp_antisym in E. lia.
  - intros (j & Hj & ->). apply Hin, Hj.
Qed.

(** What the loop is to leave in the entries of such a group. *)
Lemma group_target a b :
  a <= b -> b < length arr0 ->
  (forall j, a <= j <= b ->
     strcasecmp (key_ref arr0 s j) (key_ref arr0 s a) = 0%Z) ->
  (forall j, j < a ->
     (strcasecmp (key_ref arr0 s j) (key_ref arr0 s a) < 0)%Z) ->
  (forall j, b < j < length arr0 ->
     (strcasecmp (key_ref arr0 s a) (key_ref arr0 s j) < 0)%Z) ->
  compress_marks flags arr0 [] arr0 !! ref_at s a =
    Some (with_val (entry_ref arr0 s a)
            (kept_val flags
               (map (fun j => val (entry_ref arr0 s j))
                  (seq a (S (b - a)))))) /\
  forall j, a < j <= b ->
    compress_marks flags arr0 [] arr0 !! ref_at s j =
    Some (marked (entry_ref arr0 s j)).
Proof.
  intros Hab Hb Hin Hpre Hpost.
  pose proof (group_members a b Hab Hb Hin Hpre Hpost) as Hmem.
  assert (Hsame : forall e q, arr0 !! q = Some e ->
            same_key_as (entry_ref arr0 s a) e =
            (strcasecmp (key_at arr0 q) (key_ref arr0 s a) =? 0)%Z).
  { intros e q He. unfold same_key_as, key_is, key_at.
    unfold entry_at at 2. rewrite He. reflexivity. }
  split.
  - rewrite (compress_marks_lookup _ _ _ [] _ _
               (entry_ref_lookup a ltac:(lia))).
    cbn [app].
    assert (Hfirst : existsb (same_key_as (entry_ref arr0 s a))
                       (take (ref_at s a) arr0) = false).
    { destruct (existsb _ _) eqn:Ex; [| reflexivity]. exfalso.
      apply existsb_exists in Ex as (e & Hin' & Hs).
      apply list_elem_of_In, elem_of_take in Hin' as (q & Hq & Hlt).
      rewrite (Hsame e q Hq) in Hs. apply Z.eqb_eq in Hs.
      apply Hmem in Hs as (j & Hj & ->);
        [| eapply lookup_lt_Some; exact Hq].
      destruct (decide (j = a)) as [-> | Hne]; [lia |].
      assert (ref_at s a < ref_at s j); [| lia].
      apply s_stable; [lia | lia |]. apply strcasecmp_sym, Hin. lia. }
    rewrite Hfirst. f_equal. f_equal. f_equal.
    rewrite filter_by_position.
    assert (Hpos :
      List.filter
        (fun q => same_key_as (entry_ref arr0 s a) (entry_at arr0 q))
        (seq 0 (length arr0)) =
      map (fun j => ref_at s j) (seq a (S (b - a)))).
    { apply increasing_ext.
      - apply sorted_by_filter, sorted_by_seq.
      - apply sorted_by_map_seq. intros i j Hi Hj.
        apply s_stable; [lia | lia |].
        apply (strcasecmp_trans _ (key_ref arr0 s a));
          [apply Hin; lia | apply strcasecmp_sym, Hin; lia].
      - intros q. rewrite List.filter_In, in_seq, in_map_iff. split.
        + intros [Hq Hs]. unfold same_key_as, key_is in Hs.
          apply Z.eqb_eq in Hs.
          apply (proj1 (Hmem q ltac:(lia))) in Hs as (j & Hj & ->).
          exists j. split; [reflexivity | apply in_seq; lia].
        + intros (j & <- & Hj). apply in_seq in Hj.
          split; [pose proof (s_range j ltac:(lia)); lia |].
          unfold same_key_as, key_is. apply Z.eqb_eq.
          apply Hin. lia. }
    rewrite Hpos, !map_map. reflexivity.
  - intros j Hj.
    rewrite (compress_marks_lookup _ _ _ [] _ _
               (entry_ref_lookup j ltac:(lia))).
    cbn [app].
    assert (Hex : existsb (same_key_as (entry_ref arr0 s j))
                    (take (ref_at s j) arr0) = true).
    { apply existsb_exists. exists (entry_ref arr0 s a). split.
      - apply list_elem_of_In, elem_of_take. exists (ref_at s a).
        split; [apply entry_ref_lookup; lia |].
        apply s_stable; [lia | lia |]. apply strcasecmp_sym, Hin. lia.
      - unfold same_key_as, key_is. apply Z.eqb_eq.
        apply strcasecmp_sym, Hin. lia. }
    rewrite Hex. reflexivity.
Qed.

Lemma dedup_fresh_done arr last sn :
  dedup_inv flags arr0 s arr last sn true ->
  (forall j, sn <= j < length arr0 ->
     (strcasecmp (key_ref arr0 s last) (key_ref arr0 s j) < 0)%Z) ->
  dedup_inv flags arr0 s arr last sn false.
Proof.
  intros (Hlen & Hr & H3 & H4a & H4b & -> & Hl) Hc.
  split; [exact Hlen |]. split; [exact Hr |]. split; [exact H3 |].
  split; [exact H4a |]. split; [exact H4b |]. split; [exact Hc |].
  assert (Hj : forall j, last <= j < S last -> j = last) by (intros; lia).
  split.
  - intros j Hjr. rewrite (Hj j Hjr). apply strcasecmp_refl.
  - intros j Hjr. rewrite (Hj j Hjr), Hl.
    destruct (group_target last last) as [Ht _];
      [lia | lia | | exact H3 | intros j0 Hj0; apply Hc; lia |].
    { intros j0 Hj0. replace j0 with last by lia. apply strcasecmp_refl. }
    rewrite Ht, Nat.sub_diag. simpl map.
    rewrite with_val_kept_single. apply entry_ref_lookup. lia.
Qed.

Lemma dedup_inv_end arr last fresh :
  dedup_inv flags arr0 s arr last (length arr0) fresh ->
  arr = compress_marks flags arr0 [] arr0.
Proof.
  intros Hinv.
  assert (Hd : dedup_inv flags arr0 s arr last (length arr0) false).
  { destruct fresh; [| exact Hinv].
    apply dedup_fresh_done; [exact Hinv |]. intros j Hj. lia. }
  destruct Hd as (Hlen & Hr & H3 & H4a & H4b & Hc & Hs & Ht).
  apply list_eq. intros p.
  destruct (Nat.lt_ge_cases p (length arr0)) as [Hp | Hp].
  - destruct (s_surj p Hp) as (j & Hj & <-).
    destruct (Nat.lt_ge_cases j last);
      [apply H4a; assumption | apply Ht; lia].
  - rewrite !lookup_ge_None_2;
      [reflexivity | rewrite compress_marks_length; lia | lia].
Qed.

Lemma dedup_done_next arr last sn :
  sn < length arr0 ->
  dedup_inv flags arr0 s arr last sn false ->
  dedup_inv flags arr0 s arr sn (S sn) true.
Proof.
  intros Hsn (Hlen & Hr & H3 & H4a & H4b & Hc & Hs & Ht).
  split; [exact Hlen |]. split; [lia |]. split.
  { intros j Hj.
    destruct (strcasecmp_order (key_ref arr0 s j) (key_ref arr0 s last)
                (key_ref arr0 s sn)) as (_ & _ & Hlt).
    apply Hlt; [| apply Hc; lia].
    destruct (Nat.lt_ge_cases j last) as [Hjl | Hjl];
      [specialize (H3 j Hjl); lia | rewrite Hs by lia; lia]. }
  split.
  { intros j Hj. destruct (Nat.lt_ge_cases j last);
      [apply H4a; assumption | apply Ht; lia]. }
  split; [intros j Hj; apply H4b; lia |].
  split; [reflexivity | apply H4b; lia].
Qed.

(** The body of the loop at a group of duplicates: the references from
    [S last] up to [d] are of the key of [last], the one at [d] is not. *)
Lemma dedup_process arr last sn d :
  dedup_inv flags arr0 s arr last sn true ->
  sn < d <= length arr0 ->
  (forall j, sn <= j < d ->
     strcasecmp (key_ref arr0 s j) (key_ref arr0 s last) = 0%Z) ->
  (d < length arr0 ->
   strcasecmp (key_ref arr0 s d) (key_ref arr0 s last) <> 0%Z) ->
  dedup_inv flags arr0 s
    (mark_dups
       (<[ref_at s last :=
            {| key := key (entry_ref arr s last);
               val := if (flags =? XM_OVERLAP_TABLES_MERGE)%Z
                      then merged_val arr s (d - 1 - last) last
                      else val (entry_ref arr s (d - 1));
               key_checksum := key_checksum (entry_ref arr s last) |}]> arr)
       s (S (d - 1) - sn) sn)
    last (S (d - 1)) false.
Proof.
  intros (Hlen & Hr & H3 & H4a & H4b & -> & Hl) Hd Hrun Hstop.
  replace (S (d - 1)) with d by lia.
  assert (Hunmod : forall j, last <= j < length arr0 ->
            entry_ref arr s j = entry_ref arr0 s j).
  { intros j Hj. unfold entry_at.
    destruct (decide (j = last)) as [-> | Hne];
      [rewrite Hl | rewrite H4b by lia]; reflexivity. }
  set (new_val := if (flags =? XM_OVERLAP_TABLES_MERGE)%Z
                  then merged_val arr s (d - 1 - last) last
                  else val (entry_ref arr s (d - 1))).
  set (arr1 := <[ref_at s last := _]> arr).
  assert (Hlen1 : length arr1 = length arr0)
    by (unfold arr1; rewrite length_insert; exact Hlen).
  destruct (mark_dups_spec s (d - S last) (S last) arr1) as (L & A & B).
  { intros j j' Hj Hj'. apply s_inj; lia. }
  { intros j Hj. rewrite Hlen1. apply s_range. lia. }
  assert (Hsame : forall j, last <= j <= d - 1 ->
            strcasecmp (key_ref arr0 s j) (key_ref arr0 s last) = 0%Z).
  { intros j Hj. destruct (decide (j = last)) as [-> | Hne];
      [apply strcasecmp_refl | apply Hrun; lia]. }
  assert (Hc : forall j, d <= j < length arr0 ->
            (strcasecmp (key_ref arr0 s last) (key_ref arr0 s j) < 0)%Z).
  { intros j Hj. assert (Hdn : d < length arr0) by lia.
    specialize (Hstop Hdn).
    pose proof (s_le last d ltac:(lia) Hdn) as Hle.
    rewrite strcasecmp_antisym in Hstop.
    destruct (strcasecmp_order (key_ref arr0 s last) (key_ref arr0 s d)
                (key_ref arr0 s j)) as (_ & Hlt & _).
    apply Hlt; [lia | apply s_le; lia]. }
  destruct (group_target last (d - 1)) as [Tl Tm];
    [lia | lia | exact Hsame | exact H3 | intros j Hj; apply Hc; lia |].
  split; [rewrite L; exact Hlen1 |]. split; [lia |]. split; [exact H3 |].
  split.
  { intros j Hj. rewrite A by (intros j' Hj' E; apply s_inj in E; lia).
    unfold arr1. rewrite list_lookup_insert_ne
      by (intros E; apply s_inj in E; lia).
    apply H4a, Hj. }
  split.
  { intros j Hj. rewrite A by (intros j' Hj' E; apply s_inj in E; lia).
    unfold arr1. rewrite list_lookup_insert_ne
      by (intros E; apply s_inj in E; lia).
    apply H4b. lia. }
  split; [exact Hc |].
  split; [intros j Hj; apply Hsame; lia |].
  intros j Hj. destruct (decide (j = last)) as [-> | Hne].
  - rewrite A by (intros j' Hj' E; apply s_inj in E; lia).
    unfold arr1. rewrite list_lookup_insert_eq
      by (rewrite Hlen; apply s_range; lia).
    rewrite Tl, (Hunmod last) by lia. unfold with_val. f_equal. f_equal.
    unfold new_val, kept_val.
    destruct (flags =? XM_OVERLAP_TABLES_MERGE)%Z.
    + rewrite merged_val_spec. f_equal. apply map_ext_in.
      intros i Hi. apply in_seq in Hi. rewrite Hunmod by lia. reflexivity.
    + rewrite last_map_seq, Hunmod by lia.
      replace (last + (d - 1 - last)) with (d - 1) by lia. reflexivity.
  - rewrite B by lia. rewrite Tm by lia. f_equal. f_equal.
    transitivity (entry_ref arr s j); [| apply Hunmod; lia].
    unfold entry_at, arr1. rewrite list_lookup_insert_ne; [reflexivity |].
    intros E. apply s_inj in E; lia.
Qed.

Lemma dedup_loop_target fuel :
  forall arr last sn fresh dups,
  length arr0 - sn <= fuel ->
  dedup_inv flags arr0 s arr last sn fresh ->
  fst (dedup_loop fuel flags s (length arr0) arr last sn dups) =
  compress_marks flags arr0 [] arr0.
Proof.
  induction fuel as [| fuel IH]; intros arr last sn fresh dups Hf Hinv.
  - simpl. assert (sn = length arr0)
      by (destruct Hinv as (_ & ? & _); lia).
    subst sn. exact (dedup_inv_end arr last fresh Hinv).
  - rewrite dedup_loop_unfold.
    destruct (Nat.ltb_spec sn (length arr0)) as [Hsn | Hsn].
    2:{ simpl. assert (sn = length arr0)
          by (destruct Hinv as (_ & ? & _); lia).
        subst sn. exact (dedup_inv_end arr last fresh Hinv). }
    assert (Hlast : last < sn) by (destruct Hinv as (_ & ? & _); lia).
    assert (Hun : forall j, sn <= j < length arr0 ->
              entry_ref arr s j = entry_ref arr0 s j).
    { intros j Hj. destruct Hinv as (_ & _ & _ & _ & H4b & _).
      unfold entry_at. rewrite H4b by lia. reflexivity. }
    assert (Helast :
      key (entry_ref arr s last) = key (entry_ref arr0 s last) /\
      key_checksum (entry_ref arr s last) =
        key_checksum (entry_ref arr0 s last)).
    { destruct fresh.
      - destruct Hinv as (_ & _ & _ & _ & _ & _ & Hl).
        unfold entry_at. rewrite Hl. split; reflexivity.
      - destruct Hinv as (_ & Hr & H3 & _ & _ & Hc & Hs & Ht).
        destruct (group_target last (sn - 1)) as [Tl _];
          [lia | lia | intros j Hj; apply Hs; lia | exact H3
           | intros j Hj; apply Hc; lia |].
        unfold entry_at at 1 3. rewrite (Ht last) by lia. rewrite Tl.
        split; reflexivity. }
    destruct Helast as [Hk Hcs].
    assert (Heval : forall j, sn <= j < length arr0 ->
              same_key arr s j last =
              (strcasecmp (key_ref arr0 s j) (key_ref arr0 s last) =? 0)%Z).
    { intros j Hj. apply same_key_eval; try lia; try assumption;
        rewrite (Hun j Hj); reflexivity. }
    rewrite (Heval sn) by lia.
    destruct (Z.eqb_spec (strcasecmp (key_ref arr0 s sn)
                            (key_ref arr0 s last)) 0) as [Heq | Hne].
    + destruct fresh.
      2:{ exfalso. destruct Hinv as (_ & _ & _ & _ & _ & Hc' & _).
          specialize (Hc' sn ltac:(lia)).
          rewrite strcasecmp_antisym in Heq. lia. }
      cbv zeta.
      destruct (find_dup_last_spec arr s last (length arr0 - S sn) (S sn))
        as (Hd1 & Hd2 & Hd3).
      set (d := find_dup_last arr s last (length arr0 - S sn) (S sn)) in *.
      eapply IH; [| apply dedup_process; [exact Hinv | lia | |]].
      * lia.
      * intros j Hj. destruct (decide (j = sn)) as [-> | Hjn];
          [exact Heq |].
        specialize (Hd2 j ltac:(lia)).
        rewrite Heval in Hd2 by lia. apply Z.eqb_eq, Hd2.
      * intros Hdn. specialize (Hd3 ltac:(lia)).
        rewrite Heval in Hd3 by lia. apply Z.eqb_neq, Hd3.
    + assert (Hdone : dedup_inv flags arr0 s arr last sn false).
      { destruct fresh; [| exact Hinv].
        apply dedup_fresh_done; [exact Hinv |]. intros j Hj.
        pose proof (s_le last sn ltac:(lia) Hsn) as Hle.
        rewrite strcasecmp_antisym in Hne.
        destruct (strcasecmp_order (key_ref arr0 s last)
                    (key_ref arr0 s sn) (key_ref arr0 s j))
          as (_ & Hlt & _).
        apply Hlt; [lia | apply s_le; lia]. }
      apply (IH arr sn (S sn) true dups); [lia |].
      exact (dedup_done_next arr last sn Hsn Hdone).
Qed.

End Dedup.

(** ** [xm_table_compress] *)

Lemma compress_elts_short flags l :
  length l <= 1 -> compress_elts flags l = l.
Proof.
  destruct l as [| e [| e' l]]; simpl; intros Hl; [reflexivity | | lia].
  unfold compress_elts. simpl. unfold same_key_as at 1, key_is.
  rewrite strcasecmp_refl. simpl. rewrite with_val_kept_single.
  reflexivity.
Qed.

Lemma filter_keys_all `{Target} l :
  Forall entry_ok l ->
  List.filter (fun e => bool_decide (is_Some (key e))) l = l.
Proof.
  induction 1 as [| e l (k & Hk & _) Hl IH]; simpl; [reflexivity |].
  rewrite Hk. simpl. f_equal. exact IH.
Qed.

Lemma xm_table_compress_elts `{Target} t flags :
  Forall entry_ok (a_elts t) ->
  a_elts (xm_table_compress t flags) = compress_elts flags (a_elts t).
Proof.
  intros Hall. unfold xm_table_compress.
  destruct (Nat.leb_spec (a_nelts t) 1) as [Hle | Hgt];
    [symmetry; apply compress_elts_short; exact Hle |].
  destruct (table_mergesort_spec (a_elts t) (a_nelts t)) as [Hs Hp].
  assert (Ht : fst (dedup_loop (a_nelts t) flags
                      (table_mergesort (a_elts t) (seq 0 (a_nelts t))
                         (a_nelts t))
                      (a_nelts t) (a_elts t) 0 1 false) =
               compress_marks flags (a_elts t) [] (a_elts t)).
  { apply (dedup_loop_target flags (a_elts t) _ Hall Hp Hs (a_nelts t)
             (a_elts t) 0 1 true false); [unfold a_nelts; lia |].
    unfold a_nelts in Hgt.
    split; [reflexivity |]. split; [lia |].
    split; [intros j Hj; lia |]. split; [intros j Hj; lia |].
    split; [intros j Hj; reflexivity |]. split; reflexivity. }
  pose proof (dedup_loop_no_dups flags
                (table_mergesort (a_elts t) (seq 0 (a_nelts t)) (a_nelts t))
                (a_nelts t) (a_nelts t) (a_elts t) 0 1) as Hno.
  destruct (dedup_loop _ _ _ _ _ _ _ _) as [arr dups].
  simpl in Ht, Hno. subst arr. rewrite table_reindex_elts.
  unfold compress_elts. rewrite <- (compress_marks_filter _ _ _ [] Hall).
  destruct dups.
  - pose proof (compact_loop_all
                  (compress_marks flags (a_elts t) [] (a_elts t))) as Hc.
    rewrite compress_marks_length in Hc. fold (a_nelts t) in Hc.
    destruct (compact_loop _ _ _ _) as [arr' dst]. exact Hc.
  - rewrite (Hno eq_refl). symmetry. apply filter_keys_all, Hall.
Qed.

(** ** What [xm_table_compress] leaves for a key *)

Lemma same_key_as_key_is K e e' :
  key_is K e = true -> same_key_as e e' = key_is K e'.
Proof.
  intros HK. unfold same_key_as. symmetry. apply key_is_congr.
  apply Z.eqb_eq, HK.
Qed.

Lemma existsb_agree (p p' : xm_table_entry_t -> bool) l :
  (forall e, p e = p' e) -> existsb p l = existsb p' l.
Proof.
  intros Hp. induction l as [| e l IH]; simpl; [reflexivity |].
  rewrite Hp, IH. reflexivity.
Qed.

Lemma existsb_snoc (p : xm_table_entry_t -> bool) l e :
  existsb p (l ++ [e]) = existsb p l || p e.
Proof. rewrite existsb_app. simpl. rewrite orb_false_r. reflexivity. Qed.

Lemma compress_from_key flags all K l :
  forall before,
  List.filter (key_is K) (compress_from flags all before l) =
  if existsb (key_is K) before then []
  else match List.filter (key_is K) l with
       | [] => []
       | e :: _ =>
           [with_val e
              (kept_val flags (map val (List.filter (key_is K) all)))]
       end.
Proof.
  induction l as [| e l IH]; intros before; cbn [compress_from List.filter].
  - destruct (existsb (key_is K) before); reflexivity.
  - destruct (key_is K e) eqn:EK.
    + rewrite (existsb_agree _ _ before (fun x => same_key_as_key_is K e x EK)).
      rewrite (List.filter_ext _ _ (fun x => same_key_as_key_is K e x EK)).
      destruct (existsb (key_is K) before) eqn:Eb.
      * rewrite IH, existsb_snoc, Eb. reflexivity.
      * cbn [List.filter]. rewrite key_is_with_val, EK.
        rewrite IH, existsb_snoc, EK, orb_true_r. reflexivity.
    + assert (Hrest :
        List.filter (key_is K) (compress_from flags all (before ++ [e]) l) =
        if existsb (key_is K) before then []
        else match List.filter (key_is K) l with
             | [] => []
             | e0 :: _ =>
                 [with_val e0
                    (kept_val flags
                       (map val (List.filter (key_is K) all)))]
             end).
      { rewrite IH, existsb_snoc, EK, orb_false_r. reflexivity. }
      destruct (existsb (same_key_as e) before); [exact Hrest |].
      cbn [List.filter]. rewrite key_is_with_val, EK. exact Hrest.
Qed.

Lemma compress_elts_get `{Target} flags K (t' : xm_table_t) l :
  table_ok t' -> a_elts t' = compress_elts flags l ->
  length (List.filter (key_is K) (a_elts t')) <= 1 /\
  xm_table_get t' (Some K) =
    match List.filter (key_is K) l with
    | [] => None
    | es => Some (kept_val flags (map val es))
    end.
Proof.
  intros Hok He. rewrite (xm_table_get_spec t' K Hok), He.
  unfold compress_elts. rewrite compress_from_key. cbn [existsb].
  destruct (List.filter (key_is K) l) as [| e es]; simpl; split;
    (lia || reflexivity).
Qed.

(** X24. [xm_table_compress], on any table that satisfies the
    invariant and with either policy, drops every entry whose key
    occurs earlier in the table and leaves the first entry of each key
    where it is, with the values of all the entries of the key joined by
    [", "] in table order under the merge policy, and with the value of
    the last of them otherwise.  So the result has at most one entry
    for a key, and a lookup of [K] in it returns the value kept for the
    entries of [K]. *)
Theorem compress_keeps_first_of_each_key `{Target} (t : xm_table_t)
    (flags : Z) (K : string) :
  table_ok t ->
  a_elts (xm_table_compress t flags) = compress_elts flags (a_elts t) /\
  length (List.filter (key_is K) (a_elts (xm_table_compress t flags))) <= 1 /\
  xm_table_get (xm_table_compress t flags) (Some K) =
    match List.filter (key_is K) (a_elts t) with
    | [] => None
    | es => Some (kept_val flags (map val es))
    end.
Proof.
  intros Hok.
  pose proof (xm_table_compress_elts t flags (proj1 Hok)) as He.
  split; [exact He |].
  apply compress_elts_get; [apply xm_table_compress_ok, Hok | exact He].
Qed.

Lemma compress_keeps_first_of_each_key_witness :
  @table_ok x86_64
    (@run_ops x86_64
       [OpAdd "Via" "a"; OpAdd "Host" "h"; OpAdd "via" "b";
        OpAdd "VIA" "c"]) /\
  @xm_table_get x86_64
    (xm_table_compress
       (@run_ops x86_64
          [OpAdd "Via" "a"; OpAdd "Host" "h"; OpAdd "via" "b";
           OpAdd "VIA" "c"]) XM_OVERLAP_TABLES_MERGE) (Some "via") =
  match List.filter (key_is "via")
          (a_elts (@run_ops x86_64
             [OpAdd "Via" "a"; OpAdd "Host" "h"; OpAdd "via" "b";
              OpAdd "VIA" "c"])) with
  | [] => None
  | es => Some (kept_val XM_OVERLAP_TABLES_MERGE (map val es))
  end.
Proof.
  split; [apply run_ops_ok |].
  apply (@compress_keeps_first_of_each_key x86_64
           (@run_ops x86_64
              [OpAdd "Via" "a"; OpAdd "Host" "h"; OpAdd "via" "b";
               OpAdd "VIA" "c"]) XM_OVERLAP_TABLES_MERGE "via").
  apply run_ops_ok.
Defined.

Example compress_example :
  a_elts (xm_table_compress
            (@run_ops x86_64
               [OpAdd "Via" "a"; OpAdd "Host" "h"; OpAdd "via" "b";
                OpAdd "VIA" "c"]) XM_OVERLAP_TABLES_MERGE) =
    [@stored_entry x86_64 "Via" "a, b, c"; @stored_entry x86_64 "Host" "h"] /\
  a_elts (xm_table_compress
            (@run_ops x86_64
               [OpAdd "Via" "a"; OpAdd "Host" "h"; OpAdd "via" "b";
                OpAdd "VIA" "c"]) XM_OVERLAP_TABLES_SET) =
    [@stored_entry x86_64 "Via" "c"; @stored_entry x86_64 "Host" "h"].
Proof. split; reflexivity. Qed.

(** X25. [xm_table_overlap] of two tables that satisfy the invariant
    leaves what [xm_table_compress] is to leave of the entries of the
    first followed by those of the second.  A lookup of [K] in the
    result returns, under the merge policy, the values of [K] in the
    first table followed by those in the second, joined by [", "];
    otherwise the last value of [K] in the second table, or in the first
    when the second has none. *)
Theorem overlap_combines_tables `{Target} (a b : xm_table_t) (flags : Z)
    (K : string) :
  table_ok a -> table_ok b ->
  a_elts (xm_table_overlap a b flags) =
    compress_elts flags (a_elts a ++ a_elts b) /\
  xm_table_get (xm_table_overlap a b flags) (Some K) =
    match List.filter (key_is K) (a_elts a) ++
          List.filter (key_is K) (a_elts b) with
    | [] => None
    | es => Some (kept_val flags (map val es))
    end.
Proof.
  intros Ha Hb.
  assert (He : a_elts (xm_table_overlap a b flags) =
               compress_elts flags (a_elts a ++ a_elts b)).
  { unfold xm_table_overlap.
    destruct (Nat.eqb_spec (a_nelts a + a_nelts b) 0) as [Hz | Hz].
    - unfold a_nelts in Hz.
      assert (Ea : a_elts a = []) by (apply nil_length_inv; lia).
      assert (Eb : a_elts b = []) by (apply nil_length_inv; lia).
      rewrite Ea, Eb. reflexivity.
    - rewrite xm_table_compress_elts, xm_table_cat_elts; [reflexivity |].
      rewrite xm_table_cat_elts. apply Forall_app.
      split; [apply Ha | apply Hb]. }
  split; [exact He |].
  rewrite <- List.filter_app.
  apply compress_elts_get; [| exact He].
  unfold xm_table_overlap. destruct (_ =? 0); [exact Ha |].
  apply xm_table_compress_ok, xm_table_cat_ok; assumption.
Qed.

Lemma overlap_combines_tables_witness :
  @table_ok x86_64 (@run_ops x86_64 [OpAdd "Via" "a"; OpAdd "Host" "h"]) /\
  @table_ok x86_64 (@run_ops x86_64 [OpAdd "via" "b"; OpAdd "Age" "1"]) /\
  a_elts (xm_table_overlap
            (@run_ops x86_64 [OpAdd "Via" "a"; OpAdd "Host" "h"])
            (@run_ops x86_64 [OpAdd "via" "b"; OpAdd "Age" "1"])
            XM_OVERLAP_TABLES_SET) =
  compress_elts XM_OVERLAP_TABLES_SET
    (a_elts (@run_ops x86_64 [OpAdd "Via" "a"; OpAdd "Host" "h"]) ++
     a_elts (@run_ops x86_64 [OpAdd "via" "b"; OpAdd "Age" "1"])).
Proof.
  split; [apply run_ops_ok |]. split; [apply run_ops_ok |].
  apply (@overlap_combines_tables x86_64
           (@run_ops x86_64 [OpAdd "Via" "a"; OpAdd "Host" "h"])
           (@run_ops x86_64 [OpAdd "via" "b"; OpAdd "Age" "1"])
           XM_OVERLAP_TABLES_SET "via"); apply run_ops_ok.
Defined.

Example overlap_set_example :
  a_elts (xm_table_overlap
            (@run_ops x86_64 [OpAdd "Via" "a"; OpAdd "Host" "h"])
            (@run_ops x86_64 [OpAdd "via" "b"; OpAdd "Age" "1"])
            XM_OVERLAP_TABLES_SET) =
  [@stored_entry x86_64 "Via" "b"; @stored_entry x86_64 "Host" "h";
   @stored_entry x86_64 "Age" "1"].
Proof. reflexivity. Qed.
